(** * ARPACK-Eigen: GenEigsSolver and DoubleShiftQR

    A shallow embedding of [GenEigsSolver.h] (the implicitly restarted
    Arnoldi driver for general real matrices, with its shift-and-invert
    subclass) and of [DoubleShiftQR.h] (the Francis double-shift sweep).

    Conventions of the embedding.
    - [Scalar] is the template parameter of the classes.  It is read as the
      field of real numbers: rounding is not modelled, every arithmetic
      operation is the exact one.  A quotient by zero, which in the code is
      an infinity or not a number, has no counterpart among the reals: the
      quotient of the model is defined there, but says nothing of the code,
      and every statement about a stored quotient assumes its divisor
      nonzero ([no_breakdown] for the residual norms of [factorize_from]).
    - [int] is [Z].  The constructor guarantees [1 <= nev < ncv <= dim_n];
      under it no index computation of the modelled functions leaves the
      range of a machine integer.
    - Dense Eigen matrices and vectors of scalars are functions from indices;
      their sizes are the members [dim_n], [ncv] of the owning object.
    - [ritz_val], [ritz_vec] (by columns) and [ritz_conv] are lists.  Where an
      index into [ritz_val] is computed from data ([nev_adjusted], [restart])
      the read is checked: [None] stands for an access outside the vector.
    - Code the classes call but do not define (the operator, Eigen's
      eigen-solver and Householder QR, [UpperHessenbergQR], the comparator of
      the selection rule, the random generator) is gathered in [Env]. *)

From Stdlib Require Import Reals Lra Lia Psatz ZArith List Bool Permutation.
From Stdlib Require Import Sorting.Sorted FunctionalExtensionality.
Import ListNotations.

Local Open Scope Z_scope.
Local Open Scope R_scope.

(** ** Scalars and complex numbers *)

Definition Scalar := R.

Definition Rltb (x y : R) : bool := if Rlt_dec x y then true else false.
Definition Rleb (x y : R) : bool := if Rle_dec x y then true else false.
Definition Rgtb (x y : R) : bool := Rltb y x.
Definition Reqb (x y : R) : bool := if Req_dec_T x y then true else false.

(** std::complex<Scalar> *)
Record Complex := mkComplex { real : R; imag : R }.

Definition Czero : Complex := mkComplex 0 0.
Definition Cconj (v : Complex) : Complex := mkComplex (real v) (- imag v).
Definition Csub (a b : Complex) : Complex :=
  mkComplex (real a - real b) (imag a - imag b).
(** std::norm: the squared magnitude *)
Definition Cnorm (v : Complex) : R := real v * real v + imag v * imag v.
(** std::abs *)
Definition Cabs (v : Complex) : R := sqrt (Cnorm v).
(** Scalar / complex, for a divisor other than zero *)
Definition Crdiv (x : R) (v : Complex) : Complex :=
  mkComplex (x * real v / Cnorm v) (- (x * imag v) / Cnorm v).
(** complex + Scalar *)
Definition Caddr (v : Complex) (x : R) : Complex :=
  mkComplex (real v + x) (imag v).

(** std::numeric_limits<double>::epsilon() and the two derived tolerances. *)
Definition epsilon : R := / 2 ^ 52.
Definition prec_arnoldi : R := Rpower epsilon (2 / 3).
Definition prec_qr : R := Rpower epsilon (9 / 10).

(** ** Dense vectors and matrices *)

Definition Vector := Z -> R.
Definition Matrix := Z -> Z -> R.

(** [sum_n n f] is f 0 + ... + f (n-1). *)
Fixpoint sum_n (n : nat) (f : Z -> R) : R :=
  match n with
  | O => 0
  | S k => sum_n k f + f (Z.of_nat k)
  end.

Definition sumZ (n : Z) (f : Z -> R) : R := sum_n (Z.to_nat n) f.

Definition dot (n : Z) (a b : Vector) : R := sumZ n (fun r => a r * b r).
Definition vnorm (n : Z) (a : Vector) : R := sqrt (dot n a a).

Definition in_range (lo hi i : Z) : bool := ((lo <=? i) && (i <? hi))%Z.

Definition col (M : Matrix) (j : Z) : Vector := fun r => M r j.

(** M.col(j) = v, on rows 0..n-1 *)
Definition set_col (n : Z) (M : Matrix) (j : Z) (v : Vector) : Matrix :=
  fun r c => if ((c =? j)%Z && in_range 0 n r)%bool then v r else M r c.

(** M.block(r0, c0, nr, nc).setZero() *)
Definition block_setZero (M : Matrix) (r0 c0 nr nc : Z) : Matrix :=
  fun r c =>
    if (in_range r0 (r0 + nr) r && in_range c0 (c0 + nc) c)%bool then 0
    else M r c.

Definition set_entry (M : Matrix) (i j : Z) (x : R) : Matrix :=
  fun r c => if ((r =? i)%Z && (c =? j)%Z)%bool then x else M r c.

(** The product of the leading [k] columns of [M] with the vector [h]. *)
Definition leftCols_mul (k : Z) (M : Matrix) (h : Vector) : Vector :=
  fun r => sumZ k (fun j => M r j * h j).

(** The product of the transposed leading columns of [M] (of height [n])
    with [w]; entry [j] is the inner product of column [j] with [w]. *)
Definition leftCols_tmul (n : Z) (M : Matrix) (w : Vector) : Vector :=
  fun j => dot n (col M j) w.

(** Product of two square matrices of order [n]. *)
Definition mmul (n : Z) (A B : Matrix) : Matrix :=
  fun r c => sumZ n (fun k => A r k * B k c).

Definition transpose (A : Matrix) : Matrix := fun r c => A c r.

(** Matrix::Identity *)
Definition Identity : Matrix := fun r c => if (r =? c)%Z then 1 else 0.

(** M.diagonal().array() += x, for a square matrix of order n *)
Definition diag_add (n : Z) (M : Matrix) (x : R) : Matrix :=
  fun r c => if ((r =? c)%Z && in_range 0 n r)%bool then M r c + x else M r c.

(** ** Loops *)

(** [for (i = lo; i < hi; i++) s = body i s] *)
Fixpoint for_n {S : Type} (n : nat) (i : Z) (body : Z -> S -> S) (s : S) : S :=
  match n with
  | O => s
  | Datatypes.S k => for_n k (i + 1)%Z body (body i s)
  end.

Definition for_loop {S : Type} (lo hi : Z) (body : Z -> S -> S) (s : S) : S :=
  for_n (Z.to_nat (hi - lo)) lo body s.

(** ** Failures *)

(** What a call can end in besides a value: an exception thrown by the code
    itself ([std::invalid_argument], [std::logic_error]) or by the standard
    library ([std::length_error], from [std::vector::reserve] asked for more
    than [max_size()] elements), or an access outside a vector (an Eigen
    assertion in a debug build, undefined behaviour otherwise). *)
Inductive Error : Type :=
| InvalidArgument
| LogicError
| LengthError
| OutOfRange.

Inductive result (A : Type) : Type :=
| Ok (a : A)
| Fail (e : Error).

Arguments Ok {A} a.
Arguments Fail {A} e.

Definition bind {A B : Type} (x : result A) (f : A -> result B) : result B :=
  match x with
  | Ok a => f a
  | Fail e => Fail e
  end.

Notation "x <- e ;; k" := (bind e (fun x => k))
  (at level 61, e at next level, right associativity).

(** Checked read of an Eigen vector held as a list. *)
Definition get {A : Type} (l : list A) (i : Z) : result A :=
  if (i <? 0)%Z then Fail OutOfRange
  else match nth_error l (Z.to_nat i) with
       | Some a => Ok a
       | None => Fail OutOfRange
       end.

(** ** std::sort *)

(** [std::sort(first, last, comp)] is modelled by insertion with [comp];
    the properties below use only that the result is a permutation of the
    input in which no element is strictly before its predecessor. *)
Fixpoint sort_insert {A : Type} (comp : A -> A -> bool) (x : A) (l : list A)
  : list A :=
  match l with
  | [] => [x]
  | y :: l' => if comp x y then x :: y :: l' else y :: sort_insert comp x l'
  end.

Fixpoint std_sort {A : Type} (comp : A -> A -> bool) (l : list A) : list A :=
  match l with
  | [] => []
  | x :: l' => sort_insert comp x (std_sort comp l')
  end.

(** [a] may stand before [b]: [b] is not strictly before [a]. *)
Definition not_after {A : Type} (comp : A -> A -> bool) (a b : A) : Prop :=
  comp b a = false.

(** Decreasing magnitude. *)
Definition magn_ge (a b : Complex) : Prop := Cabs b <= Cabs a.

(** std::pair<Complex, int> *)
Definition SortPair : Type := (Complex * Z)%type.

(** Modelled from the spec: [EigenvalueComparator<Complex, LARGEST_MAGN>] of
    SelectionRule.h, which is not among the sources.  The selection table
    gives, for LARGEST_MAGN, the primary key "magnitude, descending" and the
    tie-break "real part, descending". *)
Definition comp_largest_magn (v1 v2 : SortPair) : bool :=
  (Rltb (Cabs (fst v2)) (Cabs (fst v1))
   || (Reqb (Cabs (fst v1)) (Cabs (fst v2))
       && Rltb (real (fst v2)) (real (fst v1))))%bool.

(** Modelled from the spec: [EigenvalueComparator<Complex, SMALLEST_MAGN>]
    of SelectionRule.h, which is not among the sources.  The selection table
    gives, for SMALLEST_MAGN, the primary key "magnitude, ascending" and the
    tie-break "real part, ascending". *)
Definition comp_smallest_magn (v1 v2 : SortPair) : bool :=
  (Rltb (Cabs (fst v1)) (Cabs (fst v2))
   || (Reqb (Cabs (fst v1)) (Cabs (fst v2))
       && Rltb (real (fst v1)) (real (fst v2))))%bool.

(** ** What the solver calls but does not define *)

(** The members of [UpperHessenbergQR<Scalar>] that [restart] uses, for one
    decomposed matrix. *)
Record UpperHessenbergQR : Type := {
  hb_apply_YQ : Matrix -> Matrix;
  hb_matrix_RQ : Matrix;
  hb_apply_QtY : Vector -> Vector
}.

Record Env : Type := {
  (** op->perform_op(x, y) *)
  perform_op : Vector -> Vector;
  (** Eigen::EigenSolver on a square matrix of the given order: eigenvalues
      and the columns of the eigenvector matrix *)
  eigen_solver : Z -> Matrix -> list Complex * list (list Complex);
  (** the factor Q of Eigen::HouseholderQR on a square matrix *)
  householderQ : Z -> Matrix -> Matrix;
  (** UpperHessenbergQR::compute *)
  hessenberg_qr : Z -> Matrix -> UpperHessenbergQR;
  (** EigenvalueComparator<Complex, SelectionRule> *)
  rule_comp : SortPair -> SortPair -> bool
}.

(** ** The solver object *)

Record Solver : Type := mkSolver {
  dim_n : Z;
  nev : Z;
  ncv : Z;
  nmatop : Z;
  niter : Z;
  fac_V : Matrix;
  fac_H : Matrix;
  fac_f : Vector;
  ritz_val : list Complex;
  ritz_vec : list (list Complex);
  ritz_conv : list bool;
  prec : R
}.

Definition set_fac (s : Solver) (V H : Matrix) (f : Vector) : Solver :=
  mkSolver (dim_n s) (nev s) (ncv s) (nmatop s) (niter s) V H f
           (ritz_val s) (ritz_vec s) (ritz_conv s) (prec s).

Definition set_nmatop (s : Solver) (n : Z) : Solver :=
  mkSolver (dim_n s) (nev s) (ncv s) n (niter s) (fac_V s) (fac_H s)
           (fac_f s) (ritz_val s) (ritz_vec s) (ritz_conv s) (prec s).

Definition set_niter (s : Solver) (n : Z) : Solver :=
  mkSolver (dim_n s) (nev s) (ncv s) (nmatop s) n (fac_V s) (fac_H s)
           (fac_f s) (ritz_val s) (ritz_vec s) (ritz_conv s) (prec s).

Definition set_ritz (s : Solver) (val : list Complex)
  (vec : list (list Complex)) (conv : list bool) : Solver :=
  mkSolver (dim_n s) (nev s) (ncv s) (nmatop s) (niter s) (fac_V s)
           (fac_H s) (fac_f s) val vec conv (prec s).

(** The two classes of the header; [sort_ritzpair] is virtual. *)
Inductive SolverClass : Type :=
| GenEigsSolver
| GenEigsRealShiftSolver (sigma : Scalar).

(** The constructor. *)
Definition new_solver (rows nev_ ncv_ : Z) : result Solver :=
  if ((nev_ <? 1) || (rows <=? nev_))%Z%bool then Fail InvalidArgument
  else if (ncv_ <=? nev_)%Z then Fail InvalidArgument
  else Ok (mkSolver rows nev_ (if (rows <? ncv_)%Z then rows else ncv_) 0 0
                    (fun _ _ => 0) (fun _ _ => 0) (fun _ => 0) [] [] []
                    prec_arnoldi).

(** *** factorize_from *)

(** One pass of the loop body, for the column [i].  The residual is divided
    by its norm [beta] with no test: the pass stands for the code where
    [beta] is not zero. *)
Definition factorize_step (env : Env) (i : Z) (s : Solver) : Solver :=
  let n := dim_n s in
  let beta := vnorm n (fac_f s) in
  let v : Vector := fun r => fac_f s r / beta in
  let V1 := set_col n (fac_V s) i v in
  let H1 := block_setZero (fac_H s) i 0 1 i in
  let H2 := set_entry H1 i (i - 1) beta in
  let w := perform_op env v in
  let h := leftCols_tmul n V1 w in
  let H3 := set_col (i + 1) H2 i h in
  let f1 : Vector := fun r => w r - leftCols_mul (i + 1) V1 h r in
  let v1f := dot n f1 (col V1 0) in
  let f2 : Vector :=
    if (Rltb (prec s) v1f || Rltb v1f (- prec s))%bool then
      let Vf : Vector :=
        fun j => if (j =? 0)%Z then v1f else dot n (col V1 j) f1 in
      fun r => f1 r - leftCols_mul (i + 1) V1 Vf r
    else f1 in
  set_nmatop (set_fac s V1 H3 f2) (nmatop s + 1).

(** What precedes the loop: [fac_f = fk], and everything of [fac_H] outside
    its leading block of order [from_k] is set to zero. *)
Definition factorize_init (from_k : Z) (fk : Vector) (s : Solver) : Solver :=
  let H1 := block_setZero (fac_H s) 0 from_k (ncv s) (ncv s - from_k) in
  let H2 := block_setZero H1 from_k 0 (ncv s - from_k) from_k in
  set_fac s (fac_V s) H2 fk.

Definition factorize_from (env : Env) (from_k to_m : Z) (fk : Vector)
  (s : Solver) : Solver :=
  if (to_m <=? from_k)%Z then s
  else for_loop from_k to_m (factorize_step env) (factorize_init from_k fk s).

(** The object as pass [i] of the loop of [factorize_from] finds it. *)
Definition factorize_before (env : Env) (from_k i : Z) (fk : Vector)
  (s : Solver) : Solver :=
  for_loop from_k i (factorize_step env) (factorize_init from_k fk s).

(** The residual is nonzero at every pass from [from_k] up to, not
    including, [to_m]: no pass divides by zero. *)
Definition no_breakdown (env : Env) (from_k to_m : Z) (fk : Vector)
  (s : Solver) : Prop :=
  forall i, (from_k <= i < to_m)%Z ->
    vnorm (dim_n s) (fac_f (factorize_before env from_k i fk s)) <> 0.

(** *** is_complex, is_conj *)

Definition is_complex (v : Complex) (eps : Scalar) : bool :=
  Rltb eps (Rabs (imag v)).

Definition is_conj (v1 v2 : Complex) (eps : Scalar) : bool :=
  Rltb (Cabs (Csub v1 (Cconj v2))) eps.

(** [is_complex(ritz_val[i], prec) && is_conj(ritz_val[i], ritz_val[i + 1],
    prec)]: the second operand, and with it the read of [ritz_val[i + 1]],
    is evaluated only when the first holds. *)
Definition conj_pair_at (s : Solver) (i : Z) : result bool :=
  vi <- get (ritz_val s) i ;;
  if is_complex vi (prec s) then
    vi1 <- get (ritz_val s) (i + 1) ;;
    Ok (is_conj vi vi1 (prec s))
  else Ok false.

(** *** retrieve_ritzpair *)

Definition index_pairs (n : Z) (vals : list Complex) : list SortPair :=
  map (fun i => (nth i vals Czero, Z.of_nat i)) (seq 0 (Z.to_nat n)).

Definition retrieve_ritzpair (env : Env) (s : Solver) : Solver :=
  let (evals, evecs) := eigen_solver env (ncv s) (fac_H s) in
  let pairs := std_sort (rule_comp env) (index_pairs (ncv s) evals) in
  set_ritz s
    (map fst pairs)
    (map (fun p : SortPair => nth (Z.to_nat (snd p)) evecs [])
         (firstn (Z.to_nat (nev s)) pairs))
    (ritz_conv s).

(** *** restart *)

Definition mvmul (n : Z) (A : Matrix) (x : Vector) : Vector :=
  fun r => sumZ n (fun k => A r k * x k).

(** The branch for a conjugate pair of shifts [mu], [conj mu]. *)
Definition restart_pair (env : Env) (mu : Complex) (s : Solver) (em : Vector)
  : Solver * Vector :=
  let m := ncv s in
  let re := real mu in
  let t := Cnorm mu in
  let HH := diag_add m (fac_H s) (- (2 * re)) in
  let HH := mmul m (fac_H s) HH in
  let HH := diag_add m HH t in
  let Q := householderQ env m HH in
  let V1 := mmul m (fac_V s) Q in
  let H1 := mmul m (fac_H s) Q in
  let H2 := mmul m (transpose Q) H1 in
  (set_fac s V1 H2 (fac_f s), mvmul m (transpose Q) em).

(** The branch for a real shift. *)
Definition restart_real (env : Env) (mu : Complex) (s : Solver) (em : Vector)
  : Solver * Vector :=
  let m := ncv s in
  let H1 := diag_add m (fac_H s) (- real mu) in
  let decomp_hb := hessenberg_qr env m H1 in
  let V1 := hb_apply_YQ decomp_hb (fac_V s) in
  let H2 := diag_add m (hb_matrix_RQ decomp_hb) (real mu) in
  (set_fac s V1 H2 (fac_f s), hb_apply_QtY decomp_hb em).

(** [for (int i = k; i < ncv; i++) ...]; the body may advance [i] once more,
    so the loop is run on a bound for the number of passes. *)
Fixpoint restart_loop (env : Env) (fuel : nat) (i : Z) (s : Solver)
  (em : Vector) : result (Solver * Vector) :=
  match fuel with
  | O => Ok (s, em)
  | S fuel' =>
    if (ncv s <=? i)%Z then Ok (s, em)
    else
      vi <- get (ritz_val s) i ;;
      if is_complex vi (prec s) then
        vi1 <- get (ritz_val s) (i + 1) ;;
        if is_conj vi vi1 (prec s) then
          let (s', em') := restart_pair env vi s em in
          restart_loop env fuel' (i + 2) s' em'
        else
          let (s', em') := restart_real env vi s em in
          restart_loop env fuel' (i + 1) s' em'
      else
        let (s', em') := restart_real env vi s em in
        restart_loop env fuel' (i + 1) s' em'
  end.

Definition restart (env : Env) (k : Z) (s : Solver) : result Solver :=
  if (ncv s <=? k)%Z then Ok s
  else
    let em : Vector := fun r => if (r =? ncv s - 1)%Z then 1 else 0 in
    r <- restart_loop env (Z.to_nat (ncv s - k)) k s em ;;
    let (s1, em1) := (r : Solver * Vector) in
    let fk : Vector :=
      fun r => fac_f s1 r * em1 (k - 1)%Z + fac_V s1 r k * fac_H s1 k (k - 1)%Z in
    Ok (retrieve_ritzpair env (factorize_from env k (ncv s1) fk s1)).

(** *** num_converged *)

Definition count_true (l : list bool) : Z :=
  fold_right (fun (b : bool) acc => ((if b then 1 else 0) + acc)%Z) 0%Z l.

Definition conv_thresh (tol : Scalar) (s : Solver) : list R :=
  map (fun v => tol * Rmax (Cabs v) (prec s))
      (firstn (Z.to_nat (nev s)) (ritz_val s)).

Definition conv_resid (s : Solver) : list R :=
  map (fun y => Cabs (nth (Z.to_nat (ncv s - 1)) y Czero)
                * vnorm (dim_n s) (fac_f s))
      (ritz_vec s).

Definition num_converged (tol : Scalar) (s : Solver) : Solver * Z :=
  let conv :=
    map (fun p : R * R => Rltb (fst p) (snd p))
        (combine (conv_resid s) (conv_thresh tol s)) in
  (set_ritz s (ritz_val s) (ritz_vec s) conv, count_true conv).

(** *** nev_adjusted *)

Definition nev_adjusted (s : Solver) (nconv : Z) : result Z :=
  let nev_new := nev s in
  b1 <- conj_pair_at s (nev s - 1) ;;
  let nev_new := if (b1 : bool) then (nev s + 1)%Z else nev_new in
  let nev_new :=
    (nev_new + Z.min nconv (Z.quot (ncv s - nev_new) 2))%Z in
  let nev_new :=
    if ((nev_new =? 1) && (6 <=? ncv s))%Z%bool then Z.quot (ncv s) 2
    else if ((nev_new =? 1) && (3 <? ncv s))%Z%bool then 2%Z
    else nev_new in
  let nev_new :=
    if (ncv s - 2 <? nev_new)%Z then (ncv s - 2)%Z else nev_new in
  b2 <- conj_pair_at s (nev_new - 1) ;;
  Ok (if (b2 : bool) then (nev_new + 1)%Z else nev_new).

(** *** sort_ritzpair *)

(** The body of [GenEigsSolver::sort_ritzpair]. *)
Definition sort_ritzpair (s : Solver) : Solver :=
  let pairs :=
    std_sort comp_largest_magn (index_pairs (nev s) (ritz_val s)) in
  set_ritz s
    (map fst pairs ++ skipn (Z.to_nat (nev s)) (ritz_val s))
    (map (fun p : SortPair => nth (Z.to_nat (snd p)) (ritz_vec s) []) pairs)
    (map (fun p : SortPair => nth (Z.to_nat (snd p)) (ritz_conv s) false)
         pairs).

(** The override in [GenEigsRealShiftSolver]. *)
Definition shift_sort_ritzpair (sigma : Scalar) (s : Solver) : Solver :=
  let k := Z.to_nat (nev s) in
  let ritz_val_org :=
    map (fun v => Caddr (Crdiv 1 v) sigma) (firstn k (ritz_val s)) in
  sort_ritzpair
    (set_ritz s (ritz_val_org ++ skipn k (ritz_val s)) (ritz_vec s)
              (ritz_conv s)).

(** Virtual dispatch on the class of the object. *)
Definition sort_ritzpair_of (c : SolverClass) (s : Solver) : Solver :=
  match c with
  | GenEigsSolver => sort_ritzpair s
  | GenEigsRealShiftSolver sigma => shift_sort_ritzpair sigma s
  end.

(** *** init *)

Definition init (env : Env) (init_resid : Vector) (s : Solver)
  : result Solver :=
  let k := Z.to_nat (nev s) in
  let m := Z.to_nat (ncv s) in
  let vnrm := vnorm (dim_n s) init_resid in
  if Rltb vnrm (prec s) then Fail InvalidArgument
  else
    let v : Vector := fun r => init_resid r / vnrm in
    let w := perform_op env v in
    let h00 := dot (dim_n s) v w in
    let H : Matrix := set_entry (fun _ _ => 0) 0 0 h00 in
    let f : Vector := fun r => w r - v r * h00 in
    let V : Matrix := set_col (dim_n s) (fun _ _ => 0) 0 v in
    Ok (mkSolver (dim_n s) (nev s) (ncv s) (nmatop s + 1) (niter s) V H f
                 (repeat Czero m) (repeat (repeat Czero m) k)
                 (repeat false k) (prec s)).

(** [init()] with no argument.  [random] is the value of
    [Vector::Random(dim_n)]; Eigen documents its coefficients, for a
    floating-point scalar, to lie in the range from -1 to 1. *)
Definition random_resid (random : Vector) : Vector :=
  fun r => random r - 5 / 10.

Definition init_random (env : Env) (random : Vector) (s : Solver)
  : result Solver :=
  init env (random_resid random) s.

(** *** compute *)

(** The restart loop [for (i = 0; i < maxit; i++)], with [passes] iterations
    left; it yields the object, the final [i] and the final [nconv]. *)
Fixpoint compute_loop (env : Env) (passes : nat) (i nconv : Z)
  (tol : Scalar) (s : Solver) : result (Solver * Z * Z) :=
  match passes with
  | O => Ok (s, i, nconv)
  | S passes' =>
    let (s1, nconv1) := num_converged tol s in
    if (nev s1 <=? nconv1)%Z then Ok (s1, i, nconv1)
    else
      nev_adj <- nev_adjusted s1 nconv1 ;;
      s2 <- restart env nev_adj s1 ;;
      compute_loop env passes' (i + 1) nconv1 tol s2
  end.

(** [compute] up to, and without, the final call of [sort_ritzpair]. *)
Definition compute_iterate (env : Env) (nconv_init maxit : Z) (tol : Scalar)
  (s : Solver) : result (Solver * Z * Z) :=
  let s1 := retrieve_ritzpair env (factorize_from env 1 (ncv s) (fac_f s) s) in
  compute_loop env (Z.to_nat maxit) 0 nconv_init tol s1.

(** [compute(maxit, tol)] on an object of class [c].  The local [nconv] is
    declared without an initial value; [nconv_init] is what it holds before
    the first assignment. *)
Definition compute (env : Env) (c : SolverClass) (nconv_init maxit : Z)
  (tol : Scalar) (s : Solver) : result (Solver * Z) :=
  r <- compute_iterate env nconv_init maxit tol s ;;
  let '(s2, i, nconv) := (r : Solver * Z * Z) in
  let s3 := sort_ritzpair_of c s2 in
  Ok (set_niter s3 (niter s3 + (i + 1)), Z.min (nev s3) nconv).

(** ** DoubleShiftQR *)

Module DoubleShiftQR.

(** A block of [mat_H] passed by reference ([Eigen::Ref]): where it starts
    and its size.  Writes through the block are writes to [mat_H]. *)
Record Block : Type := mkBlock {
  row0 : Z;
  col0 : Z;
  rows : Z;
  cols : Z
}.

(** X.block(i, j, nr, nc) *)
Definition block (X : Block) (i j nr nc : Z) : Block :=
  mkBlock (row0 X + i) (col0 X + j) nr nc.

Record t : Type := mk {
  n : Z;
  mat_H : Matrix;
  shift_s : Scalar;
  shift_t : Scalar;
  (** the Householder reflectors, one column of three entries each *)
  ref_u : Matrix;
  (** approximately zero *)
  prec : Scalar;
  computed : bool
}.

Definition set_mat_H (d : t) (M : Matrix) : t :=
  mk (n d) M (shift_s d) (shift_t d) (ref_u d) (prec d) (computed d).

Definition set_ref_u (d : t) (u : Matrix) : t :=
  mk (n d) (mat_H d) (shift_s d) (shift_t d) u (prec d) (computed d).

(** The default constructor. *)
Definition new : t :=
  mk 0 (fun _ _ => 0) 0 0 (fun _ _ => 0) prec_qr false.

(** X(i, j) for a block X of the matrix M *)
Definition coeff (M : Matrix) (X : Block) (i j : Z) : R :=
  M (row0 X + i)%Z (col0 X + j)%Z.

Definition b2r (b : bool) : R := if b then 1 else 0.

(** compute_reflector(x1, x2, x3, ind) *)
Definition compute_reflector (x1 x2 x3 : Scalar) (ind : Z) (d : t) : t :=
  let tmp := x2 * x2 + x3 * x3 in
  let x1_new := x1 - (b2r (Rltb x1 0) - b2r (Rltb 0 x1)) * sqrt (x1 * x1 + tmp) in
  let x_norm := sqrt (x1_new * x1_new + tmp) in
  if Rleb x_norm (prec d) then
    set_ref_u d (set_entry (set_entry (set_entry (ref_u d) 0 ind 0)
                                      1 ind 0) 2 ind 0)
  else
    set_ref_u d (set_entry (set_entry (set_entry (ref_u d)
                                         0 ind (x1_new / x_norm))
                                      1 ind (x2 / x_norm))
                           2 ind (x3 / x_norm)).

(** compute_reflector(&X(i, j), ind): the three entries are read through
    the pointer, down the column in which X(i, j) lies. *)
Definition compute_reflector_at (X : Block) (i j : Z) (ind : Z) (d : t) : t :=
  compute_reflector (coeff (mat_H d) X i j) (coeff (mat_H d) X (i + 1) j)
                    (coeff (mat_H d) X (i + 2) j) ind d.

(** apply_PX(X, u_ind), for a block of two or of three rows *)
Definition apply_PX (X : Block) (u_ind : Z) (d : t) : t :=
  let sqrt_2 := sqrt 2 in
  let u0 := sqrt_2 * ref_u d 0%Z u_ind in
  let u1 := sqrt_2 * ref_u d 1%Z u_ind in
  let u2 := sqrt_2 * ref_u d 2%Z u_ind in
  if Rleb (u0 * u0 + u1 * u1 + u2 * u2) (prec d) then d
  else if (rows X =? 2)%Z then
    set_mat_H d
      (for_loop 0 (cols X)
         (fun i M =>
            let tmp := u0 * coeff M X 0 i + u1 * coeff M X 1 i in
            let M := set_entry M (row0 X) (col0 X + i)
                               (coeff M X 0 i - tmp * u0) in
            set_entry M (row0 X + 1) (col0 X + i) (coeff M X 1 i - tmp * u1))
         (mat_H d))
  else
    set_mat_H d
      (for_loop 0 (cols X)
         (fun i M =>
            let tmp := u0 * coeff M X 0 i + u1 * coeff M X 1 i
                       + u2 * coeff M X 2 i in
            let M := set_entry M (row0 X) (col0 X + i)
                               (coeff M X 0 i - tmp * u0) in
            let M := set_entry M (row0 X + 1) (col0 X + i)
                               (coeff M X 1 i - tmp * u1) in
            set_entry M (row0 X + 2) (col0 X + i) (coeff M X 2 i - tmp * u2))
         (mat_H d)).

(** apply_XP(X, u_ind), for a block of two or of three columns; X0, X1, X2
    point to the tops of the columns *)
Definition apply_XP (X : Block) (u_ind : Z) (d : t) : t :=
  let sqrt_2 := sqrt 2 in
  let u0 := sqrt_2 * ref_u d 0%Z u_ind in
  let u1 := sqrt_2 * ref_u d 1%Z u_ind in
  let u2 := sqrt_2 * ref_u d 2%Z u_ind in
  if Rleb (u0 * u0 + u1 * u1 + u2 * u2) (prec d) then d
  else if (cols X =? 2)%Z then
    set_mat_H d
      (for_loop 0 (rows X)
         (fun i M =>
            let tmp := u0 * coeff M X i 0 + u1 * coeff M X i 1 in
            let M := set_entry M (row0 X + i) (col0 X)
                               (coeff M X i 0 - tmp * u0) in
            set_entry M (row0 X + i) (col0 X + 1) (coeff M X i 1 - tmp * u1))
         (mat_H d))
  else
    set_mat_H d
      (for_loop 0 (rows X)
         (fun i M =>
            let tmp := u0 * coeff M X i 0 + u1 * coeff M X i 1
                       + u2 * coeff M X i 2 in
            let M := set_entry M (row0 X + i) (col0 X)
                               (coeff M X i 0 - tmp * u0) in
            let M := set_entry M (row0 X + i) (col0 X + 1)
                               (coeff M X i 1 - tmp * u1) in
            set_entry M (row0 X + i) (col0 X + 2) (coeff M X i 2 - tmp * u2))
         (mat_H d)).

(** One pass of the loop that chases the bulge down the block. *)
Definition chase_step (X : Block) (start_ind : Z) (i : Z) (d : t) : t :=
  let nrow := rows X in
  let d := compute_reflector_at X i (i - 1) (start_ind + i) d in
  let d := apply_PX (block X i (i - 1) 3 (nrow - i + 1)) (start_ind + i) d in
  apply_XP (block X 0 i (Z.min nrow (i + 4)) 3) (start_ind + i) d.

Definition compute_reflectors_from_block (X : Block) (start_ind : Z) (d : t)
  : t :=
  let nrow := rows X in
  if (nrow =? 1)%Z then compute_reflector 0 0 0 start_ind d
  else if (nrow =? 2)%Z then
    compute_reflector 0 0 0 (start_ind + 1)
      (compute_reflector 0 0 0 start_ind d)
  else
    let M := mat_H d in
    let x := coeff M X 0 0 * (coeff M X 0 0 - shift_s d)
             + coeff M X 0 1 * coeff M X 1 0 + shift_t d in
    let y := coeff M X 1 0 * (coeff M X 0 0 + coeff M X 1 1 - shift_s d) in
    let z := coeff M X 2 1 * coeff M X 1 0 in
    let d := compute_reflector x y z start_ind d in
    let d := apply_PX (block X 0 0 3 (cols X)) start_ind d in
    let d := apply_XP (block X 0 0 (Z.min nrow 4) 3) start_ind d in
    let d := for_loop 1 (nrow - 2) (chase_step X start_ind) d in
    let d := compute_reflector (coeff (mat_H d) X (nrow - 2) (nrow - 3))
                               (coeff (mat_H d) X (nrow - 1) (nrow - 3)) 0
                               (start_ind + nrow - 2) d in
    let d := compute_reflector 0 0 0 (start_ind + nrow - 1) d in
    let d := apply_PX (block X (nrow - 2) (nrow - 3) 2 3)
                      (start_ind + nrow - 2) d in
    apply_XP (block X 0 (nrow - 2) nrow 2) (start_ind + nrow - 2) d.

(** The loop that finds the negligible sub-diagonal entries, sets them to
    zero and records their rows. *)
Definition find_zero_ind (d : t) : Matrix * list Z :=
  for_loop 1 (n d - 1)
    (fun i (st : Matrix * list Z) =>
       let (M, zero_ind) := st in
       if Rleb (Rabs (M i (i - 1)%Z)) (prec d)
       then (set_entry M i (i - 1) 0, zero_ind ++ [i])
       else (M, zero_ind))
    (mat_H d, [0%Z]).

(** The block from row and column [start] to [end_]: its own sweep, then its
    reflectors applied to the block right of it and to the block above. *)
Definition sweep_block (start end_ : Z) (d : t) : t :=
  let size := (end_ - start + 1)%Z in
  let d := compute_reflectors_from_block (mkBlock start start size size)
                                         start d in
  let d :=
    if ((end_ <? n d - 1) && (2 <=? end_ - start))%Z%bool then
      for_loop start end_
        (fun j d =>
           apply_PX (mkBlock j (end_ + 1) (Z.min 3 (end_ - j + 1))
                             (n d - 1 - end_)) j d) d
    else d in
  if ((0 <? start) && (2 <=? end_ - start))%Z%bool then
    for_loop start end_
      (fun j d =>
         apply_XP (mkBlock 0 j start (Z.min 3 (end_ - j + 1))) j d) d
  else d.

(** [for (i = 0; i < zero_ind.size() - 1; i++)] *)
Fixpoint sweep_blocks (zero_ind : list Z) (d : t) : t :=
  match zero_ind with
  | start :: ((next :: _) as rest) =>
      sweep_blocks rest (sweep_block start (next - 1) d)
  | _ => d
  end.

(** compute(mat, s, t) for a matrix of [nrows] rows and [ncols] columns.
    [zero_ind.reserve(n - 1)] takes a [size_type]: for the empty matrix the
    argument -1 is converted to the largest value of the type, and [reserve]
    throws. *)
Definition compute (nrows ncols : Z) (mat : Matrix) (s t_ : Scalar) (d : t)
  : result t :=
  if negb (nrows =? ncols)%Z then Fail InvalidArgument
  else if (nrows - 1 <? 0)%Z then Fail LengthError
  else
    let H : Matrix :=
      fun r c => if (r <=? c + 1)%Z then mat r c else 0 in
    let d := mk nrows H s t_ (ref_u d) (prec d) (computed d) in
    let (H, zero_ind) := find_zero_ind d in
    let d := sweep_blocks (zero_ind ++ [nrows]) (set_mat_H d H) in
    Ok (mk (n d) (mat_H d) (shift_s d) (shift_t d) (ref_u d) (prec d) true).

Definition matrix_QtHQ (d : t) : result Matrix :=
  if computed d then Ok (mat_H d) else Fail LogicError.

End DoubleShiftQR.

(** ** Reflections, in closed form *)

(** Rows [r0], [r0 + 1], [r0 + 2] of the columns from [c_lo] up to, not
    including, [c_hi], with [u u^T X] subtracted. *)
Definition reflect_rows (u0 u1 u2 : R) (r0 c_lo c_hi : Z) (M : Matrix)
  : Matrix :=
  fun r c =>
    if in_range c_lo c_hi c then
      let tmp := u0 * M r0 c + u1 * M (r0 + 1)%Z c + u2 * M (r0 + 2)%Z c in
      if (r =? r0)%Z then M r c - tmp * u0
      else if (r =? r0 + 1)%Z then M r c - tmp * u1
      else if (r =? r0 + 2)%Z then M r c - tmp * u2
      else M r c
    else M r c.

(** Columns [c0], [c0 + 1], [c0 + 2] of the rows from [r_lo] up to, not
    including, [r_hi], with [X u u^T] subtracted. *)
Definition reflect_cols (u0 u1 u2 : R) (c0 r_lo r_hi : Z) (M : Matrix)
  : Matrix :=
  fun r c =>
    if in_range r_lo r_hi r then
      let tmp := u0 * M r c0 + u1 * M r (c0 + 1)%Z + u2 * M r (c0 + 2)%Z in
      if (c =? c0)%Z then M r c - tmp * u0
      else if (c =? c0 + 1)%Z then M r c - tmp * u1
      else if (c =? c0 + 2)%Z then M r c - tmp * u2
      else M r c
    else M r c.

(** The scaled entry [k] of reflector [ind], as [apply_PX] and [apply_XP]
    read it. *)
Definition scaled_u (d : DoubleShiftQR.t) (k ind : Z) : R :=
  sqrt 2 * DoubleShiftQR.ref_u d k ind.

(** The test by which [apply_PX] and [apply_XP] skip a reflector. *)
Definition skipped (d : DoubleShiftQR.t) (ind : Z) : bool :=
  Rleb (scaled_u d 0 ind * scaled_u d 0 ind
        + scaled_u d 1 ind * scaled_u d 1 ind
        + scaled_u d 2 ind * scaled_u d 2 ind) (DoubleShiftQR.prec d).

(** The vector of [compute_reflector], in closed form: the shifted leading
    entry, the norm by which the vector is divided, and the entry [k] stored
    under the threshold [eps]. *)
Definition hh_x1 (x1 x2 x3 : R) : R :=
  x1 - (DoubleShiftQR.b2r (Rltb x1 0) - DoubleShiftQR.b2r (Rltb 0 x1))
       * sqrt (x1 * x1 + (x2 * x2 + x3 * x3)).

Definition hh_norm (x1 x2 x3 : R) : R :=
  sqrt (hh_x1 x1 x2 x3 * hh_x1 x1 x2 x3 + (x2 * x2 + x3 * x3)).

Definition hh_u (eps x1 x2 x3 : R) (k : Z) : R :=
  if Rleb (hh_norm x1 x2 x3) eps then 0
  else if (k =? 0)%Z then hh_x1 x1 x2 x3 / hh_norm x1 x2 x3
  else if (k =? 1)%Z then x2 / hh_norm x1 x2 x3
  else x3 / hh_norm x1 x2 x3.

(** The members of the decomposition that a sweep never writes. *)
Definition same_params (d d' : DoubleShiftQR.t) : Prop :=
  DoubleShiftQR.n d' = DoubleShiftQR.n d
  /\ DoubleShiftQR.prec d' = DoubleShiftQR.prec d
  /\ DoubleShiftQR.shift_s d' = DoubleShiftQR.shift_s d
  /\ DoubleShiftQR.shift_t d' = DoubleShiftQR.shift_t d
  /\ DoubleShiftQR.computed d' = DoubleShiftQR.computed d.

(** Upper-Hessenberg form of the leading block of order [n]. *)
Definition hessenberg (n : Z) (M : Matrix) : Prop :=
  forall r c, (0 <= c)%Z -> (r < n)%Z -> (c + 1 < r)%Z -> M r c = 0.

(** The copy of the upper-Hessenberg part that [compute] starts from. *)
Definition hessenberg_part (mat : Matrix) : Matrix :=
  fun r c => if (r <=? c + 1)%Z then mat r c else 0.

(** ** Square matrices of order n *)

(** Equality of the leading blocks of order [n]. *)
Definition meq (n : Z) (A B : Matrix) : Prop :=
  forall r c, (0 <= r < n)%Z -> (0 <= c < n)%Z -> A r c = B r c.

Definition orthogonal (n : Z) (Q : Matrix) : Prop :=
  meq n (mmul n (transpose Q) Q) Identity
  /\ meq n (mmul n Q (transpose Q)) Identity.

Definition upper_triangular (n : Z) (M : Matrix) : Prop :=
  forall r c, (0 <= c)%Z -> (c < r)%Z -> (r < n)%Z -> M r c = 0.

(** H^2 - s H + t I, formed as [restart] forms it for a conjugate pair of
    shifts with sum s and product t: H (H - s I) + t I. *)
Definition shifted_square (n : Z) (H : Matrix) (s t : R) : Matrix :=
  diag_add n (mmul n H (diag_add n H (- s))) t.

(** [Q] is the orthogonal factor of a QR factorization of [M]. *)
Definition qr_factor (n : Z) (M Q : Matrix) : Prop :=
  orthogonal n Q
  /\ exists R, upper_triangular n R /\ meq n (mmul n Q R) M.

(** Q^T H Q *)
Definition similarity (n : Z) (Q H : Matrix) : Matrix :=
  mmul n (transpose Q) (mmul n H Q).

(** ** Householder reflectors as matrices *)

(** The vector with [u0], [u1], [u2] at the indices [i], [i + 1], [i + 2]. *)
Definition refl_vec (u0 u1 u2 : R) (i : Z) : Vector :=
  fun j =>
    if (j =? i)%Z then u0
    else if (j =? i + 1)%Z then u1
    else if (j =? i + 2)%Z then u2
    else 0.

(** I - v v^T *)
Definition refl_mat (v : Vector) : Matrix :=
  fun r c => Identity r c - v r * v c.

(** P M P for the reflector P on rows and columns [i], [i + 1], [i + 2] of
    a matrix of order [n]. *)
Definition reflect_both (n : Z) (u0 u1 u2 : R) (i : Z) (M : Matrix) : Matrix :=
  reflect_cols u0 u1 u2 i 0 n (reflect_rows u0 u1 u2 i 0 n M).

(** The scaled reflector is a unit vector times sqrt 2, or zero. *)
Definition unit_or_zero (u0 u1 u2 : R) : Prop :=
  (u0 = 0 /\ u1 = 0 /\ u2 = 0) \/ u0 * u0 + u1 * u1 + u2 * u2 = 2.

(** The reflector of [(u0, u1, u2)] maps [(x1, x2, x3)] onto the first
    axis. *)
Definition annihilates (u0 u1 u2 x1 x2 x3 : R) : Prop :=
  x2 - (u0 * x1 + u1 * x2 + u2 * x3) * u1 = 0
  /\ x3 - (u0 * x1 + u1 * x2 + u2 * x3) * u2 = 0.

(** Upper-Hessenberg but for the bulge that the reflector [i] has to chase:
    below the sub-diagonal only the entries (i + 1, i - 1), (i + 2, i - 1)
    and (i + 2, i) may differ from zero. *)
Definition bulge (n i : Z) (M : Matrix) : Prop :=
  forall r c, (0 <= c)%Z -> (r < n)%Z -> (c + 1 < r)%Z ->
    (c = i - 1 /\ r <= i + 2)%Z \/ (c = i /\ r = i + 2)%Z \/ M r c = 0.

(** A vector from which [compute_reflector], under the threshold [eps],
    builds the Householder reflector: its leading entry is not zero and the
    vector is not negligible. *)
Definition proper (eps x1 x2 x3 : R) : Prop :=
  x1 <> 0 /\ eps < hh_norm x1 x2 x3.

(** A vector that the reflector built by [compute_reflector] maps onto the
    first axis: a proper vector, or one that lies on the first axis already
    (its second and third entries are zero; the reflector built is then the
    reflection of that axis, or the identity), as the last vector of a sweep
    with exact shifts does. *)
Definition reflectable (eps x1 x2 x3 : R) : Prop :=
  (x2 = 0 /\ x3 = 0) \/ proper eps x1 x2 x3.

(** Every pass of the chase, from pass [i] on for [k] passes, builds its
    reflector from a reflectable vector. *)
Fixpoint chase_reflectable (X : DoubleShiftQR.Block) (start_ind : Z) (k : nat)
  (i : Z) (d : DoubleShiftQR.t) : Prop :=
  match k with
  | O => True
  | S k' =>
      reflectable (DoubleShiftQR.prec d)
        (DoubleShiftQR.coeff (DoubleShiftQR.mat_H d) X i (i - 1))
        (DoubleShiftQR.coeff (DoubleShiftQR.mat_H d) X (i + 1) (i - 1))
        (DoubleShiftQR.coeff (DoubleShiftQR.mat_H d) X (i + 2) (i - 1))
      /\ chase_reflectable X start_ind k' (i + 1)
           (DoubleShiftQR.chase_step X start_ind i d)
  end.

(** Every reflector of the sweep of a block of three rows or more is built
    from a reflectable vector: the first, those of the chase, the last. *)
Definition sweep_reflectable (X : DoubleShiftQR.Block) (start_ind : Z)
  (d : DoubleShiftQR.t) : Prop :=
  let nrow := DoubleShiftQR.rows X in
  let M := DoubleShiftQR.mat_H d in
  let x := DoubleShiftQR.coeff M X 0 0
           * (DoubleShiftQR.coeff M X 0 0 - DoubleShiftQR.shift_s d)
           + DoubleShiftQR.coeff M X 0 1 * DoubleShiftQR.coeff M X 1 0
           + DoubleShiftQR.shift_t d in
  let y := DoubleShiftQR.coeff M X 1 0
           * (DoubleShiftQR.coeff M X 0 0 + DoubleShiftQR.coeff M X 1 1
              - DoubleShiftQR.shift_s d) in
  let z := DoubleShiftQR.coeff M X 2 1 * DoubleShiftQR.coeff M X 1 0 in
  let d1 := DoubleShiftQR.compute_reflector x y z start_ind d in
  let d1 := DoubleShiftQR.apply_PX
              (DoubleShiftQR.block X 0 0 3 (DoubleShiftQR.cols X))
              start_ind d1 in
  let d1 := DoubleShiftQR.apply_XP
              (DoubleShiftQR.block X 0 0 (Z.min nrow 4) 3) start_ind d1 in
  let d2 := for_loop 1 (nrow - 2) (DoubleShiftQR.chase_step X start_ind) d1 in
  reflectable (DoubleShiftQR.prec d) x y z
  /\ chase_reflectable X start_ind (Z.to_nat (nrow - 3)) 1 d1
  /\ reflectable (DoubleShiftQR.prec d)
                 (DoubleShiftQR.coeff (DoubleShiftQR.mat_H d2) X (nrow - 2)
                                      (nrow - 3))
                 (DoubleShiftQR.coeff (DoubleShiftQR.mat_H d2) X (nrow - 1)
                                      (nrow - 3)) 0.

Definition madd (A B : Matrix) : Matrix := fun r c => A r c + B r c.
Definition mscal (x : R) (A : Matrix) : Matrix := fun r c => x * A r c.

(** What the sweep of a matrix [H] of order [n] maintains, with [pH] the
    shifted square of [H]: the matrix [M] reached has the bulge at [k], it
    is Q^T H Q for an orthogonal Q, and the first column of Q^T pH lies on
    the first axis. *)
Definition chased (n : Z) (H pH : Matrix) (k : Z) (M : Matrix) : Prop :=
  bulge n k M
  /\ exists Q, orthogonal n Q
              /\ meq n M (similarity n Q H)
              /\ forall r, (0 < r < n)%Z ->
                           mmul n (transpose Q) pH r 0%Z = 0.

(** A 2 x 2 matrix with sub-diagonal entry 1. *)
Definition H_two : Matrix :=
  fun r c =>
    match r, c with
    | 0%Z, 0%Z => 1
    | 0%Z, 1%Z => 1
    | 1%Z, 0%Z => 1
    | _, _ => 0
    end.

(** A 3 x 3 upper-Hessenberg matrix with sub-diagonal entries 1.  With the
    shifts 1 + i and 1 - i, that is s = 2 and t = 2, the first column of
    H^2 - s H + t I is (0, 1, 1). *)
Definition H_slip : Matrix :=
  fun r c =>
    match r, c with
    | 0%Z, 0%Z => 1
    | 0%Z, 1%Z => -1
    | 1%Z, 0%Z => 1
    | 1%Z, 1%Z => 2
    | 2%Z, 1%Z => 1
    | _, _ => 0
    end.

(** A 3 x 3 upper-Hessenberg matrix with sub-diagonal entries 24 and 7 and
    the eigenvalues 0, 5 i and - 5 i.  With the shifts 5 i and - 5 i, two of
    its eigenvalues, that is s = 0 and t = 25, the first column of
    H^2 - s H + t I is (49, 0, 168), of norm 175. *)
Definition H_exact : Matrix :=
  fun r c =>
    match r, c with
    | 0%Z, 1%Z => 1
    | 1%Z, 0%Z => 24
    | 1%Z, 2%Z => -7
    | 2%Z, 1%Z => 7
    | _, _ => 0
    end.

(** ** The restart-width heuristic, as the specification words it *)

(** "theta_(j-1) is complex and theta_j is its conjugate" *)
Definition conjugate_pair (eps : R) (a b : Complex) : bool :=
  (is_complex a eps && is_conj a b eps)%bool.

(** The sorted Ritz values as a sequence. *)
Definition theta (s : Solver) (i : Z) : Complex :=
  nth (Z.to_nat i) (ritz_val s) Czero.

(** Steps 1 to 6 of adjust_k, for k wanted values and a subspace of size m;
    the quotient of step 3 is the floor. *)
Definition adjust_k (eps : R) (k m : Z) (th : Z -> Complex) (nconv : Z) : Z :=
  let bump (j : Z) : Z :=
    if conjugate_pair eps (th (j - 1)%Z) (th j) then 1%Z else 0%Z in
  let k1 := (k + bump k)%Z in
  let k2 := (k1 + Z.min nconv ((m - k1) / 2))%Z in
  let k3 :=
    if (k2 =? 1)%Z then
      if (6 <=? m)%Z then (m / 2)%Z else if (3 <? m)%Z then 2%Z else k2
    else k2 in
  let k4 := Z.min k3 (m - 2) in
  (k4 + bump k4)%Z.

(** What the final sort of an object of class [c] does to a Ritz value
    before ordering it. *)
Definition ritz_transform (c : SolverClass) (v : Complex) : Complex :=
  match c with
  | GenEigsSolver => v
  | GenEigsRealShiftSolver sigma => Caddr (Crdiv 1 v) sigma
  end.

(** The members fixed at construction agree. *)
Definition same_shape (s s' : Solver) : Prop :=
  nev s' = nev s /\ ncv s' = ncv s /\ dim_n s' = dim_n s /\ prec s' = prec s.

(** The members that [factorize_from] does not write. *)
Definition same_ritz (s s' : Solver) : Prop :=
  same_shape s s' /\ ritz_val s' = ritz_val s /\ ritz_vec s' = ritz_vec s
  /\ ritz_conv s' = ritz_conv s /\ niter s' = niter s.

(** ** Example objects *)

Definition C (x y : R) : Complex := mkComplex x y.

(** A solver for two wanted values in a subspace of six vectors, as left by
    [retrieve_ritzpair] under LARGEST_MAGN. *)
Definition solver_2_6 : Solver :=
  mkSolver 10 2 6 0 0 (fun _ _ => 0) (fun _ _ => 0) (fun _ => 0)
    [C 5 0; C 1 2; C 1 (-2); C 1 0; C 0 0; C 0 0]
    [repeat Czero 6; repeat Czero 6] [false; false] prec_arnoldi.

(** Stand-ins for the collaborators: the identity operator, an eigen-solver
    and decompositions that return zeros and identities. *)
Definition env_id : Env :=
  {| perform_op := fun v => v;
     eigen_solver := fun n _ =>
       (repeat Czero (Z.to_nat n),
        repeat (repeat Czero (Z.to_nat n)) (Z.to_nat n));
     householderQ := fun _ _ => Identity;
     hessenberg_qr := fun _ M =>
       {| hb_apply_YQ := fun Y => Y;
          hb_matrix_RQ := M;
          hb_apply_QtY := fun y => y |};
     rule_comp := comp_largest_magn |}.

(** A solver of the identity operator on the plane, one value wanted, after
    [init] with the residual (1, 0): the first basis vector is an
    eigenvector, so the residual [fac_f] vanishes. *)
Definition solver_breakdown : Solver :=
  mkSolver 2 1 2 1 0
    (set_col 2 (fun _ _ => 0) 0 (fun r => if (r =? 0)%Z then 1 else 0))
    (set_entry (fun _ _ => 0) 0 0 1)
    (fun _ => 0)
    [Czero; Czero] [[Czero; Czero]] [false] prec_arnoldi.

(** The shear (x, y) -> (x, prec / 2 * x + y) of the plane, with the other
    collaborators of [env_id]. *)
Definition env_shear : Env :=
  {| perform_op := fun x r =>
       if (r =? 0)%Z then x 0%Z
       else if (r =? 1)%Z then prec_arnoldi / 2 * x 0%Z + x 1%Z
       else 0;
     eigen_solver := eigen_solver env_id;
     householderQ := householderQ env_id;
     hessenberg_qr := hessenberg_qr env_id;
     rule_comp := rule_comp env_id |}.

(** The solver of the shear, one value wanted in a subspace of two vectors,
    after [init] with the residual (1, 0): the basis vector (1, 0), the
    Rayleigh quotient 1 and the residual (0, prec / 2), whose norm is half
    the threshold. *)
Definition solver_shear : Solver :=
  mkSolver 2 1 2 1 0
    (set_col 2 (fun _ _ => 0) 0 (fun r => if (r =? 0)%Z then 1 else 0))
    (set_entry (fun _ _ => 0) 0 0 1)
    (fun r => if (r =? 1)%Z then prec_arnoldi / 2 else 0)
    [Czero; Czero] [[Czero; Czero]] [false] prec_arnoldi.

(** The operator of the companion matrix [[0, 0, -6], [1, 0, 7], [0, 1, 0]]
    of (x - 1)(x - 2)(x + 3), under the rule SMALLEST_MAGN: it carries the
    first axis to the second and the second to the third.  The eigen-solver
    returns the eigenvalues 1, 2, -3 of the matrix with their eigenvectors
    (t^2 - 7, t, 1), normalised. *)
Definition env_companion : Env :=
  {| perform_op := fun x r =>
       if (r =? 0)%Z then - 6 * x 2%Z
       else if (r =? 1)%Z then x 0%Z + 7 * x 2%Z
       else if (r =? 2)%Z then x 1%Z
       else 0;
     eigen_solver := fun _ _ =>
       ([C 1 0; C 2 0; C (- 3) 0],
        [[C (- 6 / sqrt 38) 0; C (1 / sqrt 38) 0; C (1 / sqrt 38) 0];
         [C (- 3 / sqrt 14) 0; C (2 / sqrt 14) 0; C (1 / sqrt 14) 0];
         [C (2 / sqrt 14) 0; C (- 3 / sqrt 14) 0; C (1 / sqrt 14) 0]]);
     householderQ := householderQ env_id;
     hessenberg_qr := hessenberg_qr env_id;
     rule_comp := comp_smallest_magn |}.

(** The solver of the companion operator, two values wanted in a subspace
    of three vectors, after [init] with the residual (1, 0, 0): the basis
    vector (1, 0, 0), the Rayleigh quotient 0 and the residual (0, 1, 0). *)
Definition solver_companion : Solver :=
  mkSolver 3 2 3 1 0
    (set_col 3 (fun _ _ => 0) 0 (fun r => if (r =? 0)%Z then 1 else 0))
    (fun _ _ => 0)
    (fun r => if (r =? 1)%Z then 1 else 0)
    [Czero; Czero; Czero]
    [[Czero; Czero; Czero]; [Czero; Czero; Czero]] [false; false]
    prec_arnoldi.

(** One value wanted in a subspace of three vectors, rule LARGEST_REAL:
    the Ritz values 1+i, 1, 1-i have equal real parts, and the tie-break
    "imaginary part, descending" orders them so. *)
Definition solver_tie : Solver :=
  mkSolver 3 1 3 0 0 (fun _ _ => 0) (fun _ _ => 0) (fun _ => 0)
    [C 1 1; C 1 0; C 1 (-1)]
    [repeat Czero 3] [false] prec_arnoldi.

(** A sample of [Vector::Random] with every coefficient -1/2, in the lower
    half of the range. *)
Definition random_low : Vector := fun _ => - (1 / 2).

(** * The rest of the two classes

    The functions of [GenEigsSolver] and [DoubleShiftQR] that the sections
    above do not need: the accessors of the results, the vector form of
    [apply_PX], [apply_QtY] and [apply_YQ]; and the predicates in which
    their properties are stated. *)

(** ** The Arnoldi factorization *)

(** [op->perform_op(x, y)] reads the [n] entries of [x] and writes the [n]
    entries of [y]: the result depends on nothing else. *)
Definition op_reads (env : Env) (n : Z) : Prop :=
  forall x y : Vector,
    (forall r, (0 <= r < n)%Z -> x r = y r) ->
    forall r, (0 <= r < n)%Z -> perform_op env x r = perform_op env y r.

(** The leading [k] columns of [V], of height [n], are orthonormal. *)
Definition orthonormal_cols (n k : Z) (V : Matrix) : Prop :=
  forall i j, (0 <= i < k)%Z -> (0 <= j < k)%Z ->
    dot n (col V i) (col V j) = if (i =? j)%Z then 1 else 0.

(** A V_k = V_k H_k + f e_k^T, column by column. *)
Definition arnoldi_relation (env : Env) (n k : Z) (V H : Matrix) (f : Vector)
  : Prop :=
  forall j r, (0 <= j < k)%Z -> (0 <= r < n)%Z ->
    perform_op env (col V j) r
    = sumZ k (fun l => V r l * H l j) + (if (j =? k - 1)%Z then f r else 0).

(** A [k]-step Arnoldi factorization: orthonormal basis, residual
    orthogonal to it, and the Arnoldi relation. *)
Definition arnoldi (env : Env) (k : Z) (s : Solver) : Prop :=
  orthonormal_cols (dim_n s) k (fac_V s)
  /\ (forall j, (0 <= j < k)%Z -> dot (dim_n s) (col (fac_V s) j) (fac_f s) = 0)
  /\ arnoldi_relation env (dim_n s) k (fac_V s) (fac_H s) (fac_f s).

(** The operator that swaps the two coordinates of the plane, with the
    other collaborators of [env_id]. *)
Definition env_swap : Env :=
  {| perform_op := fun x r =>
       if (r =? 0)%Z then x 1%Z else if (r =? 1)%Z then x 0%Z else 0;
     eigen_solver := eigen_solver env_id;
     householderQ := householderQ env_id;
     hessenberg_qr := hessenberg_qr env_id;
     rule_comp := rule_comp env_id |}.

(** The solver of the swap, one value wanted in a subspace of two vectors,
    after [init] with the residual (1, 0): the basis vector (1, 0), the
    Rayleigh quotient 0 and the residual (0, 1). *)
Definition solver_swap : Solver :=
  mkSolver 2 1 2 1 0
    (set_col 2 (fun _ _ => 0) 0 (fun r => if (r =? 0)%Z then 1 else 0))
    (fun _ _ => 0)
    (fun r => if (r =? 1)%Z then 1 else 0)
    [Czero; Czero] [[Czero; Czero]] [false] prec_arnoldi.

(** ** The accessors of the results *)

(** Checked write of an Eigen vector held as a list. *)
Definition put {A : Type} (l : list A) (i : Z) (a : A) : result (list A) :=
  if ((i <? 0) || (Z.of_nat (length l) <=? i))%Z%bool then Fail OutOfRange
  else Ok (firstn (Z.to_nat i) l ++ a :: skipn (S (Z.to_nat i)) l).

(** A vector of [n] entries (a matrix of [n] columns) allocated without
    initial values; [fresh] is what the memory holds. *)
Definition uninit {A : Type} (fresh : Z -> A) (n : Z) : list A :=
  map (fun k => fresh (Z.of_nat k)) (seq 0 (Z.to_nat n)).

(** The loop of [eigenvalues] and of [eigenvectors]:
    [for (i = 0; i < nev; i++) if (ritz_conv[i]) { res[j] = src[i]; j++; }] *)
Fixpoint collect {A : Type} (conv : list bool) (src : list A) (passes : nat)
  (i j : Z) (res : list A) : result (list A) :=
  match passes with
  | O => Ok res
  | S p =>
      c <- get conv i ;;
      if (c : bool) then
        v <- get src i ;;
        res' <- put res j v ;;
        collect conv src p (i + 1) (j + 1) res'
      else collect conv src p (i + 1) j res
  end.

(** eigenvalues() *)
Definition eigenvalues (fresh : Z -> Complex) (s : Solver)
  : result (list Complex) :=
  let nconv := count_true (ritz_conv s) in
  let res := uninit fresh nconv in
  if (nconv =? 0)%Z then Ok res
  else collect (ritz_conv s) (ritz_val s) (Z.to_nat (nev s)) 0 0 res.

(** The product of the real matrix [V], of [m] columns, with a complex
    vector: a complex vector, given by its entries. *)
Definition mat_cvec (m : Z) (V : Matrix) (y : list Complex) : Z -> Complex :=
  fun r =>
    mkComplex (sumZ m (fun k => V r k * real (nth (Z.to_nat k) y Czero)))
              (sumZ m (fun k => V r k * imag (nth (Z.to_nat k) y Czero))).

(** eigenvectors(), by columns *)
Definition eigenvectors (fresh : Z -> list Complex) (s : Solver)
  : result (list (Z -> Complex)) :=
  let nconv := count_true (ritz_conv s) in
  if (nconv =? 0)%Z then Ok []
  else
    ritz_vec_conv <-
      collect (ritz_conv s) (ritz_vec s) (Z.to_nat (nev s)) 0 0
              (uninit fresh nconv) ;;
    Ok (map (mat_cvec (ncv s) (fac_V s)) ritz_vec_conv).

(** The entries of [src] whose flag is set, in their order. *)
Fixpoint flagged {A : Type} (conv : list bool) (src : list A) : list A :=
  match conv, src with
  | c :: conv', v :: src' =>
      if c then v :: flagged conv' src' else flagged conv' src'
  | _, _ => []
  end.

(** The results are as the constructor leaves them, empty, or as [init] and
    [compute] do: nev flags, nev Ritz vectors, nev Ritz values or more. *)
Definition results_shaped (s : Solver) : Prop :=
  ritz_conv s = []
  \/ (length (ritz_conv s) = Z.to_nat (nev s)
      /\ length (ritz_vec s) = Z.to_nat (nev s)
      /\ (Z.to_nat (nev s) <= length (ritz_val s))%nat).

(** ** DoubleShiftQR: the vector form of apply_PX, apply_QtY, apply_YQ *)

(** A loop whose body may fail. *)
Fixpoint for_n_res {S : Type} (k : nat) (i : Z) (body : Z -> S -> result S)
  (s : S) : result S :=
  match k with
  | O => Ok s
  | Datatypes.S k' => s' <- body i s ;; for_n_res k' (i + 1)%Z body s'
  end.

Definition for_loop_res {S : Type} (lo hi : Z) (body : Z -> S -> result S)
  (s : S) : result S :=
  for_n_res (Z.to_nat (hi - lo)) lo body s.

Module DoubleShiftQRApply.

Import DoubleShiftQR.

(** apply_PX(x, u_ind) for a pointer [x] into the vector [y], at the offset
    [off]: reads and writes of [x[k]] are those of [y[off + k]]. *)
Definition apply_PX_ptr (y : list R) (off u_ind : Z) (d : t)
  : result (list R) :=
  let u0 := ref_u d 0%Z u_ind in
  let u1 := ref_u d 1%Z u_ind in
  let u2 := ref_u d 2%Z u_ind in
  if Rleb (u0 * u0 + u1 * u1 + u2 * u2) (prec d) then Ok y
  else
    x0 <- get y off ;;
    x1 <- get y (off + 1) ;;
    t2 <- (if Rleb (Rabs u2) (prec d) then Ok 0
           else x2 <- get y (off + 2) ;; Ok (x2 * u2)) ;;
    let dot2 := (x0 * u0 + x1 * u1 + t2) * 2 in
    y <- put y off (x0 - dot2 * u0) ;;
    y <- put y (off + 1) (x1 - dot2 * u1) ;;
    if Rltb (prec d) (Rabs u2) then
      x2 <- get y (off + 2) ;; put y (off + 2) (x2 - dot2 * u2)
    else Ok y.

(** apply_QtY(y) *)
Definition apply_QtY (y : list R) (d : t) : result (list R) :=
  if computed d then
    for_loop_res 0 (n d - 1) (fun i y => apply_PX_ptr y i i d) y
  else Fail LogicError.

(** [Y.block(i, j, nr, nc)] of a matrix of [yrows] rows and [ycols]
    columns has to lie inside it. *)
Definition block_in (yrows ycols : Z) (X : Block) : bool :=
  ((0 <=? row0 X) && (0 <=? rows X) && (row0 X + rows X <=? yrows)
   && (0 <=? col0 X) && (0 <=? cols X) && (col0 X + cols X <=? ycols))%Z%bool.

(** apply_XP(X, u_ind) on a block of a matrix [Y] that is not the member
    [mat_H]: of the object the function reads [ref_u] and [prec] only. *)
Definition apply_XP_on (Y : Matrix) (X : Block) (u_ind : Z) (d : t) : Matrix :=
  mat_H (apply_XP X u_ind (set_mat_H d Y)).

(** apply_YQ(Y), for a matrix [Y] of [yrows] rows and [ycols] columns *)
Definition apply_YQ (yrows ycols : Z) (Y : Matrix) (d : t) : result Matrix :=
  if computed d then
    Y <- for_loop_res 0 (n d - 2)
           (fun i Y =>
              let X := mkBlock 0 i yrows 3 in
              if block_in yrows ycols X then Ok (apply_XP_on Y X i d)
              else Fail OutOfRange) Y ;;
    let X := mkBlock 0 (n d - 2) yrows 2 in
    if block_in yrows ycols X then Ok (apply_XP_on Y X (n d - 2) d)
    else Fail OutOfRange
  else Fail LogicError.

End DoubleShiftQRApply.

(** ** The sweeps of restart *)

(** [H] has no zero on its sub-diagonal, in the columns 0 to [k] - 1. *)
Definition unreduced (k : Z) (H : Matrix) : Prop :=
  forall j, (0 <= j < k)%Z -> H (j + 1)%Z j <> 0.

(** Modelled from the spec: the contract of [UpperHessenbergQR], which is
    not among the sources.  "Given an m x m upper-Hessenberg real matrix H
    and a real shift mu, produce an orthogonal Q and upper-triangular R such
    that H - mu I = Q R, then expose matrix_RQ() -> R Q."  [M] is the
    shifted matrix that [restart] hands to [compute]. *)
Definition hessenberg_qr_contract (m : Z) (M : Matrix)
  (decomp : UpperHessenbergQR) : Prop :=
  exists Q R, orthogonal m Q /\ upper_triangular m R
              /\ meq m (mmul m Q R) M
              /\ meq m (hb_matrix_RQ decomp) (mmul m R Q).

(** The reflector that carries (49, 0, 168) to (-175, 0, 0): the orthogonal
    factor of the Householder QR factorization of H^2 + 25 I for [H_exact],
    a matrix of rank one. *)
Definition Q_exact : Matrix :=
  fun r c =>
    match r, c with
    | 0%Z, 0%Z => - (7 / 25)
    | 0%Z, 2%Z => - (24 / 25)
    | 1%Z, 1%Z => 1
    | 2%Z, 0%Z => - (24 / 25)
    | 2%Z, 2%Z => 7 / 25
    | _, _ => 0
    end.

(** Collaborators for a restart on [H_exact]: the Householder QR returns
    [Q_exact]; the rest is as in [env_id]. *)
Definition env_exact : Env :=
  {| perform_op := perform_op env_id;
     eigen_solver := eigen_solver env_id;
     householderQ := fun _ _ => Q_exact;
     hessenberg_qr := hessenberg_qr env_id;
     rule_comp := rule_comp env_id |}.

(** A solver with a subspace of three vectors and one wanted value whose
    [fac_H] is [H_exact]; the shifts of its restart are the pair 5 i, -5 i. *)
Definition solver_exact : Solver :=
  mkSolver 3 1 3 3 0 Identity H_exact (fun _ => 0)
    [C 0 0; C 0 5; C 0 (- 5)] [[Czero; Czero; Czero]] [false] prec_arnoldi.

(** An upper-Hessenberg matrix with the eigenvalues 21/5 +- 2/5 i and 2,
    whose last sub-diagonal entry is zero; and the factors of the QR
    factorization of H - 2 I by one rotation of the first two rows. *)
Definition H_rot : Matrix :=
  fun r c =>
    match r, c with
    | 0%Z, 0%Z => 5
    | 0%Z, 1%Z => - (1 / 5)
    | 0%Z, 2%Z => - (4 / 5)
    | 1%Z, 0%Z => 4
    | 1%Z, 1%Z => 17 / 5
    | 1%Z, 2%Z => 3 / 5
    | 2%Z, 2%Z => 2
    | _, _ => 0
    end.

Definition Q_rot : Matrix :=
  fun r c =>
    match r, c with
    | 0%Z, 0%Z => 3 / 5
    | 0%Z, 1%Z => - (4 / 5)
    | 1%Z, 0%Z => 4 / 5
    | 1%Z, 1%Z => 3 / 5
    | 2%Z, 2%Z => 1
    | _, _ => 0
    end.

Definition R_rot : Matrix :=
  fun r c =>
    match r, c with
    | 0%Z, 0%Z => 5
    | 0%Z, 1%Z => 1
    | 1%Z, 1%Z => 1
    | 1%Z, 2%Z => 1
    | _, _ => 0
    end.

(** Collaborators for a restart on [H_rot] with the shift 2: the
    decomposition returns R Q for these factors. *)
Definition env_rot : Env :=
  {| perform_op := perform_op env_id;
     eigen_solver := eigen_solver env_id;
     householderQ := householderQ env_id;
     hessenberg_qr := fun _ _ =>
       {| hb_apply_YQ := fun Y => mmul 3 Y Q_rot;
          hb_matrix_RQ := mmul 3 R_rot Q_rot;
          hb_apply_QtY := fun y => mvmul 3 (transpose Q_rot) y |};
     rule_comp := rule_comp env_id |}.

(** A solver with a subspace of three vectors and two wanted values whose
    [fac_H] is [H_rot]; the one shift of its restart is 2. *)
Definition solver_rot : Solver :=
  mkSolver 3 2 3 3 0 Identity H_rot (fun _ => 0)
    [C (21 / 5) (2 / 5); C (21 / 5) (- (2 / 5)); C 2 0]
    [[Czero; Czero; Czero]; [Czero; Czero; Czero]] [false; false]
    prec_arnoldi.

(** * Properties *)

(** ** Scalars *)

Lemma Rltb_true x y : Rltb x y = true <-> x < y.
Proof. unfold Rltb; destruct (Rlt_dec x y); split; intros; try easy. Qed.

Lemma Rltb_false x y : Rltb x y = false <-> y <= x.
Proof.
  unfold Rltb; destruct (Rlt_dec x y); split; intros; try easy; lra.
Qed.

Lemma Rleb_true x y : Rleb x y = true <-> x <= y.
Proof. unfold Rleb; destruct (Rle_dec x y); split; intros; try easy. Qed.

Lemma Rleb_false x y : Rleb x y = false <-> y < x.
Proof.
  unfold Rleb; destruct (Rle_dec x y); split; intros; try easy; lra.
Qed.

Lemma Reqb_true x y : Reqb x y = true <-> x = y.
Proof. unfold Reqb; destruct (Req_dec_T x y); split; intros; try easy. Qed.

Lemma Cnorm_nonneg v : 0 <= Cnorm v.
Proof. unfold Cnorm; nra. Qed.

Lemma Cabs_nonneg v : 0 <= Cabs v.
Proof. apply sqrt_pos. Qed.

Lemma epsilon_bounds : 0 < epsilon < 1.
Proof.
  unfold epsilon. split.
  - apply Rinv_0_lt_compat. apply pow_lt. lra.
  - rewrite <- Rinv_1. apply Rinv_lt_contravar.
    + rewrite Rmult_1_l. apply pow_lt. lra.
    + apply Rlt_pow_R1; [lra | lia].
Qed.

Lemma Rpower_small x y : 0 < x < 1 -> 0 < y -> 0 < Rpower x y < 1.
Proof.
  intros [Hx0 Hx1] Hy. unfold Rpower. split.
  - apply exp_pos.
  - rewrite <- exp_0. apply exp_increasing.
    assert (ln x < 0) by (rewrite <- ln_1; apply ln_increasing; lra).
    nra.
Qed.

Lemma prec_arnoldi_bounds : 0 < prec_arnoldi < 1.
Proof. apply Rpower_small; [apply epsilon_bounds | lra]. Qed.

Lemma prec_qr_bounds : 0 < prec_qr < 1.
Proof. apply Rpower_small; [apply epsilon_bounds | lra]. Qed.

Lemma get_Ok {A} (l : list A) i :
  (0 <= i < Z.of_nat (length l))%Z -> exists a, get l i = Ok a.
Proof.
  intros H. unfold get.
  destruct (Z.ltb_spec i 0); [lia|].
  destruct (nth_error l (Z.to_nat i)) eqn:E; [eauto|].
  apply nth_error_None in E. lia.
Qed.

Lemma get_nth {A} (l : list A) i a d :
  get l i = Ok a -> nth (Z.to_nat i) l d = a.
Proof.
  unfold get. destruct (Z.ltb_spec i 0) as [Hneg|Hpos]; [discriminate|].
  destruct (nth_error l (Z.to_nat i)) eqn:E; [|discriminate].
  intros Hget. injection Hget as <-. now apply nth_error_nth.
Qed.

Lemma get_out {A} (l : list A) i :
  (i < 0 \/ Z.of_nat (length l) <= i)%Z -> get l i = Fail OutOfRange.
Proof.
  intros H. unfold get.
  destruct (Z.ltb_spec i 0); [reflexivity|].
  destruct (nth_error l (Z.to_nat i)) eqn:E; [|reflexivity].
  assert (nth_error l (Z.to_nat i) <> None) by congruence.
  apply nth_error_Some in H1. lia.
Qed.

(** ** nev_adjusted *)

Lemma conj_pair_at_sound s i b :
  conj_pair_at s i = Ok b ->
  b = conjugate_pair (prec s) (theta s i) (theta s (i + 1)).
Proof.
  unfold conj_pair_at, conjugate_pair, theta, bind.
  destruct (get (ritz_val s) i) as [vi|] eqn:Ei; [|discriminate].
  rewrite (get_nth _ _ _ Czero Ei).
  destruct (is_complex vi (prec s)); simpl.
  - destruct (get (ritz_val s) (i + 1)) as [vj|] eqn:Ej; [|discriminate].
    rewrite (get_nth _ _ _ Czero Ej). congruence.
  - congruence.
Qed.

Lemma conj_pair_at_total s i :
  (0 <= i)%Z -> (i + 1 < Z.of_nat (length (ritz_val s)))%Z ->
  exists b, conj_pair_at s i = Ok b.
Proof.
  intros H0 H1. unfold conj_pair_at, bind.
  destruct (get_Ok (ritz_val s) i) as [vi ->]; [lia|].
  destruct (get_Ok (ritz_val s) (i + 1)) as [vj ->]; [lia|].
  destruct (is_complex vi (prec s)); eauto.
Qed.

(** Whenever [nev_adjusted] returns, it returns the value of the heuristic. *)
Lemma nev_adjusted_sound s nconv k :
  (nev s < ncv s)%Z ->
  nev_adjusted s nconv = Ok k ->
  k = adjust_k (prec s) (nev s) (ncv s) (theta s) nconv.
Proof.
  intros Hlt. unfold nev_adjusted, bind.
  destruct (conj_pair_at s (nev s - 1)) as [b1|] eqn:E1; [|discriminate].
  apply conj_pair_at_sound in E1.
  replace (nev s - 1 + 1)%Z with (nev s) in E1 by lia.
  assert (Hq : forall a, (0 <= a)%Z -> Z.quot a 2 = (a / 2)%Z)
    by (intros a Ha; apply Z.quot_div_nonneg; lia).
  unfold adjust_k. rewrite <- E1.
  set (k1 := (nev s + (if b1 then 1 else 0))%Z).
  replace (if b1 then (nev s + 1)%Z else nev s) with k1
    by (unfold k1; destruct b1; lia).
  rewrite (Hq (ncv s - k1)%Z) by (unfold k1; destruct b1; lia).
  set (k2 := (k1 + Z.min nconv ((ncv s - k1) / 2))%Z).
  set (k3 := if (k2 =? 1)%Z then
               if (6 <=? ncv s)%Z then (ncv s / 2)%Z
               else if (3 <? ncv s)%Z then 2%Z else k2
             else k2).
  replace (if ((k2 =? 1) && (6 <=? ncv s))%Z%bool then Z.quot (ncv s) 2
           else if ((k2 =? 1) && (3 <? ncv s))%Z%bool then 2%Z else k2)
    with k3.
  2:{ unfold k3. destruct (k2 =? 1)%Z; simpl; [|reflexivity].
      destruct (Z.leb_spec 6 (ncv s)); [symmetry; apply Hq; lia | reflexivity]. }
  set (k4 := Z.min k3 (ncv s - 2)).
  replace (if (ncv s - 2 <? k3)%Z then (ncv s - 2)%Z else k3) with k4
    by (unfold k4; destruct (Z.ltb_spec (ncv s - 2) k3); lia).
  destruct (conj_pair_at s (k4 - 1)) as [b2|] eqn:E2; [|discriminate].
  apply conj_pair_at_sound in E2.
  replace (k4 - 1 + 1)%Z with k4 in E2 by lia.
  intros Hk. injection Hk as <-.
  rewrite <- E2. destruct b2; lia.
Qed.

(** With a subspace of at least three vectors every read is inside
    [ritz_val]. *)
Lemma nev_adjusted_total s nconv :
  (1 <= nev s < ncv s)%Z -> (3 <= ncv s)%Z ->
  Z.of_nat (length (ritz_val s)) = ncv s ->
  (0 <= nconv)%Z ->
  exists k, nev_adjusted s nconv = Ok k.
Proof.
  intros Hnev Hncv Hlen Hnc. unfold nev_adjusted, bind.
  destruct (conj_pair_at_total s (nev s - 1)) as [b1 ->]; [lia|lia|].
  set (k1 := if b1 then (nev s + 1)%Z else nev s).
  assert (Hk1 : (1 <= k1 <= ncv s)%Z) by (unfold k1; destruct b1; lia).
  rewrite (Z.quot_div_nonneg (ncv s - k1) 2) by lia.
  rewrite (Z.quot_div_nonneg (ncv s) 2) by lia.
  set (k2 := (k1 + Z.min nconv ((ncv s - k1) / 2))%Z).
  assert (Hk2 : (1 <= k2)%Z).
  { unfold k2. assert (0 <= (ncv s - k1) / 2)%Z by (apply Z.div_pos; lia). lia. }
  match goal with
  | |- context [conj_pair_at s (?j - 1)] => set (k4 := j)
  end.
  assert (Hk4 : (1 <= k4 <= ncv s - 2)%Z).
  { unfold k4.
    destruct (Z.eqb_spec k2 1); simpl;
      destruct (Z.leb_spec 6 (ncv s)); simpl;
      destruct (Z.ltb_spec 3 (ncv s)); simpl;
      match goal with
      | |- context [(?a <? ?b)%Z] => destruct (Z.ltb_spec a b)
      end; try lia;
      assert (3 <= ncv s / 2)%Z by (apply Z.div_le_lower_bound; lia); lia. }
  destruct (conj_pair_at_total s (k4 - 1)) as [b2 ->]; [lia|lia|eauto].
Qed.

(** For a subspace of at least three vectors, and every [nconv >= 0],
    [nev_adjusted] returns the value of the six-step heuristic: start from
    nev; add one if the values at nev-1 and nev are a conjugate pair; add
    the minimum of nconv and the floor of (ncv - k)/2; replace a result of 1
    by ncv/2 when ncv >= 6, by 2 when ncv > 3; cap at ncv - 2; add one if a
    conjugate pair sits across the new boundary. *)
Lemma nev_adjusted_heuristic (s : Solver) (nconv : Z) :
  (1 <= nev s < ncv s)%Z -> (3 <= ncv s)%Z ->
  Z.of_nat (length (ritz_val s)) = ncv s ->
  (0 <= nconv)%Z ->
  nev_adjusted s nconv
  = Ok (adjust_k (prec s) (nev s) (ncv s) (theta s) nconv).
Proof.
  intros Hnev Hncv Hlen Hnc.
  destruct (nev_adjusted_total s nconv Hnev Hncv Hlen Hnc) as [k Hk].
  rewrite Hk. f_equal. apply nev_adjusted_sound; [lia | exact Hk].
Qed.

(** ** std::sort *)

Section Sort.
Context {A : Type} (comp : A -> A -> bool).

Lemma sort_insert_perm x l : Permutation (sort_insert comp x l) (x :: l).
Proof.
  induction l as [|y l IH]; simpl.
  - apply Permutation_refl.
  - destruct (comp x y).
    + apply Permutation_refl.
    + eapply Permutation_trans; [apply perm_skip, IH | apply perm_swap].
Qed.

Lemma std_sort_perm l : Permutation (std_sort comp l) l.
Proof.
  induction l as [|x l IH]; simpl.
  - apply perm_nil.
  - eapply Permutation_trans; [apply sort_insert_perm | now apply perm_skip].
Qed.

Lemma std_sort_length l : length (std_sort comp l) = length l.
Proof. apply Permutation_length, std_sort_perm. Qed.

Hypothesis comp_asym : forall a b, comp a b = true -> comp b a = false.

Lemma sort_insert_sorted x l :
  Sorted (not_after comp) l -> Sorted (not_after comp) (sort_insert comp x l).
Proof.
  induction l as [|y l IH]; simpl; intros Hs.
  - repeat constructor.
  - destruct (comp x y) eqn:E.
    + constructor; [exact Hs|]. constructor. now apply comp_asym.
    + inversion Hs as [|? ? Hl Hy]; subst.
      constructor; [now apply IH|].
      destruct l as [|z l]; simpl.
      * constructor. exact E.
      * destruct (comp x z); constructor; [exact E|].
        now inversion Hy.
Qed.

Lemma std_sort_sorted l : Sorted (not_after comp) (std_sort comp l).
Proof.
  induction l as [|x l IH]; simpl.
  - constructor.
  - now apply sort_insert_sorted.
Qed.

End Sort.

Lemma Sorted_weaken {A} (P Q : A -> A -> Prop) l :
  (forall a b, P a b -> Q a b) -> Sorted P l -> Sorted Q l.
Proof.
  intros HPQ. induction 1 as [|a l Hl IH Hhd]; constructor; [exact IH|].
  destruct Hhd; constructor. now apply HPQ.
Qed.

Lemma comp_largest_magn_asym a b :
  comp_largest_magn a b = true -> comp_largest_magn b a = false.
Proof.
  unfold comp_largest_magn. intros H.
  apply orb_true_iff in H. apply orb_false_iff.
  destruct H as [H|H].
  - apply Rltb_true in H. split.
    + apply Rltb_false. lra.
    + apply andb_false_iff. left.
      destruct (Reqb _ _) eqn:E; [|reflexivity].
      apply Reqb_true in E. lra.
  - apply andb_true_iff in H. destruct H as [H1 H2].
    apply Reqb_true in H1. apply Rltb_true in H2. split.
    + apply Rltb_false. lra.
    + apply andb_false_iff. right. apply Rltb_false. lra.
Qed.

Lemma comp_largest_magn_not_after a b :
  not_after comp_largest_magn a b -> magn_ge (fst a) (fst b).
Proof.
  unfold not_after, comp_largest_magn, magn_ge. intros H.
  apply orb_false_iff in H. destruct H as [H _].
  now apply Rltb_false in H.
Qed.

Lemma magn_ge_trans : Relations_1.Transitive magn_ge.
Proof. unfold magn_ge. intros a b c Hab Hbc. lra. Qed.

Lemma std_sort_largest_magn l :
  StronglySorted magn_ge (map fst (std_sort comp_largest_magn l)).
Proof.
  apply Sorted_StronglySorted; [exact magn_ge_trans|].
  assert (H : Sorted (not_after comp_largest_magn)
                     (std_sort comp_largest_magn l))
    by (apply std_sort_sorted, comp_largest_magn_asym).
  induction H as [|a l' Hl IH Hhd]; simpl; constructor; [exact IH|].
  destruct Hhd; simpl; constructor.
  now apply comp_largest_magn_not_after.
Qed.

(** ** index_pairs *)

Lemma index_pairs_length n vals : length (index_pairs n vals) = Z.to_nat n.
Proof. unfold index_pairs. now rewrite length_map, length_seq. Qed.

Lemma index_pairs_snd n vals :
  map (fun p : SortPair => Z.to_nat (snd p)) (index_pairs n vals)
  = seq 0 (Z.to_nat n).
Proof.
  unfold index_pairs. rewrite map_map. simpl.
  rewrite <- (map_id (seq 0 (Z.to_nat n))) at 2.
  apply map_ext. intros i. apply Nat2Z.id.
Qed.

Lemma index_pairs_fst n vals :
  Forall (fun p : SortPair => fst p = nth (Z.to_nat (snd p)) vals Czero)
         (index_pairs n vals).
Proof.
  unfold index_pairs. apply Forall_forall. intros p Hp.
  apply in_map_iff in Hp. destruct Hp as [i [<- _]]. simpl.
  now rewrite Nat2Z.id.
Qed.

(** The index list of a sorted pair list: a permutation of 0..n-1 by which
    the values are read off. *)
Lemma sorted_pairs_indices comp n vals :
  let pairs := std_sort comp (index_pairs n vals) in
  let p := map (fun q : SortPair => Z.to_nat (snd q)) pairs in
  Permutation p (seq 0 (Z.to_nat n))
  /\ map fst pairs = map (fun j => nth j vals Czero) p.
Proof.
  intros pairs p. split.
  - unfold p, pairs. rewrite <- (index_pairs_snd n vals).
    apply Permutation_map, std_sort_perm.
  - unfold p. rewrite map_map. apply map_ext_in. intros q Hq.
    assert (HF := index_pairs_fst n vals).
    rewrite Forall_forall in HF. apply HF.
    eapply Permutation_in; [apply std_sort_perm | exact Hq].
Qed.

(** ** sort_ritzpair *)

Lemma sort_ritzpair_spec s :
  let k := Z.to_nat (nev s) in
  let s' := sort_ritzpair s in
  exists p : list nat,
    Permutation p (seq 0 k)
    /\ firstn k (ritz_val s') = map (fun j => nth j (ritz_val s) Czero) p
    /\ skipn k (ritz_val s') = skipn k (ritz_val s)
    /\ ritz_vec s' = map (fun j => nth j (ritz_vec s) []) p
    /\ ritz_conv s' = map (fun j => nth j (ritz_conv s) false) p
    /\ StronglySorted magn_ge (firstn k (ritz_val s')).
Proof.
  intros k s'.
  destruct (sorted_pairs_indices comp_largest_magn (nev s) (ritz_val s))
    as [Hperm Hfst].
  set (pairs := std_sort comp_largest_magn (index_pairs (nev s) (ritz_val s)))
    in *.
  assert (Hlen : length (map fst pairs) = k).
  { rewrite length_map. unfold pairs.
    now rewrite std_sort_length, index_pairs_length. }
  assert (Hfirst : firstn k (ritz_val s') = map fst pairs).
  { unfold s', sort_ritzpair. simpl. fold pairs. fold k.
    rewrite firstn_app, Hlen, Nat.sub_diag, firstn_O, app_nil_r.
    rewrite <- Hlen. apply firstn_all. }
  exists (map (fun q : SortPair => Z.to_nat (snd q)) pairs).
  split; [exact Hperm|]. split; [now rewrite Hfirst|].
  split.
  { unfold s', sort_ritzpair. simpl. fold pairs. fold k.
    rewrite skipn_app, Hlen, Nat.sub_diag. simpl.
    rewrite <- Hlen at 1. now rewrite skipn_all. }
  split; [unfold s', sort_ritzpair; simpl; now rewrite map_map|].
  split; [unfold s', sort_ritzpair; simpl; now rewrite map_map|].
  rewrite Hfirst. apply std_sort_largest_magn.
Qed.

Lemma nth_map_firstn_app {A B} (f : A -> B) (l : list A) (r : list B)
  k j d d' :
  (j < k)%nat -> (k <= length l)%nat ->
  nth j (map f (firstn k l) ++ r) d' = f (nth j l d).
Proof.
  intros Hj Hk.
  assert (Hlen : length (firstn k l) = k) by (apply firstn_length_le; lia).
  rewrite app_nth1 by (rewrite length_map; lia).
  rewrite (nth_indep _ d' (f d)) by (rewrite length_map; lia).
  rewrite map_nth. f_equal.
  rewrite <- (firstn_skipn k l) at 2.
  now rewrite app_nth1 by lia.
Qed.

Lemma sort_ritzpair_of_spec c s :
  (Z.to_nat (nev s) <= length (ritz_val s))%nat ->
  let k := Z.to_nat (nev s) in
  let s' := sort_ritzpair_of c s in
  exists p : list nat,
    Permutation p (seq 0 k)
    /\ firstn k (ritz_val s')
       = map (fun j => ritz_transform c (nth j (ritz_val s) Czero)) p
    /\ skipn k (ritz_val s') = skipn k (ritz_val s)
    /\ ritz_vec s' = map (fun j => nth j (ritz_vec s) []) p
    /\ ritz_conv s' = map (fun j => nth j (ritz_conv s) false) p
    /\ StronglySorted magn_ge (firstn k (ritz_val s')).
Proof.
  intros Hlen k s'. destruct c as [|sigma].
  - exact (sort_ritzpair_spec s).
  - set (T := fun v => Caddr (Crdiv 1 v) sigma).
    set (st := set_ritz s (map T (firstn k (ritz_val s))
                           ++ skipn k (ritz_val s))
                        (ritz_vec s) (ritz_conv s)).
    change s' with (sort_ritzpair st).
    change (ritz_transform (GenEigsRealShiftSolver sigma)) with T.
    destruct (sort_ritzpair_spec st) as [p [Hp [Hv [Hsk [Hvec [Hc Hs]]]]]].
    change (Z.to_nat (nev st)) with k in *.
    exists p. repeat split; try assumption.
    + rewrite Hv. apply map_ext_in. intros j Hj.
      assert (j < k)%nat.
      { apply (Permutation_in _ Hp) in Hj. apply in_seq in Hj. lia. }
      unfold st. simpl. now apply nth_map_firstn_app.
    + rewrite Hsk. unfold st. simpl.
      assert (Hl : length (map T (firstn k (ritz_val s))) = k)
        by (rewrite length_map; apply firstn_length_le; exact Hlen).
      rewrite skipn_app, Hl, Nat.sub_diag. simpl.
      rewrite <- Hl at 1. now rewrite skipn_all.
Qed.

(** For a value [v] other than zero, [w = 1 / v + sigma] is the complex
    number with [(w - sigma) * v = 1]; the two equations are the real and
    the imaginary part of the product. *)
Lemma shift_invert_inverse (v : Complex) (sigma : Scalar) :
  v <> Czero ->
  let w := Caddr (Crdiv 1 v) sigma in
  (real w - sigma) * real v - imag w * imag v = 1
  /\ (real w - sigma) * imag v + imag w * real v = 0.
Proof.
  intros Hv w. unfold w. clear w. destruct v as [a b].
  unfold Caddr, Crdiv, Cnorm. cbn [real imag].
  assert (Hn : a * a + b * b <> 0).
  { intros H. apply Hv. unfold Czero.
    assert (a = 0) by nra. assert (b = 0) by nra. now subst. }
  unfold Scalar in *. split; field; exact Hn.
Qed.

(** C7.  The final sort of the shift-and-invert solver leaves in front the
    transforms w = 1/theta + sigma of the first nev Ritz values theta, none
    of them zero: each w is the number with (w - sigma) * theta = 1 for one
    original value theta, read off by a permutation of 0..nev-1 that also
    carries the vectors and the flags.  The transformation has been applied
    once, and before the sort: the values in front are ordered by the
    magnitude of the transformed values, as the base sort orders them; the
    values behind are untouched. *)
Theorem shift_sort_ritzpair_transforms_once (sigma : Scalar) (s : Solver) :
  (Z.to_nat (nev s) <= length (ritz_val s))%nat ->
  (forall j, (j < Z.to_nat (nev s))%nat ->
     nth j (ritz_val s) Czero <> Czero) ->
  let k := Z.to_nat (nev s) in
  let s' := shift_sort_ritzpair sigma s in
  exists p : list nat,
    Permutation p (seq 0 k)
    /\ (forall i, (i < k)%nat ->
          let theta := nth (nth i p 0%nat) (ritz_val s) Czero in
          let w := nth i (ritz_val s') Czero in
          (real w - sigma) * real theta - imag w * imag theta = 1
          /\ (real w - sigma) * imag theta + imag w * real theta = 0)
    /\ skipn k (ritz_val s') = skipn k (ritz_val s)
    /\ ritz_vec s' = map (fun j => nth j (ritz_vec s) []) p
    /\ ritz_conv s' = map (fun j => nth j (ritz_conv s) false) p
    /\ StronglySorted magn_ge (firstn k (ritz_val s')).
Proof.
  intros Hlen Hnz k s'.
  destruct (sort_ritzpair_of_spec (GenEigsRealShiftSolver sigma) s Hlen)
    as [p [Hp [Hv [Hsk [Hvec [Hc Hs]]]]]].
  fold k in Hp, Hv, Hsk, Hs. change (sort_ritzpair_of _ s) with s' in *.
  exists p. split; [exact Hp|]. split; [|now repeat split].
  intros i Hi theta w.
  assert (Hpl : length p = k)
    by (rewrite (Permutation_length Hp); apply length_seq).
  assert (Hj : (nth i p 0 < k)%nat).
  { assert (In (nth i p 0%nat) (seq 0 k))
      by (apply (Permutation_in _ Hp), nth_In; lia).
    apply in_seq in H. lia. }
  assert (Hw : w = Caddr (Crdiv 1 theta) sigma).
  { unfold w. rewrite <- (firstn_skipn k (ritz_val s')).
    rewrite app_nth1 by (rewrite Hv, length_map; lia).
    rewrite Hv.
    rewrite (nth_indep _ Czero
               (ritz_transform (GenEigsRealShiftSolver sigma)
                  (nth 0%nat (ritz_val s) Czero)))
      by (rewrite length_map; lia).
    rewrite (map_nth (fun j => ritz_transform (GenEigsRealShiftSolver sigma)
                                 (nth j (ritz_val s) Czero)) p 0%nat i).
    reflexivity. }
  rewrite Hw. apply shift_invert_inverse. apply Hnz. exact Hj.
Qed.

Lemma shift_sort_ritzpair_transforms_once_witness :
  let s' := shift_sort_ritzpair 3 solver_2_6 in
  exists p : list nat,
    Permutation p (seq 0 2)
    /\ (forall i, (i < 2)%nat ->
          let theta := nth (nth i p 0%nat) (ritz_val solver_2_6) Czero in
          let w := nth i (ritz_val s') Czero in
          (real w - 3) * real theta - imag w * imag theta = 1
          /\ (real w - 3) * imag theta + imag w * real theta = 0)
    /\ StronglySorted magn_ge (firstn 2 (ritz_val s')).
Proof.
  destruct (shift_sort_ritzpair_transforms_once 3 solver_2_6)
    as [p [Hp [Hv [_ [_ [_ Hs]]]]]].
  - simpl. lia.
  - intros j Hj. change (Z.to_nat (nev solver_2_6)) with 2%nat in Hj.
    destruct j as [|[|j]]; [| |lia]; cbn; unfold C, Czero; intros E;
      injection E; intros; lra.
  - exists p. split; [exact Hp|]. split; [exact Hv | exact Hs].
Defined.

(** ** Loops and what the passes leave alone *)

Lemma for_n_inv {S} (P : S -> Prop) (body : Z -> S -> S) :
  (forall i s, P s -> P (body i s)) ->
  forall n i s, P s -> P (for_n n i body s).
Proof.
  intros Hbody. induction n as [|n IH]; simpl; intros i s Hs.
  - exact Hs.
  - apply IH, Hbody, Hs.
Qed.

Lemma for_n_app {S} (body : Z -> S -> S) (a b : nat) (i : Z) (s : S) :
  for_n (a + b) i body s
  = for_n b (i + Z.of_nat a) body (for_n a i body s).
Proof.
  revert i s. induction a as [|a IH]; intros i s.
  - simpl. now rewrite Z.add_0_r.
  - simpl for_n at 1. simpl for_n at 3. rewrite IH. f_equal. lia.
Qed.

Lemma for_loop_split {S} (body : Z -> S -> S) (lo mid hi : Z) (s : S) :
  (lo <= mid <= hi)%Z ->
  for_loop lo hi body s = for_loop mid hi body (for_loop lo mid body s).
Proof.
  intros H. unfold for_loop.
  replace (Z.to_nat (hi - lo)) with (Z.to_nat (mid - lo) + Z.to_nat (hi - mid))%nat
    by lia.
  rewrite for_n_app. f_equal. lia.
Qed.

Lemma for_loop_step {S} (body : Z -> S -> S) (lo hi : Z) (s : S) :
  (lo < hi)%Z ->
  for_loop lo hi body s = for_loop (lo + 1) hi body (body lo s).
Proof.
  intros H. unfold for_loop.
  replace (Z.to_nat (hi - lo)) with (Datatypes.S (Z.to_nat (hi - (lo + 1)))) by lia.
  reflexivity.
Qed.

Lemma same_shape_refl s : same_shape s s.
Proof. now repeat split. Qed.

Lemma same_shape_trans s1 s2 s3 :
  same_shape s1 s2 -> same_shape s2 s3 -> same_shape s1 s3.
Proof. unfold same_shape. intuition congruence. Qed.

Lemma same_ritz_refl s : same_ritz s s.
Proof. unfold same_ritz. auto using same_shape_refl. Qed.

Lemma same_ritz_trans s1 s2 s3 :
  same_ritz s1 s2 -> same_ritz s2 s3 -> same_ritz s1 s3.
Proof.
  unfold same_ritz. intros [A1 [B1 [C1 [D1 E1]]]] [A2 [B2 [C2 [D2 E2]]]].
  split; [eapply same_shape_trans; eassumption|].
  repeat split; congruence.
Qed.

Lemma factorize_step_same_ritz env i s :
  same_ritz s (factorize_step env i s).
Proof. unfold same_ritz, same_shape. now repeat split. Qed.

Lemma factorize_from_same_ritz env from_k to_m fk s :
  same_ritz s (factorize_from env from_k to_m fk s).
Proof.
  unfold factorize_from. destruct (to_m <=? from_k)%Z.
  - apply same_ritz_refl.
  - unfold for_loop, factorize_init. apply (for_n_inv (same_ritz s)).
    + intros i s' Hs'. eapply same_ritz_trans; [exact Hs'|].
      apply factorize_step_same_ritz.
    + unfold same_ritz, same_shape. now repeat split.
Qed.

Lemma retrieve_ritzpair_shape env s :
  same_shape s (retrieve_ritzpair env s)
  /\ length (ritz_val (retrieve_ritzpair env s)) = Z.to_nat (ncv s)
  /\ ritz_conv (retrieve_ritzpair env s) = ritz_conv s
  /\ niter (retrieve_ritzpair env s) = niter s.
Proof.
  unfold retrieve_ritzpair.
  destruct (eigen_solver env (ncv s) (fac_H s)) as [evals evecs]. simpl.
  split; [now repeat split|]. split; [|now split].
  now rewrite length_map, std_sort_length, index_pairs_length.
Qed.

Arguments restart_pair : simpl never.
Arguments restart_real : simpl never.
Arguments factorize_from : simpl never.
Arguments factorize_step : simpl never.
Arguments retrieve_ritzpair : simpl never.
Arguments num_converged : simpl never.
Arguments nev_adjusted : simpl never.
Arguments restart : simpl never.

Lemma restart_pair_shape env mu s em :
  same_ritz s (fst (restart_pair env mu s em)).
Proof. unfold same_ritz, same_shape. now repeat split. Qed.

Lemma restart_real_shape env mu s em :
  same_ritz s (fst (restart_real env mu s em)).
Proof. unfold same_ritz, same_shape. now repeat split. Qed.

Lemma restart_loop_shape env fuel :
  forall i s em s' em',
    restart_loop env fuel i s em = Ok (s', em') -> same_ritz s s'.
Proof.
  induction fuel as [|fuel IH]; intros i s em s' em' H;
    cbn [restart_loop] in H.
  - injection H as <- <-. apply same_ritz_refl.
  - destruct (ncv s <=? i)%Z.
    { injection H as <- <-. apply same_ritz_refl. }
    unfold bind in H.
    destruct (get (ritz_val s) i) as [vi|]; [|discriminate].
    assert (Hreal : forall r,
      (let (s0, em0) := restart_real env vi s em in
       restart_loop env fuel (i + 1) s0 em0) = r ->
      r = Ok (s', em') -> same_ritz s s').
    { intros r <-. pose proof (restart_real_shape env vi s em) as Hs.
      destruct (restart_real env vi s em) as [s0 em0]. intros Hr.
      eapply same_ritz_trans; [exact Hs | eapply IH; exact Hr]. }
    destruct (is_complex vi (prec s)).
    + destruct (get (ritz_val s) (i + 1)) as [vj|]; [|discriminate].
      destruct (is_conj vi vj (prec s)).
      * pose proof (restart_pair_shape env vi s em) as Hs.
        destruct (restart_pair env vi s em) as [s0 em0].
        eapply same_ritz_trans; [exact Hs | eapply IH; exact H].
      * eapply Hreal; [reflexivity | exact H].
    + eapply Hreal; [reflexivity | exact H].
Qed.

Lemma restart_shape env k s s' :
  restart env k s = Ok s' ->
  length (ritz_val s) = Z.to_nat (ncv s) ->
  same_shape s s' /\ length (ritz_val s') = Z.to_nat (ncv s')
  /\ ritz_conv s' = ritz_conv s /\ niter s' = niter s.
Proof.
  unfold restart. intros H Hlen. destruct (ncv s <=? k)%Z.
  - injection H as <-. split; [apply same_shape_refl|]. now repeat split.
  - unfold bind in H.
    destruct (restart_loop env _ k s _) as [[s1 em1]|] eqn:E; [|discriminate].
    injection H as <-.
    apply restart_loop_shape in E.
    pose proof (factorize_from_same_ritz env k (ncv s1)
      (fun r => fac_f s1 r * em1 (k - 1)%Z + fac_V s1 r k * fac_H s1 k (k - 1)%Z)
      s1) as HF.
    set (s2 := factorize_from env k (ncv s1) _ s1) in *.
    destruct (retrieve_ritzpair_shape env s2) as [HR [HL [HC HN]]].
    destruct E as [E1 [_ [_ [E4 E5]]]]. destruct HF as [F1 [_ [_ [F4 F5]]]].
    assert (HS : same_shape s (retrieve_ritzpair env s2)).
    { eapply same_shape_trans; [exact E1|].
      eapply same_shape_trans; [exact F1 | exact HR]. }
    split; [exact HS|]. split.
    + rewrite HL. destruct HR as [_ [-> _]]. reflexivity.
    + split; congruence.
Qed.

Lemma num_converged_shape tol s :
  same_shape s (fst (num_converged tol s))
  /\ ritz_val (fst (num_converged tol s)) = ritz_val s
  /\ ritz_vec (fst (num_converged tol s)) = ritz_vec s
  /\ niter (fst (num_converged tol s)) = niter s.
Proof. unfold same_shape. now repeat split. Qed.

Lemma compute_loop_shape env passes :
  forall i nconv tol s s' i' nconv',
    compute_loop env passes i nconv tol s = Ok (s', i', nconv') ->
    length (ritz_val s) = Z.to_nat (ncv s) ->
    same_shape s s' /\ length (ritz_val s') = Z.to_nat (ncv s')
    /\ niter s' = niter s.
Proof.
  induction passes as [|passes IH]; intros i nconv tol s s' i' nconv' H Hlen;
    cbn [compute_loop] in H.
  - injection H as <- <- <-. split; [apply same_shape_refl|]. now split.
  - destruct (num_converged_shape tol s) as [N1 [N2 [N3 N4]]].
    destruct (num_converged tol s) as [s1 nconv1] eqn:E. simpl in *.
    destruct (nev s1 <=? nconv1)%Z.
    + injection H as <- <- <-. split; [exact N1|]. split; [|exact N4].
      rewrite N2. destruct N1 as [_ [-> _]]. exact Hlen.
    + unfold bind in H.
      destruct (nev_adjusted s1 nconv1) as [nev_adj|]; [|discriminate].
      destruct (restart env nev_adj s1) as [s2|] eqn:ER; [|discriminate].
      apply restart_shape in ER.
      2:{ rewrite N2. destruct N1 as [_ [-> _]]. exact Hlen. }
      destruct ER as [R1 [R2 [_ R4]]].
      apply IH in H; [|exact R2]. destruct H as [H1 [H2 H3]].
      split; [|split; [exact H2 | congruence]].
      eapply same_shape_trans; [exact N1|].
      eapply same_shape_trans; [exact R1 | exact H1].
Qed.

Lemma compute_iterate_shape env nconv_init maxit tol s s' i nconv :
  compute_iterate env nconv_init maxit tol s = Ok (s', i, nconv) ->
  same_shape s s' /\ length (ritz_val s') = Z.to_nat (ncv s')
  /\ niter s' = niter s.
Proof.
  unfold compute_iterate. intros H.
  pose proof (factorize_from_same_ritz env 1 (ncv s) (fac_f s) s) as HF.
  set (s0 := factorize_from env 1 (ncv s) (fac_f s) s) in *.
  destruct (retrieve_ritzpair_shape env s0) as [HR [HL [_ HN]]].
  apply compute_loop_shape in H.
  2:{ rewrite HL. destruct HR as [_ [-> _]]. reflexivity. }
  destruct H as [H1 [H2 H3]]. destruct HF as [F1 [_ [_ [_ F5]]]].
  split; [|split; [exact H2 | congruence]].
  eapply same_shape_trans; [exact F1|].
  eapply same_shape_trans; [exact HR | exact H1].
Qed.

(** ** compute *)

(** C6.  When [compute] returns, on an object of either class and whatever
    comparator the selection rule gave the iteration, the first nev Ritz
    values are in decreasing order of magnitude, and one permutation of
    0..nev-1 reads values, vectors and flags off the object as the
    iteration left it (the values through the transformation of the
    class). *)
Theorem compute_final_order (env : Env) (c : SolverClass)
  (nconv_init maxit : Z) (tol : Scalar) (s s' : Solver) (r : Z) :
  (0 <= nev s <= ncv s)%Z ->
  compute env c nconv_init maxit tol s = Ok (s', r) ->
  let k := Z.to_nat (nev s) in
  StronglySorted magn_ge (firstn k (ritz_val s'))
  /\ exists (s0 : Solver) (i nconv : Z) (p : list nat),
       compute_iterate env nconv_init maxit tol s = Ok (s0, i, nconv)
       /\ Permutation p (seq 0 k)
       /\ firstn k (ritz_val s')
          = map (fun j => ritz_transform c (nth j (ritz_val s0) Czero)) p
       /\ ritz_vec s' = map (fun j => nth j (ritz_vec s0) []) p
       /\ ritz_conv s' = map (fun j => nth j (ritz_conv s0) false) p.
Proof.
  intros Hnev H k. unfold compute, bind in H.
  destruct (compute_iterate env nconv_init maxit tol s)
    as [[[s0 i] nconv]|] eqn:E; [|discriminate].
  injection H as <- <-.
  destruct (compute_iterate_shape _ _ _ _ _ _ _ _ E) as [[Hn [Hm _]] [Hlen _]].
  destruct (sort_ritzpair_of_spec c s0) as [p [Hp [Hv [_ [Hvec [Hc Hs]]]]]].
  { rewrite Hlen, Hn, Hm. lia. }
  rewrite Hn in *. fold k in Hp, Hv, Hs.
  split; [exact Hs|].
  exists s0, i, nconv, p. repeat split; assumption.
Qed.

(** C10.  With [maxit = 0] the loop body is never run, [nconv] is never
    assigned, and the value returned is the minimum of nev and whatever the
    variable held: it is not determined by the object and the arguments.
    One restart iteration is counted all the same. *)
Theorem compute_maxit_zero (env : Env) (c : SolverClass) (nconv_init : Z)
  (tol : Scalar) (s : Solver) :
  exists s' : Solver,
    compute env c nconv_init 0 tol s = Ok (s', Z.min (nev s) nconv_init)
    /\ niter s' = (niter s + 1)%Z
    /\ compute_iterate env nconv_init 0 tol s
       = Ok (retrieve_ritzpair env (factorize_from env 1 (ncv s) (fac_f s) s),
             0%Z, nconv_init).
Proof.
  unfold compute, compute_iterate. cbn [Z.to_nat compute_loop bind].
  set (s1 := retrieve_ritzpair env (factorize_from env 1 (ncv s) (fac_f s) s)).
  assert (Hs1 : same_shape s s1 /\ niter s1 = niter s).
  { destruct (retrieve_ritzpair_shape env
               (factorize_from env 1 (ncv s) (fac_f s) s)) as [HR [_ [_ HN]]].
    destruct (factorize_from_same_ritz env 1 (ncv s) (fac_f s) s)
      as [F1 [_ [_ [_ F5]]]].
    split; [eapply same_shape_trans; eassumption | unfold s1; congruence]. }
  destruct Hs1 as [[Hn _] Hi].
  assert (Hsort : nev (sort_ritzpair_of c s1) = nev s1
                  /\ niter (sort_ritzpair_of c s1) = niter s1)
    by (destruct c; split; reflexivity).
  destruct Hsort as [Hn2 Hi2].
  eexists. split; [|split; [|reflexivity]].
  - rewrite Hn2, Hn. reflexivity.
  - simpl. rewrite Hi2, Hi. reflexivity.
Qed.

(** ** num_converged *)

Lemma filter_map_length {A B} (f : B -> bool) (g : A -> B) (l : list A) :
  length (filter f (map g l)) = length (filter (fun a => f (g a)) l).
Proof.
  induction l as [|a l IH]; simpl; [reflexivity|].
  destruct (f (g a)); simpl; now rewrite IH.
Qed.

(** The sum of the flags counts the indices that are marked. *)
Lemma count_true_marked l :
  count_true l
  = Z.of_nat (length (filter (fun i => nth i l false) (seq 0 (length l)))).
Proof.
  induction l as [|b l IH]; [reflexivity|].
  cbn [count_true fold_right length seq filter nth].
  fold (count_true l). rewrite IH, <- seq_shift.
  destruct b; cbn [length]; rewrite filter_map_length; cbn [nth]; lia.
Qed.

Lemma nth_map_in {A B} (f : A -> B) (l : list A) i d d' :
  (i < length l)%nat -> nth i (map f l) d' = f (nth i l d).
Proof.
  intros H. rewrite (nth_indep _ d' (f d)) by (rewrite length_map; lia).
  apply map_nth.
Qed.

(** C3.  [num_converged(tol)] sets the flag of the wanted pair i, for
    0 <= i < nev, exactly when |y_i[m-1]| * ||f|| < tol * max(prec,
    |theta_i|), with y_i the i-th retained Ritz vector, m = ncv and
    prec = epsilon^(2/3); it returns the number of flags set. *)
Theorem num_converged_marks (tol : Scalar) (s : Solver) :
  (Z.to_nat (nev s) <= length (ritz_val s))%nat ->
  length (ritz_vec s) = Z.to_nat (nev s) ->
  let k := Z.to_nat (nev s) in
  let s' := fst (num_converged tol s) in
  length (ritz_conv s') = k
  /\ (forall i, (i < k)%nat ->
        nth i (ritz_conv s') false = true
        <-> Cabs (nth (Z.to_nat (ncv s - 1)) (nth i (ritz_vec s) []) Czero)
            * vnorm (dim_n s) (fac_f s)
            < tol * Rmax (prec s) (Cabs (nth i (ritz_val s) Czero)))
  /\ snd (num_converged tol s)
     = Z.of_nat (length (filter (fun i => nth i (ritz_conv s') false)
                                (seq 0 k))).
Proof.
  intros Hval Hvec k s'.
  assert (Hr : length (conv_resid s) = k)
    by (unfold conv_resid; now rewrite length_map).
  assert (Ht : length (conv_thresh tol s) = k).
  { unfold conv_thresh. rewrite length_map. now apply firstn_length_le. }
  assert (Hc : length (ritz_conv s') = k).
  { unfold s', num_converged. simpl.
    rewrite length_map, length_combine, Hr, Ht. apply Nat.min_id. }
  split; [exact Hc|]. split.
  - intros i Hi. unfold s', num_converged. simpl.
    rewrite (nth_map_in _ _ _ (0, 0)) by (rewrite length_combine; lia).
    rewrite combine_nth by congruence. simpl.
    rewrite Rltb_true.
    unfold conv_resid, conv_thresh.
    rewrite (nth_map_in _ _ _ []) by lia.
    rewrite (nth_map_in _ _ _ Czero)
      by (rewrite firstn_length_le; [exact Hi | exact Hval]).
    rewrite Rmax_comm.
    replace (nth i (firstn (Z.to_nat (nev s)) (ritz_val s)) Czero)
      with (nth i (ritz_val s) Czero); [reflexivity|].
    rewrite <- (firstn_skipn (Z.to_nat (nev s)) (ritz_val s)) at 1.
    apply app_nth1. rewrite firstn_length_le; [exact Hi | exact Hval].
  - change (snd (num_converged tol s)) with (count_true (ritz_conv s')).
    rewrite count_true_marked. now rewrite Hc.
Qed.

Lemma num_converged_marks_witness :
  length (ritz_conv (fst (num_converged 1 solver_2_6))) = 2%nat.
Proof.
  apply (num_converged_marks 1 solver_2_6); simpl; [lia | reflexivity].
Defined.

(** ** init *)

(** C8 fails.  [init()] subtracts one half from a sample of
    [Vector::Random], whose coefficients lie between -1 and 1, not between
    0 and 1: wherever the sample is negative the residual passed on to
    [init] is below -0.5, outside the interval [-0.5, 0.5]. *)
Theorem init_random_not_centered (env : Env) (random : Vector) (s : Solver)
  (i : Z) :
  -1 <= random i < 0 ->
  init_random env random s = init env (random_resid random) s
  /\ - (15 / 10) <= random_resid random i < - (5 / 10)
  /\ ~ (- (5 / 10) <= random_resid random i <= 5 / 10).
Proof.
  intros H. split; [reflexivity|]. unfold random_resid. split; lra.
Qed.

Lemma init_random_not_centered_witness :
  -1 <= random_low 0%Z < 0
  /\ ~ (- (5 / 10) <= random_resid random_low 0%Z <= 5 / 10).
Proof.
  assert (H : -1 <= random_low 0%Z < 0) by (unfold random_low; lra).
  split; [exact H|].
  exact (proj2 (proj2 (init_random_not_centered env_id random_low solver_2_6
                         0%Z H))).
Defined.

(** ** factorize_from *)

Lemma in_range_true lo hi i : (lo <= i < hi)%Z -> in_range lo hi i = true.
Proof.
  intros H. unfold in_range. apply andb_true_iff.
  split; [apply Z.leb_le | apply Z.ltb_lt]; lia.
Qed.

Lemma factorize_step_V env i s r :
  (0 <= r < dim_n s)%Z ->
  fac_V (factorize_step env i s) r i
  = fac_f s r / vnorm (dim_n s) (fac_f s).
Proof.
  intros H. unfold factorize_step. simpl. unfold set_col.
  now rewrite Z.eqb_refl, in_range_true.
Qed.

Lemma factorize_step_H env i s :
  fac_H (factorize_step env i s) i (i - 1)%Z = vnorm (dim_n s) (fac_f s).
Proof.
  unfold factorize_step. simpl. unfold set_col, set_entry.
  replace (i - 1 =? i)%Z with false by (symmetry; apply Z.eqb_neq; lia).
  simpl. now rewrite !Z.eqb_refl.
Qed.

(** A pass for a later column leaves column [j] of [fac_V] and the entry
    [(j, j - 1)] of [fac_H] as they are. *)
Lemma factorize_step_frame env i j s :
  (j < i)%Z ->
  (forall r, fac_V (factorize_step env i s) r j = fac_V s r j)
  /\ fac_H (factorize_step env i s) j (j - 1)%Z = fac_H s j (j - 1)%Z.
Proof.
  intros Hlt. unfold factorize_step. simpl.
  unfold set_col, set_entry, block_setZero, in_range.
  assert (E1 : (j =? i)%Z = false) by (apply Z.eqb_neq; lia).
  assert (E2 : (j - 1 =? i)%Z = false) by (apply Z.eqb_neq; lia).
  assert (E3 : (i <=? j)%Z = false) by (apply Z.leb_gt; lia).
  split; [intros r|]; now rewrite ?E1, ?E2, ?E3.
Qed.

Lemma factorize_passes_frame env j n :
  forall i s, (j < i)%Z ->
    (forall r, fac_V (for_n n i (factorize_step env) s) r j = fac_V s r j)
    /\ fac_H (for_n n i (factorize_step env) s) j (j - 1)%Z = fac_H s j (j - 1)%Z.
Proof.
  induction n as [|n IH]; intros i s Hlt; cbn [for_n]; [now split|].
  destruct (IH (i + 1)%Z (factorize_step env i s)) as [HV HH]; [lia|].
  destruct (factorize_step_frame env i j s Hlt) as [FV FH].
  split; [intros r; now rewrite HV, FV | now rewrite HH, FH].
Qed.

Lemma factorize_passes_nmatop env n :
  forall i s,
    nmatop (for_n n i (factorize_step env) s) = (nmatop s + Z.of_nat n)%Z.
Proof.
  induction n as [|n IH]; intros i s; cbn [for_n]; [lia|].
  rewrite IH. unfold factorize_step. simpl. lia.
Qed.

Lemma factorize_before_dim env from_k i fk s :
  dim_n (factorize_before env from_k i fk s) = dim_n s.
Proof.
  unfold factorize_before, for_loop.
  apply (for_n_inv (fun s' => dim_n s' = dim_n s)); [|reflexivity].
  intros j s' Hs'. exact Hs'.
Qed.

(** What the passes of [factorize_from] do, each of them. *)
Lemma factorize_from_passes (env : Env) (from_k to_m : Z)
  (fk : Vector) (s : Solver) :
  (from_k < to_m)%Z ->
  let s' := factorize_from env from_k to_m fk s in
  nmatop s' = (nmatop s + (to_m - from_k))%Z
  /\ forall i, (from_k <= i < to_m)%Z ->
       let f := fac_f (factorize_before env from_k i fk s) in
       let beta := vnorm (dim_n s) f in
       (forall r, (0 <= r < dim_n s)%Z -> fac_V s' r i = f r / beta)
       /\ fac_H s' i (i - 1)%Z = beta.
Proof.
  intros Hlt s'. unfold s', factorize_from.
  replace (to_m <=? from_k)%Z with false by (symmetry; apply Z.leb_gt; lia).
  split.
  - unfold for_loop. rewrite factorize_passes_nmatop.
    unfold factorize_init. simpl. lia.
  - intros i Hi. cbv zeta.
    rewrite (for_loop_split _ from_k i to_m) by lia.
    fold (factorize_before env from_k i fk s).
    rewrite (for_loop_step _ i to_m) by lia.
    set (si := factorize_before env from_k i fk s) in *.
    set (f := fac_f si). set (beta := vnorm (dim_n s) f).
    assert (Hd : dim_n si = dim_n s) by apply factorize_before_dim.
    destruct (factorize_passes_frame env i (Z.to_nat (to_m - (i + 1)))
                (i + 1)%Z (factorize_step env i si)) as [HV HH]; [lia|].
    split.
    + intros r Hr. unfold for_loop. rewrite HV.
      rewrite factorize_step_V by lia. unfold beta, f. now rewrite Hd.
    + unfold for_loop. rewrite HH, factorize_step_H.
      unfold beta, f. now rewrite Hd.
Qed.

(** C2, as the code has it.  [factorize_from] has no breakdown test and no
    early return.  Whenever [from_k < to_m] the operator is applied
    [to_m - from_k] times, once in each pass; and each pass i up to which
    the norms of the residuals are not zero, be the norm beta it finds above
    the threshold or not, stores residual / beta as column i of [fac_V] and
    beta as [fac_H(i, i - 1)]. *)
Theorem factorize_from_unconditional (env : Env) (from_k to_m : Z)
  (fk : Vector) (s : Solver) :
  (from_k < to_m)%Z ->
  let s' := factorize_from env from_k to_m fk s in
  nmatop s' = (nmatop s + (to_m - from_k))%Z
  /\ forall i, (from_k <= i < to_m)%Z ->
       no_breakdown env from_k (i + 1) fk s ->
       let f := fac_f (factorize_before env from_k i fk s) in
       let beta := vnorm (dim_n s) f in
       (forall r, (0 <= r < dim_n s)%Z -> fac_V s' r i = f r / beta)
       /\ fac_H s' i (i - 1)%Z = beta.
Proof.
  intros Hlt s'.
  destruct (factorize_from_passes env from_k to_m fk s Hlt) as [Hn Hp].
  split; [exact Hn|]. intros i Hi _. exact (Hp i Hi).
Qed.

Lemma vnorm_zero n : vnorm n (fun _ => 0) = 0.
Proof.
  unfold vnorm, dot, sumZ.
  assert (H : forall k, sum_n k (fun _ : Z => 0 * 0) = 0).
  { induction k as [|k IH]; simpl; [reflexivity | rewrite IH; ring]. }
  rewrite H. apply sqrt_0.
Qed.

(** The residual of [solver_shear] has norm prec / 2. *)
Lemma solver_shear_beta :
  vnorm (dim_n solver_shear) (fac_f solver_shear) = prec_arnoldi / 2.
Proof.
  pose proof prec_arnoldi_bounds as Hp.
  unfold vnorm, dot, sumZ. cbn [dim_n fac_f solver_shear].
  change (Z.to_nat 2) with 2%nat. cbn [sum_n].
  change (Z.of_nat 0) with 0%Z. change (Z.of_nat 1) with 1%Z.
  cbn [Z.eqb Pos.eqb].
  replace (0 + 0 * 0 + prec_arnoldi / 2 * (prec_arnoldi / 2))
    with (prec_arnoldi / 2 * (prec_arnoldi / 2)) by ring.
  apply sqrt_square. lra.
Qed.

Lemma solver_shear_no_breakdown :
  no_breakdown env_shear 1 2 (fac_f solver_shear) solver_shear.
Proof.
  intros i Hi. assert (i = 1%Z) as -> by lia.
  unfold factorize_before, for_loop. cbn [Z.sub Z.to_nat for_n Z.opp Z.add
    Z.pos_sub Pos.pred_double].
  change (Z.to_nat (1 - 1)) with 0%nat. cbn [for_n].
  change (fac_f (factorize_init 1 (fac_f solver_shear) solver_shear))
    with (fac_f solver_shear).
  rewrite solver_shear_beta. pose proof prec_arnoldi_bounds. lra.
Qed.

Lemma factorize_from_unconditional_witness :
  let s := solver_shear in
  let s' := factorize_from env_shear 1 2 (fac_f s) s in
  nmatop s' = (nmatop s + (2 - 1))%Z
  /\ fac_H s' 1%Z 0%Z = prec_arnoldi / 2.
Proof.
  intros s s'.
  destruct (factorize_from_unconditional env_shear 1 2 (fac_f s) s
              ltac:(lia)) as [Hn Hp].
  split; [exact Hn|].
  destruct (Hp 1%Z ltac:(lia) solver_shear_no_breakdown) as [_ HH].
  change (fac_H s' (1 - 1 + 1)%Z (1 - 1)%Z = prec_arnoldi / 2).
  cbv zeta in HH. rewrite <- solver_shear_beta. exact HH.
Defined.

(** C2 as stated fails.  On the shear of the plane, started from (1, 0),
    [factorize_from(1, 2, f)] finds the residual norm beta = prec / 2, not
    zero and below the threshold; it does not return: the operator is
    applied once more, beta is stored in [fac_H(1, 0)] and the quotient
    residual / beta, the vector (0, 1), in column 1 of [fac_V]. *)
Lemma factorize_from_breakdown_ignored :
  let s := solver_shear in
  let beta := vnorm (dim_n s) (fac_f s) in
  let s' := factorize_from env_shear 1 2 (fac_f s) s in
  0 < beta /\ beta <= prec s
  /\ nmatop s' = (nmatop s + 1)%Z
  /\ fac_H s' 1%Z 0%Z = beta
  /\ forall r, (0 <= r < 2)%Z ->
       fac_V s' r 1%Z = fac_f s r / beta
       /\ fac_V s' r 1%Z = if (r =? 1)%Z then 1 else 0.
Proof.
  intros s beta s'. pose proof prec_arnoldi_bounds as Hb.
  assert (Hbeta : beta = prec_arnoldi / 2) by apply solver_shear_beta.
  destruct (factorize_from_passes env_shear 1 2 (fac_f s) s) as [Hn Hp];
    [lia|].
  destruct (Hp 1%Z) as [HV HH]; [lia|].
  split; [rewrite Hbeta; lra|].
  split; [rewrite Hbeta; change (prec s) with prec_arnoldi; lra|].
  split; [exact Hn|]. split; [exact HH|].
  intros r Hr.
  assert (E : fac_V s' r 1%Z = fac_f s r / beta) by exact (HV r Hr).
  split; [exact E|]. rewrite E, Hbeta. cbn [fac_f s solver_shear].
  destruct (Z.eqb_spec r 1); [field; lra | unfold Rdiv; ring].
Qed.

(** With a subspace of two vectors, which the constructor accepts for
    nev = 1, the cap ncv - 2 is 0 and the last test reads [ritz_val[-1]]. *)
Lemma nev_adjusted_two_vectors s nconv :
  nev s = 1%Z -> ncv s = 2%Z -> length (ritz_val s) = 2%nat ->
  (0 <= nconv)%Z ->
  nev_adjusted s nconv = Fail OutOfRange.
Proof.
  intros Hn Hm Hlen Hc. unfold nev_adjusted. rewrite Hn, Hm.
  destruct (conj_pair_at_total s (1 - 1)) as [b1 ->]; [lia|lia|].
  cbn [bind].
  set (k1 := if b1 then (1 + 1)%Z else 1%Z).
  assert (Hk1 : (1 <= k1 <= 2)%Z) by (unfold k1; destruct b1; lia).
  rewrite (Z.quot_div_nonneg (2 - k1) 2) by lia.
  set (k2 := (k1 + Z.min nconv ((2 - k1) / 2))%Z).
  assert (Hk2 : (1 <= k2)%Z).
  { unfold k2. assert (0 <= (2 - k1) / 2)%Z by (apply Z.div_pos; lia). lia. }
  change (6 <=? 2)%Z with false. change (3 <? 2)%Z with false.
  rewrite !andb_false_r.
  replace (2 - 2 <? k2)%Z with true by (symmetry; apply Z.ltb_lt; lia).
  unfold conj_pair_at. rewrite get_out by lia. reflexivity.
Qed.

(** C5 fails on a subspace of two vectors.  The constructor accepts
    nev = 1 with ncv = 2 for every operator of two rows or more; on such an
    object, whatever the Ritz values and for every [nconv >= 0], the cap
    ncv - 2 brings the width down to 0 and the last test of a conjugate pair
    reads [ritz_val[-1]]: no value of the heuristic is returned. *)
Theorem nev_adjusted_reads_before_start (rows : Z) (s : Solver) (nconv : Z) :
  (2 <= rows)%Z -> new_solver rows 1 2 = Ok s ->
  forall (val : list Complex) (vec : list (list Complex)) (conv : list bool),
    length val = 2%nat -> (0 <= nconv)%Z ->
    nev_adjusted (set_ritz s val vec conv) nconv = Fail OutOfRange.
Proof.
  intros Hr Hs val vec conv Hlen Hc.
  unfold new_solver in Hs.
  replace ((1 <? 1) || (rows <=? 1))%Z%bool with false in Hs
    by (symmetry; apply orb_false_iff; split;
        [reflexivity | apply Z.leb_gt; lia]).
  change (2 <=? 1)%Z with false in Hs. cbv iota in Hs.
  injection Hs as <-.
  apply nev_adjusted_two_vectors; try assumption; cbn [nev ncv set_ritz].
  - reflexivity.
  - destruct (Z.ltb_spec rows 2); [lia | reflexivity].
Qed.

Lemma nev_adjusted_reads_before_start_witness :
  exists s, new_solver 2 1 2 = Ok s
            /\ nev_adjusted (set_ritz s [C 2 0; C 1 0] [[C 1 0; C 0 0]]
                                      [false]) 0
               = Fail OutOfRange.
Proof.
  eexists. split; [reflexivity|].
  apply (nev_adjusted_reads_before_start 2 _ 0 ltac:(lia) eq_refl);
    [reflexivity | lia].
Defined.

(** ** restart *)

Lemma is_complex_real x : is_complex (C x 0) prec_arnoldi = false.
Proof.
  unfold is_complex. simpl. apply Rltb_false. rewrite Rabs_R0.
  apply Rlt_le, prec_arnoldi_bounds.
Qed.

Lemma is_complex_unit x y :
  1 <= Rabs y -> is_complex (C x y) prec_arnoldi = true.
Proof.
  intros H. unfold is_complex. simpl. apply Rltb_true.
  pose proof prec_arnoldi_bounds. lra.
Qed.

Lemma is_conj_far v1 v2 :
  1 <= Cnorm (Csub v1 (Cconj v2)) -> is_conj v1 v2 prec_arnoldi = false.
Proof.
  intros H. unfold is_conj. apply Rltb_false. unfold Cabs.
  pose proof prec_arnoldi_bounds.
  apply Rle_trans with 1; [lra|].
  rewrite <- sqrt_1. now apply sqrt_le_1_alt.
Qed.

(** The loop of [restart] reaches the last index with a complex value there:
    the test reads one past the end. *)
Lemma restart_loop_last_complex env fuel s em v :
  get (ritz_val s) (ncv s - 1) = Ok v ->
  Z.of_nat (length (ritz_val s)) = ncv s ->
  is_complex v (prec s) = true ->
  restart_loop env (S fuel) (ncv s - 1) s em = Fail OutOfRange.
Proof.
  intros Hget Hlen Hc. cbn [restart_loop].
  replace (ncv s <=? ncv s - 1)%Z with false
    by (symmetry; apply Z.leb_gt; lia).
  rewrite Hget. cbn [bind]. rewrite Hc.
  replace (ncv s - 1 + 1)%Z with (ncv s) by lia.
  rewrite get_out by lia. reflexivity.
Qed.

Lemma restart_loop_real_step env fuel i s em v :
  (i < ncv s)%Z ->
  get (ritz_val s) i = Ok v ->
  is_complex v (prec s) = false ->
  restart_loop env (S fuel) i s em
  = restart_loop env fuel (i + 1) (fst (restart_real env v s em))
                 (snd (restart_real env v s em)).
Proof.
  intros Hi Hget Hc. cbn [restart_loop].
  replace (ncv s <=? i)%Z with false by (symmetry; apply Z.leb_gt; lia).
  rewrite Hget. cbn [bind]. rewrite Hc.
  now destruct (restart_real env v s em).
Qed.

Lemma solver_tie_front_not_pair : conj_pair_at solver_tie 0 = Ok false.
Proof.
  unfold conj_pair_at.
  change (get (ritz_val solver_tie) 0) with (Ok (C 1 1)).
  change (get (ritz_val solver_tie) (0 + 1)) with (Ok (C 1 0)).
  change (prec solver_tie) with prec_arnoldi. cbn [bind].
  rewrite is_complex_unit by (rewrite Rabs_R1; lra).
  rewrite is_conj_far by (unfold Cnorm, Csub, Cconj, C; simpl; lra).
  reflexivity.
Qed.

(** C9 fails on this object: [nev_adjusted(0)] returns 1, and [restart(1)],
    having passed the real value at index 1, finds the complex value 1 - i
    at index 2 = ncv - 1 and reads [ritz_val[3]]. *)
Theorem restart_reads_past_end (env : Env) :
  nev_adjusted solver_tie 0 = Ok 1%Z
  /\ restart env 1 solver_tie = Fail OutOfRange.
Proof.
  split.
  - unfold nev_adjusted.
    change (nev solver_tie - 1)%Z with 0%Z.
    rewrite solver_tie_front_not_pair. cbn [bind].
    match goal with
    | |- context [conj_pair_at solver_tie ?j] =>
        let j' := eval vm_compute in j in change j with j'
    end.
    rewrite solver_tie_front_not_pair. reflexivity.
  - unfold restart.
    change (ncv solver_tie <=? 1)%Z with false. cbv iota.
    change (Z.to_nat (ncv solver_tie - 1)) with 2%nat.
    set (em := fun r : Z => if (r =? ncv solver_tie - 1)%Z then 1 else 0).
    rewrite (restart_loop_real_step env 1 1 solver_tie em (C 1 0));
      [|reflexivity|reflexivity|apply is_complex_real].
    pose proof (restart_real_shape env (C 1 0) solver_tie em) as Hs.
    set (s1 := fst (restart_real env (C 1 0) solver_tie em)) in *.
    set (em1 := snd (restart_real env (C 1 0) solver_tie em)).
    destruct Hs as [[_ [Hm [_ Hp]]] [Hv _]].
    change (1 + 1)%Z with (ncv solver_tie - 1)%Z. rewrite <- Hm.
    rewrite (restart_loop_last_complex env 0 s1 em1 (C 1 (-1))).
    + reflexivity.
    + rewrite Hv, Hm. reflexivity.
    + rewrite Hv, Hm. reflexivity.
    + rewrite Hp. apply is_complex_unit.
      unfold Rabs. destruct (Rcase_abs (-1)); lra.
Qed.

(** * Sums and matrix products *)

Lemma sum_n_ext k f g :
  (forall i, (0 <= i < Z.of_nat k)%Z -> f i = g i) -> sum_n k f = sum_n k g.
Proof.
  induction k as [|k IH]; intros H; simpl; [reflexivity|].
  rewrite IH by (intros i Hi; apply H; lia). f_equal. apply H. lia.
Qed.

Lemma sum_n_plus k f g :
  sum_n k (fun i => f i + g i) = sum_n k f + sum_n k g.
Proof. induction k as [|k IH]; simpl; [ring | rewrite IH; ring]. Qed.

Lemma sum_n_scal k a f : sum_n k (fun i => a * f i) = a * sum_n k f.
Proof. induction k as [|k IH]; simpl; [ring | rewrite IH; ring]. Qed.

Lemma sum_n_zero k f :
  (forall i, (0 <= i < Z.of_nat k)%Z -> f i = 0) -> sum_n k f = 0.
Proof.
  induction k as [|k IH]; intros H; simpl; [reflexivity|].
  rewrite IH by (intros i Hi; apply H; lia). rewrite H by lia. ring.
Qed.

Lemma sum_n_swap k m (f : Z -> Z -> R) :
  sum_n k (fun i => sum_n m (fun j => f i j))
  = sum_n m (fun j => sum_n k (fun i => f i j)).
Proof.
  induction k as [|k IH]; simpl.
  - symmetry. now apply sum_n_zero.
  - rewrite IH, <- sum_n_plus. reflexivity.
Qed.

Lemma sum_n_single k a f :
  (0 <= a < Z.of_nat k)%Z ->
  (forall i, (0 <= i < Z.of_nat k)%Z -> i <> a -> f i = 0) ->
  sum_n k f = f a.
Proof.
  induction k as [|k IH]; intros Ha H; [lia|]. simpl.
  destruct (Z.eq_dec a (Z.of_nat k)) as [->|Hne].
  - rewrite sum_n_zero by (intros i Hi; apply H; lia). ring.
  - rewrite IH by (try lia; intros i Hi Hia; apply H; lia).
    rewrite (H (Z.of_nat k)) by lia. ring.
Qed.

Lemma sumZ_ext n f g :
  (forall i, (0 <= i < n)%Z -> f i = g i) -> sumZ n f = sumZ n g.
Proof. intros H. apply sum_n_ext. intros i Hi. apply H. lia. Qed.

Lemma sumZ_plus n f g :
  sumZ n (fun i => f i + g i) = sumZ n f + sumZ n g.
Proof. apply sum_n_plus. Qed.

Lemma sumZ_minus n f g :
  sumZ n (fun i => f i - g i) = sumZ n f - sumZ n g.
Proof.
  unfold sumZ. replace (sum_n (Z.to_nat n) g) with
    (- (-1 * sum_n (Z.to_nat n) g)) by ring.
  rewrite <- sum_n_scal. unfold Rminus. rewrite Ropp_involutive, <- sum_n_plus.
  apply sum_n_ext. intros i _. ring.
Qed.

Lemma sumZ_scal n a f : sumZ n (fun i => a * f i) = a * sumZ n f.
Proof. apply sum_n_scal. Qed.

Lemma sumZ_scal_r n a f : sumZ n (fun i => f i * a) = sumZ n f * a.
Proof.
  rewrite Rmult_comm, <- sumZ_scal. apply sumZ_ext. intros i _. ring.
Qed.

Lemma sumZ_zero n f :
  (forall i, (0 <= i < n)%Z -> f i = 0) -> sumZ n f = 0.
Proof. intros H. apply sum_n_zero. intros i Hi. apply H. lia. Qed.

Lemma sumZ_swap n m (f : Z -> Z -> R) :
  sumZ n (fun i => sumZ m (fun j => f i j))
  = sumZ m (fun j => sumZ n (fun i => f i j)).
Proof. apply sum_n_swap. Qed.

Lemma sumZ_single n a f :
  (0 <= a < n)%Z ->
  (forall i, (0 <= i < n)%Z -> i <> a -> f i = 0) ->
  sumZ n f = f a.
Proof.
  intros Ha H. apply sum_n_single; [lia|]. intros i Hi. apply H. lia.
Qed.

(** A sum whose terms vanish off three consecutive indices, the third of
    which may lie past the end if its term is zero. *)
Lemma sumZ_three n a f :
  (0 <= a)%Z -> (a + 1 < n)%Z ->
  (forall i, (0 <= i < n)%Z -> i <> a -> i <> (a + 1)%Z -> i <> (a + 2)%Z ->
             f i = 0) ->
  ((n <= a + 2)%Z -> f (a + 2)%Z = 0) ->
  sumZ n f = f a + f (a + 1)%Z + f (a + 2)%Z.
Proof.
  intros H0 H1 Hz Hend.
  set (g := fun b i => if (i =? b)%Z then f i else 0).
  assert (Hg : forall b, (0 <= b < n)%Z -> sumZ n (g b) = f b).
  { intros b Hb. rewrite (sumZ_single n b) by
      (try lia; intros i _ Hi; unfold g;
       now replace (i =? b)%Z with false by (symmetry; now apply Z.eqb_neq)).
    unfold g. now rewrite Z.eqb_refl. }
  rewrite (sumZ_ext n f (fun i => g a i + g (a + 1)%Z i + g (a + 2)%Z i)).
  - rewrite !sumZ_plus, !Hg by lia.
    destruct (Z.lt_ge_cases (a + 2) n) as [Hin|Hout].
    + now rewrite Hg by lia.
    + rewrite Hend by lia. rewrite sumZ_zero; [reflexivity|].
      intros i Hi. unfold g.
      now replace (i =? a + 2)%Z with false by (symmetry; apply Z.eqb_neq; lia).
  - intros i Hi. unfold g.
    destruct (Z.eqb_spec i a); destruct (Z.eqb_spec i (a + 1));
      destruct (Z.eqb_spec i (a + 2)); try lia; try ring.
    rewrite Hz by assumption. ring.
Qed.

Lemma sumZ_2 f : sumZ 2 f = f 0%Z + f 1%Z.
Proof.
  unfold sumZ. change (Z.to_nat 2) with 2%nat. simpl. ring.
Qed.

Lemma sumZ_3 f : sumZ 3 f = f 0%Z + f 1%Z + f 2%Z.
Proof.
  unfold sumZ. change (Z.to_nat 3) with 3%nat. simpl. ring.
Qed.

Lemma mmul_2 A B r c :
  mmul 2 A B r c = A r 0%Z * B 0%Z c + A r 1%Z * B 1%Z c.
Proof. unfold mmul. apply sumZ_2. Qed.

Lemma mmul_3 A B r c :
  mmul 3 A B r c = A r 0%Z * B 0%Z c + A r 1%Z * B 1%Z c + A r 2%Z * B 2%Z c.
Proof. unfold mmul. apply sumZ_3. Qed.

Lemma meq_refl n A : meq n A A.
Proof. now intros r c _ _. Qed.

Lemma meq_sym n A B : meq n A B -> meq n B A.
Proof. intros H r c Hr Hc. symmetry. now apply H. Qed.

Lemma meq_trans n A B C : meq n A B -> meq n B C -> meq n A C.
Proof. intros H1 H2 r c Hr Hc. rewrite H1, H2; auto. Qed.

Lemma mmul_meq n A A' B B' :
  meq n A A' -> meq n B B' -> meq n (mmul n A B) (mmul n A' B').
Proof.
  intros HA HB r c Hr Hc. unfold mmul. apply sumZ_ext. intros k Hk.
  rewrite HA, HB; auto.
Qed.

Lemma transpose_meq n A B : meq n A B -> meq n (transpose A) (transpose B).
Proof. intros H r c Hr Hc. unfold transpose. now apply H. Qed.

Lemma mmul_assoc n A B C :
  mmul n (mmul n A B) C = mmul n A (mmul n B C).
Proof.
  apply functional_extensionality; intros r.
  apply functional_extensionality; intros c. unfold mmul.
  rewrite (sumZ_ext n _ (fun k => sumZ n (fun j => A r j * B j k * C k c)))
    by (intros k _; now rewrite sumZ_scal_r).
  rewrite sumZ_swap. apply sumZ_ext. intros j _.
  rewrite <- sumZ_scal. apply sumZ_ext. intros k _. ring.
Qed.

Lemma transpose_mmul n A B :
  transpose (mmul n A B) = mmul n (transpose B) (transpose A).
Proof.
  apply functional_extensionality; intros r.
  apply functional_extensionality; intros c. unfold transpose, mmul.
  apply sumZ_ext. intros k _. ring.
Qed.

Lemma mmul_identity_l n A : meq n (mmul n Identity A) A.
Proof.
  intros r c Hr Hc. unfold mmul, Identity.
  rewrite (sumZ_single n r) by
    (try lia; intros i _ Hi;
     replace (r =? i)%Z with false by (symmetry; apply Z.eqb_neq; lia); ring).
  rewrite Z.eqb_refl. ring.
Qed.

Lemma mmul_identity_r n A : meq n (mmul n A Identity) A.
Proof.
  intros r c Hr Hc. unfold mmul, Identity.
  rewrite (sumZ_single n c) by
    (try lia; intros i _ Hi;
     replace (i =? c)%Z with false by (symmetry; apply Z.eqb_neq; lia); ring).
  rewrite Z.eqb_refl. ring.
Qed.

(** * DoubleShiftQR *)

Module DoubleShiftQRFacts.
Import DoubleShiftQR.

(** ** The loops of apply_PX and apply_XP in closed form *)

Lemma in_range_iff lo hi i : in_range lo hi i = true <-> (lo <= i < hi)%Z.
Proof.
  unfold in_range. rewrite andb_true_iff, Z.leb_le, Z.ltb_lt. tauto.
Qed.

Lemma in_range_false lo hi i :
  (i < lo \/ hi <= i)%Z -> in_range lo hi i = false.
Proof.
  intros H. destruct (in_range lo hi i) eqn:E; [|reflexivity].
  apply in_range_iff in E. lia.
Qed.

(** A loop whose pass [i] rewrites column [c0 + i] from that column alone. *)
Lemma for_n_columns (c0 : Z) (g : Matrix -> Z -> Z -> R)
  (body : Z -> Matrix -> Matrix) :
  (forall i M r c,
      body i M r c = if (c =? c0 + i)%Z then g M r c else M r c) ->
  (forall M M' c, (forall r, M r c = M' r c) -> forall r, g M r c = g M' r c) ->
  forall k i0 M r c,
    for_n k i0 body M r c
    = if in_range (c0 + i0) (c0 + i0 + Z.of_nat k) c then g M r c else M r c.
Proof.
  intros Hbody Hg. induction k as [|k IH]; intros i0 M r c.
  - simpl. rewrite in_range_false by lia. reflexivity.
  - cbn [for_n]. rewrite IH.
    destruct (Z.eq_dec c (c0 + i0)) as [->|Hne].
    + rewrite in_range_false by lia. rewrite in_range_true by lia.
      rewrite Hbody, Z.eqb_refl. reflexivity.
    + assert (Hcol : forall r', body i0 M r' c = M r' c).
      { intros r'. rewrite Hbody.
        now replace (c =? c0 + i0)%Z with false
          by (symmetry; apply Z.eqb_neq; exact Hne). }
      rewrite (Hg _ _ _ Hcol), Hcol.
      destruct (in_range (c0 + (i0 + 1)) (c0 + (i0 + 1) + Z.of_nat k) c) eqn:E.
      * apply in_range_iff in E. now rewrite in_range_true by lia.
      * destruct (in_range (c0 + i0) (c0 + i0 + Z.of_nat (S k)) c) eqn:E';
          [|reflexivity].
        apply in_range_iff in E'.
        rewrite in_range_true in E by lia. discriminate.
Qed.

(** A loop whose pass [i] rewrites row [r0 + i] from that row alone. *)
Lemma for_n_rows (r0 : Z) (g : Matrix -> Z -> Z -> R)
  (body : Z -> Matrix -> Matrix) :
  (forall i M r c,
      body i M r c = if (r =? r0 + i)%Z then g M r c else M r c) ->
  (forall M M' r, (forall c, M r c = M' r c) -> forall c, g M r c = g M' r c) ->
  forall k i0 M r c,
    for_n k i0 body M r c
    = if in_range (r0 + i0) (r0 + i0 + Z.of_nat k) r then g M r c else M r c.
Proof.
  intros Hbody Hg. induction k as [|k IH]; intros i0 M r c.
  - simpl. rewrite in_range_false by lia. reflexivity.
  - cbn [for_n]. rewrite IH.
    destruct (Z.eq_dec r (r0 + i0)) as [->|Hne].
    + rewrite in_range_false by lia. rewrite in_range_true by lia.
      rewrite Hbody, Z.eqb_refl. reflexivity.
    + assert (Hrow : forall c', body i0 M r c' = M r c').
      { intros c'. rewrite Hbody.
        now replace (r =? r0 + i0)%Z with false
          by (symmetry; apply Z.eqb_neq; exact Hne). }
      rewrite (Hg _ _ _ Hrow), Hrow.
      destruct (in_range (r0 + (i0 + 1)) (r0 + (i0 + 1) + Z.of_nat k) r) eqn:E.
      * apply in_range_iff in E. now rewrite in_range_true by lia.
      * destruct (in_range (r0 + i0) (r0 + i0 + Z.of_nat (S k)) r) eqn:E';
          [|reflexivity].
        apply in_range_iff in E'.
        rewrite in_range_true in E by lia. discriminate.
Qed.

Ltac zeqb :=
  repeat match goal with
         | |- context [(?a =? ?b)%Z] => destruct (Z.eqb_spec a b); try lia
         end.

Lemma apply_PX_closed X u_ind d :
  apply_PX X u_ind d
  = if skipped d u_ind then d
    else set_mat_H d
           (reflect_rows (scaled_u d 0 u_ind) (scaled_u d 1 u_ind)
                         (if (rows X =? 2)%Z then 0 else scaled_u d 2 u_ind)
                         (row0 X) (col0 X) (col0 X + Z.max 0 (cols X))
                         (mat_H d)).
Proof.
  unfold apply_PX, skipped. fold (scaled_u d 0 u_ind) (scaled_u d 1 u_ind)
    (scaled_u d 2 u_ind).
  destruct (Rleb _ _); [reflexivity|].
  set (u0 := scaled_u d 0 u_ind). set (u1 := scaled_u d 1 u_ind).
  set (u2 := scaled_u d 2 u_ind).
  assert (Hz : Z.of_nat (Z.to_nat (cols X - 0)) = Z.max 0 (cols X)) by lia.
  destruct (rows X =? 2)%Z; f_equal;
    apply functional_extensionality; intros r;
    apply functional_extensionality; intros c;
    unfold for_loop;
    match goal with
    | |- for_n _ _ ?b _ _ _ = reflect_rows ?a0 ?a1 ?a2 _ _ _ _ _ _ =>
        rewrite (for_n_columns (col0 X)
                   (fun M r c => reflect_rows a0 a1 a2 (row0 X) c (c + 1) M r c)
                   b)
    end.
  all: try (rewrite Z.add_0_r, Hz; unfold reflect_rows;
            destruct (in_range (col0 X) (col0 X + Z.max 0 (cols X)) c);
            [rewrite in_range_true by lia|]; reflexivity).
  all: try (intros M M' c' HM r'; unfold reflect_rows;
            rewrite !HM; reflexivity).
  all: intros i M r' c'; unfold reflect_rows, set_entry, coeff;
    rewrite ?Z.add_0_r;
    destruct (Z.eqb_spec c' (col0 X + i)) as [->|Hne];
    [ rewrite in_range_true by lia; zeqb; subst; try lia;
      cbn [andb]; cbv zeta; ring
    | rewrite ?andb_false_r; reflexivity ].
Qed.

Lemma apply_XP_closed X u_ind d :
  apply_XP X u_ind d
  = if skipped d u_ind then d
    else set_mat_H d
           (reflect_cols (scaled_u d 0 u_ind) (scaled_u d 1 u_ind)
                         (if (cols X =? 2)%Z then 0 else scaled_u d 2 u_ind)
                         (col0 X) (row0 X) (row0 X + Z.max 0 (rows X))
                         (mat_H d)).
Proof.
  unfold apply_XP, skipped. fold (scaled_u d 0 u_ind) (scaled_u d 1 u_ind)
    (scaled_u d 2 u_ind).
  destruct (Rleb _ _); [reflexivity|].
  set (u0 := scaled_u d 0 u_ind). set (u1 := scaled_u d 1 u_ind).
  set (u2 := scaled_u d 2 u_ind).
  assert (Hz : Z.of_nat (Z.to_nat (rows X - 0)) = Z.max 0 (rows X)) by lia.
  destruct (cols X =? 2)%Z; f_equal;
    apply functional_extensionality; intros r;
    apply functional_extensionality; intros c;
    unfold for_loop;
    match goal with
    | |- for_n _ _ ?b _ _ _ = reflect_cols ?a0 ?a1 ?a2 _ _ _ _ _ _ =>
        rewrite (for_n_rows (row0 X)
                   (fun M r c => reflect_cols a0 a1 a2 (col0 X) r (r + 1) M r c)
                   b)
    end.
  all: try (rewrite Z.add_0_r, Hz; unfold reflect_cols;
            destruct (in_range (row0 X) (row0 X + Z.max 0 (rows X)) r);
            [rewrite in_range_true by lia|]; reflexivity).
  all: try (intros M M' r' HM c'; unfold reflect_cols;
            rewrite !HM; reflexivity).
  all: intros i M r' c'; unfold reflect_cols, set_entry, coeff;
    rewrite ?Z.add_0_r;
    destruct (Z.eqb_spec r' (row0 X + i)) as [->|Hne];
    [ rewrite in_range_true by lia; zeqb; subst; try lia;
      cbn [andb]; cbv zeta; ring
    | cbn [andb]; reflexivity ].
Qed.

(** ** compute_reflector *)

Lemma compute_reflector_closed x1 x2 x3 ind d :
  compute_reflector x1 x2 x3 ind d
  = set_ref_u d (fun k c =>
      if ((c =? ind)%Z && in_range 0 3 k)%bool
      then hh_u (prec d) x1 x2 x3 k else ref_u d k c).
Proof.
  unfold compute_reflector, hh_u. fold (hh_x1 x1 x2 x3). fold (hh_norm x1 x2 x3).
  destruct (Rleb (hh_norm x1 x2 x3) (prec d)); f_equal;
    apply functional_extensionality; intros k;
    apply functional_extensionality; intros c;
    unfold set_entry, in_range;
    destruct (Z.eqb_spec c ind) as [->|Hne]; rewrite ?andb_false_r;
      try reflexivity; rewrite ?andb_true_r;
    destruct (Z.eqb_spec k 2); destruct (Z.eqb_spec k 1);
    destruct (Z.eqb_spec k 0); subst; try lia; try reflexivity;
    cbn [andb];
    destruct (Z.leb_spec 0 k); destruct (Z.ltb_spec k 3); try lia;
    reflexivity.
Qed.

Lemma same_params_refl d : same_params d d.
Proof. now repeat split. Qed.

Lemma same_params_trans d1 d2 d3 :
  same_params d1 d2 -> same_params d2 d3 -> same_params d1 d3.
Proof. unfold same_params. intuition congruence. Qed.

Lemma compute_reflector_params x1 x2 x3 ind d :
  same_params d (compute_reflector x1 x2 x3 ind d).
Proof. rewrite compute_reflector_closed. now repeat split. Qed.

Lemma apply_PX_params X ind d : same_params d (apply_PX X ind d).
Proof.
  rewrite apply_PX_closed. destruct (skipped d ind); now repeat split.
Qed.

Lemma apply_XP_params X ind d : same_params d (apply_XP X ind d).
Proof.
  rewrite apply_XP_closed. destruct (skipped d ind); now repeat split.
Qed.

Lemma chase_step_params X start i d : same_params d (chase_step X start i d).
Proof.
  unfold chase_step, compute_reflector_at.
  eapply same_params_trans; [|apply apply_XP_params].
  eapply same_params_trans; [|apply apply_PX_params].
  apply compute_reflector_params.
Qed.

Lemma compute_reflectors_from_block_params X start d :
  same_params d (compute_reflectors_from_block X start d).
Proof.
  unfold compute_reflectors_from_block.
  destruct (rows X =? 1)%Z; [apply compute_reflector_params|].
  destruct (rows X =? 2)%Z.
  { eapply same_params_trans; apply compute_reflector_params. }
  eapply same_params_trans; [|apply apply_XP_params].
  eapply same_params_trans; [|apply apply_PX_params].
  eapply same_params_trans; [|apply compute_reflector_params].
  eapply same_params_trans; [|apply compute_reflector_params].
  eapply same_params_trans.
  2:{ unfold for_loop. apply (for_n_inv (same_params _)).
      - intros i d' Hd'. eapply same_params_trans; [exact Hd'|].
        apply chase_step_params.
      - apply same_params_refl. }
  eapply same_params_trans; [|apply apply_XP_params].
  eapply same_params_trans; [|apply apply_PX_params].
  apply compute_reflector_params.
Qed.

(** ** compute on a matrix without negligible sub-diagonal entries *)

Lemma find_zero_ind_none d :
  (forall i, (1 <= i <= n d - 2)%Z -> prec d < Rabs (mat_H d i (i - 1)%Z)) ->
  find_zero_ind d = (mat_H d, [0%Z]).
Proof.
  intros H. unfold find_zero_ind, for_loop.
  assert (G : forall k i0, (1 <= i0)%Z -> (i0 + Z.of_nat k <= n d - 1)%Z ->
    for_n k i0
      (fun i (st : Matrix * list Z) =>
         let (M, zero_ind) := st in
         if Rleb (Rabs (M i (i - 1)%Z)) (prec d)
         then (set_entry M i (i - 1) 0, zero_ind ++ [i])
         else (M, zero_ind)) (mat_H d, [0%Z]) = (mat_H d, [0%Z])).
  { induction k as [|k IH]; intros i0 H1 H2; cbn [for_n]; [reflexivity|].
    replace (Rleb (Rabs (mat_H d i0 (i0 - 1)%Z)) (prec d)) with false.
    - apply IH; lia.
    - symmetry. apply Rleb_false. apply H. lia. }
  destruct (Z.le_gt_cases (n d - 1) 1) as [Hs|Hl].
  - replace (Z.to_nat (n d - 1 - 1)) with 0%nat by lia. reflexivity.
  - apply G; lia.
Qed.

Lemma compute_single_block nr mat s t_ d :
  (1 <= nr)%Z ->
  (forall i, (1 <= i <= nr - 2)%Z -> prec d < Rabs (mat i (i - 1)%Z)) ->
  compute nr nr mat s t_ d
  = Ok (let d1 := compute_reflectors_from_block (mkBlock 0 0 nr nr) 0
                    (mk nr (hessenberg_part mat) s t_ (ref_u d) (prec d)
                        (computed d)) in
        mk (n d1) (mat_H d1) (shift_s d1) (shift_t d1) (ref_u d1) (prec d1)
           true).
Proof.
  intros Hnr H. unfold compute. rewrite Z.eqb_refl. cbn [negb].
  replace (nr - 1 <? 0)%Z with false by (symmetry; apply Z.ltb_ge; lia).
  fold (hessenberg_part mat).
  set (d0 := mk nr (hessenberg_part mat) s t_ (ref_u d) (prec d) (computed d)).
  rewrite (find_zero_ind_none d0).
  2:{ intros i Hi. unfold d0. cbn [mat_H prec n] in *. unfold hessenberg_part.
      replace (i <=? i - 1 + 1)%Z with true by (symmetry; apply Z.leb_le; lia).
      apply H. exact Hi. }
  cbn [app sweep_blocks]. unfold sweep_block.
  replace (set_mat_H d0 (mat_H d0)) with d0 by reflexivity.
  replace (nr - 1 - 0 + 1)%Z with nr by lia.
  set (d1 := compute_reflectors_from_block (mkBlock 0 0 nr nr) 0 d0).
  replace (nr - 1 <? n d1 - 1)%Z with false; [reflexivity|].
  symmetry. apply Z.ltb_ge.
  enough (n d1 = nr) by lia.
  destruct (compute_reflectors_from_block_params (mkBlock 0 0 nr nr) 0 d0)
    as [Hn _].
  exact Hn.
Qed.

(** ** The reflector of a vector whose leading entry is zero *)

Lemma sqrt2_sq : sqrt 2 * sqrt 2 = 2.
Proof. apply sqrt_sqrt. lra. Qed.

Lemma sqrt2_gt1 : 1 < sqrt 2.
Proof. rewrite <- sqrt_1 at 1. apply sqrt_lt_1; lra. Qed.

Lemma hh_x1_zero x2 x3 : hh_x1 0 x2 x3 = 0.
Proof.
  unfold hh_x1. replace (Rltb 0 0) with false
    by (symmetry; apply Rltb_false; lra).
  unfold b2r. ring.
Qed.

Lemma hh_norm_zero x2 x3 : hh_norm 0 x2 x3 = sqrt (x2 * x2 + x3 * x3).
Proof. unfold hh_norm. rewrite hh_x1_zero. f_equal. ring. Qed.

(** With [x1 = 0] the sign factor is zero: the vector stored is
    (0, x2, x3) / ||(x2, x3)||, whose reflector fixes the first axis. *)
Lemma hh_u_slip eps x2 x3 k :
  eps < sqrt (x2 * x2 + x3 * x3) ->
  hh_u eps 0 x2 x3 k
  = if (k =? 0)%Z then 0
    else if (k =? 1)%Z then x2 / sqrt (x2 * x2 + x3 * x3)
    else x3 / sqrt (x2 * x2 + x3 * x3).
Proof.
  intros H. unfold hh_u. rewrite hh_norm_zero, hh_x1_zero.
  replace (Rleb _ eps) with false by (symmetry; apply Rleb_false; exact H).
  destruct (k =? 0)%Z; [|reflexivity]. unfold Rdiv. ring.
Qed.

Lemma hh_u_null eps k : 0 <= eps -> hh_u eps 0 0 0 k = 0.
Proof.
  intros H. unfold hh_u. rewrite hh_norm_zero.
  replace (0 * 0 + 0 * 0) with 0 by ring. rewrite sqrt_0.
  now replace (Rleb 0 eps) with true by (symmetry; apply Rleb_true; exact H).
Qed.

Lemma scaled_u_compute_reflector x1 x2 x3 ind d k c :
  scaled_u (compute_reflector x1 x2 x3 ind d) k c
  = if ((c =? ind)%Z && in_range 0 3 k)%bool
    then sqrt 2 * hh_u (prec d) x1 x2 x3 k else scaled_u d k c.
Proof.
  rewrite compute_reflector_closed. unfold scaled_u. cbn [ref_u set_ref_u].
  now destruct ((c =? ind)%Z && in_range 0 3 k)%bool.
Qed.

Lemma prec_compute_reflector x1 x2 x3 ind d :
  prec (compute_reflector x1 x2 x3 ind d) = prec d.
Proof. apply compute_reflector_params. Qed.

Lemma mat_H_compute_reflector x1 x2 x3 ind d :
  mat_H (compute_reflector x1 x2 x3 ind d) = mat_H d.
Proof. now rewrite compute_reflector_closed. Qed.

Lemma skipped_set_mat_H d M ind : skipped (set_mat_H d M) ind = skipped d ind.
Proof. reflexivity. Qed.

Lemma scaled_u_set_mat_H d M k ind :
  scaled_u (set_mat_H d M) k ind = scaled_u d k ind.
Proof. reflexivity. Qed.

Ltac zbool :=
  repeat match goal with
         | |- context [in_range ?a ?b ?c] =>
             let v := eval vm_compute in (in_range a b c) in
             change (in_range a b c) with v
         | |- context [Z.eqb ?a ?b] =>
             let v := eval vm_compute in (Z.eqb a b) in
             change (Z.eqb a b) with v
         end; cbn [andb].

(** The sweep on [H_slip] with s = t = 2. *)
Lemma slip_sweep_entry :
  let d0 := mk 3 (hessenberg_part H_slip) 2 2 (ref_u new) prec_qr false in
  mat_H (compute_reflectors_from_block (mkBlock 0 0 3 3) 0 d0) 2%Z 0%Z = 1.
Proof.
  intros d0. pose proof prec_qr_bounds as Hp. pose proof sqrt2_gt1 as H2.
  pose proof sqrt2_sq as Hsq.
  unfold compute_reflectors_from_block.
  change (rows (mkBlock 0 0 3 3)) with 3%Z.
  change (cols (mkBlock 0 0 3 3)) with 3%Z.
  change (3 =? 1)%Z with false. change (3 =? 2)%Z with false. cbv iota.
  set (X := mkBlock 0 0 3 3).
  change (3 - 2)%Z with 1%Z. change (3 - 3)%Z with 0%Z.
  change (3 - 1)%Z with 2%Z. change (0 + 3 - 2)%Z with 1%Z.
  change (0 + 3 - 1)%Z with 2%Z. change (Z.min 3 4) with 3%Z.
  (* the first reflector, from the column (0, 1, 1) *)
  replace (coeff (mat_H d0) X 0 0 * (coeff (mat_H d0) X 0 0 - shift_s d0)
           + coeff (mat_H d0) X 0 1 * coeff (mat_H d0) X 1 0 + shift_t d0)
    with 0 by (cbn; lra).
  replace (coeff (mat_H d0) X 1 0
           * (coeff (mat_H d0) X 0 0 + coeff (mat_H d0) X 1 1 - shift_s d0))
    with 1 by (cbn; lra).
  replace (coeff (mat_H d0) X 2 1 * coeff (mat_H d0) X 1 0)
    with 1 by (cbn; lra).
  set (d1 := compute_reflector 0 1 1 0 d0).
  assert (Hn : sqrt (1 * 1 + 1 * 1) = sqrt 2) by (f_equal; ring).
  assert (U1 : scaled_u d1 0 0 = 0 /\ scaled_u d1 1 0 = 1
               /\ scaled_u d1 2 0 = 1).
  { unfold d1. rewrite !scaled_u_compute_reflector. zbool.
    change (prec d0) with prec_qr.
    rewrite !hh_u_slip by (rewrite Hn; lra). zbool. rewrite Hn.
    repeat split; field_simplify_eq; lra. }
  destruct U1 as [U10 [U11 U12]].
  assert (S1 : skipped d1 0 = false).
  { unfold skipped. rewrite U10, U11, U12. apply Rleb_false.
    unfold d1. rewrite prec_compute_reflector. change (prec d0) with prec_qr.
    lra. }
  assert (M1 : mat_H d1 = hessenberg_part H_slip)
    by (unfold d1; now rewrite mat_H_compute_reflector).
  set (M2 := reflect_cols 0 1 1 0 0 3
               (reflect_rows 0 1 1 0 0 3 (hessenberg_part H_slip))).
  set (d3 := apply_XP (block X 0 0 3 3) 0 (apply_PX (block X 0 0 3 3) 0 d1)).
  assert (E3 : d3 = set_mat_H d1 M2).
  { unfold d3. rewrite apply_PX_closed, S1.
    rewrite apply_XP_closed, skipped_set_mat_H, S1.
    rewrite !scaled_u_set_mat_H, U10, U11, U12, M1. reflexivity. }
  clearbody d3. subst d3.
  change (for_loop 1 1 (chase_step X 0) (set_mat_H d1 M2))
    with (set_mat_H d1 M2).
  (* the bulge it leaves in column 0 *)
  assert (F10 : M2 1%Z 0%Z = 0)
    by (unfold M2, reflect_cols, reflect_rows; zbool; cbn; lra).
  assert (F20 : M2 2%Z 0%Z = -1)
    by (unfold M2, reflect_cols, reflect_rows; zbool; cbn; lra).
  change (coeff (mat_H (set_mat_H d1 M2)) X 1 0) with (M2 1%Z 0%Z).
  change (coeff (mat_H (set_mat_H d1 M2)) X 2 0) with (M2 2%Z 0%Z).
  rewrite F10, F20.
  (* the last reflector, from (0, -1) *)
  set (d5 := compute_reflector 0 0 0 2
               (compute_reflector 0 (-1) 0 1 (set_mat_H d1 M2))).
  assert (Hm : sqrt (-1 * -1 + 0 * 0) = 1)
    by (replace (-1 * -1 + 0 * 0) with 1 by ring; apply sqrt_1).
  assert (P5 : prec d5 = prec_qr).
  { unfold d5. rewrite !prec_compute_reflector. unfold d1.
    cbn [prec set_mat_H]. now rewrite prec_compute_reflector. }
  assert (U5 : scaled_u d5 0 1 = 0 /\ scaled_u d5 1 1 = - sqrt 2
               /\ scaled_u d5 2 1 = 0).
  { unfold d5. rewrite !scaled_u_compute_reflector. zbool.
    replace (prec (set_mat_H d1 M2)) with prec_qr
      by (unfold d1; cbn [prec set_mat_H]; now rewrite prec_compute_reflector).
    rewrite !hh_u_slip by (rewrite Hm; lra). zbool. rewrite Hm.
    repeat split; field. }
  destruct U5 as [U50 [U51 U52]].
  assert (S5 : skipped d5 1 = false).
  { unfold skipped. rewrite U50, U51, U52, P5. apply Rleb_false. nra. }
  assert (M5 : mat_H d5 = M2)
    by (unfold d5; now rewrite !mat_H_compute_reflector).
  rewrite apply_XP_closed, apply_PX_closed, S5, skipped_set_mat_H, S5.
  rewrite !scaled_u_set_mat_H, U50, U51, M5.
  cbn [mat_H set_mat_H].
  unfold reflect_cols, reflect_rows.
  cbn [rows cols row0 col0 block X]. zbool.
  change (0 + 0)%Z with 0%Z. change (0 + 1)%Z with 1%Z.
  change (1 + 1)%Z with 2%Z. change (1 + 2)%Z with 3%Z.
  rewrite F10, F20. nra.
Qed.

(** ** Householder's reflector *)

Lemma hh_norm_pos x1 x2 x3 : x1 <> 0 -> 0 < hh_norm x1 x2 x3.
Proof.
  intros Hx. unfold hh_norm. apply sqrt_lt_R0.
  set (N := sqrt (x1 * x1 + (x2 * x2 + x3 * x3))).
  assert (HN : 0 <= N) by apply sqrt_pos.
  assert (Hy : hh_x1 x1 x2 x3 <> 0).
  { unfold hh_x1. fold N. unfold b2r, Rltb.
    destruct (Rlt_dec x1 0); destruct (Rlt_dec 0 x1); lra. }
  nra.
Qed.

(** The stored vector, scaled by sqrt 2, is zero or has squared length 2. *)
Lemma hh_u_unit_or_zero eps x1 x2 x3 :
  0 <= eps ->
  unit_or_zero (sqrt 2 * hh_u eps x1 x2 x3 0) (sqrt 2 * hh_u eps x1 x2 x3 1)
               (sqrt 2 * hh_u eps x1 x2 x3 2).
Proof.
  intros He. unfold unit_or_zero, hh_u. zbool.
  destruct (Rleb (hh_norm x1 x2 x3) eps) eqn:E.
  - left. repeat split; ring.
  - right. apply Rleb_false in E.
    set (D := hh_norm x1 x2 x3) in *.
    assert (HD : D * D = hh_x1 x1 x2 x3 * hh_x1 x1 x2 x3
                         + (x2 * x2 + x3 * x3)).
    { unfold D, hh_norm. apply sqrt_sqrt. nra. }
    pose proof sqrt2_sq as S2.
    assert (D <> 0) by lra.
    set (y := hh_x1 x1 x2 x3) in *.
    replace (sqrt 2 * (y / D) * (sqrt 2 * (y / D))
             + sqrt 2 * (x2 / D) * (sqrt 2 * (x2 / D))
             + sqrt 2 * (x3 / D) * (sqrt 2 * (x3 / D)))
      with ((sqrt 2 * sqrt 2) * ((y * y + (x2 * x2 + x3 * x3)) / (D * D)))
      by (field; assumption).
    rewrite S2, <- HD. field. assumption.
Qed.

(** Built from a proper vector, the reflector maps the vector onto the
    first axis. *)
Lemma hh_u_annihilates eps x1 x2 x3 :
  proper eps x1 x2 x3 ->
  annihilates (sqrt 2 * hh_u eps x1 x2 x3 0) (sqrt 2 * hh_u eps x1 x2 x3 1)
              (sqrt 2 * hh_u eps x1 x2 x3 2) x1 x2 x3.
Proof.
  intros [Hx He]. unfold annihilates, hh_u. zbool.
  replace (Rleb (hh_norm x1 x2 x3) eps) with false
    by (symmetry; apply Rleb_false; exact He).
  pose proof (hh_norm_pos x1 x2 x3 Hx) as HDpos.
  set (D := hh_norm x1 x2 x3) in *.
  assert (HD : D * D = hh_x1 x1 x2 x3 * hh_x1 x1 x2 x3
                       + (x2 * x2 + x3 * x3)).
  { unfold D, hh_norm. apply sqrt_sqrt. nra. }
  set (N := sqrt (x1 * x1 + (x2 * x2 + x3 * x3))).
  assert (HN : N * N = x1 * x1 + (x2 * x2 + x3 * x3))
    by (unfold N; apply sqrt_sqrt; nra).
  assert (Hy : hh_x1 x1 x2 x3 = x1 + N \/ hh_x1 x1 x2 x3 = x1 - N).
  { unfold hh_x1. fold N. unfold b2r, Rltb.
    destruct (Rlt_dec x1 0); destruct (Rlt_dec 0 x1);
      [lra | right; ring | left; ring | lra]. }
  set (y := hh_x1 x1 x2 x3) in *.
  pose proof sqrt2_sq as S2.
  assert (HDne : D <> 0) by lra.
  assert (Key : D * D = 2 * (y * x1 + x2 * x2 + x3 * x3)).
  { rewrite HD. destruct Hy as [-> | ->]; nra. }
  assert (G : forall w,
    w - (sqrt 2 * (y / D) * x1 + sqrt 2 * (x2 / D) * x2
         + sqrt 2 * (x3 / D) * x3) * (sqrt 2 * (w / D)) = 0).
  { intros w.
    replace (w - (sqrt 2 * (y / D) * x1 + sqrt 2 * (x2 / D) * x2
                  + sqrt 2 * (x3 / D) * x3) * (sqrt 2 * (w / D)))
      with (w * (D * D - (sqrt 2 * sqrt 2) * (y * x1 + x2 * x2 + x3 * x3))
            / (D * D)) by (field; assumption).
    rewrite S2.
    replace (D * D - 2 * (y * x1 + x2 * x2 + x3 * x3)) with 0
      by (rewrite Key; ring).
    unfold Rdiv. ring. }
  split; apply G.
Qed.

Lemma hh_u_annihilates_reflectable eps x1 x2 x3 :
  reflectable eps x1 x2 x3 ->
  annihilates (sqrt 2 * hh_u eps x1 x2 x3 0) (sqrt 2 * hh_u eps x1 x2 x3 1)
              (sqrt 2 * hh_u eps x1 x2 x3 2) x1 x2 x3.
Proof.
  intros [[-> ->]|H]; [|now apply hh_u_annihilates].
  unfold annihilates, hh_u. zbool.
  destruct (Rleb (hh_norm x1 0 0) eps); split; unfold Rdiv; ring.
Qed.

(** ** One reflector of the chase, on the whole matrix *)

Lemma in_range_false_iff lo hi i :
  in_range lo hi i = false <-> (i < lo \/ hi <= i)%Z.
Proof.
  split; [|apply in_range_false].
  intros H. destruct (Z.lt_ge_cases i lo); [now left|].
  destruct (Z.lt_ge_cases i hi); [|now right].
  rewrite in_range_true in H by lia. discriminate.
Qed.

Ltac split_tests :=
  repeat match goal with
         | |- context [in_range ?a ?b ?x] =>
             let E := fresh "E" in
             destruct (in_range a b x) eqn:E;
             [apply in_range_iff in E | apply in_range_false_iff in E];
             try lia
         | |- context [(?a =? ?b)%Z] =>
             destruct (Z.eqb_spec a b); try lia
         end.

Ltac zero_entries M HZ :=
  repeat match goal with
         | |- context [M ?a ?b] => rewrite (HZ a b) by lia
         end.

Lemma bulge_zero n i M :
  bulge n i M ->
  forall r c, (0 <= c)%Z -> (r < n)%Z -> (c + 1 < r)%Z ->
    (~ (c = i - 1 /\ r <= i + 2))%Z -> (~ (c = i /\ r = i + 2))%Z ->
    M r c = 0.
Proof.
  intros HB r c H0 H1 H2 H3 H4.
  destruct (HB r c H0 H1 H2) as [H|[H|H]]; [tauto|tauto|exact H].
Qed.

(** The reflector [i] moves the bulge one place down. *)
Lemma bulge_step n i u0 u1 u2 M :
  (0 <= i)%Z -> (i + 1 < n)%Z -> ((n <= i + 2)%Z -> u2 = 0) ->
  bulge n i M ->
  ((1 <= i)%Z ->
   M (i + 1)%Z (i - 1)%Z
   - (u0 * M i (i - 1)%Z + u1 * M (i + 1)%Z (i - 1)%Z
      + u2 * M (i + 2)%Z (i - 1)%Z) * u1 = 0) ->
  ((1 <= i)%Z -> (i + 2 < n)%Z ->
   M (i + 2)%Z (i - 1)%Z
   - (u0 * M i (i - 1)%Z + u1 * M (i + 1)%Z (i - 1)%Z
      + u2 * M (i + 2)%Z (i - 1)%Z) * u2 = 0) ->
  bulge n (i + 1) (reflect_both n u0 u1 u2 i M).
Proof.
  intros Hi Hn Hu2 HB A1 A2 r c Hc Hr Hrc.
  pose proof (bulge_zero n i M HB) as HZ.
  destruct (Z.eq_dec c i) as [->|Hci].
  { destruct (Z_le_gt_dec r (i + 3)); [left; lia|]. right; right.
    unfold reflect_both, reflect_cols, reflect_rows. split_tests.
    all: try (rewrite Hu2 by lia); zero_entries M HZ; ring. }
  destruct (Z.eq_dec c (i + 1)) as [->|Hci1].
  { destruct (Z.eq_dec r (i + 3)); [right; left; lia|]. right; right.
    unfold reflect_both, reflect_cols, reflect_rows. split_tests.
    all: try (rewrite Hu2 by lia); zero_entries M HZ; ring. }
  right; right.
  destruct (Z.eq_dec c (i - 1)) as [->|Hci2].
  - unfold reflect_both, reflect_cols, reflect_rows. split_tests.
    all: subst; try (apply A1; lia); try (apply A2; lia);
      try (rewrite Hu2 by lia); zero_entries M HZ; try ring.
  - unfold reflect_both, reflect_cols, reflect_rows. split_tests.
    all: try (rewrite Hu2 by lia); zero_entries M HZ; ring.
Qed.

(** The loops of the sweep run over the part of the rows and columns that
    can differ from zero; on a matrix with the bulge at [i] that is all the
    same as running over whole rows and columns. *)
Lemma rows_partial_full n i u0 u1 u2 M :
  (1 <= i)%Z -> (i + 1 < n)%Z -> ((n <= i + 2)%Z -> u2 = 0) -> bulge n i M ->
  reflect_rows u0 u1 u2 i (i - 1) n M = reflect_rows u0 u1 u2 i 0 n M.
Proof.
  intros Hi Hn Hu2 HB. pose proof (bulge_zero n i M HB) as HZ.
  apply functional_extensionality; intros r.
  apply functional_extensionality; intros c.
  unfold reflect_rows. split_tests.
  all: destruct (Z_le_gt_dec n (i + 2));
    try (rewrite Hu2 by lia); zero_entries M HZ; ring.
Qed.

Lemma cols_partial_full n i u0 u1 u2 M :
  (0 <= i)%Z -> (i + 1 < n)%Z -> ((n <= i + 2)%Z -> u2 = 0) -> bulge n i M ->
  reflect_cols u0 u1 u2 i 0 (Z.min n (i + 4)) (reflect_rows u0 u1 u2 i 0 n M)
  = reflect_both n u0 u1 u2 i M.
Proof.
  intros Hi Hn Hu2 HB. pose proof (bulge_zero n i M HB) as HZ.
  apply functional_extensionality; intros r.
  apply functional_extensionality; intros c.
  unfold reflect_both, reflect_cols, reflect_rows. split_tests.
  all: try (rewrite Hu2 by lia); zero_entries M HZ; ring.
Qed.

(** ** Reflections as products *)

Lemma refl_vec_dot n u0 u1 u2 i f :
  (0 <= i)%Z -> (i + 1 < n)%Z -> ((n <= i + 2)%Z -> u2 = 0) ->
  sumZ n (fun j => refl_vec u0 u1 u2 i j * f j)
  = u0 * f i + u1 * f (i + 1)%Z + u2 * f (i + 2)%Z.
Proof.
  intros Hi Hn Hu2.
  rewrite (sumZ_three n i);
    [ | lia | lia
      | intros j _ H1 H2 H3; unfold refl_vec;
        destruct (Z.eqb_spec j i); destruct (Z.eqb_spec j (i + 1));
        destruct (Z.eqb_spec j (i + 2)); try lia; ring
      | intros H; unfold refl_vec;
        destruct (Z.eqb_spec (i + 2) i); destruct (Z.eqb_spec (i + 2) (i + 1));
        try lia; rewrite Z.eqb_refl, Hu2 by lia; ring ].
  unfold refl_vec.
  destruct (Z.eqb_spec (i + 1) i); destruct (Z.eqb_spec (i + 2) i);
    destruct (Z.eqb_spec (i + 2) (i + 1)); try lia.
  rewrite !Z.eqb_refl. reflexivity.
Qed.

Lemma identity_row n r f :
  (0 <= r < n)%Z -> sumZ n (fun j => Identity r j * f j) = f r.
Proof.
  intros Hr. rewrite (sumZ_single n r) by
    (try lia; intros j _ Hj; unfold Identity;
     replace (r =? j)%Z with false by (symmetry; apply Z.eqb_neq; lia); ring).
  unfold Identity. rewrite Z.eqb_refl. ring.
Qed.

Lemma refl_mat_mul_l n v M r c :
  (0 <= r < n)%Z ->
  mmul n (refl_mat v) M r c = M r c - v r * sumZ n (fun j => v j * M j c).
Proof.
  intros Hr. unfold mmul, refl_mat.
  rewrite (sumZ_ext n _ (fun j => Identity r j * M j c
                                   - v r * (v j * M j c)))
    by (intros j _; ring).
  now rewrite sumZ_minus, sumZ_scal, identity_row.
Qed.

Lemma refl_mat_sym v : transpose (refl_mat v) = refl_mat v.
Proof.
  apply functional_extensionality; intros r.
  apply functional_extensionality; intros c.
  unfold transpose, refl_mat, Identity. rewrite (Z.eqb_sym c r). ring.
Qed.

Lemma refl_mat_mul_r n v M r c :
  (0 <= c < n)%Z ->
  mmul n M (refl_mat v) r c = M r c - sumZ n (fun j => M r j * v j) * v c.
Proof.
  intros Hc.
  change (mmul n M (refl_mat v) r c)
    with (transpose (mmul n M (refl_mat v)) c r).
  rewrite transpose_mmul, refl_mat_sym, refl_mat_mul_l by exact Hc.
  unfold transpose. rewrite Rmult_comm. f_equal. f_equal.
  apply sumZ_ext. intros j _. ring.
Qed.

Lemma reflect_rows_mmul n i u0 u1 u2 M :
  (0 <= i)%Z -> (i + 1 < n)%Z -> ((n <= i + 2)%Z -> u2 = 0) ->
  meq n (reflect_rows u0 u1 u2 i 0 n M)
        (mmul n (refl_mat (refl_vec u0 u1 u2 i)) M).
Proof.
  intros Hi Hn Hu2 r c Hr Hc.
  rewrite refl_mat_mul_l by exact Hr.
  rewrite (refl_vec_dot n u0 u1 u2 i (fun j => M j c)) by assumption.
  unfold reflect_rows, refl_vec. rewrite in_range_true by lia.
  cbv zeta. split_tests; ring.
Qed.

Lemma reflect_cols_mmul n i u0 u1 u2 M :
  (0 <= i)%Z -> (i + 1 < n)%Z -> ((n <= i + 2)%Z -> u2 = 0) ->
  meq n (reflect_cols u0 u1 u2 i 0 n M)
        (mmul n M (refl_mat (refl_vec u0 u1 u2 i))).
Proof.
  intros Hi Hn Hu2 r c Hr Hc.
  rewrite refl_mat_mul_r by exact Hc.
  rewrite (sumZ_ext n _ (fun j => refl_vec u0 u1 u2 i j * M r j))
    by (intros j _; ring).
  rewrite (refl_vec_dot n u0 u1 u2 i (fun j => M r j)) by assumption.
  unfold reflect_cols, refl_vec. rewrite in_range_true by lia.
  cbv zeta. split_tests; ring.
Qed.

Lemma reflect_both_mmul n i u0 u1 u2 M :
  (0 <= i)%Z -> (i + 1 < n)%Z -> ((n <= i + 2)%Z -> u2 = 0) ->
  let P := refl_mat (refl_vec u0 u1 u2 i) in
  meq n (reflect_both n u0 u1 u2 i M) (mmul n (mmul n P M) P).
Proof.
  intros Hi Hn Hu2 P. unfold reflect_both.
  eapply meq_trans; [apply reflect_cols_mmul; assumption|].
  apply mmul_meq; [|apply meq_refl].
  apply reflect_rows_mmul; assumption.
Qed.

(** A reflector is its own inverse. *)
Lemma refl_mat_involution n i u0 u1 u2 :
  (0 <= i)%Z -> (i + 1 < n)%Z -> ((n <= i + 2)%Z -> u2 = 0) ->
  unit_or_zero u0 u1 u2 ->
  let P := refl_mat (refl_vec u0 u1 u2 i) in
  meq n (mmul n P P) Identity.
Proof.
  intros Hi Hn Hu2 Hu P r c Hr Hc. unfold P.
  rewrite refl_mat_mul_l by exact Hr.
  set (v := refl_vec u0 u1 u2 i).
  rewrite (sumZ_ext n _ (fun j => v j * Identity j c - (v j * v j) * v c))
    by (intros j _; unfold refl_mat; ring).
  rewrite sumZ_minus, sumZ_scal_r.
  rewrite (sumZ_ext n (fun j => v j * Identity j c)
                      (fun j => Identity c j * v j))
    by (intros j _; unfold Identity; rewrite (Z.eqb_sym j c); ring).
  rewrite identity_row by exact Hc.
  unfold v at 3 4. rewrite (refl_vec_dot n u0 u1 u2 i v) by assumption.
  assert (Hvv : u0 * v i + u1 * v (i + 1)%Z + u2 * v (i + 2)%Z
                = u0 * u0 + u1 * u1 + u2 * u2).
  { unfold v, refl_vec.
    destruct (Z.eqb_spec (i + 1) i); destruct (Z.eqb_spec (i + 2) i);
      destruct (Z.eqb_spec (i + 2) (i + 1)); try lia.
    rewrite !Z.eqb_refl. reflexivity. }
  rewrite Hvv. unfold refl_mat. fold v.
  destruct Hu as [[-> [-> ->]]|Hu].
  - assert (Hv0 : forall j, v j = 0).
    { intros j. unfold v, refl_vec.
      destruct (j =? i)%Z; destruct (j =? i + 1)%Z; destruct (j =? i + 2)%Z;
        reflexivity. }
    rewrite !Hv0. ring.
  - rewrite Hu. ring.
Qed.

(** ** The invariant of the chase *)

Lemma orthogonal_mul_refl n Q P :
  orthogonal n Q -> transpose P = P -> meq n (mmul n P P) Identity ->
  orthogonal n (mmul n Q P).
Proof.
  intros [HQ1 HQ2] HPs HPP. unfold orthogonal.
  rewrite transpose_mmul, HPs. split.
  - rewrite mmul_assoc, <- (mmul_assoc n (transpose Q)).
    eapply meq_trans; [|exact HPP].
    apply mmul_meq; [apply meq_refl|].
    eapply meq_trans; [|apply mmul_identity_l].
    apply mmul_meq; [exact HQ1 | apply meq_refl].
  - rewrite mmul_assoc, <- (mmul_assoc n P).
    eapply meq_trans; [|exact HQ2].
    apply mmul_meq; [apply meq_refl|].
    eapply meq_trans; [|apply mmul_identity_l].
    apply mmul_meq; [exact HPP | apply meq_refl].
Qed.

Lemma similarity_mul_refl n Q P H M :
  transpose P = P -> meq n M (similarity n Q H) ->
  meq n (mmul n (mmul n P M) P) (similarity n (mmul n Q P) H).
Proof.
  intros HPs HM. unfold similarity in *.
  rewrite transpose_mmul, HPs.
  rewrite (mmul_assoc n P (transpose Q)).
  rewrite <- (mmul_assoc n H Q P), <- (mmul_assoc n (transpose Q)).
  rewrite (mmul_assoc n P M P).
  apply mmul_meq; [apply meq_refl|].
  apply mmul_meq; [exact HM | apply meq_refl].
Qed.

Lemma chased_step n H pH k u0 u1 u2 M :
  (1 <= k)%Z -> (k + 1 < n)%Z -> ((n <= k + 2)%Z -> u2 = 0) ->
  unit_or_zero u0 u1 u2 ->
  M (k + 1)%Z (k - 1)%Z
  - (u0 * M k (k - 1)%Z + u1 * M (k + 1)%Z (k - 1)%Z
     + u2 * M (k + 2)%Z (k - 1)%Z) * u1 = 0 ->
  ((k + 2 < n)%Z ->
   M (k + 2)%Z (k - 1)%Z
   - (u0 * M k (k - 1)%Z + u1 * M (k + 1)%Z (k - 1)%Z
      + u2 * M (k + 2)%Z (k - 1)%Z) * u2 = 0) ->
  chased n H pH k M ->
  chased n H pH (k + 1) (reflect_both n u0 u1 u2 k M).
Proof.
  intros Hk Hn Hu2 Hu A1 A2 [HB [Q [HQ [HM HC]]]].
  split; [apply bulge_step; auto; lia|].
  set (v := refl_vec u0 u1 u2 k). set (P := refl_mat v).
  assert (HPs : transpose P = P) by apply refl_mat_sym.
  assert (HPP : meq n (mmul n P P) Identity)
    by (apply refl_mat_involution; auto; lia).
  exists (mmul n Q P). split; [now apply orthogonal_mul_refl|]. split.
  - eapply meq_trans; [apply reflect_both_mmul; auto; lia|].
    now apply similarity_mul_refl.
  - intros r Hr. rewrite transpose_mmul, HPs, mmul_assoc.
    unfold P. rewrite refl_mat_mul_l by lia.
    rewrite HC by lia. rewrite sumZ_zero; [ring|].
    intros j Hj. destruct (Z.eq_dec j 0) as [->|Hj0].
    + unfold v, refl_vec.
      destruct (Z.eqb_spec 0 k); destruct (Z.eqb_spec 0 (k + 1));
        destruct (Z.eqb_spec 0 (k + 2)); try lia. ring.
    + rewrite HC by lia. ring.
Qed.

(** The first column of the shifted square of an upper-Hessenberg matrix. *)
Lemma shifted_square_col0 n H s t_ r :
  (3 <= n)%Z -> hessenberg n H -> (0 <= r < n)%Z ->
  shifted_square n H s t_ r 0%Z
  = if (r =? 0)%Z then H 0%Z 0%Z * (H 0%Z 0%Z - s) + H 0%Z 1%Z * H 1%Z 0%Z + t_
    else if (r =? 1)%Z then H 1%Z 0%Z * (H 0%Z 0%Z + H 1%Z 1%Z - s)
    else if (r =? 2)%Z then H 2%Z 1%Z * H 1%Z 0%Z
    else 0.
Proof.
  intros Hn HH Hr. unfold shifted_square, diag_add, mmul.
  rewrite (sumZ_three n 0); try lia.
  - cbn [Z.add]. rewrite !in_range_true by lia.
    change (0 =? 0)%Z with true. change (1 =? 0)%Z with false.
    change (2 =? 0)%Z with false. cbn [andb].
    rewrite (HH 2%Z 0%Z) by lia.
    destruct (Z.eqb_spec r 0) as [->|H0]; cbn [andb].
    { change (0 =? 1)%Z with false. cbn [andb]. ring. }
    destruct (Z.eqb_spec r 1) as [->|H1]; [ring|].
    destruct (Z.eqb_spec r 2) as [->|H2].
    { rewrite (HH 2%Z 0%Z) by lia. ring. }
    rewrite (HH r 0%Z), (HH r 1%Z) by lia. ring.
  - intros i Hi H0 H1 H2.
    replace (i =? 0)%Z with false by (symmetry; apply Z.eqb_neq; lia).
    cbn [andb]. rewrite (HH i 0%Z) by lia. ring.
Qed.

Lemma hessenberg_bulge n H : hessenberg n H -> bulge n 0 H.
Proof. intros HH r c H0 H1 H2. right; right. now apply HH. Qed.

Lemma bulge_hessenberg n M : bulge n (n - 1) M -> hessenberg n M.
Proof.
  intros HB r c H0 H1 H2. destruct (HB r c H0 H1 H2) as [H|[H|H]];
    [lia | lia | exact H].
Qed.

Lemma orthogonal_refl n P :
  transpose P = P -> meq n (mmul n P P) Identity -> orthogonal n P.
Proof. intros HPs HPP. unfold orthogonal. rewrite HPs. now split. Qed.

Lemma chased_first n H s t_ u0 u1 u2 :
  (3 <= n)%Z -> hessenberg n H -> unit_or_zero u0 u1 u2 ->
  annihilates u0 u1 u2
    (H 0%Z 0%Z * (H 0%Z 0%Z - s) + H 0%Z 1%Z * H 1%Z 0%Z + t_)
    (H 1%Z 0%Z * (H 0%Z 0%Z + H 1%Z 1%Z - s))
    (H 2%Z 1%Z * H 1%Z 0%Z) ->
  chased n H (shifted_square n H s t_) 1 (reflect_both n u0 u1 u2 0 H).
Proof.
  intros Hn HH Hu [A1 A2].
  split.
  { apply (bulge_step n 0); try lia. now apply hessenberg_bulge. }
  set (v := refl_vec u0 u1 u2 0). set (P := refl_mat v).
  assert (HPs : transpose P = P) by apply refl_mat_sym.
  assert (HPP : meq n (mmul n P P) Identity)
    by (apply refl_mat_involution; auto; lia).
  exists P. split; [now apply orthogonal_refl|]. split.
  - eapply meq_trans; [apply reflect_both_mmul; lia|].
    unfold similarity. rewrite HPs, mmul_assoc. apply meq_refl.
  - intros r Hr. rewrite HPs. unfold P. rewrite refl_mat_mul_l by lia.
    unfold v at 2.
    rewrite (refl_vec_dot n u0 u1 u2 0
               (fun j => shifted_square n H s t_ j 0%Z)) by lia.
    rewrite !shifted_square_col0 by (auto; lia).
    cbn [Z.add]. change (0 =? 0)%Z with true. change (1 =? 0)%Z with false.
    change (2 =? 0)%Z with false. change (1 =? 1)%Z with true.
    change (2 =? 1)%Z with false. change (2 =? 2)%Z with true. cbv iota.
    unfold v, refl_vec. cbn [Z.add].
    destruct (Z.eqb_spec r 0); [lia|].
    destruct (Z.eqb_spec r 1); [lra|].
    destruct (Z.eqb_spec r 2); [lra|]. ring.
Qed.

(** ** The shifted square commutes with the matrix *)

Lemma mmul_madd_r n A B C :
  mmul n A (madd B C) = madd (mmul n A B) (mmul n A C).
Proof.
  apply functional_extensionality; intros r.
  apply functional_extensionality; intros c. unfold mmul, madd.
  rewrite <- sumZ_plus. apply sumZ_ext. intros k _. ring.
Qed.

Lemma mmul_madd_l n A B C :
  mmul n (madd A B) C = madd (mmul n A C) (mmul n B C).
Proof.
  apply functional_extensionality; intros r.
  apply functional_extensionality; intros c. unfold mmul, madd.
  rewrite <- sumZ_plus. apply sumZ_ext. intros k _. ring.
Qed.

Lemma mmul_mscal_r n x A B : mmul n A (mscal x B) = mscal x (mmul n A B).
Proof.
  apply functional_extensionality; intros r.
  apply functional_extensionality; intros c. unfold mmul, mscal.
  rewrite <- sumZ_scal. apply sumZ_ext. intros k _. ring.
Qed.

Lemma mmul_mscal_l n x A B : mmul n (mscal x A) B = mscal x (mmul n A B).
Proof.
  apply functional_extensionality; intros r.
  apply functional_extensionality; intros c. unfold mmul, mscal.
  rewrite <- sumZ_scal. apply sumZ_ext. intros k _. ring.
Qed.

Lemma madd_meq n A A' B B' :
  meq n A A' -> meq n B B' -> meq n (madd A B) (madd A' B').
Proof. intros HA HB r c Hr Hc. unfold madd. now rewrite HA, HB. Qed.

Lemma mscal_meq n x A A' : meq n A A' -> meq n (mscal x A) (mscal x A').
Proof. intros HA r c Hr Hc. unfold mscal. now rewrite HA. Qed.

Lemma diag_add_madd n A x : meq n (diag_add n A x) (madd A (mscal x Identity)).
Proof.
  intros r c Hr Hc. unfold diag_add, madd, mscal, Identity.
  rewrite in_range_true by lia. destruct (r =? c)%Z; cbn [andb]; ring.
Qed.

Lemma shifted_square_poly n H s t_ :
  meq n (shifted_square n H s t_)
        (madd (madd (mmul n H H) (mscal (- s) H)) (mscal t_ Identity)).
Proof.
  unfold shifted_square.
  eapply meq_trans; [apply diag_add_madd|].
  apply madd_meq; [|apply meq_refl].
  eapply meq_trans.
  { apply mmul_meq; [apply meq_refl | apply diag_add_madd]. }
  rewrite mmul_madd_r, mmul_mscal_r.
  apply madd_meq; [apply meq_refl|].
  apply mscal_meq, mmul_identity_r.
Qed.

Lemma shifted_square_commutes n H s t_ :
  meq n (mmul n (shifted_square n H s t_) H)
        (mmul n H (shifted_square n H s t_)).
Proof.
  eapply meq_trans.
  { apply mmul_meq; [apply shifted_square_poly | apply meq_refl]. }
  eapply meq_trans.
  2:{ apply mmul_meq; [apply meq_refl|]. apply meq_sym, shifted_square_poly. }
  rewrite !mmul_madd_l, !mmul_madd_r, !mmul_mscal_l, !mmul_mscal_r.
  rewrite mmul_assoc.
  apply madd_meq; [apply meq_refl|].
  apply mscal_meq.
  eapply meq_trans; [apply mmul_identity_l | apply meq_sym, mmul_identity_r].
Qed.

(** ** The orthogonal factor is fixed by its first column *)

(** If B = Q^T H Q is upper Hessenberg, H is upper Hessenberg with no zero
    on its sub-diagonal, and the first column of R = Q^T pH lies on the
    first axis, then R is upper triangular. *)
Lemma implicit_q n H s t_ Q B :
  (0 < n)%Z -> hessenberg n H ->
  (forall j, (0 <= j)%Z -> (j + 1 < n)%Z -> H (j + 1)%Z j <> 0) ->
  orthogonal n Q -> meq n B (similarity n Q H) -> hessenberg n B ->
  let R := mmul n (transpose Q) (shifted_square n H s t_) in
  (forall r, (0 < r < n)%Z -> R r 0%Z = 0) ->
  upper_triangular n R.
Proof.
  intros Hn HH Hsub [HQ1 HQ2] HB HBh R HR0.
  set (pH := shifted_square n H s t_) in *.
  assert (Comm : meq n (mmul n B R) (mmul n R H)).
  { unfold R.
    eapply meq_trans.
    { apply mmul_meq; [exact HB | apply meq_refl]. }
    unfold similarity.
    rewrite !mmul_assoc. apply mmul_meq; [apply meq_refl|].
    rewrite <- (mmul_assoc n Q (transpose Q) pH).
    eapply meq_trans.
    { apply mmul_meq; [apply meq_refl|].
      eapply meq_trans; [|apply mmul_identity_l].
      apply mmul_meq; [exact HQ2 | apply meq_refl]. }
    apply meq_sym, shifted_square_commutes. }
  assert (T : forall k (j : Z), j = Z.of_nat k -> (j < n)%Z ->
            forall c r, (0 <= c <= j)%Z -> (c < r < n)%Z -> R r c = 0).
  { induction k as [|k IH]; intros j Hj Hjn c r Hc Hr.
    - assert (c = 0%Z) as -> by lia. apply HR0. lia.
    - destruct (Z.eq_dec c j) as [->|Hcj];
        [|apply (IH (j - 1)%Z); lia].
      set (j0 := (j - 1)%Z).
      assert (IH' : forall c r, (0 <= c <= j0)%Z -> (c < r < n)%Z -> R r c = 0)
        by (apply IH; unfold j0; lia).
      pose proof (Comm r j0 ltac:(lia) ltac:(unfold j0; lia)) as E.
      unfold mmul in E at 1 2.
      rewrite sumZ_zero in E.
      2:{ intros i Hi. destruct (Z_le_gt_dec i j0).
          - rewrite (HBh r i) by (unfold j0 in *; lia). ring.
          - rewrite (IH' j0 i) by lia. ring. }
      rewrite (sumZ_single n j) in E.
      + replace j with (j0 + 1)%Z in E at 2 by (unfold j0; lia).
        symmetry in E. apply Rmult_integral in E. destruct E as [E|E];
          [exact E|].
        exfalso. revert E. apply Hsub; unfold j0; lia.
      + lia.
      + intros i Hi Hij. destruct (Z_le_gt_dec i j0).
        * rewrite (IH' i r) by lia. ring.
        * rewrite (HH i j0) by (unfold j0 in *; lia). ring. }
  intros r c Hc Hcr Hrn.
  apply (T (Z.to_nat c) c); lia.
Qed.

(** ** The passes of the sweep, on a block that is the whole matrix *)

Lemma set_mat_H_same d : set_mat_H d (mat_H d) = d.
Proof. now destruct d. Qed.

Lemma reflect_rows_null r0 lo hi M : reflect_rows 0 0 0 r0 lo hi M = M.
Proof.
  apply functional_extensionality; intros r.
  apply functional_extensionality; intros c.
  unfold reflect_rows. split_tests; ring.
Qed.

Lemma reflect_cols_null c0 lo hi M : reflect_cols 0 0 0 c0 lo hi M = M.
Proof.
  apply functional_extensionality; intros r.
  apply functional_extensionality; intros c.
  unfold reflect_cols. split_tests; ring.
Qed.

Lemma skipped_unit_or_zero d ind :
  0 <= prec d < 2 ->
  unit_or_zero (scaled_u d 0 ind) (scaled_u d 1 ind) (scaled_u d 2 ind) ->
  (skipped d ind = true
   /\ scaled_u d 0 ind = 0 /\ scaled_u d 1 ind = 0 /\ scaled_u d 2 ind = 0)
  \/ skipped d ind = false.
Proof.
  intros Hp [[H0 [H1 H2]]|Hu].
  - left. split; [|now repeat split]. unfold skipped.
    rewrite H0, H1, H2. apply Rleb_true. lra.
  - right. unfold skipped. rewrite Hu. apply Rleb_false. lra.
Qed.

Lemma apply_PX_unit X ind d :
  0 <= prec d < 2 ->
  unit_or_zero (scaled_u d 0 ind) (scaled_u d 1 ind) (scaled_u d 2 ind) ->
  apply_PX X ind d
  = set_mat_H d
      (reflect_rows (scaled_u d 0 ind) (scaled_u d 1 ind)
                    (if (rows X =? 2)%Z then 0 else scaled_u d 2 ind)
                    (row0 X) (col0 X) (col0 X + Z.max 0 (cols X)) (mat_H d)).
Proof.
  intros Hp Hu. rewrite apply_PX_closed.
  destruct (skipped_unit_or_zero d ind Hp Hu) as [[-> [-> [-> ->]]]| ->];
    [|reflexivity].
  destruct (rows X =? 2)%Z; now rewrite reflect_rows_null, set_mat_H_same.
Qed.

Lemma apply_XP_unit X ind d :
  0 <= prec d < 2 ->
  unit_or_zero (scaled_u d 0 ind) (scaled_u d 1 ind) (scaled_u d 2 ind) ->
  apply_XP X ind d
  = set_mat_H d
      (reflect_cols (scaled_u d 0 ind) (scaled_u d 1 ind)
                    (if (cols X =? 2)%Z then 0 else scaled_u d 2 ind)
                    (col0 X) (row0 X) (row0 X + Z.max 0 (rows X)) (mat_H d)).
Proof.
  intros Hp Hu. rewrite apply_XP_closed.
  destruct (skipped_unit_or_zero d ind Hp Hu) as [[-> [-> [-> ->]]]| ->];
    [|reflexivity].
  destruct (cols X =? 2)%Z; now rewrite reflect_cols_null, set_mat_H_same.
Qed.

(** The scaled entries of the reflector just computed. *)
Lemma scaled_u_fresh x1 x2 x3 ind d :
  scaled_u (compute_reflector x1 x2 x3 ind d) 0 ind
  = sqrt 2 * hh_u (prec d) x1 x2 x3 0
  /\ scaled_u (compute_reflector x1 x2 x3 ind d) 1 ind
     = sqrt 2 * hh_u (prec d) x1 x2 x3 1
  /\ scaled_u (compute_reflector x1 x2 x3 ind d) 2 ind
     = sqrt 2 * hh_u (prec d) x1 x2 x3 2.
Proof.
  rewrite !scaled_u_compute_reflector, Z.eqb_refl.
  change (in_range 0 3 0) with true. change (in_range 0 3 1) with true.
  change (in_range 0 3 2) with true. now repeat split.
Qed.

(** A reflector step on rows and columns [i], [i + 1], [i + 2] of the whole
    matrix, with the reflector of the vector (x1, x2, x3) stored under index
    [i]: the matrix is changed to P M P. *)
Lemma reflector_pass n i x1 x2 x3 (two : bool) eps d XP XX :
  (0 <= i)%Z -> (i + 1 < n)%Z -> 0 <= eps < 2 -> prec d = eps ->
  scaled_u d 0 i = sqrt 2 * hh_u eps x1 x2 x3 0 ->
  scaled_u d 1 i = sqrt 2 * hh_u eps x1 x2 x3 1 ->
  scaled_u d 2 i = sqrt 2 * hh_u eps x1 x2 x3 2 ->
  bulge n i (mat_H d) ->
  row0 XP = i -> col0 XP = (if (1 <=? i)%Z then i - 1 else 0)%Z ->
  (col0 XP + Z.max 0 (cols XP))%Z = n ->
  row0 XX = 0%Z -> col0 XX = i ->
  (row0 XX + Z.max 0 (rows XX))%Z = (if two then n else Z.min n (i + 4)) ->
  (rows XP =? 2)%Z = two -> (cols XX =? 2)%Z = two ->
  (two = false -> (i + 2 < n)%Z) ->
  let u0 := sqrt 2 * hh_u eps x1 x2 x3 0 in
  let u1 := sqrt 2 * hh_u eps x1 x2 x3 1 in
  let u2 := if two then 0 else sqrt 2 * hh_u eps x1 x2 x3 2 in
  apply_XP XX i (apply_PX XP i d)
  = set_mat_H d (reflect_both n u0 u1 u2 i (mat_H d)).
Proof.
  intros Hi Hn Hp P1 S0 S1 S2 HB R0 C0 CH XR XC XH T1 T2 Hthree u0 u1 u2.
  assert (U : unit_or_zero (scaled_u d 0 i) (scaled_u d 1 i) (scaled_u d 2 i)).
  { rewrite S0, S1, S2. apply hh_u_unit_or_zero. lra. }
  rewrite (apply_PX_unit XP i d) by (rewrite ?P1; auto).
  rewrite apply_XP_unit by (cbn [prec set_mat_H]; rewrite ?P1; auto).
  rewrite !scaled_u_set_mat_H, S0, S1, S2, T1, T2, CH, XH, R0, C0, XR, XC.
  cbn [mat_H set_mat_H]. fold u0 u1 u2.
  unfold set_mat_H.
  cbn [DoubleShiftQR.n mat_H shift_s shift_t ref_u prec computed].
  f_equal.
  assert (Hu2 : (n <= i + 2)%Z -> u2 = 0).
  { intros H. unfold u2. destruct two; [reflexivity|].
    specialize (Hthree eq_refl). lia. }
  destruct (Z.leb_spec 1 i) as [H1|H0].
  - rewrite rows_partial_full by auto.
    destruct two.
    + reflexivity.
    + apply cols_partial_full; auto.
  - assert (i = 0%Z) as -> by lia.
    destruct two.
    + reflexivity.
    + apply cols_partial_full; auto.
Qed.

Lemma chase_step_full n i d :
  (1 <= i)%Z -> (i + 2 < n)%Z -> 0 <= prec d < 2 ->
  bulge n i (mat_H d) ->
  let x1 := mat_H d i (i - 1)%Z in
  let x2 := mat_H d (i + 1)%Z (i - 1)%Z in
  let x3 := mat_H d (i + 2)%Z (i - 1)%Z in
  chase_step (mkBlock 0 0 n n) 0 i d
  = set_mat_H (compute_reflector x1 x2 x3 i d)
      (reflect_both n (sqrt 2 * hh_u (prec d) x1 x2 x3 0)
                    (sqrt 2 * hh_u (prec d) x1 x2 x3 1)
                    (sqrt 2 * hh_u (prec d) x1 x2 x3 2) i (mat_H d)).
Proof.
  intros Hi Hn Hp HB x1 x2 x3.
  destruct (scaled_u_fresh x1 x2 x3 i d) as [S0 [S1 S2]].
  unfold chase_step, compute_reflector_at.
  change (coeff (mat_H d) (mkBlock 0 0 n n) i (i - 1)) with x1.
  change (coeff (mat_H d) (mkBlock 0 0 n n) (i + 1) (i - 1)) with x2.
  change (coeff (mat_H d) (mkBlock 0 0 n n) (i + 2) (i - 1)) with x3.
  change (0 + i)%Z with i.
  rewrite (reflector_pass n i x1 x2 x3 false (prec d)); auto; try lia.
  - now rewrite mat_H_compute_reflector.
  - apply prec_compute_reflector.
  - now rewrite mat_H_compute_reflector.
  - cbn [row0 col0 rows cols block]. change (0 + (i - 1))%Z with (i - 1)%Z.
    now replace (1 <=? i)%Z with true by (symmetry; apply Z.leb_le; lia).
  - cbn [row0 col0 rows cols block]. change (0 + (i - 1))%Z with (i - 1)%Z.
    lia.
  - cbn [row0 col0 rows cols block]. lia.
Qed.

Lemma chase_loop n H pH steps :
  forall k d,
    (1 <= k)%Z -> (k + Z.of_nat steps <= n - 2)%Z -> 0 <= prec d < 2 ->
    chased n H pH k (mat_H d) ->
    chase_reflectable (mkBlock 0 0 n n) 0 steps k d ->
    let d' := for_n steps k (chase_step (mkBlock 0 0 n n) 0) d in
    chased n H pH (k + Z.of_nat steps) (mat_H d') /\ prec d' = prec d.
Proof.
  induction steps as [|steps IH]; intros k d Hk Hs Hp HC HP d'.
  - unfold d'. cbn [for_n]. rewrite Z.add_0_r. now split.
  - destruct HP as [Hprop Hrest]. unfold d'. cbn [for_n].
    change (coeff (mat_H d) (mkBlock 0 0 n n) k (k - 1))
      with (mat_H d k (k - 1)%Z) in Hprop.
    change (coeff (mat_H d) (mkBlock 0 0 n n) (k + 1) (k - 1))
      with (mat_H d (k + 1)%Z (k - 1)%Z) in Hprop.
    change (coeff (mat_H d) (mkBlock 0 0 n n) (k + 2) (k - 1))
      with (mat_H d (k + 2)%Z (k - 1)%Z) in Hprop.
    pose proof (chase_step_full n k d Hk ltac:(lia) Hp (proj1 HC)) as E.
    cbv zeta in E. rewrite E in *. clear E.
    set (x1 := mat_H d k (k - 1)%Z) in *.
    set (x2 := mat_H d (k + 1)%Z (k - 1)%Z) in *.
    set (x3 := mat_H d (k + 2)%Z (k - 1)%Z) in *.
    set (d1 := set_mat_H (compute_reflector x1 x2 x3 k d) _) in *.
    assert (P1 : prec d1 = prec d)
      by (unfold d1; cbn [prec set_mat_H]; apply prec_compute_reflector).
    destruct (hh_u_annihilates_reflectable (prec d) x1 x2 x3 Hprop)
      as [A1 A2].
    destruct (IH (k + 1)%Z d1) as [HC' HP']; try lia.
    + rewrite P1. exact Hp.
    + unfold d1. cbn [mat_H set_mat_H].
      apply chased_step; auto; try lia.
      apply hh_u_unit_or_zero. lra.
    + exact Hrest.
    + split; [|congruence].
      replace (k + Z.of_nat (S steps))%Z with (k + 1 + Z.of_nat steps)%Z by lia.
      exact HC'.
Qed.

Lemma hh_u_third_zero eps x1 x2 : hh_u eps x1 x2 0 2 = 0.
Proof.
  unfold hh_u. destruct (Rleb _ _); [reflexivity|].
  change (2 =? 0)%Z with false. change (2 =? 1)%Z with false. cbv iota.
  unfold Rdiv. ring.
Qed.

(** The sweep of a block that is the whole matrix, of order three or more,
    when every reflector is built from a reflectable vector. *)
Lemma sweep_whole n d0 :
  (3 <= n)%Z -> hessenberg n (mat_H d0) -> 0 <= prec d0 < 2 ->
  sweep_reflectable (mkBlock 0 0 n n) 0 d0 ->
  chased n (mat_H d0)
         (shifted_square n (mat_H d0) (shift_s d0) (shift_t d0)) (n - 1)
         (mat_H (compute_reflectors_from_block (mkBlock 0 0 n n) 0 d0)).
Proof.
  intros Hn HH Hp HS.
  unfold compute_reflectors_from_block. unfold sweep_reflectable in HS.
  set (X := mkBlock 0 0 n n) in *.
  change (rows X) with n in *. change (cols X) with n in *.
  replace (n =? 1)%Z with false by (symmetry; apply Z.eqb_neq; lia).
  replace (n =? 2)%Z with false by (symmetry; apply Z.eqb_neq; lia).
  cbv zeta in HS. cbv zeta.
  set (M := mat_H d0) in *.
  set (x := coeff M X 0 0 * (coeff M X 0 0 - shift_s d0)
            + coeff M X 0 1 * coeff M X 1 0 + shift_t d0) in *.
  set (y := coeff M X 1 0 * (coeff M X 0 0 + coeff M X 1 1 - shift_s d0)) in *.
  set (z := coeff M X 2 1 * coeff M X 1 0) in *.
  (* the first reflector *)
  destruct (scaled_u_fresh x y z 0 d0) as [S0 [S1 S2]].
  assert (E1 : apply_XP (block X 0 0 (Z.min n 4) 3) 0
                 (apply_PX (block X 0 0 3 n) 0 (compute_reflector x y z 0 d0))
               = set_mat_H (compute_reflector x y z 0 d0)
                   (reflect_both n (sqrt 2 * hh_u (prec d0) x y z 0)
                      (sqrt 2 * hh_u (prec d0) x y z 1)
                      (sqrt 2 * hh_u (prec d0) x y z 2) 0 M)).
  { rewrite (reflector_pass n 0 x y z false (prec d0)); auto; try lia.
    - now rewrite mat_H_compute_reflector.
    - apply prec_compute_reflector.
    - rewrite mat_H_compute_reflector. now apply hessenberg_bulge.
    - cbn [row0 col0 rows cols block X]. lia.
    - cbn [row0 col0 rows cols block X]. lia. }
  rewrite E1 in *. clear E1.
  destruct HS as [Hx [Hchase Hlast]].
  set (d1 := set_mat_H (compute_reflector x y z 0 d0) _) in *.
  assert (P1 : prec d1 = prec d0)
    by (unfold d1; cbn [prec set_mat_H]; apply prec_compute_reflector).
  assert (C1 : chased n M (shifted_square n M (shift_s d0) (shift_t d0)) 1
                 (mat_H d1)).
  { unfold d1. cbn [mat_H set_mat_H].
    apply chased_first; auto.
    - apply hh_u_unit_or_zero. lra.
    - exact (hh_u_annihilates_reflectable (prec d0) x y z Hx). }
  (* the chase *)
  unfold for_loop in *.
  replace (Z.to_nat (n - 2 - 1)) with (Z.to_nat (n - 3)) in * by lia.
  destruct (chase_loop n M (shifted_square n M (shift_s d0) (shift_t d0))
              (Z.to_nat (n - 3)) 1 d1) as [C2 P2]; auto; try lia.
  { rewrite P1. exact Hp. }
  fold X in C2, P2.
  set (d2 := for_n (Z.to_nat (n - 3)) 1 (chase_step X 0) d1) in *.
  replace (1 + Z.of_nat (Z.to_nat (n - 3)))%Z with (n - 2)%Z in C2 by lia.
  (* the last reflector *)
  change (coeff (mat_H d2) X (n - 2) (n - 3))
    with (mat_H d2 (n - 2)%Z (n - 3)%Z) in *.
  change (coeff (mat_H d2) X (n - 1) (n - 3))
    with (mat_H d2 (n - 1)%Z (n - 3)%Z) in *.
  set (x1 := mat_H d2 (n - 2)%Z (n - 3)%Z) in *.
  set (x2 := mat_H d2 (n - 1)%Z (n - 3)%Z) in *.
  change (0 + n - 2)%Z with (n - 2)%Z. change (0 + n - 1)%Z with (n - 1)%Z.
  set (d4 := compute_reflector 0 0 0 (n - 1)
               (compute_reflector x1 x2 0 (n - 2) d2)).
  destruct (scaled_u_fresh x1 x2 0 (n - 2) d2) as [T0 [T1 T2]].
  assert (M4 : mat_H d4 = mat_H d2)
    by (unfold d4; now rewrite !mat_H_compute_reflector).
  assert (P4 : prec d4 = prec d0)
    by (unfold d4; rewrite !prec_compute_reflector; congruence).
  assert (S4 : forall k, scaled_u d4 k (n - 2)
                         = sqrt 2 * hh_u (prec d0) x1 x2 0 k
                         \/ ~ (0 <= k < 3)%Z).
  { intros k. destruct (Z_le_gt_dec 0 k); [|right; lia].
    destruct (Z_lt_ge_dec k 3); [left|right; lia].
    unfold d4. rewrite scaled_u_compute_reflector.
    replace (n - 2 =? n - 1)%Z with false by (symmetry; apply Z.eqb_neq; lia).
    cbn [andb]. rewrite scaled_u_compute_reflector, Z.eqb_refl.
    rewrite in_range_true by lia. cbn [andb]. now rewrite <- P1, P2. }
  rewrite (reflector_pass n (n - 2) x1 x2 0 true (prec d0)); auto; try lia.
  - cbn [mat_H set_mat_H]. rewrite M4.
    replace (n - 1)%Z with (n - 2 + 1)%Z by lia.
    apply chased_step; auto; try lia.
    + pose proof (hh_u_unit_or_zero (prec d0) x1 x2 0 ltac:(lra)) as U.
      now rewrite hh_u_third_zero, Rmult_0_r in U.
    + destruct (hh_u_annihilates_reflectable (prec d0) x1 x2 0) as [A1 _].
      { exact Hlast. }
      replace (n - 2 + 1)%Z with (n - 1)%Z by lia.
      replace (n - 2 - 1)%Z with (n - 3)%Z by lia.
      fold x1 x2. lra.
  - destruct (S4 0%Z); [assumption|lia].
  - destruct (S4 1%Z); [assumption|lia].
  - destruct (S4 2%Z); [assumption|lia].
  - rewrite M4. apply C2.
  - cbn [row0 col0 rows cols block X].
    replace (1 <=? n - 2)%Z with true by (symmetry; apply Z.leb_le; lia). lia.
  - cbn [row0 col0 rows cols block X]. lia.
  - cbn [row0 col0 rows cols block X]. lia.
Qed.

(** The first reflector of the sweep of a whole matrix of order three or
    more, in closed form. *)
Lemma first_pass n x y z d0 :
  (3 <= n)%Z -> hessenberg n (mat_H d0) -> 0 <= prec d0 < 2 ->
  apply_XP (block (mkBlock 0 0 n n) 0 0 (Z.min n 4) 3) 0
    (apply_PX (block (mkBlock 0 0 n n) 0 0 3 n) 0
       (compute_reflector x y z 0 d0))
  = set_mat_H (compute_reflector x y z 0 d0)
      (reflect_both n (sqrt 2 * hh_u (prec d0) x y z 0)
         (sqrt 2 * hh_u (prec d0) x y z 1)
         (sqrt 2 * hh_u (prec d0) x y z 2) 0 (mat_H d0)).
Proof.
  intros Hn HH Hp.
  destruct (scaled_u_fresh x y z 0 d0) as [S0 [S1 S2]].
  rewrite (reflector_pass n 0 x y z false (prec d0)); auto; try lia.
  - now rewrite mat_H_compute_reflector.
  - apply prec_compute_reflector.
  - rewrite mat_H_compute_reflector. now apply hessenberg_bulge.
  - cbn [row0 col0 rows cols block]. lia.
  - cbn [row0 col0 rows cols block]. lia.
Qed.

Lemma hessenberg_part_hessenberg n H : hessenberg n (hessenberg_part H).
Proof.
  intros r c H0 H1 H2. unfold hessenberg_part.
  now replace (r <=? c + 1)%Z with false by (symmetry; apply Z.leb_gt; lia).
Qed.

Lemma hessenberg_part_meq n H : hessenberg n H -> meq n (hessenberg_part H) H.
Proof.
  intros HH r c Hr Hc. unfold hessenberg_part.
  destruct (Z.leb_spec r (c + 1)); [reflexivity|].
  symmetry. apply HH; lia.
Qed.

Lemma diag_add_meq n A B x : meq n A B -> meq n (diag_add n A x) (diag_add n B x).
Proof.
  intros HAB r c Hr Hc. unfold diag_add. now rewrite HAB.
Qed.

Lemma shifted_square_meq n A B s t_ :
  meq n A B -> meq n (shifted_square n A s t_) (shifted_square n B s t_).
Proof.
  intros HAB. unfold shifted_square.
  apply diag_add_meq, mmul_meq; [exact HAB | now apply diag_add_meq].
Qed.

Lemma similarity_meq n Q A B :
  meq n A B -> meq n (similarity n Q A) (similarity n Q B).
Proof.
  intros HAB. unfold similarity.
  apply mmul_meq; [apply meq_refl|]. apply mmul_meq; [exact HAB | apply meq_refl].
Qed.

(** An orthogonal [Q] that carries the first column of [M] onto the first
    axis and makes Q^T M upper triangular is the orthogonal factor of a QR
    factorization of [M]. *)
Lemma qr_factor_of_triangular n M Q :
  orthogonal n Q -> upper_triangular n (mmul n (transpose Q) M) ->
  qr_factor n M Q.
Proof.
  intros HQ HT. split; [exact HQ|].
  exists (mmul n (transpose Q) M). split; [exact HT|].
  rewrite <- mmul_assoc.
  eapply meq_trans; [|apply mmul_identity_l].
  apply mmul_meq; [apply HQ | apply meq_refl].
Qed.

(** A sweep of a whole matrix of order three or more whose reflectors are
    all built from reflectable vectors is a double-shift QR step, for any
    real [s] and [t_]. *)
Lemma reflectable_sweep_qr_step n H s t_ d :
  (3 <= n)%Z -> hessenberg n H ->
  (forall j, (0 <= j)%Z -> (j + 1 < n)%Z -> H (j + 1)%Z j <> 0) ->
  0 <= prec d < 2 ->
  (forall i, (1 <= i <= n - 2)%Z -> prec d < Rabs (H i (i - 1)%Z)) ->
  sweep_reflectable (mkBlock 0 0 n n) 0
    (mk n (hessenberg_part H) s t_ (ref_u d) (prec d) (computed d)) ->
  exists d' Q,
    compute n n H s t_ d = Ok d'
    /\ matrix_QtHQ d' = Ok (mat_H d')
    /\ qr_factor n (shifted_square n H s t_) Q
    /\ meq n (mat_H d') (similarity n Q H)
    /\ hessenberg n (mat_H d').
Proof.
  intros Hn HH Hsub Hp Hthr HS.
  rewrite (compute_single_block n H s t_ d ltac:(lia) Hthr). cbv zeta.
  set (d0 := mk n (hessenberg_part H) s t_ (ref_u d) (prec d) (computed d)) in *.
  pose proof (sweep_whole n d0 Hn (hessenberg_part_hessenberg n H) Hp HS)
    as [HB [Q [HQ [HM HR]]]].
  change (mat_H d0) with (hessenberg_part H) in HM, HR.
  change (shift_s d0) with s in HR. change (shift_t d0) with t_ in HR.
  set (d1 := compute_reflectors_from_block (mkBlock 0 0 n n) 0 d0) in *.
  pose proof (hessenberg_part_meq n H HH) as HE.
  assert (HM' : meq n (mat_H d1) (similarity n Q H)).
  { eapply meq_trans; [exact HM|]. now apply similarity_meq. }
  assert (Hh : hessenberg n (mat_H d1)) by now apply bulge_hessenberg.
  eexists. exists Q. split; [reflexivity|].
  cbn [matrix_QtHQ computed mat_H]. split; [reflexivity|].
  split; [|split; assumption].
  apply qr_factor_of_triangular; [exact HQ|].
  apply (implicit_q n H s t_ Q (mat_H d1)); auto; try lia.
  intros r Hr. rewrite <- (HR r Hr).
  apply mmul_meq; try lia.
  - apply meq_refl.
  - apply meq_sym. now apply shifted_square_meq.
Qed.

Lemma hh_norm_ge1 x1 x2 x3 : 1 <= x2 * x2 -> 1 <= hh_norm x1 x2 x3.
Proof.
  intros H. unfold hh_norm.
  apply Rle_trans with (sqrt 1); [rewrite sqrt_1; lra|].
  apply sqrt_le_1_alt.
  pose proof (Rle_0_sqr (hh_x1 x1 x2 x3)) as H1. unfold Rsqr in H1.
  pose proof (Rle_0_sqr x3) as H3. unfold Rsqr in H3. lra.
Qed.

Lemma proper_of_second eps x1 x2 x3 :
  eps < 1 -> x1 <> 0 -> 1 <= x2 * x2 -> proper eps x1 x2 x3.
Proof.
  intros He Hx H2. split; [exact Hx|].
  pose proof (hh_norm_ge1 x1 x2 x3 H2). lra.
Qed.

(** The sweep of [H_exact] with the shifts 5 i and - 5 i, two of its
    eigenvalues, builds its first reflector from the vector (49, 0, 168) and
    its last from the vector (0, 0): the first has carried the matrix to a
    form whose first column is zero below the diagonal. *)
Lemma H_exact_sweep_reflectable :
  sweep_reflectable (mkBlock 0 0 3 3) 0
    (mk 3 (hessenberg_part H_exact) (2 * real (mkComplex 0 5))
        (Cnorm (mkComplex 0 5)) (ref_u new) (prec new) (computed new)).
Proof.
  pose proof prec_qr_bounds as Hp. pose proof sqrt2_sq as Hsq.
  set (d0 := mk 3 (hessenberg_part H_exact) _ _ _ _ _).
  unfold sweep_reflectable.
  change (rows (mkBlock 0 0 3 3)) with 3%Z.
  change (cols (mkBlock 0 0 3 3)) with 3%Z. cbv zeta.
  set (X := mkBlock 0 0 3 3).
  change (3 - 2)%Z with 1%Z. change (3 - 3)%Z with 0%Z.
  change (3 - 1)%Z with 2%Z.
  replace (coeff (mat_H d0) X 0 0 * (coeff (mat_H d0) X 0 0 - shift_s d0)
           + coeff (mat_H d0) X 0 1 * coeff (mat_H d0) X 1 0 + shift_t d0)
    with 49 by (cbn; unfold Cnorm; cbn; lra).
  replace (coeff (mat_H d0) X 1 0
           * (coeff (mat_H d0) X 0 0 + coeff (mat_H d0) X 1 1 - shift_s d0))
    with 0 by (cbn; lra).
  replace (coeff (mat_H d0) X 2 1 * coeff (mat_H d0) X 1 0)
    with 168 by (cbn; lra).
  unfold X. rewrite (first_pass 3 49 0 168 d0);
    [ | lia | apply hessenberg_part_hessenberg
      | change (prec d0) with prec_qr; lra ].
  fold X.
  change (prec d0) with prec_qr.
  set (u0 := sqrt 2 * hh_u prec_qr 49 0 168 0).
  set (u1 := sqrt 2 * hh_u prec_qr 49 0 168 1).
  set (u2 := sqrt 2 * hh_u prec_qr 49 0 168 2).
  set (M1 := reflect_both 3 u0 u1 u2 0 (mat_H d0)).
  unfold for_loop. change (Z.to_nat (1 - 1)) with 0%nat.
  change (Z.to_nat 0) with 0%nat. cbn [for_n chase_reflectable].
  change (coeff (mat_H (set_mat_H (compute_reflector 49 0 168 0 d0) M1)) X 1 0)
    with (M1 1%Z 0%Z).
  change (coeff (mat_H (set_mat_H (compute_reflector 49 0 168 0 d0) M1)) X 2 0)
    with (M1 2%Z 0%Z).
  assert (N : sqrt (49 * 49 + (0 * 0 + 168 * 168)) = 175).
  { replace (49 * 49 + (0 * 0 + 168 * 168)) with (175 * 175) by lra.
    apply sqrt_square. lra. }
  assert (X1 : hh_x1 49 0 168 = 224).
  { unfold hh_x1. rewrite N.
    replace (Rltb 49 0) with false by (symmetry; apply Rltb_false; lra).
    replace (Rltb 0 49) with true by (symmetry; apply Rltb_true; lra).
    unfold b2r. lra. }
  assert (HD : hh_norm 49 0 168 = 280).
  { unfold hh_norm. rewrite X1.
    replace (224 * 224 + (0 * 0 + 168 * 168)) with (280 * 280) by lra.
    apply sqrt_square. lra. }
  assert (U : u0 = sqrt 2 * (4 / 5) /\ u1 = 0 /\ u2 = sqrt 2 * (3 / 5)).
  { unfold u0, u1, u2, hh_u. rewrite HD.
    replace (Rleb 280 prec_qr) with false by (symmetry; apply Rleb_false; lra).
    zbool. rewrite X1. repeat split; field. }
  destruct U as [U0 [U1 U2]].
  assert (F20 : M1 2%Z 0%Z = 0).
  { unfold M1, reflect_both, reflect_cols, reflect_rows. zbool.
    cbn. rewrite U0, U1, U2. clear - Hsq. nra. }
  rewrite F20.
  split; [|split; [exact I|]].
  - right. split; [lra|]. rewrite HD. lra.
  - left. split; reflexivity.
Qed.

(** C1, amended.  Let [H] be an upper-Hessenberg matrix of order [n], at
    least 3, whose sub-diagonal entries are nonzero and exceed the threshold
    of the decomposition in magnitude, let [mu] be a complex shift,
    s = mu + conj mu = 2 Re mu and t = mu * conj mu = |mu|^2.  When every
    reflector of the sweep is built from a vector that lies on the first
    axis already, as with exact shifts at the end of the sweep, or has a
    nonzero first entry and a norm above the threshold, [compute] succeeds
    and [matrix_QtHQ] returns a matrix that is Q^T H Q for the orthogonal
    factor Q of a QR factorization of H^2 - s H + t I, and that is again
    upper Hessenberg. *)
Theorem double_shift_sweep_is_qr_step n H (mu : Complex) d :
  (3 <= n)%Z -> hessenberg n H ->
  (forall j, (0 <= j)%Z -> (j + 1 < n)%Z -> H (j + 1)%Z j <> 0) ->
  prec d = prec_qr ->
  (forall i, (1 <= i <= n - 2)%Z -> prec_qr < Rabs (H i (i - 1)%Z)) ->
  sweep_reflectable (mkBlock 0 0 n n) 0
    (mk n (hessenberg_part H) (2 * real mu) (Cnorm mu) (ref_u d) prec_qr
        (computed d)) ->
  exists d' M Q,
    compute n n H (2 * real mu) (Cnorm mu) d = Ok d'
    /\ matrix_QtHQ d' = Ok M
    /\ qr_factor n (shifted_square n H (2 * real mu) (Cnorm mu)) Q
    /\ meq n M (similarity n Q H)
    /\ hessenberg n M.
Proof.
  intros Hn HH Hsub Hp Hthr HS.
  pose proof prec_qr_bounds as Hb.
  destruct (reflectable_sweep_qr_step n H (2 * real mu) (Cnorm mu) d)
    as [d' [Q [E1 [E2 [E3 [E4 E5]]]]]]; auto.
  - rewrite Hp. lra.
  - now rewrite Hp.
  - now rewrite Hp.
  - exists d', (mat_H d'), Q. repeat split; auto; apply E3.
Qed.

Lemma double_shift_sweep_is_qr_step_witness :
  exists d' M Q,
    compute 3 3 H_exact (2 * real (mkComplex 0 5)) (Cnorm (mkComplex 0 5)) new
    = Ok d'
    /\ matrix_QtHQ d' = Ok M
    /\ qr_factor 3 (shifted_square 3 H_exact (2 * real (mkComplex 0 5))
                      (Cnorm (mkComplex 0 5))) Q
    /\ meq 3 M (similarity 3 Q H_exact)
    /\ hessenberg 3 M.
Proof.
  apply (double_shift_sweep_is_qr_step 3 H_exact (mkComplex 0 5) new).
  - lia.
  - intros r c H0 H1 H2. unfold H_exact.
    assert (r = 2%Z /\ c = 0%Z) as [-> ->] by lia. reflexivity.
  - intros j H0 H1. assert (j = 0%Z \/ j = 1%Z) as [-> | ->] by lia;
      cbn; lra.
  - reflexivity.
  - intros i Hi. assert (i = 1%Z) as -> by lia. cbn.
    pose proof prec_qr_bounds. rewrite Rabs_pos_eq; lra.
  - exact H_exact_sweep_reflectable.
Defined.

(** The sweep of [DoubleShiftQR] on [H_slip], an upper-Hessenberg matrix
    with no negligible sub-diagonal entry: with s = t = 2 the first column
    of H^2 - s H + t I has leading entry 0, [compute_reflector] takes the
    sign of 0 to be 0 and stores (0, 1, 1) / sqrt 2, a reflector that fixes
    the first axis and does not start the bulge chase; the matrix returned
    by [matrix_QtHQ] has the entry 1 at (2, 0).  This is the vector that
    [reflectable] leaves out. *)
Lemma double_shift_breaks_hessenberg :
  exists (d : t) (M : Matrix),
    hessenberg 3 H_slip
    /\ compute 3 3 H_slip 2 2 new = Ok d
    /\ matrix_QtHQ d = Ok M
    /\ M 2%Z 0%Z = 1
    /\ ~ hessenberg 3 M.
Proof.
  pose proof prec_qr_bounds as Hp.
  assert (Hc := compute_single_block 3 H_slip 2 2 new).
  cbv zeta in Hc.
  set (d1 := compute_reflectors_from_block (mkBlock 0 0 3 3) 0
               (mk 3 (hessenberg_part H_slip) 2 2 (ref_u new) (prec new)
                   (computed new))) in Hc.
  assert (E : mat_H d1 2%Z 0%Z = 1) by exact slip_sweep_entry.
  exists (mk (n d1) (mat_H d1) (shift_s d1) (shift_t d1) (ref_u d1) (prec d1)
             true), (mat_H d1).
  split; [|split; [|split; [reflexivity|split; [exact E|]]]].
  - intros r c H0 H1 H2. unfold H_slip.
    assert (r = 2%Z /\ c = 0%Z) as [-> ->] by lia. reflexivity.
  - apply Hc; [lia|]. intros i Hi. assert (i = 1%Z) as -> by lia.
    change (prec new) with prec_qr. unfold H_slip. cbn.
    rewrite Rabs_R1. lra.
  - intros Hh. specialize (Hh 2%Z 0%Z). rewrite E in Hh.
    assert (1 = 0) by (apply Hh; lia). lra.
Qed.

(** C1 fails for a matrix of order 2: the sweep leaves [H_two] as it is,
    but with s = t = 2 no orthogonal QR factor Q of H^2 - s H + t I has
    Q^T H Q = H. *)
Lemma small_block_not_a_qr_step :
  exists d : t,
    hessenberg 2 H_two
    /\ H_two 1%Z 0%Z <> 0
    /\ compute 2 2 H_two 2 2 new = Ok d
    /\ matrix_QtHQ d = Ok (mat_H d)
    /\ ~ exists Q, qr_factor 2 (shifted_square 2 H_two 2 2) Q
                   /\ meq 2 (mat_H d) (similarity 2 Q H_two).
Proof.
  assert (Hc := compute_single_block 2 H_two 2 2 new).
  cbv zeta in Hc.
  set (d1 := compute_reflectors_from_block (mkBlock 0 0 2 2) 0
               (mk 2 (hessenberg_part H_two) 2 2 (ref_u new) (prec new)
                   (computed new))) in Hc.
  assert (E : mat_H d1 = hessenberg_part H_two).
  { unfold d1, compute_reflectors_from_block.
    change (rows (mkBlock 0 0 2 2)) with 2%Z.
    change (2 =? 1)%Z with false. change (2 =? 2)%Z with true. cbv iota.
    now rewrite !mat_H_compute_reflector. }
  exists (mk (n d1) (mat_H d1) (shift_s d1) (shift_t d1) (ref_u d1) (prec d1)
             true).
  split; [intros r c H0 H1 H2; lia|].
  split; [unfold H_two; lra|].
  split; [apply Hc; [lia | intros i Hi; lia]|].
  split; [reflexivity|].
  intros [Q [[[Ho _] [R [Ht Hqr]]] Hs]].
  cbn [mat_H] in Hs. rewrite E in Hs.
  pose proof (Ho 0%Z 0%Z ltac:(lia) ltac:(lia)) as O00.
  pose proof (Hqr 0%Z 0%Z ltac:(lia) ltac:(lia)) as Q00.
  pose proof (Hqr 1%Z 0%Z ltac:(lia) ltac:(lia)) as Q10.
  pose proof (Hs 0%Z 0%Z ltac:(lia) ltac:(lia)) as S00.
  pose proof (Ht 1%Z 0%Z ltac:(lia) ltac:(lia) ltac:(lia)) as R10.
  unfold similarity, shifted_square, diag_add in O00, Q00, Q10, S00.
  repeat rewrite mmul_2 in O00. repeat rewrite mmul_2 in Q00.
  repeat rewrite mmul_2 in Q10. repeat rewrite mmul_2 in S00.
  unfold transpose, diag_add, Identity, hessenberg_part, H_two
    in O00, Q00, Q10, S00.
  cbn in O00, Q00, Q10, S00. rewrite R10 in Q00, Q10.
  clear Hc E Ho Ht Hqr Hs. clearbody d1.
  set (a := Q 0%Z 0%Z) in *. set (b := Q 1%Z 0%Z) in *.
  set (rho := R 0%Z 0%Z) in *.
  assert (Ha : a * rho = 2) by lra.
  assert (Hb : b * rho = -1) by lra.
  assert (Hu : a * a + b * b = 1) by lra.
  assert (Hv : a * a + 2 * a * b = 1) by lra.
  assert (Hw : b * (b - 2 * a) = 0) by nra.
  apply Rmult_integral in Hw. destruct Hw as [Hw|Hw]; nra.
Qed.

End DoubleShiftQRFacts.


(** * The constructor *)

(** X1.  The constructor throws [invalid_argument] exactly when
    [1 <= nev < rows] and [nev < ncv] do not both hold; the object it makes
    otherwise has [1 <= nev < ncv <= dim_n], with [ncv] the requested one cut
    down to the dimension, both counters at zero and the threshold
    eps^(2/3). *)
Theorem new_solver_contract (rows nev_ ncv_ : Z) :
  match new_solver rows nev_ ncv_ with
  | Ok s =>
      (1 <= nev_ < rows)%Z /\ (nev_ < ncv_)%Z
      /\ dim_n s = rows /\ nev s = nev_ /\ ncv s = Z.min ncv_ rows
      /\ (1 <= nev s < ncv s)%Z /\ (ncv s <= dim_n s)%Z
      /\ nmatop s = 0%Z /\ niter s = 0%Z /\ prec s = prec_arnoldi
  | Fail e =>
      e = InvalidArgument /\ ~ ((1 <= nev_ < rows)%Z /\ (nev_ < ncv_)%Z)
  end.
Proof.
  unfold new_solver.
  destruct (Z.ltb_spec nev_ 1); cbn [orb].
  { split; [reflexivity | lia]. }
  destruct (Z.leb_spec rows nev_).
  { split; [reflexivity | lia]. }
  destruct (Z.leb_spec ncv_ nev_).
  { split; [reflexivity | lia]. }
  cbn [dim_n nev ncv nmatop niter prec].
  destruct (Z.ltb_spec rows ncv_); repeat split; lia.
Qed.

(** * Sums and inner products *)

Lemma sumZ_succ k f : (0 <= k)%Z -> sumZ (k + 1) f = sumZ k f + f k.
Proof.
  intros H. unfold sumZ.
  replace (Z.to_nat (k + 1)) with (S (Z.to_nat k)) by lia.
  simpl. now rewrite Z2Nat.id.
Qed.

Lemma sumZ_nonneg n f :
  (forall i, (0 <= i < n)%Z -> 0 <= f i) -> 0 <= sumZ n f.
Proof.
  unfold sumZ. intros H.
  assert (G : forall k, (Z.of_nat k <= Z.max 0 n)%Z -> 0 <= sum_n k f).
  { induction k as [|k IH]; intros Hk; simpl; [lra|].
    assert (0 <= f (Z.of_nat k)) by (apply H; lia).
    assert (0 <= sum_n k f) by (apply IH; lia). lra. }
  apply G. lia.
Qed.

Lemma sumZ_empty n f : (n <= 0)%Z -> sumZ n f = 0.
Proof.
  intros H. unfold sumZ. now replace (Z.to_nat n) with 0%nat by lia.
Qed.

Lemma dot_ext n a a' b b' :
  (forall i, (0 <= i < n)%Z -> a i = a' i) ->
  (forall i, (0 <= i < n)%Z -> b i = b' i) ->
  dot n a b = dot n a' b'.
Proof.
  intros Ha Hb. apply sumZ_ext. intros i Hi. now rewrite Ha, Hb.
Qed.

Lemma dot_comm n a b : dot n a b = dot n b a.
Proof. apply sumZ_ext. intros i _. ring. Qed.

Lemma dot_self_nonneg n a : 0 <= dot n a a.
Proof.
  apply sumZ_nonneg. intros i _.
  pose proof (Rle_0_sqr (a i)) as H. exact H.
Qed.

Lemma vnorm_nonneg n a : 0 <= vnorm n a.
Proof. apply sqrt_pos. Qed.

Lemma vnorm_sqr n a : vnorm n a * vnorm n a = dot n a a.
Proof. apply sqrt_sqrt, dot_self_nonneg. Qed.

Lemma dot_div_l n a b c :
  dot n (fun r => a r / c) b = dot n a b / c.
Proof.
  unfold dot, Rdiv. rewrite <- sumZ_scal_r. apply sumZ_ext. intros i _. ring.
Qed.

Lemma dot_div_r n a b c :
  dot n a (fun r => b r / c) = dot n a b / c.
Proof. rewrite dot_comm, dot_div_l. now rewrite dot_comm. Qed.

Lemma dot_minus_r n a b c :
  dot n a (fun r => b r - c r) = dot n a b - dot n a c.
Proof.
  unfold dot. rewrite <- sumZ_minus. apply sumZ_ext. intros i _. ring.
Qed.

Lemma dot_scal_r n a b c :
  dot n a (fun r => b r * c) = dot n a b * c.
Proof.
  unfold dot. rewrite <- sumZ_scal_r. apply sumZ_ext. intros i _. ring.
Qed.

(** The inner product with a combination of the leading columns. *)
Lemma dot_leftCols n k a V h :
  dot n a (leftCols_mul k V h)
  = sumZ k (fun l => dot n a (col V l) * h l).
Proof.
  unfold dot, leftCols_mul.
  rewrite (sumZ_ext n _ (fun r => sumZ k (fun j => a r * (V r j * h j))))
    by (intros r _; now rewrite sumZ_scal).
  rewrite sumZ_swap. apply sumZ_ext. intros l _.
  rewrite <- sumZ_scal_r. apply sumZ_ext. intros r _. unfold col. ring.
Qed.

(** A vector of norm zero has no nonzero entry. *)
Lemma dot_self_zero n a :
  dot n a a = 0 -> forall i, (0 <= i < n)%Z -> a i = 0.
Proof.
  unfold dot, sumZ. intros H i Hi.
  assert (G : forall k, sum_n k (fun r => a r * a r) = 0 ->
                        forall j, (0 <= j < Z.of_nat k)%Z -> a j = 0).
  { induction k as [|k IH]; intros Hk j Hj; [lia|]. simpl in Hk.
    assert (H1 : 0 <= sum_n k (fun r => a r * a r)).
    { pose proof (sumZ_nonneg (Z.of_nat k) (fun r => a r * a r)) as H0.
      unfold sumZ in H0. rewrite Nat2Z.id in H0. apply H0.
      intros r _. apply Rle_0_sqr. }
    pose proof (Rle_0_sqr (a (Z.of_nat k))) as H2. unfold Rsqr in H2.
    destruct (Z.eq_dec j (Z.of_nat k)) as [->|Hne].
    - apply Rsqr_0_uniq. unfold Rsqr. lra.
    - apply IH; [lra | lia]. }
  apply (G (Z.to_nat n)); [exact H | lia].
Qed.

(** * init *)

(** X2.  [init] throws [invalid_argument] for every residual that vanishes
    on the [dim_n] entries it reads, none of them if [dim_n] is zero. *)
Theorem init_zero_residual (env : Env) (init_resid : Vector) (s : Solver) :
  0 < prec s ->
  (forall i, (0 <= i < dim_n s)%Z -> init_resid i = 0) ->
  init env init_resid s = Fail InvalidArgument.
Proof.
  intros Hp Hz. unfold init.
  assert (E : vnorm (dim_n s) init_resid = 0).
  { unfold vnorm, dot. rewrite sumZ_zero; [apply sqrt_0|].
    intros i Hi. rewrite Hz by exact Hi. ring. }
  rewrite E.
  now replace (Rltb 0 (prec s)) with true by (symmetry; now apply Rltb_true).
Qed.

Lemma init_zero_residual_witness :
  init env_id (fun _ => 0) solver_2_6 = Fail InvalidArgument.
Proof.
  apply (init_zero_residual env_id (fun _ => 0) solver_2_6).
  - apply prec_arnoldi_bounds.
  - reflexivity.
Defined.

Lemma col_set_col_same n V j v r :
  (0 <= r < n)%Z -> col (set_col n V j v) j r = v r.
Proof.
  intros H. unfold col, set_col. now rewrite Z.eqb_refl, in_range_true.
Qed.

Lemma col_set_col_other n V j v l r :
  l <> j -> col (set_col n V j v) l r = col V l r.
Proof.
  intros H. unfold col, set_col.
  now replace (l =? j)%Z with false by (symmetry; now apply Z.eqb_neq).
Qed.

Lemma unit_of_normalized n f :
  vnorm n f <> 0 -> dot n (fun r => f r / vnorm n f) (fun r => f r / vnorm n f) = 1.
Proof.
  intros H. rewrite dot_div_l, dot_div_r, <- vnorm_sqr. now field.
Qed.

Lemma init_arnoldi_holds (env : Env) (init_resid : Vector) (s s' : Solver) :
  op_reads env (dim_n s) -> 0 < prec s ->
  init env init_resid s = Ok s' ->
  arnoldi env 1 s'
  /\ (forall r, (0 <= r < dim_n s)%Z ->
        fac_V s' r 0%Z = init_resid r / vnorm (dim_n s) init_resid)
  /\ prec s <= vnorm (dim_n s) init_resid
  /\ dim_n s' = dim_n s /\ nmatop s' = (nmatop s + 1)%Z.
Proof.
  intros Hop Hp H. unfold init in H.
  set (n := dim_n s) in *. set (a := vnorm n init_resid) in *.
  destruct (Rltb a (prec s)) eqn:E; [discriminate|].
  apply Rltb_false in E. assert (Ha : a <> 0) by lra.
  injection H as <-. unfold arnoldi. cbn [dim_n fac_V fac_H fac_f nmatop].
  fold n.
  set (v := fun r => init_resid r / a).
  set (w := perform_op env v).
  set (V := set_col n (fun _ _ => 0) 0 v).
  assert (Hc : forall r, (0 <= r < n)%Z -> col V 0 r = v r)
    by (intros r Hr; now apply col_set_col_same).
  assert (Hvv : dot n (col V 0) (col V 0) = 1).
  { rewrite (dot_ext n _ v _ v) by assumption. now apply unit_of_normalized. }
  repeat split; try assumption; try reflexivity.
  - intros i j Hi Hj. assert (i = 0%Z) as -> by lia.
    assert (j = 0%Z) as -> by lia. exact Hvv.
  - intros j Hj. assert (j = 0%Z) as -> by lia.
    rewrite dot_minus_r.
    change (fun r => init_resid r / a * dot n v w)
      with (fun r => v r * dot n v w).
    rewrite (dot_ext n (col V 0) v (fun r => v r * dot n v w)
                     (fun r => v r * dot n v w)) by auto.
    rewrite dot_scal_r.
    rewrite (dot_ext n (col V 0) v w w) by auto.
    rewrite <- (dot_ext n _ v _ v Hc Hc), Hvv. ring.
  - intros j r Hj Hr. assert (j = 0%Z) as -> by lia.
    change (1 - 1)%Z with 0%Z. rewrite Z.eqb_refl.
    change 1%Z with (0 + 1)%Z. rewrite sumZ_succ by lia.
    rewrite sumZ_empty by lia.
    rewrite (Hop (col V 0) v Hc r Hr). fold w.
    change (V r 0%Z) with (col V 0 r). rewrite Hc by exact Hr.
    unfold set_entry. cbn [Z.eqb andb].
    change (init_resid r / a) with (v r). ring.
Qed.

(** X3.  When [init] returns it has made a one-step Arnoldi factorization:
    the first basis vector is the residual given, scaled to norm one, the
    new residual is orthogonal to it, and A v = v H(0,0) + f.  The operator
    has been applied once. *)
Theorem init_arnoldi (env : Env) (init_resid : Vector) (s s' : Solver) :
  op_reads env (dim_n s) -> 0 < prec s ->
  init env init_resid s = Ok s' ->
  arnoldi env 1 s'
  /\ (forall r, (0 <= r < dim_n s)%Z ->
        fac_V s' r 0%Z = init_resid r / vnorm (dim_n s) init_resid)
  /\ prec s <= vnorm (dim_n s) init_resid
  /\ dim_n s' = dim_n s /\ nmatop s' = (nmatop s + 1)%Z.
Proof. apply init_arnoldi_holds. Qed.

Lemma init_succeeds env init_resid s :
  prec s <= vnorm (dim_n s) init_resid ->
  exists s', init env init_resid s = Ok s'.
Proof.
  intros H. unfold init.
  replace (Rltb (vnorm (dim_n s) init_resid) (prec s)) with false
    by (symmetry; now apply Rltb_false).
  eexists. reflexivity.
Qed.

Lemma op_reads_id n : op_reads env_id n.
Proof. intros x y H r Hr. cbn. now apply H. Qed.

Lemma init_arnoldi_witness :
  exists s', init env_id (fun r => if (r =? 0)%Z then 1 else 0)
                  solver_breakdown = Ok s'
             /\ arnoldi env_id 1 s'.
Proof.
  destruct (init_succeeds env_id (fun r => if (r =? 0)%Z then 1 else 0)
              solver_breakdown) as [s' E].
  { cbn [prec dim_n solver_breakdown]. unfold vnorm, dot. rewrite sumZ_2.
    cbn [Z.eqb]. replace (1 * 1 + 0 * 0) with 1 by ring. rewrite sqrt_1.
    pose proof prec_arnoldi_bounds. lra. }
  exists s'. split; [exact E|].
  exact (proj1 (init_arnoldi env_id _ solver_breakdown s' (op_reads_id _)
                  (proj1 prec_arnoldi_bounds) E)).
Defined.

(** * factorize_from *)

(** One pass of the loop of [factorize_from] extends an Arnoldi
    factorization by a column, if the residual it starts from is not
    zero. *)
Lemma factorize_step_arnoldi env i s :
  (0 <= i)%Z -> 0 <= prec s -> op_reads env (dim_n s) ->
  vnorm (dim_n s) (fac_f s) <> 0 ->
  arnoldi env i s -> arnoldi env (i + 1) (factorize_step env i s).
Proof.
  intros Hi Hp Hop Hb [HO [HF HA]].
  set (n := dim_n s) in *.
  set (b := vnorm n (fac_f s)) in *.
  set (v := fun r => fac_f s r / b).
  set (V1 := set_col n (fac_V s) i v).
  set (w := perform_op env v).
  set (h := leftCols_tmul n V1 w).
  set (f1 := fun r => w r - leftCols_mul (i + 1) V1 h r).
  set (H3 := set_col (i + 1)
               (set_entry (block_setZero (fac_H s) i 0 1 i) i (i - 1) b) i h).
  assert (Hci : forall r, (0 <= r < n)%Z -> col V1 i r = v r)
    by (intros; now apply col_set_col_same).
  assert (Hco : forall l r, l <> i -> col V1 l r = col (fac_V s) l r)
    by (intros; now apply col_set_col_other).
  assert (Hvv : dot n v v = 1) by now apply unit_of_normalized.
  assert (Hjv : forall j, (0 <= j < i)%Z -> dot n (col (fac_V s) j) v = 0).
  { intros j Hj. unfold v. rewrite dot_div_r, HF by lia. unfold Rdiv. ring. }
  assert (HO1 : orthonormal_cols n (i + 1) V1).
  { intros j l Hj Hl.
    destruct (Z.eq_dec j i) as [->|Hji]; destruct (Z.eq_dec l i) as [->|Hli].
    - rewrite Z.eqb_refl. now rewrite (dot_ext n _ v _ v).
    - replace (i =? l)%Z with false by (symmetry; apply Z.eqb_neq; lia).
      rewrite (dot_ext n _ v _ (col (fac_V s) l)); auto.
      rewrite dot_comm. apply Hjv. lia.
    - replace (j =? i)%Z with false by (symmetry; apply Z.eqb_neq; lia).
      rewrite (dot_ext n _ (col (fac_V s) j) _ v); auto.
      apply Hjv. lia.
    - rewrite (dot_ext n _ (col (fac_V s) j) _ (col (fac_V s) l)); auto.
      apply HO; lia. }
  assert (HF1 : forall j, (0 <= j < i + 1)%Z -> dot n (col V1 j) f1 = 0).
  { intros j Hj. unfold f1. rewrite dot_minus_r, dot_leftCols.
    rewrite (sumZ_single (i + 1) j).
    - rewrite HO1, Z.eqb_refl by lia. unfold h, leftCols_tmul. ring.
    - lia.
    - intros l Hl Hne. rewrite HO1 by lia.
      replace (j =? l)%Z with false by (symmetry; apply Z.eqb_neq; lia).
      ring. }
  assert (Hf : fac_f (factorize_step env i s) = f1).
  { change (fac_f (factorize_step env i s))
      with (if (Rltb (prec s) (dot n f1 (col V1 0))
                || Rltb (dot n f1 (col V1 0)) (- prec s))%bool
            then (fun r => f1 r - leftCols_mul (i + 1) V1
                    (fun j => if (j =? 0)%Z then dot n f1 (col V1 0)
                              else dot n (col V1 j) f1) r)
            else f1).
    rewrite dot_comm, HF1 by lia.
    replace (Rltb (prec s) 0) with false
      by (symmetry; apply Rltb_false; lra).
    now replace (Rltb 0 (- prec s)) with false
      by (symmetry; apply Rltb_false; lra). }
  unfold arnoldi.
  change (dim_n (factorize_step env i s)) with n.
  change (fac_V (factorize_step env i s)) with V1.
  change (fac_H (factorize_step env i s)) with H3.
  rewrite Hf.
  split; [exact HO1|]. split; [exact HF1|].
  intros j r Hj Hr.
  rewrite sumZ_succ by lia.
  replace (i + 1 - 1)%Z with i by lia.
  assert (HVi : V1 r i = v r) by (apply (Hci r Hr)).
  destruct (Z.eqb_spec j i) as [->|Hji].
  - rewrite (Hop (col V1 i) v Hci r Hr). fold w.
    unfold f1, leftCols_mul. rewrite sumZ_succ by lia.
    assert (HH : forall l, (0 <= l <= i)%Z -> H3 l i = h l).
    { intros l Hl. unfold H3, set_col.
      now rewrite Z.eqb_refl, in_range_true by lia. }
    rewrite (sumZ_ext i (fun l => V1 r l * H3 l i) (fun l => V1 r l * h l))
      by (intros l Hl; now rewrite HH by lia).
    rewrite HH by lia. ring.
  - rewrite (Hop (col V1 j) (col (fac_V s) j)) by
      (try assumption; intros; apply Hco; lia).
    rewrite (HA j r) by lia.
    assert (HH : forall l, (0 <= l < i)%Z -> H3 l j = fac_H s l j).
    { intros l Hl. unfold H3, set_col, set_entry, block_setZero.
      replace (j =? i)%Z with false by (symmetry; apply Z.eqb_neq; lia).
      replace (l =? i)%Z with false by (symmetry; apply Z.eqb_neq; lia).
      cbn [andb].
      now rewrite (DoubleShiftQRFacts.in_range_false i (i + 1) l) by lia. }
    rewrite (sumZ_ext i (fun l => V1 r l * H3 l j)
                        (fun l => fac_V s r l * fac_H s l j)).
    2:{ intros l Hl. rewrite HH by lia. f_equal.
        change (V1 r l) with (col V1 l r). rewrite Hco by lia. reflexivity. }
    rewrite HVi. unfold H3, set_col, set_entry, block_setZero.
    replace (j =? i)%Z with false by (symmetry; apply Z.eqb_neq; lia).
    rewrite Z.eqb_refl. cbn [andb].
    destruct (Z.eqb_spec j (i - 1)) as [->|Hne].
    + unfold v. field. exact Hb.
    + rewrite !in_range_true by lia. cbn [andb]. ring.
Qed.

Lemma factorize_step_shape env i s :
  dim_n (factorize_step env i s) = dim_n s
  /\ prec (factorize_step env i s) = prec s
  /\ ncv (factorize_step env i s) = ncv s.
Proof. now repeat split. Qed.

Lemma factorize_passes_arnoldi env k :
  forall i s,
    (0 <= i)%Z -> 0 <= prec s -> op_reads env (dim_n s) ->
    arnoldi env i s ->
    (forall m, (m < k)%nat ->
       vnorm (dim_n s) (fac_f (for_n m i (factorize_step env) s)) <> 0) ->
    arnoldi env (i + Z.of_nat k) (for_n k i (factorize_step env) s).
Proof.
  induction k as [|k IH]; intros i s Hi Hp Hop HA Hb.
  - cbn [for_n]. now rewrite Z.add_0_r.
  - cbn [for_n].
    replace (i + Z.of_nat (S k))%Z with (i + 1 + Z.of_nat k)%Z by lia.
    destruct (factorize_step_shape env i s) as [Hd [Hq _]].
    apply IH.
    + lia.
    + now rewrite Hq.
    + now rewrite Hd.
    + apply factorize_step_arnoldi; auto. apply (Hb 0%nat). lia.
    + intros m Hm. rewrite Hd. apply (Hb (S m)). lia.
Qed.

Lemma factorize_from_arnoldi_holds (env : Env) (from_k to_m : Z) (fk : Vector)
  (s : Solver) :
  (0 <= from_k < to_m)%Z -> (to_m <= ncv s)%Z ->
  0 <= prec s -> op_reads env (dim_n s) ->
  arnoldi env from_k (set_fac s (fac_V s) (fac_H s) fk) ->
  no_breakdown env from_k to_m fk s ->
  arnoldi env to_m (factorize_from env from_k to_m fk s).
Proof.
  intros Hk Hm Hp Hop HA Hb. unfold factorize_from.
  replace (to_m <=? from_k)%Z with false by (symmetry; apply Z.leb_gt; lia).
  unfold for_loop.
  replace to_m with (from_k + Z.of_nat (Z.to_nat (to_m - from_k)))%Z at 1
    by lia.
  apply factorize_passes_arnoldi; auto; try lia.
  - destruct HA as [HO [HF HR]]. split; [exact HO|]. split; [exact HF|].
    intros j r Hj Hr. cbn [dim_n fac_V fac_H fac_f factorize_init set_fac].
    cbn [dim_n fac_V fac_H fac_f set_fac] in HR.
    rewrite (HR j r Hj Hr). f_equal. apply sumZ_ext. intros l Hl. f_equal.
    unfold block_setZero.
    rewrite (DoubleShiftQRFacts.in_range_false from_k
               (from_k + (ncv s - from_k)) l) by lia.
    rewrite (DoubleShiftQRFacts.in_range_false from_k
               (from_k + (ncv s - from_k)) j) by lia.
    now rewrite !andb_false_r.
  - intros m Hlt.
    specialize (Hb (from_k + Z.of_nat m)%Z ltac:(lia)).
    unfold factorize_before, for_loop in Hb.
    replace (Z.to_nat (from_k + Z.of_nat m - from_k)) with m in Hb by lia.
    exact Hb.
Qed.

(** X4.  [factorize_from(from_k, to_m, fk)] extends an Arnoldi
    factorization of [from_k] steps with residual [fk] to one of [to_m]
    steps: the columns of [fac_V] are orthonormal, the residual is
    orthogonal to them and A V = V H + f e^T holds, provided the residual is
    nonzero at every pass.  In exact arithmetic the correction of the
    residual never fires. *)
Theorem factorize_from_arnoldi (env : Env) (from_k to_m : Z) (fk : Vector)
  (s : Solver) :
  (0 <= from_k < to_m)%Z -> (to_m <= ncv s)%Z ->
  0 <= prec s -> op_reads env (dim_n s) ->
  arnoldi env from_k (set_fac s (fac_V s) (fac_H s) fk) ->
  no_breakdown env from_k to_m fk s ->
  arnoldi env to_m (factorize_from env from_k to_m fk s).
Proof. apply factorize_from_arnoldi_holds. Qed.

Lemma op_reads_swap : op_reads env_swap 2.
Proof.
  intros x y H r Hr. cbn.
  destruct (r =? 0)%Z; [apply H; lia|].
  destruct (r =? 1)%Z; [apply H; lia | reflexivity].
Qed.

Lemma solver_swap_arnoldi :
  arnoldi env_swap 1
    (set_fac solver_swap (fac_V solver_swap) (fac_H solver_swap)
             (fac_f solver_swap)).
Proof.
  unfold arnoldi. cbn [dim_n fac_V fac_H fac_f set_fac solver_swap].
  split; [|split].
  - intros i j Hi Hj. assert (i = 0%Z) as -> by lia.
    assert (j = 0%Z) as -> by lia. unfold dot. rewrite sumZ_2. cbn. ring.
  - intros j Hj. assert (j = 0%Z) as -> by lia.
    unfold dot. rewrite sumZ_2. cbn. ring.
  - intros j r Hj Hr. assert (j = 0%Z) as -> by lia.
    change 1%Z with (0 + 1)%Z at 2. rewrite sumZ_succ, sumZ_empty by lia.
    assert (r = 0%Z \/ r = 1%Z) as [-> | ->] by lia; cbn; ring.
Qed.

Lemma factorize_from_arnoldi_witness :
  arnoldi env_swap 2
    (factorize_from env_swap 1 2 (fac_f solver_swap) solver_swap).
Proof.
  apply (factorize_from_arnoldi env_swap 1 2 (fac_f solver_swap) solver_swap).
  - lia.
  - cbn. lia.
  - apply Rlt_le, prec_arnoldi_bounds.
  - exact op_reads_swap.
  - exact solver_swap_arnoldi.
  - intros i Hi. assert (i = 1%Z) as -> by lia.
    unfold factorize_before, for_loop. cbn [Z.sub Z.to_nat for_n Z.opp Z.add
      Z.pos_sub Pos.pred_double].
    cbn [fac_f factorize_init set_fac dim_n solver_swap].
    unfold vnorm, dot. rewrite sumZ_2. cbn.
    replace (0 * 0 + 1 * 1) with 1 by ring. rewrite sqrt_1. lra.
Defined.

Lemma factorize_step_hessenberg env i s m :
  hessenberg m (fac_H s) -> hessenberg m (fac_H (factorize_step env i s)).
Proof.
  intros HH r c H0 H1 H2. unfold factorize_step. cbv zeta.
  cbn [fac_H set_nmatop set_fac].
  unfold set_col, set_entry, block_setZero.
  destruct (Z.eqb_spec c i) as [->|Hc]; cbn [andb].
  - rewrite (DoubleShiftQRFacts.in_range_false 0 (i + 1) r) by lia.
    replace (i =? i - 1)%Z with false by (symmetry; apply Z.eqb_neq; lia).
    rewrite andb_false_r.
    destruct (in_range i (i + 1) r && in_range 0 (0 + i) i)%bool;
      [reflexivity | now apply HH].
  - destruct (Z.eqb_spec r i) as [->|Hr]; cbn [andb].
    + replace (c =? i - 1)%Z with false by (symmetry; apply Z.eqb_neq; lia).
      destruct (in_range i (i + 1) i && in_range 0 (0 + i) c)%bool;
        [reflexivity | now apply HH].
    + destruct (in_range i (i + 1) r && in_range 0 (0 + i) c)%bool;
        [reflexivity | now apply HH].
Qed.

Lemma factorize_init_hessenberg from_k fk s :
  (0 <= from_k)%Z -> hessenberg from_k (fac_H s) ->
  hessenberg (ncv s) (fac_H (factorize_init from_k fk s)).
Proof.
  intros Hk HH r c H0 H1 H2.
  cbn [fac_H factorize_init set_fac]. unfold block_setZero.
  destruct (Z.lt_ge_cases c from_k) as [Hc|Hc].
  - destruct (Z.lt_ge_cases r from_k) as [Hr|Hr].
    + rewrite (DoubleShiftQRFacts.in_range_false from_k
                 (from_k + (ncv s - from_k)) r) by lia.
      rewrite (DoubleShiftQRFacts.in_range_false from_k
                 (from_k + (ncv s - from_k)) c) by lia.
      rewrite !andb_false_r. cbn [andb]. now apply HH.
    + now rewrite !in_range_true by lia.
  - rewrite (DoubleShiftQRFacts.in_range_false 0 (0 + from_k) c) by lia.
    rewrite andb_false_r.
    now rewrite !in_range_true by lia.
Qed.

Lemma factorize_from_hessenberg_holds (env : Env) (from_k to_m : Z)
  (fk : Vector) (s : Solver) :
  (1 <= from_k < to_m)%Z -> (to_m <= ncv s)%Z ->
  hessenberg from_k (fac_H s) ->
  let s' := factorize_from env from_k to_m fk s in
  hessenberg (ncv s) (fac_H s')
  /\ forall i, (from_k <= i < to_m)%Z -> 0 <= fac_H s' i (i - 1)%Z.
Proof.
  intros Hk Hm HH s'. split.
  - unfold s', factorize_from.
    replace (to_m <=? from_k)%Z with false by (symmetry; apply Z.leb_gt; lia).
    unfold for_loop.
    apply (for_n_inv (fun x => hessenberg (ncv s) (fac_H x))).
    + intros j x Hx. now apply factorize_step_hessenberg.
    + apply factorize_init_hessenberg; [lia | exact HH].
  - intros i Hi.
    destruct (factorize_from_passes env from_k to_m fk s ltac:(lia))
      as [_ Hp].
    destruct (Hp i Hi) as [_ Hb]. fold s' in Hb. cbv zeta in Hb.
    rewrite Hb. apply vnorm_nonneg.
Qed.



(** * restart *)

Lemma restart_loop_nmatop env fuel :
  forall i s em s' em',
    restart_loop env fuel i s em = Ok (s', em') -> nmatop s' = nmatop s.
Proof.
  induction fuel as [|fuel IH]; intros i s em s' em' H;
    cbn [restart_loop] in H.
  - now injection H as <- <-.
  - destruct (ncv s <=? i)%Z; [now injection H as <- <-|].
    unfold bind in H.
    destruct (get (ritz_val s) i) as [vi|]; [|discriminate].
    assert (Hreal : restart_loop env fuel (i + 1)
                      (fst (restart_real env vi s em))
                      (snd (restart_real env vi s em)) = Ok (s', em') ->
                    nmatop s' = nmatop s).
    { intros Hr. apply IH in Hr. rewrite Hr. reflexivity. }
    destruct (is_complex vi (prec s)).
    + destruct (get (ritz_val s) (i + 1)) as [vj|]; [|discriminate].
      destruct (is_conj vi vj (prec s)).
      * destruct (restart_pair env vi s em) as [s0 em0] eqn:E.
        apply IH in H. rewrite H.
        change s0 with (fst (s0, em0)). rewrite <- E. reflexivity.
      * apply Hreal. now destruct (restart_real env vi s em).
    + apply Hreal. now destruct (restart_real env vi s em).
Qed.

Lemma retrieve_ritzpair_nmatop env s :
  nmatop (retrieve_ritzpair env s) = nmatop s.
Proof.
  unfold retrieve_ritzpair.
  now destruct (eigen_solver env (ncv s) (fac_H s)).
Qed.

Lemma factorize_from_nmatop env from_k to_m fk s :
  nmatop (factorize_from env from_k to_m fk s)
  = (nmatop s + Z.max 0 (to_m - from_k))%Z.
Proof.
  unfold factorize_from. destruct (Z.leb_spec to_m from_k); [lia|].
  unfold for_loop. rewrite factorize_passes_nmatop.
  cbn [nmatop factorize_init set_fac]. lia.
Qed.

(** When the last Ritz value is real, no pass of the loop of [restart]
    reads outside [ritz_val]. *)
Lemma restart_loop_safe env fuel :
  forall i s em,
    (0 <= i)%Z -> Z.of_nat (length (ritz_val s)) = ncv s ->
    is_complex (nth (Z.to_nat (ncv s - 1)) (ritz_val s) Czero) (prec s) = false ->
    exists r, restart_loop env fuel i s em = Ok r.
Proof.
  induction fuel as [|fuel IH]; intros i s em Hi Hlen Hlast;
    cbn [restart_loop]; [eauto|].
  destruct (Z.leb_spec (ncv s) i); [eauto|].
  destruct (get_Ok (ritz_val s) i) as [vi Hvi]; [lia|].
  rewrite Hvi. cbn [bind].
  assert (Hnext : forall s0 em0 j,
            same_ritz s s0 -> (0 <= j)%Z ->
            exists r, restart_loop env fuel j s0 em0 = Ok r).
  { intros s0 em0 j [[_ [Hm [_ Hp]]] [Hv _]] Hj.
    apply IH; [exact Hj | now rewrite Hv, Hm | now rewrite Hv, Hm, Hp]. }
  assert (Hreal : exists r,
            (let (s0, em0) := restart_real env vi s em in
             restart_loop env fuel (i + 1) s0 em0) = Ok r).
  { pose proof (restart_real_shape env vi s em) as Hs.
    destruct (restart_real env vi s em) as [s0 em0].
    apply Hnext; [exact Hs | lia]. }
  destruct (is_complex vi (prec s)) eqn:Ec; [|exact Hreal].
  assert (Hne : i <> (ncv s - 1)%Z).
  { intros ->. rewrite (get_nth _ _ _ Czero Hvi) in Hlast. congruence. }
  destruct (get_Ok (ritz_val s) (i + 1)) as [vj Hvj]; [lia|].
  rewrite Hvj. cbn [bind].
  destruct (is_conj vi vj (prec s)); [|exact Hreal].
  pose proof (restart_pair_shape env vi s em) as Hs.
  destruct (restart_pair env vi s em) as [s0 em0].
  apply Hnext; [exact Hs | lia].
Qed.

Lemma restart_total env k s :
  (1 <= k)%Z -> Z.of_nat (length (ritz_val s)) = ncv s ->
  is_complex (nth (Z.to_nat (ncv s - 1)) (ritz_val s) Czero) (prec s) = false ->
  exists s', restart env k s = Ok s'.
Proof.
  intros Hk Hlen Hlast. unfold restart.
  destruct (ncv s <=? k)%Z; [eauto|].
  destruct (restart_loop_safe env (Z.to_nat (ncv s - k)) k s
              (fun r => if (r =? ncv s - 1)%Z then 1 else 0))
    as [[s1 em1] ->]; auto; try lia.
  cbn [bind]. eauto.
Qed.

(** X6.  [restart(k)] applies the operator ncv - k times, and not at all
    when k >= ncv. *)
Theorem restart_operator_count (env : Env) (k : Z) (s s' : Solver) :
  restart env k s = Ok s' ->
  nmatop s' = (nmatop s + Z.max 0 (ncv s - k))%Z.
Proof.
  unfold restart. intros H. destruct (Z.leb_spec (ncv s) k).
  - injection H as <-. lia.
  - unfold bind in H.
    destruct (restart_loop env _ k s _) as [[s1 em1]|] eqn:E; [|discriminate].
    injection H as <-.
    rewrite retrieve_ritzpair_nmatop, factorize_from_nmatop.
    rewrite (restart_loop_nmatop _ _ _ _ _ _ _ E).
    apply restart_loop_shape in E. destruct E as [[_ [-> _]] _]. reflexivity.
Qed.

Lemma solver_2_6_last_real :
  is_complex (nth (Z.to_nat (ncv solver_2_6 - 1)) (ritz_val solver_2_6) Czero)
             (prec solver_2_6) = false.
Proof. apply is_complex_real. Qed.

Lemma restart_operator_count_witness :
  exists s', restart env_id 3 solver_2_6 = Ok s'
             /\ nmatop s' = (nmatop solver_2_6 + Z.max 0 (ncv solver_2_6 - 3))%Z.
Proof.
  destruct (restart_total env_id 3 solver_2_6) as [s' E];
    [lia | reflexivity | exact solver_2_6_last_real |].
  exists s'. split; [exact E|].
  exact (restart_operator_count env_id 3 solver_2_6 s' E).
Defined.

(** X7.  If the last Ritz value is real, that is, its imaginary part does
    not exceed the threshold, [restart(k)] with k >= 1 reads no entry
    outside [ritz_val]: it returns. *)
Theorem restart_safe_last_real (env : Env) (k : Z) (s : Solver) :
  (1 <= k)%Z -> Z.of_nat (length (ritz_val s)) = ncv s ->
  is_complex (nth (Z.to_nat (ncv s - 1)) (ritz_val s) Czero) (prec s) = false ->
  exists s', restart env k s = Ok s'.
Proof. apply restart_total. Qed.

Lemma restart_safe_last_real_witness :
  exists s', restart env_id 3 solver_2_6 = Ok s'.
Proof.
  apply (restart_safe_last_real env_id 3 solver_2_6);
    [lia | reflexivity | exact solver_2_6_last_real].
Defined.

(** * nev_adjusted *)

(** X8.  With a subspace of at least three vectors [nev_adjusted] returns a
    width k with 1 <= k <= ncv - 1, so that [restart(k)] finds [em[k - 1]],
    column k of [fac_V] and [fac_H(k, k - 1)] inside their ranges; and k is
    not below nev unless nev = ncv - 1, when the cap at ncv - 2 cuts it. *)
Theorem nev_adjusted_range (s : Solver) (nconv : Z) :
  (1 <= nev s < ncv s)%Z -> (3 <= ncv s)%Z ->
  Z.of_nat (length (ritz_val s)) = ncv s ->
  (0 <= nconv)%Z ->
  exists k, nev_adjusted s nconv = Ok k
            /\ (1 <= k <= ncv s - 1)%Z
            /\ ((nev s <= ncv s - 2)%Z -> (nev s <= k)%Z).
Proof.
  intros Hnev Hncv Hlen Hnc.
  destruct (nev_adjusted_total s nconv Hnev Hncv Hlen Hnc) as [k Hk].
  exists k. split; [exact Hk|].
  apply nev_adjusted_sound in Hk; [|lia]. subst k. unfold adjust_k.
  set (b1 := if conjugate_pair (prec s) (theta s (nev s - 1)) (theta s (nev s))
             then 1%Z else 0%Z).
  assert (Hb1 : (0 <= b1 <= 1)%Z) by (unfold b1; destruct conjugate_pair; lia).
  set (k1 := (nev s + b1)%Z).
  assert (Hq : (0 <= (ncv s - k1) / 2)%Z) by (apply Z.div_pos; lia).
  set (k2 := (k1 + Z.min nconv ((ncv s - k1) / 2))%Z).
  assert (Hk2 : (k1 <= k2)%Z) by (unfold k2; lia).
  set (k3 := if (k2 =? 1)%Z then
               if (6 <=? ncv s)%Z then (ncv s / 2)%Z
               else if (3 <? ncv s)%Z then 2%Z else k2
             else k2).
  assert (Hk3 : (k2 <= k3)%Z).
  { unfold k3. destruct (Z.eqb_spec k2 1); [|lia].
    destruct (Z.leb_spec 6 (ncv s)).
    - assert (3 <= ncv s / 2)%Z by (apply Z.div_le_lower_bound; lia). lia.
    - destruct (Z.ltb_spec 3 (ncv s)); lia. }
  set (k4 := Z.min k3 (ncv s - 2)).
  assert (Hk4 : (1 <= k4 <= ncv s - 2)%Z
                /\ ((nev s <= ncv s - 2)%Z -> (nev s <= k4)%Z))
    by (unfold k4, k1 in *; lia).
  clearbody k4.
  match goal with
  | |- context [if ?c then 1%Z else 0%Z] => set (b2 := if c then 1%Z else 0%Z)
  end.
  assert (Hb2 : (0 <= b2 <= 1)%Z)
    by (unfold b2; destruct (conjugate_pair _ (theta s (k4 - 1)) _); lia).
  lia.
Qed.

Lemma nev_adjusted_range_witness :
  exists k, nev_adjusted solver_2_6 1 = Ok k
            /\ (1 <= k <= ncv solver_2_6 - 1)%Z
            /\ ((nev solver_2_6 <= ncv solver_2_6 - 2)%Z
                -> (nev solver_2_6 <= k)%Z).
Proof.
  apply (nev_adjusted_range solver_2_6 1); simpl; lia.
Defined.

(** * compute *)

Lemma count_true_bounds l : (0 <= count_true l <= Z.of_nat (length l))%Z.
Proof.
  induction l as [|b l IH]; cbn [count_true fold_right length]; [lia|].
  fold (count_true l). destruct b; lia.
Qed.

Lemma num_converged_count tol s :
  snd (num_converged tol s) = count_true (ritz_conv (fst (num_converged tol s)))
  /\ (length (ritz_conv (fst (num_converged tol s))) <= Z.to_nat (nev s))%nat.
Proof.
  unfold num_converged. cbn [fst snd ritz_conv set_ritz].
  split; [reflexivity|].
  rewrite length_map, length_combine. unfold conv_thresh.
  rewrite length_map, length_firstn. lia.
Qed.

(** X9.  With a subspace of two vectors, which the constructor accepts for
    one wanted value, [compute] with maxit >= 1 has two outcomes only: the
    wanted value passes the first convergence test and 1 is returned, or
    [nev_adjusted] reads [ritz_val[-1]]. *)
Theorem compute_two_vectors (env : Env) (c : SolverClass)
  (nconv_init maxit : Z) (tol : Scalar) (s : Solver) :
  nev s = 1%Z -> ncv s = 2%Z -> (1 <= maxit)%Z ->
  match compute env c nconv_init maxit tol s with
  | Ok (s', r) => r = 1%Z /\ niter s' = (niter s + 1)%Z
  | Fail e => e = OutOfRange
  end.
Proof.
  intros Hn Hm Hmax. unfold compute, compute_iterate.
  set (s0 := factorize_from env 1 (ncv s) (fac_f s) s).
  pose proof (factorize_from_same_ritz env 1 (ncv s) (fac_f s) s)
    as [[F1 [F2 _]] [_ [_ [_ F5]]]]. fold s0 in F1, F2, F5.
  destruct (retrieve_ritzpair_shape env s0) as [[R1 [R2 _]] [RL [_ RN]]].
  set (s1 := retrieve_ritzpair env s0) in *.
  destruct (Z.to_nat maxit) as [|p] eqn:Ep; [lia|].
  cbn [compute_loop].
  destruct (num_converged_shape tol s1) as [[N1 [N2 _]] [NV [_ NN]]].
  pose proof (num_converged_count tol s1) as [NC NL].
  destruct (num_converged tol s1) as [s2 nconv1]. cbn [fst snd] in *.
  pose proof (count_true_bounds (ritz_conv s2)) as Hb.
  destruct (Z.leb_spec (nev s2) nconv1) as [Hconv|Hnot]; cbn [bind].
  - assert (Hs : nev (sort_ritzpair_of c s2) = nev s2
                 /\ niter (sort_ritzpair_of c s2) = niter s2)
      by (destruct c; split; reflexivity).
    destruct Hs as [-> Hi].
    split; [|cbn [niter set_niter]; lia].
    rewrite R1, F1, Hn in NL. lia.
  - rewrite (nev_adjusted_two_vectors s2 nconv1); [reflexivity| | | |lia].
    + congruence.
    + congruence.
    + rewrite NV, RL. rewrite F2, Hm. reflexivity.
Qed.

Lemma compute_two_vectors_witness :
  match compute env_swap GenEigsSolver 0 1 1 solver_swap with
  | Ok (s', r) => r = 1%Z /\ niter s' = (niter solver_swap + 1)%Z
  | Fail e => e = OutOfRange
  end.
Proof.
  apply (compute_two_vectors env_swap GenEigsSolver 0 1 1 solver_swap);
    [reflexivity | reflexivity | lia].
Defined.

(** * eigenvalues, eigenvectors *)

Lemma get_app_here {A} (pre : list A) (a : A) (rest : list A) :
  get (pre ++ a :: rest) (Z.of_nat (length pre)) = Ok a.
Proof.
  unfold get. destruct (Z.ltb_spec (Z.of_nat (length pre)) 0); [lia|].
  rewrite Nat2Z.id, nth_error_app2, Nat.sub_diag by lia. reflexivity.
Qed.

Lemma put_Ok {A} (l : list A) (j : nat) (a : A) :
  (j < length l)%nat ->
  put l (Z.of_nat j) a = Ok (firstn j l ++ a :: skipn (S j) l).
Proof.
  intros H. unfold put.
  destruct (Z.ltb_spec (Z.of_nat j) 0); [lia|].
  destruct (Z.leb_spec (Z.of_nat (length l)) (Z.of_nat j)); [lia|].
  cbn [orb]. now rewrite Nat2Z.id.
Qed.

Lemma count_true_app l1 l2 :
  count_true (l1 ++ l2) = (count_true l1 + count_true l2)%Z.
Proof.
  induction l1 as [|b l1 IH]; [reflexivity|].
  cbn [app count_true fold_right]. fold (count_true (l1 ++ l2)).
  fold (count_true l1). rewrite IH. lia.
Qed.

Lemma count_true_cons b l :
  count_true (b :: l) = ((if b then 1 else 0) + count_true l)%Z.
Proof. reflexivity. Qed.

Lemma collect_spec {A} (conv : list bool) :
  forall (src : list A) (pre_c : list bool) (pre_s : list A) (j : nat)
         (res : list A),
    length pre_c = length pre_s ->
    (length conv <= length src)%nat ->
    Z.of_nat (length res) = (Z.of_nat j + count_true conv)%Z ->
    collect (pre_c ++ conv) (pre_s ++ src) (length conv)
            (Z.of_nat (length pre_c)) (Z.of_nat j) res
    = Ok (firstn j res ++ flagged conv src).
Proof.
  induction conv as [|c conv IH]; intros src pre_c pre_s j res Hpre Hlen Hres.
  - cbn [length collect flagged]. rewrite app_nil_r.
    cbn [count_true fold_right] in Hres.
    f_equal. symmetry. apply firstn_all2. lia.
  - destruct src as [|v src]; [cbn [length] in Hlen; lia|].
    cbn [length collect flagged]. rewrite get_app_here. cbn [bind].
    rewrite count_true_cons in Hres.
    pose proof (count_true_bounds conv) as Hb.
    assert (E1 : pre_c ++ c :: conv = (pre_c ++ [c]) ++ conv)
      by now rewrite <- app_assoc.
    assert (E2 : pre_s ++ v :: src = (pre_s ++ [v]) ++ src)
      by now rewrite <- app_assoc.
    assert (E3 : (Z.of_nat (length pre_c) + 1)%Z
                 = Z.of_nat (length (pre_c ++ [c])))
      by (rewrite length_app; cbn [length]; lia).
    destruct c.
    + rewrite Hpre, get_app_here. cbn [bind].
      rewrite put_Ok by lia. cbn [bind].
      rewrite <- Hpre, E1, E2, E3.
      replace (Z.of_nat j + 1)%Z with (Z.of_nat (S j)) by lia.
      rewrite IH.
      * f_equal.
        assert (Hf : length (firstn j res) = j)
          by (apply firstn_length_le; lia).
        rewrite <- Hf at 1.
        replace (S (length (firstn j res)))
          with (length (firstn j res) + 1)%nat by lia.
        rewrite firstn_app_2. cbn [firstn]. now rewrite <- app_assoc.
      * rewrite !length_app. cbn [length]. lia.
      * cbn [length] in Hlen. lia.
      * rewrite length_app, length_firstn. cbn [length].
        rewrite length_skipn. lia.
    + rewrite E1, E2, E3. rewrite IH.
      * reflexivity.
      * rewrite !length_app. cbn [length]. lia.
      * cbn [length] in Hlen. lia.
      * lia.
Qed.

Lemma flagged_length {A} (conv : list bool) :
  forall src : list A,
    (length conv <= length src)%nat ->
    Z.of_nat (length (flagged conv src)) = count_true conv.
Proof.
  induction conv as [|c conv IH]; intros src H; [reflexivity|].
  destruct src as [|v src]; [cbn [length] in H; lia|].
  cbn [length] in H. rewrite count_true_cons. cbn [flagged].
  destruct c; cbn [length]; rewrite <- (IH src) by lia; lia.
Qed.

Lemma uninit_length {A} (fresh : Z -> A) n :
  length (uninit fresh n) = Z.to_nat n.
Proof. unfold uninit. now rewrite length_map, length_seq. Qed.

Lemma collect_results {A} (fresh : Z -> A) conv (src : list A) k :
  length conv = k -> (k <= length src)%nat ->
  collect conv src k 0 0 (uninit fresh (count_true conv))
  = Ok (flagged conv src).
Proof.
  intros Hc Hs. subst k.
  pose proof (count_true_bounds conv) as Hb.
  apply (collect_spec conv src [] [] 0%nat); [reflexivity | exact Hs |].
  rewrite uninit_length. lia.
Qed.

Lemma eigenvalues_flagged_holds (fresh : Z -> Complex) (s : Solver) :
  results_shaped s ->
  eigenvalues fresh s = Ok (flagged (ritz_conv s) (ritz_val s))
  /\ Z.of_nat (length (flagged (ritz_conv s) (ritz_val s)))
     = count_true (ritz_conv s).
Proof.
  intros [He|[Hc [_ Hv]]]; unfold eigenvalues.
  - rewrite He. split; reflexivity.
  - split; [|apply flagged_length; lia].
    destruct (Z.eqb_spec (count_true (ritz_conv s)) 0) as [E|E].
    + rewrite E. cbn. f_equal.
      pose proof (flagged_length (ritz_conv s) (ritz_val s) ltac:(lia)) as Hl.
      rewrite E in Hl. destruct (flagged _ _); [reflexivity|].
      cbn [length] in Hl. lia.
    + now apply collect_results.
Qed.

(** X10.  [eigenvalues()] returns the Ritz values whose flag is set, in
    their order, as many as there are flags set; no entry of what it
    returns is left as allocated.  On an object just constructed it returns
    the empty vector. *)
Theorem eigenvalues_flagged (fresh : Z -> Complex) (s : Solver) :
  results_shaped s ->
  eigenvalues fresh s = Ok (flagged (ritz_conv s) (ritz_val s))
  /\ Z.of_nat (length (flagged (ritz_conv s) (ritz_val s)))
     = count_true (ritz_conv s).
Proof. apply eigenvalues_flagged_holds. Qed.

Lemma eigenvalues_flagged_witness :
  eigenvalues (fun _ => Czero) solver_2_6
  = Ok (flagged (ritz_conv solver_2_6) (ritz_val solver_2_6)).
Proof.
  apply (eigenvalues_flagged (fun _ => Czero) solver_2_6).
  right. cbn. repeat split; lia.
Defined.

Lemma eigenvectors_flagged_holds (fresh : Z -> list Complex) (s : Solver) :
  results_shaped s ->
  eigenvectors fresh s
  = Ok (map (mat_cvec (ncv s) (fac_V s))
            (flagged (ritz_conv s) (ritz_vec s)))
  /\ length (flagged (ritz_conv s) (ritz_vec s))
     = length (flagged (ritz_conv s) (ritz_val s)).
Proof.
  intros [He|[Hc [Hy Hv]]]; unfold eigenvectors.
  - rewrite He. split; reflexivity.
  - pose proof (flagged_length (ritz_conv s) (ritz_vec s) ltac:(lia)) as Hl.
    pose proof (flagged_length (ritz_conv s) (ritz_val s) ltac:(lia)) as Hl'.
    split; [|lia].
    destruct (Z.eqb_spec (count_true (ritz_conv s)) 0) as [E|E].
    + rewrite E in Hl. destruct (flagged _ (ritz_vec s)); [reflexivity|].
      cbn [length] in Hl. lia.
    + rewrite (collect_results fresh _ _ _ Hc) by lia. reflexivity.
Qed.

(** X11.  [eigenvectors()] returns, for the same Ritz pairs and in the same
    order as [eigenvalues()], the products of [fac_V] with the Ritz vectors
    whose flag is set; on an object just constructed, no column. *)
Theorem eigenvectors_flagged (fresh : Z -> list Complex) (s : Solver) :
  results_shaped s ->
  eigenvectors fresh s
  = Ok (map (mat_cvec (ncv s) (fac_V s))
            (flagged (ritz_conv s) (ritz_vec s)))
  /\ length (flagged (ritz_conv s) (ritz_vec s))
     = length (flagged (ritz_conv s) (ritz_val s)).
Proof. apply eigenvectors_flagged_holds. Qed.

Lemma eigenvectors_flagged_witness :
  eigenvectors (fun _ => []) solver_2_6
  = Ok (map (mat_cvec (ncv solver_2_6) (fac_V solver_2_6))
            (flagged (ritz_conv solver_2_6) (ritz_vec solver_2_6))).
Proof.
  apply (eigenvectors_flagged (fun _ => []) solver_2_6).
  right. cbn. repeat split; lia.
Defined.

(** * What compute returns *)

Lemma count_true_perm l1 l2 :
  Permutation l1 l2 -> count_true l1 = count_true l2.
Proof.
  induction 1 as [|b l1 l2 _ IH|a b l|l1 l2 l3 _ IH1 _ IH2].
  - reflexivity.
  - rewrite !count_true_cons, IH. reflexivity.
  - rewrite !count_true_cons. lia.
  - congruence.
Qed.

Lemma count_true_nth_seq l :
  forall k, (length l <= k)%nat ->
    count_true (map (fun j => nth j l false) (seq 0 k)) = count_true l.
Proof.
  induction l as [|b l IH]; intros k Hk.
  - cbn [count_true fold_right].
    induction (seq 0 k) as [|j q IHq]; [reflexivity|].
    cbn [map]. rewrite count_true_cons, IHq. now destruct j.
  - destruct k as [|k]; [cbn [length] in Hk; lia|].
    cbn [seq map nth]. rewrite <- seq_shift, map_map. cbn [nth].
    rewrite !count_true_cons, IH; [reflexivity|]. cbn [length] in Hk. lia.
Qed.

Lemma count_true_all l :
  Forall (fun b => b = true) l -> count_true l = Z.of_nat (length l).
Proof.
  induction 1 as [|b l Hb _ IH]; [reflexivity|].
  rewrite count_true_cons, IH, Hb. cbn [length]. lia.
Qed.

Lemma compute_loop_count env passes :
  forall i nconv tol s s' i' nconv',
    compute_loop env passes i nconv tol s = Ok (s', i', nconv') ->
    length (ritz_val s) = Z.to_nat (ncv s) ->
    ((1 <= passes)%nat
     \/ (nconv = count_true (ritz_conv s)
         /\ (length (ritz_conv s) <= Z.to_nat (nev s))%nat)) ->
    nconv' = count_true (ritz_conv s')
    /\ (length (ritz_conv s') <= Z.to_nat (nev s'))%nat
    /\ (i <= i' <= i + Z.of_nat passes)%Z.
Proof.
  induction passes as [|passes IH];
    intros i nconv tol s s' i' nconv' H Hlen Hq; cbn [compute_loop] in H.
  - injection H as <- <- <-. destruct Hq as [Hq|[Hq1 Hq2]]; [lia|].
    repeat split; try assumption; lia.
  - destruct (num_converged_shape tol s) as [[N1 [N2 _]] [NV _]].
    pose proof (num_converged_count tol s) as [NC NL].
    destruct (num_converged tol s) as [s1 nconv1]. cbn [fst snd] in *.
    destruct (nev s1 <=? nconv1)%Z.
    + injection H as <- <- <-. rewrite N1. repeat split; try assumption; lia.
    + unfold bind in H.
      destruct (nev_adjusted s1 nconv1) as [nev_adj|]; [|discriminate].
      destruct (restart env nev_adj s1) as [s2|] eqn:ER; [|discriminate].
      apply restart_shape in ER; [|now rewrite NV, N2].
      destruct ER as [[R1 _] [R2 [R3 _]]].
      apply IH in H; [|exact R2|right; rewrite R3, R1, N1; now split].
      destruct H as [H1 [H2 H3]]. repeat split; try assumption; lia.
Qed.

Lemma compute_count env c nconv_init maxit tol s s' r :
  (0 <= nev s <= ncv s)%Z -> (1 <= maxit)%Z ->
  compute env c nconv_init maxit tol s = Ok (s', r) ->
  r = count_true (ritz_conv s')
  /\ (0 <= r <= nev s)%Z
  /\ results_shaped s'
  /\ (niter s < niter s' <= niter s + maxit + 1)%Z.
Proof.
  intros Hnev Hmax H. unfold compute, bind in H.
  destruct (compute_iterate env nconv_init maxit tol s)
    as [[[s2 i] nconv]|] eqn:E; [|discriminate].
  injection H as <- <-.
  destruct (compute_iterate_shape _ _ _ _ _ _ _ _ E)
    as [[Hn [Hm _]] [Hlen Hit]].
  unfold compute_iterate in E.
  apply compute_loop_count in E.
  2:{ destruct (retrieve_ritzpair_shape env
                  (factorize_from env 1 (ncv s) (fac_f s) s))
        as [[_ [R2 _]] [RL _]]. now rewrite RL, R2. }
  2:{ left. lia. }
  destruct E as [E1 [E2 E3]].
  destruct (sort_ritzpair_of_spec c s2) as [p [Hp [Hv [_ [Hvec [Hc _]]]]]].
  { rewrite Hlen, Hn, Hm. lia. }
  cbv zeta in Hp, Hv, Hvec, Hc.
  assert (Hs : nev (sort_ritzpair_of c s2) = nev s2
               /\ niter (sort_ritzpair_of c s2) = niter s2)
    by (destruct c; split; reflexivity).
  destruct Hs as [Hs1 Hs2].
  assert (Hpl : length p = Z.to_nat (nev s2))
    by (rewrite (Permutation_length Hp); apply length_seq).
  assert (Hcount : count_true (ritz_conv (sort_ritzpair_of c s2)) = nconv).
  { rewrite Hc, E1.
    rewrite (count_true_perm _ _ (Permutation_map _ Hp)).
    now apply count_true_nth_seq. }
  pose proof (count_true_bounds (ritz_conv s2)) as Hb.
  cbn [ritz_conv ritz_vec ritz_val nev niter set_niter].
  rewrite Hs1, Hs2, Hn in *.
  split; [rewrite Hcount; lia|]. split; [lia|]. split; [|lia].
  right. cbn [ritz_conv ritz_vec ritz_val nev set_niter].
  rewrite Hs1, Hc, Hvec, !length_map, Hpl.
  repeat split.
  assert (Hf : length (firstn (Z.to_nat (nev s))
                         (ritz_val (sort_ritzpair_of c s2)))
               = Z.to_nat (nev s))
    by (rewrite Hv, length_map; congruence).
  rewrite length_firstn in Hf. lia.
Qed.

Lemma retrieve_ritzpair_fac env s :
  fac_f (retrieve_ritzpair env s) = fac_f s
  /\ fac_V (retrieve_ritzpair env s) = fac_V s
  /\ fac_H (retrieve_ritzpair env s) = fac_H s
  /\ length (ritz_vec (retrieve_ritzpair env s))
     = Nat.min (Z.to_nat (nev s)) (Z.to_nat (ncv s)).
Proof.
  unfold retrieve_ritzpair.
  destruct (eigen_solver env (ncv s) (fac_H s)) as [evals evecs].
  cbn [fac_f fac_V fac_H ritz_vec set_ritz]. repeat split.
  now rewrite length_map, length_firstn, std_sort_length, index_pairs_length.
Qed.

(** With a residual of norm zero every wanted pair passes the test of
    [num_converged], for every positive tolerance. *)
Lemma num_converged_zero_residual tol s :
  0 < tol -> 0 < prec s -> vnorm (dim_n s) (fac_f s) = 0 ->
  Forall (fun b => b = true) (ritz_conv (fst (num_converged tol s))).
Proof.
  intros Ht Hp Hf. unfold num_converged. cbn [fst ritz_conv set_ritz].
  apply Forall_forall. intros b Hb. apply in_map_iff in Hb.
  destruct Hb as [[x y] [<- Hin]]. cbn [fst snd].
  pose proof (in_combine_l _ _ _ _ Hin) as Hx.
  pose proof (in_combine_r _ _ _ _ Hin) as Hy.
  unfold conv_resid in Hx. apply in_map_iff in Hx. destruct Hx as [u [<- _]].
  unfold conv_thresh in Hy. apply in_map_iff in Hy. destruct Hy as [v [<- _]].
  apply Rltb_true. rewrite Hf, Rmult_0_r.
  apply Rmult_lt_0_compat; [exact Ht|].
  pose proof (Rmax_r (Cabs v) (prec s)). lra.
Qed.

Lemma sort_ritzpair_of_ritz_val c a b :
  nev a = nev b -> ritz_val a = ritz_val b ->
  ritz_val (sort_ritzpair_of c a) = ritz_val (sort_ritzpair_of c b).
Proof.
  intros Hn Hv.
  destruct c; unfold sort_ritzpair_of, shift_sort_ritzpair, sort_ritzpair;
    cbn [ritz_val set_ritz nev]; now rewrite Hn, Hv.
Qed.

(** When the first factorization ends with a residual of norm zero, the
    basis spans an invariant subspace: [compute] finds all nev pairs
    converged at the first test and returns without a restart. *)
Lemma compute_at_once env c nconv_init maxit tol s :
  (1 <= maxit)%Z -> 0 < tol -> 0 < prec s -> (0 <= nev s <= ncv s)%Z ->
  vnorm (dim_n s) (fac_f (factorize_from env 1 (ncv s) (fac_f s) s)) = 0 ->
  exists s', compute env c nconv_init maxit tol s = Ok (s', nev s)
             /\ niter s' = (niter s + 1)%Z
             /\ nmatop s' = (nmatop s + Z.max 0 (ncv s - 1))%Z
             /\ ritz_val s'
                = ritz_val
                    (sort_ritzpair_of c
                       (retrieve_ritzpair env
                          (factorize_from env 1 (ncv s) (fac_f s) s))).
Proof.
  intros Hmax Ht Hp Hnev Hf. unfold compute, compute_iterate.
  set (s0 := factorize_from env 1 (ncv s) (fac_f s) s) in *.
  pose proof (factorize_from_same_ritz env 1 (ncv s) (fac_f s) s)
    as [[F1 [F2 [F3 F4]]] [_ [_ [_ F5]]]]. fold s0 in F1, F2, F3, F4, F5.
  pose proof (factorize_from_nmatop env 1 (ncv s) (fac_f s) s) as F6.
  fold s0 in F6.
  destruct (retrieve_ritzpair_shape env s0)
    as [[R1 [R2 [R3 R4]]] [RL [_ RN]]].
  destruct (retrieve_ritzpair_fac env s0) as [Rf [_ [_ Ry]]].
  pose proof (retrieve_ritzpair_nmatop env s0) as Rm.
  set (s1 := retrieve_ritzpair env s0) in *.
  destruct (Z.to_nat maxit) as [|p] eqn:Ep; [lia|].
  cbn [compute_loop].
  destruct (num_converged_shape tol s1) as [[N1 [N2 _]] [NV [NY NN]]].
  pose proof (num_converged_count tol s1) as [NC NL].
  pose proof (num_converged_zero_residual tol s1 Ht) as NA.
  assert (Hlenc : length (ritz_conv (fst (num_converged tol s1)))
                  = Z.to_nat (nev s)).
  { unfold num_converged. cbn [fst ritz_conv set_ritz].
    rewrite length_map, length_combine. unfold conv_resid, conv_thresh.
    rewrite !length_map, length_firstn, Ry, RL. lia. }
  assert (Hnm : nmatop (fst (num_converged tol s1)) = nmatop s1)
    by reflexivity.
  destruct (num_converged tol s1) as [s2 nconv1]. cbn [fst snd] in *.
  rewrite (count_true_all (ritz_conv s2)) in NC.
  2:{ apply NA; [congruence | rewrite Rf, R3, F3; exact Hf]. }
  rewrite Hlenc in NC.
  replace (nev s2 <=? nconv1)%Z with true
    by (symmetry; apply Z.leb_le; lia).
  cbn [bind].
  assert (Hs : nev (sort_ritzpair_of c s2) = nev s2
               /\ niter (sort_ritzpair_of c s2) = niter s2
               /\ nmatop (sort_ritzpair_of c s2) = nmatop s2)
    by (destruct c; repeat split; reflexivity).
  destruct Hs as [Hs1 [Hs2 Hs3]].
  eexists. split; [|split; [|split]].
  - rewrite Hs1. f_equal. f_equal. lia.
  - cbn [niter set_niter]. lia.
  - cbn [nmatop set_niter]. lia.
  - cbn [ritz_val set_niter]. apply sort_ritzpair_of_ritz_val; congruence.
Qed.

(** ** A run on the companion operator *)

Lemma op_reads_companion : op_reads env_companion 3.
Proof.
  intros x y H r Hr. cbn [perform_op env_companion].
  rewrite (H 0%Z), (H 1%Z), (H 2%Z) by lia. reflexivity.
Qed.

Lemma solver_companion_arnoldi :
  arnoldi env_companion 1
    (set_fac solver_companion (fac_V solver_companion)
             (fac_H solver_companion) (fac_f solver_companion)).
Proof.
  unfold arnoldi. cbn [dim_n fac_V fac_H fac_f set_fac solver_companion].
  split; [|split].
  - intros i j Hi Hj. assert (i = 0%Z) as -> by lia.
    assert (j = 0%Z) as -> by lia. unfold dot. rewrite sumZ_3. cbn. ring.
  - intros j Hj. assert (j = 0%Z) as -> by lia.
    unfold dot. rewrite sumZ_3. cbn. ring.
  - intros j r Hj Hr. assert (j = 0%Z) as -> by lia.
    change 1%Z with (0 + 1)%Z at 2. rewrite sumZ_succ, sumZ_empty by lia.
    assert (r = 0%Z \/ r = 1%Z \/ r = 2%Z) as [-> | [-> | ->]] by lia;
      cbn; ring.
Qed.

Lemma unit_vector_norm (k : Z) (x : Vector) :
  (0 <= k < 3)%Z ->
  (forall r, (0 <= r < 3)%Z -> x r = if (r =? k)%Z then 1 else 0) ->
  vnorm 3 x = 1.
Proof.
  intros Hk H. unfold vnorm, dot. rewrite sumZ_3.
  rewrite (H 0%Z), (H 1%Z), (H 2%Z) by lia.
  assert (k = 0%Z \/ k = 1%Z \/ k = 2%Z) as [-> | [-> | ->]] by lia; cbn;
    match goal with
    | |- sqrt ?e = 1 => replace e with 1 by ring
    end; apply sqrt_1.
Qed.

Lemma companion_first_pass :
  no_breakdown env_companion 1 2 (fac_f solver_companion) solver_companion.
Proof.
  intros i Hi. assert (i = 1%Z) as -> by lia.
  change (fac_f (factorize_before env_companion 1 1 (fac_f solver_companion)
                   solver_companion))
    with (fac_f solver_companion).
  rewrite (unit_vector_norm 1); [lra | lia |].
  intros r Hr. reflexivity.
Qed.

(** After the first pass the basis is (1, 0, 0), (0, 1, 0) and the residual
    is (0, 0, 1). *)
Lemma companion_second_residual :
  let s2 := factorize_before env_companion 1 2 (fac_f solver_companion)
              solver_companion in
  forall r, (0 <= r < 3)%Z ->
    fac_V s2 r 0%Z = (if (r =? 0)%Z then 1 else 0)
    /\ fac_V s2 r 1%Z = (if (r =? 1)%Z then 1 else 0)
    /\ fac_f s2 r = (if (r =? 2)%Z then 1 else 0).
Proof.
  intros s2.
  set (s := solver_companion). set (fk := fac_f s).
  assert (E : factorize_from env_companion 1 2 fk s = s2) by reflexivity.
  pose proof (factorize_from_arnoldi_holds env_companion 1 2 fk s
                ltac:(lia) ltac:(cbn; lia)
                (Rlt_le _ _ (proj1 prec_arnoldi_bounds))
                op_reads_companion solver_companion_arnoldi
                companion_first_pass) as [_ [HF HR]].
  rewrite E in HF, HR.
  assert (Hd : dim_n s2 = 3%Z) by apply factorize_before_dim.
  rewrite Hd in HF, HR.
  destruct (factorize_from_passes env_companion 1 2 fk s ltac:(lia))
    as [_ Hp].
  rewrite E in Hp.
  assert (V0 : forall r, (0 <= r < 3)%Z ->
                 fac_V s2 r 0%Z = if (r =? 0)%Z then 1 else 0).
  { intros r Hr. unfold s2, factorize_before, for_loop.
    destruct (factorize_passes_frame env_companion 0 (Z.to_nat (2 - 1)) 1
                (factorize_init 1 fk s) ltac:(lia)) as [H _].
    rewrite H.
    assert (r = 0%Z \/ r = 1%Z \/ r = 2%Z) as [-> | [-> | ->]] by lia;
      reflexivity. }
  assert (V1 : forall r, (0 <= r < 3)%Z ->
                 fac_V s2 r 1%Z = if (r =? 1)%Z then 1 else 0).
  { intros r Hr. destruct (Hp 1%Z ltac:(lia)) as [H _].
    rewrite (H r Hr).
    change (fac_f (factorize_before env_companion 1 1 fk s)) with fk.
    change (dim_n s) with 3%Z.
    rewrite (unit_vector_norm 1 fk); [|lia|intros; reflexivity].
    unfold fk. cbn [fac_f s solver_companion]. field. }
  assert (F0 : fac_f s2 0%Z = 0).
  { pose proof (HF 0%Z ltac:(lia)) as H. unfold dot, col in H.
    rewrite sumZ_3, !V0 in H by lia. cbn [Z.eqb] in H. lra. }
  assert (F1 : fac_f s2 1%Z = 0).
  { pose proof (HF 1%Z ltac:(lia)) as H. unfold dot, col in H.
    rewrite sumZ_3, !V1 in H by lia. cbn [Z.eqb Pos.eqb] in H. lra. }
  assert (F2 : fac_f s2 2%Z = 1).
  { pose proof (HR 1%Z 2%Z ltac:(lia) ltac:(lia)) as H.
    rewrite sumZ_2, (V0 2%Z), (V1 2%Z) in H by lia.
    cbn [perform_op env_companion col Z.eqb Pos.eqb Z.sub Z.add Z.opp
         Z.pos_sub Pos.pred_double] in H.
    unfold col in H. rewrite (V1 1%Z) in H by lia.
    cbn [Z.eqb Pos.eqb] in H. lra. }
  intros r Hr. split; [|split].
  - now apply V0.
  - now apply V1.
  - assert (r = 0%Z \/ r = 1%Z \/ r = 2%Z) as [-> | [-> | ->]] by lia;
      assumption.
Qed.

Lemma companion_no_breakdown :
  no_breakdown env_companion 1 (ncv solver_companion)
    (fac_f solver_companion) solver_companion.
Proof.
  intros i Hi. change (ncv solver_companion) with 3%Z in Hi.
  assert (i = 1%Z \/ i = 2%Z) as [-> | ->] by lia.
  - apply companion_first_pass. lia.
  - change (dim_n solver_companion) with 3%Z.
    rewrite (unit_vector_norm 2); [lra | lia |].
    intros r Hr. now apply companion_second_residual.
Qed.

(** The three basis vectors span the space: the residual of the full
    factorization is zero. *)
Lemma companion_invariant :
  vnorm (dim_n solver_companion)
    (fac_f (factorize_from env_companion 1 (ncv solver_companion)
              (fac_f solver_companion) solver_companion)) = 0.
Proof.
  set (s := solver_companion). set (fk := fac_f s).
  change (ncv s) with 3%Z. change (dim_n s) with 3%Z.
  set (s3 := factorize_from env_companion 1 3 fk s).
  pose proof (factorize_from_arnoldi_holds env_companion 1 3 fk s
                ltac:(lia) ltac:(cbn; lia)
                (Rlt_le _ _ (proj1 prec_arnoldi_bounds))
                op_reads_companion solver_companion_arnoldi
                companion_no_breakdown) as [_ [HF _]].
  fold s3 in HF.
  assert (Hd : dim_n s3 = 3%Z) by apply factorize_before_dim.
  rewrite Hd in HF.
  destruct (factorize_from_passes env_companion 1 3 fk s ltac:(lia))
    as [_ Hp].
  fold s3 in Hp. change (dim_n s) with 3%Z in Hp.
  assert (V0 : forall r, (0 <= r < 3)%Z ->
                 fac_V s3 r 0%Z = if (r =? 0)%Z then 1 else 0).
  { intros r Hr. unfold s3, factorize_from, for_loop.
    change (3 <=? 1)%Z with false. cbv iota.
    destruct (factorize_passes_frame env_companion 0 (Z.to_nat (3 - 1)) 1
                (factorize_init 1 fk s) ltac:(lia)) as [H _].
    rewrite H.
    assert (r = 0%Z \/ r = 1%Z \/ r = 2%Z) as [-> | [-> | ->]] by lia;
      reflexivity. }
  assert (V1 : forall r, (0 <= r < 3)%Z ->
                 fac_V s3 r 1%Z = if (r =? 1)%Z then 1 else 0).
  { intros r Hr. destruct (Hp 1%Z ltac:(lia)) as [H _].
    rewrite (H r Hr).
    change (fac_f (factorize_before env_companion 1 1 fk s)) with fk.
    rewrite (unit_vector_norm 1 fk); [|lia|intros; reflexivity].
    unfold fk. cbn [fac_f s solver_companion]. field. }
  assert (V2 : forall r, (0 <= r < 3)%Z ->
                 fac_V s3 r 2%Z = if (r =? 2)%Z then 1 else 0).
  { intros r Hr. destruct (Hp 2%Z ltac:(lia)) as [H _].
    rewrite (H r Hr).
    rewrite (unit_vector_norm 2);
      [|lia|intros; now apply companion_second_residual].
    destruct (companion_second_residual r Hr) as [_ [_ E]].
    change (fac_f (factorize_before env_companion 1 2 fk s) r
            = (if (r =? 2)%Z then 1 else 0)) in E.
    rewrite E. field. }
  assert (F : forall r, (0 <= r < 3)%Z -> fac_f s3 r = 0).
  { intros r Hr. pose proof (HF r Hr) as H. unfold dot, col in H.
    rewrite sumZ_3 in H.
    assert (r = 0%Z \/ r = 1%Z \/ r = 2%Z) as [-> | [-> | ->]] by lia.
    - rewrite !V0 in H by lia. cbn [Z.eqb Pos.eqb] in H. lra.
    - rewrite !V1 in H by lia. cbn [Z.eqb Pos.eqb] in H. lra.
    - rewrite !V2 in H by lia. cbn [Z.eqb Pos.eqb] in H. lra. }
  unfold vnorm, dot. rewrite sumZ_3, !F by lia.
  replace (0 * 0 + 0 * 0 + 0 * 0) with 0 by ring. apply sqrt_0.
Qed.

Lemma Cabs_real x : Cabs (C x 0) = Rabs x.
Proof.
  unfold Cabs, Cnorm, C. cbn [real imag].
  replace (x * x + 0 * 0) with (Rsqr x) by (unfold Rsqr; ring).
  apply sqrt_Rsqr_abs.
Qed.

Lemma comp_smallest_magn_real a b i j :
  Rabs a < Rabs b -> comp_smallest_magn (C a 0, i) (C b 0, j) = true.
Proof.
  intros H. unfold comp_smallest_magn. cbn [fst].
  rewrite !Cabs_real. apply orb_true_iff. left. now apply Rltb_true.
Qed.

Lemma comp_largest_magn_real a b i j :
  Rabs a < Rabs b -> comp_largest_magn (C a 0, i) (C b 0, j) = false.
Proof.
  intros H. unfold comp_largest_magn. cbn [fst].
  rewrite !Cabs_real. apply orb_false_iff. split.
  - apply Rltb_false. lra.
  - apply andb_false_iff. left. unfold Reqb.
    destruct (Req_dec_T (Rabs a) (Rabs b)); [lra | reflexivity].
Qed.

(** [compute] on the companion operator, with the default arguments: the
    three basis vectors span the space, both wanted pairs pass the first
    test, and the final sort puts the values 1, 2 that SMALLEST_MAGN
    selected in the order 2, 1. *)
Lemma companion_compute (nconv_init : Z) :
  exists s',
    compute env_companion GenEigsSolver nconv_init 1000 (/ 10 ^ 10)
            solver_companion = Ok (s', 2%Z)
    /\ niter s' = 1%Z /\ nmatop s' = 3%Z
    /\ ritz_val s' = [C 2 0; C 1 0; C (- 3) 0].
Proof.
  destruct (compute_at_once env_companion GenEigsSolver nconv_init 1000
              (/ 10 ^ 10) solver_companion)
    as [s' [E [N [M V]]]].
  - lia.
  - apply Rinv_0_lt_compat, pow_lt. lra.
  - apply prec_arnoldi_bounds.
  - cbn. lia.
  - exact companion_invariant.
  - exists s'. split; [exact E|]. split; [exact N|]. split; [exact M|].
    rewrite V. clear E N M V.
    set (s1 := factorize_from env_companion 1 (ncv solver_companion)
                 (fac_f solver_companion) solver_companion).
    destruct (factorize_from_same_ritz env_companion 1
                (ncv solver_companion) (fac_f solver_companion)
                solver_companion) as [[F1 [F2 _]] _].
    fold s1 in F1, F2.
    unfold sort_ritzpair_of, sort_ritzpair, retrieve_ritzpair.
    cbn [eigen_solver env_companion rule_comp ritz_val nev set_ritz].
    rewrite F1, F2.
    change (index_pairs (ncv solver_companion)
              [C 1 0; C 2 0; C (- 3) 0])
      with [(C 1 0, 0%Z); (C 2 0, 1%Z); (C (- 3) 0, 2%Z)].
    assert (A12 : Rabs 1 < Rabs 2)
      by (rewrite !Rabs_pos_eq by lra; lra).
    assert (A23 : Rabs 2 < Rabs (- 3)).
    { rewrite (Rabs_pos_eq 2) by lra.
      unfold Rabs. destruct (Rcase_abs (- 3)); lra. }
    cbn [std_sort sort_insert].
    rewrite (comp_smallest_magn_real 2 (- 3)) by exact A23.
    cbn [sort_insert].
    rewrite (comp_smallest_magn_real 1 2) by exact A12.
    cbn [map fst].
    change (index_pairs (nev solver_companion)
              [C 1 0; C 2 0; C (- 3) 0])
      with [(C 1 0, 0%Z); (C 2 0, 1%Z)].
    cbn [std_sort sort_insert].
    rewrite (comp_largest_magn_real 1 2) by exact A12.
    reflexivity.
Qed.

(** X12.  When [compute] returns after at least one pass of its loop, the
    number it returns is the number of flags set in [ritz_conv], between 0
    and nev: the number of values [eigenvalues()] returns.  The outcome is
    the same whatever the local [nconv] held at first.  [niter] has grown
    by at least 1 and at most maxit + 1. *)
Theorem compute_returns_flag_count (env : Env) (c : SolverClass)
  (nconv_init maxit : Z) (tol : Scalar) (s s' : Solver) (r : Z) :
  (0 <= nev s <= ncv s)%Z -> (1 <= maxit)%Z ->
  compute env c nconv_init maxit tol s = Ok (s', r) ->
  r = count_true (ritz_conv s')
  /\ (0 <= r <= nev s)%Z
  /\ results_shaped s'
  /\ (niter s < niter s' <= niter s + maxit + 1)%Z
  /\ forall n : Z, compute env c n maxit tol s = Ok (s', r).
Proof.
  intros Hnev Hmax H.
  destruct (compute_count _ _ _ _ _ _ _ _ Hnev Hmax H) as [H1 [H2 [H3 H4]]].
  repeat split; try assumption; try lia.
  intros n. rewrite <- H. unfold compute, compute_iterate.
  destruct (Z.to_nat maxit) as [|p] eqn:Ep; [lia | reflexivity].
Qed.

Lemma compute_returns_flag_count_witness :
  exists s',
    compute env_companion GenEigsSolver 0 1000 (/ 10 ^ 10) solver_companion
    = Ok (s', 2%Z)
    /\ 2%Z = count_true (ritz_conv s')
    /\ forall n : Z,
         compute env_companion GenEigsSolver n 1000 (/ 10 ^ 10)
                 solver_companion = Ok (s', 2%Z).
Proof.
  destruct (companion_compute 0) as [s' [E _]].
  exists s'. split; [exact E|].
  destruct (compute_returns_flag_count env_companion GenEigsSolver 0 1000
              (/ 10 ^ 10) solver_companion s' 2 ltac:(cbn; lia) ltac:(lia) E)
    as [H1 [_ [_ [_ H5]]]].
  split; [exact H1 | exact H5].
Defined.

(** X13.  If no pass of the first factorization finds a zero residual and
    the factorization ends with a residual of norm zero, the basis spans an
    invariant subspace, [compute] with maxit >= 1 and a positive tolerance
    returns nev after the first convergence test: no restart, ncv - 1
    applications of the operator, one iteration counted. *)
Theorem compute_invariant_subspace (env : Env) (c : SolverClass)
  (nconv_init maxit : Z) (tol : Scalar) (s : Solver) :
  (1 <= maxit)%Z -> 0 < tol -> 0 < prec s -> (0 <= nev s <= ncv s)%Z ->
  no_breakdown env 1 (ncv s) (fac_f s) s ->
  vnorm (dim_n s) (fac_f (factorize_from env 1 (ncv s) (fac_f s) s)) = 0 ->
  exists s', compute env c nconv_init maxit tol s = Ok (s', nev s)
             /\ niter s' = (niter s + 1)%Z
             /\ nmatop s' = (nmatop s + Z.max 0 (ncv s - 1))%Z.
Proof.
  intros Hmax Ht Hp Hnev _ Hf.
  destruct (compute_at_once env c nconv_init maxit tol s Hmax Ht Hp Hnev Hf)
    as [s' [E [N [M _]]]].
  exists s'. now repeat split.
Qed.

Lemma compute_invariant_subspace_witness :
  exists s',
    compute env_companion GenEigsSolver 0 1000 (/ 10 ^ 10) solver_companion
    = Ok (s', nev solver_companion)
    /\ niter s' = (niter solver_companion + 1)%Z
    /\ nmatop s'
       = (nmatop solver_companion + Z.max 0 (ncv solver_companion - 1))%Z.
Proof.
  apply (compute_invariant_subspace env_companion GenEigsSolver 0 1000
           (/ 10 ^ 10) solver_companion).
  - lia.
  - apply Rinv_0_lt_compat, pow_lt. lra.
  - apply prec_arnoldi_bounds.
  - cbn. lia.
  - exact companion_no_breakdown.
  - exact companion_invariant.
Defined.

(** The final order of the Ritz values, on the companion operator: the
    iteration under SMALLEST_MAGN selects 1 and 2, in this order, and
    [compute] leaves them as 2, 1. *)
Lemma compute_final_order_witness :
  exists (s' : Solver) (r : Z),
    compute env_companion GenEigsSolver 0 1000 (/ 10 ^ 10) solver_companion
    = Ok (s', r)
    /\ firstn 2 (ritz_val s') = [C 2 0; C 1 0]
    /\ StronglySorted magn_ge (firstn 2 (ritz_val s')).
Proof.
  destruct (companion_compute 0) as [s' [E [_ [_ V]]]].
  exists s', 2%Z. split; [exact E|]. split; [now rewrite V|].
  exact (proj1 (compute_final_order env_companion GenEigsSolver 0 1000
                  (/ 10 ^ 10) solver_companion s' 2 ltac:(cbn; lia) E)).
Defined.

(** * The conjugate-pair test *)

(** X14.  The test [is_conj] is symmetric in its two arguments, [is_complex]
    does not tell a value from its conjugate, and a value and its exact
    conjugate pass [is_conj] for every positive threshold. *)
Theorem is_conj_symmetric (v1 v2 : Complex) (eps : Scalar) :
  is_conj v1 v2 eps = is_conj v2 v1 eps
  /\ is_complex (Cconj v1) eps = is_complex v1 eps
  /\ (0 < eps -> is_conj v1 (Cconj v1) eps = true).
Proof.
  split; [|split].
  - unfold is_conj, Cabs. f_equal. f_equal.
    unfold Cnorm, Csub, Cconj. cbn [real imag]. ring.
  - unfold is_complex, Cconj. cbn [imag]. now rewrite Rabs_Ropp.
  - intros H. unfold is_conj, Cabs. apply Rltb_true.
    replace (Cnorm (Csub v1 (Cconj (Cconj v1)))) with 0
      by (unfold Cnorm, Csub, Cconj; cbn [real imag]; ring).
    now rewrite sqrt_0.
Qed.

Lemma is_conj_symmetric_witness :
  is_conj (C 1 2) (Cconj (C 1 2)) prec_arnoldi = true.
Proof.
  apply (is_conj_symmetric (C 1 2) (C 1 2) prec_arnoldi).
  apply prec_arnoldi_bounds.
Defined.



(** * retrieve_ritzpair *)

Lemma map_nth_seq {A} (l : list A) (dflt : A) :
  map (fun j => nth j l dflt) (seq 0 (length l)) = l.
Proof.
  induction l as [|a l IH]; [reflexivity|].
  cbn [length seq map nth]. f_equal.
  rewrite <- seq_shift, map_map. exact IH.
Qed.

Lemma combine_fst_snd {A B} (l : list (A * B)) :
  combine (map fst l) (map snd l) = l.
Proof.
  induction l as [|[a b] l IH]; [reflexivity|].
  cbn [map combine fst snd]. now rewrite IH.
Qed.

Lemma index_pairs_snd_nonneg n vals :
  Forall (fun q : SortPair => (0 <= snd q)%Z) (index_pairs n vals).
Proof.
  unfold index_pairs. apply Forall_forall. intros q Hq.
  apply in_map_iff in Hq. destruct Hq as [i [<- _]]. cbn [snd]. lia.
Qed.

(** X15.  [retrieve_ritzpair] keeps the pairs together: the Ritz values are
    the eigenvalues of [fac_H] in the order of the selection rule, no pair
    standing strictly after its successor when the comparator of the rule
    is asymmetric, and the nev Ritz vectors kept are the eigenvectors of the
    first nev of them, under the same permutation. *)
Theorem retrieve_ritzpair_pairs (env : Env) (s : Solver)
  (evals : list Complex) (evecs : list (list Complex)) :
  eigen_solver env (ncv s) (fac_H s) = (evals, evecs) ->
  length evals = Z.to_nat (ncv s) ->
  (forall a b, rule_comp env a b = true -> rule_comp env b a = false) ->
  let s' := retrieve_ritzpair env s in
  exists p : list nat,
    Permutation p (seq 0 (Z.to_nat (ncv s)))
    /\ ritz_val s' = map (fun j => nth j evals Czero) p
    /\ ritz_vec s'
       = map (fun j => nth j evecs []) (firstn (Z.to_nat (nev s)) p)
    /\ Permutation (ritz_val s') evals
    /\ Sorted (not_after (rule_comp env))
              (combine (ritz_val s') (map Z.of_nat p)).
Proof.
  intros E Hlen Hasym s'. unfold s', retrieve_ritzpair. rewrite E.
  cbn [ritz_val ritz_vec set_ritz].
  destruct (sorted_pairs_indices (rule_comp env) (ncv s) evals)
    as [Hperm Hfst].
  set (pairs := std_sort (rule_comp env) (index_pairs (ncv s) evals)) in *.
  exists (map (fun q : SortPair => Z.to_nat (snd q)) pairs).
  split; [exact Hperm|]. split; [exact Hfst|]. split; [|split].
  - rewrite firstn_map, map_map. reflexivity.
  - rewrite Hfst.
    rewrite (Permutation_map _ Hperm). rewrite <- Hlen.
    now rewrite map_nth_seq.
  - assert (Hnn : Forall (fun q : SortPair => (0 <= snd q)%Z) pairs).
    { eapply Permutation_Forall; [|apply index_pairs_snd_nonneg].
      apply Permutation_sym, std_sort_perm. }
    rewrite map_map.
    rewrite (map_ext_in (fun q : SortPair => Z.of_nat (Z.to_nat (snd q))) snd).
    + pose proof (combine_fst_snd (A := Complex) (B := Z) pairs) as Hcb.
      unfold SortPair in *. rewrite Hcb. unfold pairs.
      exact (std_sort_sorted (rule_comp env) Hasym
               (index_pairs (ncv s) evals)).
    + intros q Hq. rewrite Forall_forall in Hnn. specialize (Hnn q Hq). lia.
Qed.

Lemma retrieve_ritzpair_pairs_witness :
  exists p : list nat,
    Permutation p (seq 0 (Z.to_nat (ncv solver_2_6)))
    /\ ritz_val (retrieve_ritzpair env_id solver_2_6)
       = map (fun j => nth j (repeat Czero 6) Czero) p.
Proof.
  destruct (retrieve_ritzpair_pairs env_id solver_2_6 (repeat Czero 6)
              (repeat (repeat Czero 6) 6) eq_refl eq_refl
              comp_largest_magn_asym)
    as [p [H1 [H2 _]]].
  exists p. now split.
Defined.

(** * The first factorization of compute *)

(** X16.  [init] followed by the first statement of [compute],
    [factorize_from(1, ncv, fac_f)], yields an Arnoldi factorization of ncv
    steps with an upper-Hessenberg [fac_H], if the residual vanishes at no
    pass. *)
Theorem compute_starts_with_arnoldi (env : Env) (init_resid : Vector)
  (s s0 : Solver) :
  op_reads env (dim_n s) -> 0 < prec s -> (2 <= ncv s)%Z ->
  init env init_resid s = Ok s0 ->
  no_breakdown env 1 (ncv s0) (fac_f s0) s0 ->
  let s1 := factorize_from env 1 (ncv s0) (fac_f s0) s0 in
  arnoldi env (ncv s) s1
  /\ hessenberg (ncv s) (fac_H s1)
  /\ nmatop s1 = (nmatop s + ncv s)%Z.
Proof.
  intros Hop Hp Hm Hi Hb s1.
  destruct (init_arnoldi_holds env init_resid s s0 Hop Hp Hi)
    as [HA [_ [_ [Hd Hn]]]].
  assert (Hs : ncv s0 = ncv s /\ prec s0 = prec s).
  { unfold init in Hi. destruct (Rltb _ _); [discriminate|].
    injection Hi as <-. now split. }
  destruct Hs as [Hc Hq].
  split; [|split].
  - rewrite <- Hc. apply factorize_from_arnoldi_holds; try lia.
    + rewrite Hq. lra.
    + now rewrite Hd.
    + destruct s0. exact HA.
    + exact Hb.
  - rewrite <- Hc.
    apply (factorize_from_hessenberg_holds env 1 (ncv s0) (fac_f s0) s0);
      try lia.
    intros r c H0 H1 H2. lia.
  - unfold s1. rewrite factorize_from_nmatop, Hn, Hc. lia.
Qed.

Lemma solver_swap_init :
  init env_swap (fun r => if (r =? 0)%Z then 1 else 0)
       (mkSolver 2 1 2 0 0 (fun _ _ => 0) (fun _ _ => 0) (fun _ => 0)
                 [] [] [] prec_arnoldi)
  = Ok (mkSolver 2 1 2 1 0
          (set_col 2 (fun _ _ => 0) 0
             (fun r => (if (r =? 0)%Z then 1 else 0) / 1))
          (set_entry (fun _ _ => 0) 0 0 0)
          (fun r => perform_op env_swap
                      (fun r => (if (r =? 0)%Z then 1 else 0) / 1) r
                    - (if (r =? 0)%Z then 1 else 0) / 1 * 0)
          [Czero; Czero] [[Czero; Czero]] [false] prec_arnoldi).
Proof.
  unfold init. cbn [dim_n nev ncv nmatop niter prec].
  assert (Hn : vnorm 2 (fun r => if (r =? 0)%Z then 1 else 0) = 1).
  { unfold vnorm, dot. rewrite sumZ_2. cbn [Z.eqb].
    replace (1 * 1 + 0 * 0) with 1 by ring. apply sqrt_1. }
  rewrite Hn.
  replace (Rltb 1 prec_arnoldi) with false
    by (symmetry; apply Rltb_false; pose proof prec_arnoldi_bounds; lra).
  assert (Hd : dot 2 (fun r => (if (r =? 0)%Z then 1 else 0) / 1)
                 (perform_op env_swap
                    (fun r => (if (r =? 0)%Z then 1 else 0) / 1)) = 0).
  { unfold dot. rewrite sumZ_2. cbn. field. }
  rewrite Hd. reflexivity.
Qed.

Lemma compute_starts_with_arnoldi_witness :
  exists s0,
    init env_swap (fun r => if (r =? 0)%Z then 1 else 0)
         (mkSolver 2 1 2 0 0 (fun _ _ => 0) (fun _ _ => 0) (fun _ => 0)
                   [] [] [] prec_arnoldi) = Ok s0
    /\ arnoldi env_swap 2
         (factorize_from env_swap 1 (ncv s0) (fac_f s0) s0).
Proof.
  eexists. split; [apply solver_swap_init|].
  refine (proj1 (compute_starts_with_arnoldi env_swap _ _ _ _ _ _
                   solver_swap_init _)).
  - exact op_reads_swap.
  - exact (proj1 prec_arnoldi_bounds).
  - cbn. lia.
  - intros i Hi. cbn [ncv] in Hi. assert (i = 1%Z) as -> by lia.
    unfold factorize_before, for_loop.
    cbn [Z.sub Z.to_nat for_n Z.opp Z.add Z.pos_sub Pos.pred_double].
    cbn [fac_f factorize_init set_fac dim_n].
    unfold vnorm, dot. rewrite sumZ_2. cbn.
    replace ((0 / 1 - 1 / 1 * 0) * (0 / 1 - 1 / 1 * 0)
             + (1 / 1 - 0 / 1 * 0) * (1 / 1 - 0 / 1 * 0)) with 1 by field.
    rewrite sqrt_1. lra.
Defined.

(** * compute, then the accessors *)

(** X17.  After a [compute] that made at least one pass of its loop and
    returned r, [eigenvalues()] and [eigenvectors()] both succeed and return
    exactly r entries each, whatever the uninitialised result storage held:
    the values and the coefficient vectors of the pairs flagged in
    [ritz_conv], in order. *)
Theorem compute_then_accessors (env : Env) (c : SolverClass)
  (nconv_init maxit : Z) (tol : Scalar) (fresh : Z -> Complex)
  (freshv : Z -> list Complex) (s s' : Solver) (r : Z) :
  (0 <= nev s <= ncv s)%Z -> (1 <= maxit)%Z ->
  compute env c nconv_init maxit tol s = Ok (s', r) ->
  exists vals vecs,
    eigenvalues fresh s' = Ok vals
    /\ eigenvectors freshv s' = Ok vecs
    /\ Z.of_nat (length vals) = r
    /\ Z.of_nat (length vecs) = r
    /\ vals = flagged (ritz_conv s') (ritz_val s')
    /\ vecs = map (mat_cvec (ncv s') (fac_V s'))
                  (flagged (ritz_conv s') (ritz_vec s')).
Proof.
  intros Hnev Hmax H.
  destruct (compute_count _ _ _ _ _ _ _ _ Hnev Hmax H) as [Hr [_ [Hs _]]].
  destruct (eigenvalues_flagged_holds fresh s' Hs) as [E1 L1].
  destruct (eigenvectors_flagged_holds freshv s' Hs) as [E2 L2].
  eexists. eexists. split; [exact E1|]. split; [exact E2|].
  split; [congruence|]. split; [|split; reflexivity].
  rewrite length_map, L2. congruence.
Qed.

Lemma compute_then_accessors_witness :
  exists s' vals vecs,
    compute env_companion GenEigsSolver 0 1000 (/ 10 ^ 10) solver_companion
    = Ok (s', 2%Z)
    /\ eigenvalues (fun _ => Czero) s' = Ok vals
    /\ eigenvectors (fun _ => []) s' = Ok vecs
    /\ Z.of_nat (length vals) = 2%Z
    /\ Z.of_nat (length vecs) = 2%Z.
Proof.
  destruct (companion_compute 0) as [s' [E _]].
  destruct (compute_then_accessors env_companion GenEigsSolver 0 1000
              (/ 10 ^ 10) (fun _ => Czero) (fun _ => []) solver_companion
              s' 2 ltac:(cbn; lia) ltac:(lia) E)
    as [vals [vecs [H1 [H2 [H3 [H4 _]]]]]].
  exists s', vals, vecs. repeat split; assumption.
Defined.

(** * DoubleShiftQR: errors, reflectors, small matrices *)

Module DoubleShiftQRMore.

Import DoubleShiftQR DoubleShiftQRFacts DoubleShiftQRApply.

Lemma for_n_params (body : Z -> t -> t) :
  (forall i d, same_params d (body i d)) ->
  forall k i d, same_params d (for_n k i body d).
Proof.
  intros Hb k i d. apply (for_n_inv (same_params d)).
  - intros j d' Hd'. eapply same_params_trans; [exact Hd' | apply Hb].
  - apply same_params_refl.
Qed.

Lemma sweep_block_params a b d : same_params d (sweep_block a b d).
Proof.
  unfold sweep_block.
  set (d1 := compute_reflectors_from_block _ a d).
  assert (H1 : same_params d d1) by apply compute_reflectors_from_block_params.
  set (d2 := if ((b <? n d1 - 1) && (2 <=? b - a))%Z%bool then _ else d1).
  assert (H2 : same_params d1 d2).
  { unfold d2. destruct ((b <? n d1 - 1) && (2 <=? b - a))%Z%bool;
      [|apply same_params_refl].
    unfold for_loop. apply for_n_params. intros. apply apply_PX_params. }
  assert (H3 : same_params d d2) by (eapply same_params_trans; eassumption).
  destruct ((0 <? a) && (2 <=? b - a))%Z%bool; [|exact H3].
  eapply same_params_trans; [exact H3|].
  unfold for_loop. apply for_n_params. intros. apply apply_XP_params.
Qed.

Lemma sweep_blocks_params l : forall d, same_params d (sweep_blocks l d).
Proof.
  induction l as [|a l IH]; intros d; [apply same_params_refl|].
  destruct l as [|b l]; [apply same_params_refl|].
  change (sweep_blocks (a :: b :: l) d)
    with (sweep_blocks (b :: l) (sweep_block a (b - 1) d)).
  eapply same_params_trans; [apply sweep_block_params | apply IH].
Qed.

Lemma compute_outcome nrows ncols mat s t_ d :
  match compute nrows ncols mat s t_ d with
  | Ok d' =>
      nrows = ncols /\ (1 <= nrows)%Z /\ computed d' = true /\ n d' = nrows
      /\ shift_s d' = s /\ shift_t d' = t_ /\ prec d' = prec d
      /\ matrix_QtHQ d' = Ok (mat_H d')
  | Fail e =>
      (e = InvalidArgument /\ nrows <> ncols)
      \/ (e = LengthError /\ nrows = ncols /\ (nrows <= 0)%Z)
  end.
Proof.
  unfold compute. destruct (Z.eqb_spec nrows ncols) as [E|E]; cbn [negb].
  2:{ left. now split. }
  destruct (Z.ltb_spec (nrows - 1) 0) as [L|L].
  { right. repeat split; [exact E | lia]. }
  set (d0 := mk nrows _ s t_ (ref_u d) (prec d) (computed d)).
  destruct (find_zero_ind d0) as [H zero_ind].
  pose proof (sweep_blocks_params (zero_ind ++ [nrows]) (set_mat_H d0 H))
    as [P1 [P2 [P3 [P4 _]]]].
  cbn [n prec shift_s shift_t computed mat_H set_mat_H d0] in *.
  unfold matrix_QtHQ. cbn [computed mat_H].
  repeat split; try assumption; lia.
Qed.

Lemma compute_square_ok nr mat s t_ d :
  (1 <= nr)%Z ->
  exists d', compute nr nr mat s t_ d = Ok d'
             /\ n d' = nr /\ prec d' = prec d /\ computed d' = true.
Proof.
  intros Hnr. pose proof (compute_outcome nr nr mat s t_ d) as H.
  destruct (compute nr nr mat s t_ d) as [d'|e].
  - exists d'. split; [reflexivity|]. tauto.
  - destruct H as [[_ H]|[_ [_ H]]]; [now contradiction H | lia].
Qed.

(** X18.  [compute] throws [invalid_argument] exactly when the matrix is
    not square, and for the empty matrix [reserve(n - 1)] throws
    [length_error]; on every square matrix of order 1 or more it returns
    with [computed] set, the order and the shifts recorded and the threshold
    as it was, and [matrix_QtHQ] then returns the member [mat_H]. *)
Theorem double_shift_protocol (nrows ncols : Z) (mat : Matrix)
  (s t_ : Scalar) (d : t) :
  match compute nrows ncols mat s t_ d with
  | Ok d' =>
      nrows = ncols /\ (1 <= nrows)%Z /\ computed d' = true /\ n d' = nrows
      /\ shift_s d' = s /\ shift_t d' = t_ /\ prec d' = prec d
      /\ matrix_QtHQ d' = Ok (mat_H d')
  | Fail e =>
      (e = InvalidArgument /\ nrows <> ncols)
      \/ (e = LengthError /\ nrows = ncols /\ (nrows <= 0)%Z)
  end.
Proof. apply compute_outcome. Qed.

Lemma sqrt2_neq0 : sqrt 2 <> 0.
Proof. pose proof sqrt2_gt1. lra. Qed.

(** X19.  [compute_reflector] stores under [ind] a vector of length one or
    the zero vector, so that I - 2 u u^T is a reflection or the identity;
    it writes no other column of [ref_u], and not [mat_H]. *)
Theorem compute_reflector_unit (x1 x2 x3 : Scalar) (ind : Z) (d : t) :
  0 <= prec d ->
  let d' := compute_reflector x1 x2 x3 ind d in
  ((ref_u d' 0%Z ind = 0 /\ ref_u d' 1%Z ind = 0 /\ ref_u d' 2%Z ind = 0)
   \/ ref_u d' 0%Z ind * ref_u d' 0%Z ind
      + ref_u d' 1%Z ind * ref_u d' 1%Z ind
      + ref_u d' 2%Z ind * ref_u d' 2%Z ind = 1)
  /\ (forall k c, c <> ind -> ref_u d' k c = ref_u d k c)
  /\ mat_H d' = mat_H d.
Proof.
  intros Hp d'. unfold d'. rewrite compute_reflector_closed.
  cbn [ref_u set_ref_u mat_H]. rewrite Z.eqb_refl.
  change (in_range 0 3 0) with true. change (in_range 0 3 1) with true.
  change (in_range 0 3 2) with true. cbn [andb].
  split; [|split; [|reflexivity]].
  - pose proof sqrt2_sq as Hs. pose proof sqrt2_neq0 as Hn.
    destruct (hh_u_unit_or_zero (prec d) x1 x2 x3 Hp) as [[H0 [H1 H2]]|Hu].
    + left. repeat split.
      * apply Rmult_integral in H0. tauto.
      * apply Rmult_integral in H1. tauto.
      * apply Rmult_integral in H2. tauto.
    + right.
      set (a := hh_u (prec d) x1 x2 x3 0) in *.
      set (b := hh_u (prec d) x1 x2 x3 1) in *.
      set (c := hh_u (prec d) x1 x2 x3 2) in *.
      replace (sqrt 2 * a * (sqrt 2 * a) + sqrt 2 * b * (sqrt 2 * b)
               + sqrt 2 * c * (sqrt 2 * c))
        with (sqrt 2 * sqrt 2 * (a * a + b * b + c * c)) in Hu by ring.
      rewrite Hs in Hu. lra.
  - intros k c Hc.
    now replace (c =? ind)%Z with false by (symmetry; now apply Z.eqb_neq).
Qed.

Lemma compute_reflector_unit_witness :
  let d' := compute_reflector 3 4 0 0 new in
  ((ref_u d' 0%Z 0%Z = 0 /\ ref_u d' 1%Z 0%Z = 0 /\ ref_u d' 2%Z 0%Z = 0)
   \/ ref_u d' 0%Z 0%Z * ref_u d' 0%Z 0%Z
      + ref_u d' 1%Z 0%Z * ref_u d' 1%Z 0%Z
      + ref_u d' 2%Z 0%Z * ref_u d' 2%Z 0%Z = 1)
  /\ (forall k c, c <> 0%Z -> ref_u d' k c = ref_u new k c)
  /\ mat_H d' = mat_H new.
Proof.
  apply (compute_reflector_unit 3 4 0 0 new).
  apply Rlt_le, prec_qr_bounds.
Defined.

Lemma reflect_rows_involution u0 u1 u2 r0 lo hi M :
  u0 * u0 + u1 * u1 + u2 * u2 = 2 ->
  reflect_rows u0 u1 u2 r0 lo hi (reflect_rows u0 u1 u2 r0 lo hi M) = M.
Proof.
  intros Hu.
  apply functional_extensionality; intros r.
  apply functional_extensionality; intros c.
  unfold reflect_rows. destruct (in_range lo hi c); [|reflexivity].
  rewrite !Z.eqb_refl.
  replace (r0 + 1 =? r0)%Z with false by (symmetry; apply Z.eqb_neq; lia).
  replace (r0 + 2 =? r0)%Z with false by (symmetry; apply Z.eqb_neq; lia).
  replace (r0 + 2 =? r0 + 1)%Z with false by (symmetry; apply Z.eqb_neq; lia).
  cbv zeta.
  set (a := M r0 c). set (b := M (r0 + 1)%Z c). set (e := M (r0 + 2)%Z c).
  set (tmp := u0 * a + u1 * b + u2 * e).
  assert (K : u0 * (a - tmp * u0) + u1 * (b - tmp * u1) + u2 * (e - tmp * u2)
              = - tmp).
  { replace (u0 * (a - tmp * u0) + u1 * (b - tmp * u1) + u2 * (e - tmp * u2))
      with (tmp - tmp * (u0 * u0 + u1 * u1 + u2 * u2)) by (unfold tmp; ring).
    rewrite Hu. ring. }
  rewrite K.
  destruct (Z.eqb_spec r r0) as [->|H0]; [fold a; ring|].
  destruct (Z.eqb_spec r (r0 + 1)) as [->|H1]; [fold b; ring|].
  destruct (Z.eqb_spec r (r0 + 2)) as [->|H2]; [fold e; ring|].
  reflexivity.
Qed.

Lemma reflect_cols_involution u0 u1 u2 c0 lo hi M :
  u0 * u0 + u1 * u1 + u2 * u2 = 2 ->
  reflect_cols u0 u1 u2 c0 lo hi (reflect_cols u0 u1 u2 c0 lo hi M) = M.
Proof.
  intros Hu.
  apply functional_extensionality; intros r.
  apply functional_extensionality; intros c.
  unfold reflect_cols. destruct (in_range lo hi r); [|reflexivity].
  rewrite !Z.eqb_refl.
  replace (c0 + 1 =? c0)%Z with false by (symmetry; apply Z.eqb_neq; lia).
  replace (c0 + 2 =? c0)%Z with false by (symmetry; apply Z.eqb_neq; lia).
  replace (c0 + 2 =? c0 + 1)%Z with false by (symmetry; apply Z.eqb_neq; lia).
  cbv zeta.
  set (a := M r c0). set (b := M r (c0 + 1)%Z). set (e := M r (c0 + 2)%Z).
  set (tmp := u0 * a + u1 * b + u2 * e).
  assert (K : u0 * (a - tmp * u0) + u1 * (b - tmp * u1) + u2 * (e - tmp * u2)
              = - tmp).
  { replace (u0 * (a - tmp * u0) + u1 * (b - tmp * u1) + u2 * (e - tmp * u2))
      with (tmp - tmp * (u0 * u0 + u1 * u1 + u2 * u2)) by (unfold tmp; ring).
    rewrite Hu. ring. }
  rewrite K.
  destruct (Z.eqb_spec c c0) as [->|H0]; [fold a; ring|].
  destruct (Z.eqb_spec c (c0 + 1)) as [->|H1]; [fold b; ring|].
  destruct (Z.eqb_spec c (c0 + 2)) as [->|H2]; [fold e; ring|].
  reflexivity.
Qed.

(** The entries that [apply_PX] and [apply_XP] use of a reflector, for a
    block of two or of three rows (columns), are those of a vector of length
    sqrt 2, or zero. *)
Lemma used_unit_or_zero d ind (two : bool) :
  unit_or_zero (scaled_u d 0 ind) (scaled_u d 1 ind) (scaled_u d 2 ind) ->
  (two = true -> scaled_u d 2 ind = 0) ->
  unit_or_zero (scaled_u d 0 ind) (scaled_u d 1 ind)
               (if two then 0 else scaled_u d 2 ind).
Proof.
  intros Hu H2. destruct two; [|exact Hu].
  rewrite (H2 eq_refl) in Hu. destruct Hu as [[H0 [H1 _]]|Hu].
  - left. now repeat split.
  - right. exact Hu.
Qed.

(** X20.  A reflector applied twice is the identity: [apply_PX] after
    [apply_PX] on the same block with the same reflector restores the
    matrix, and so does [apply_XP] after [apply_XP], when the reflector is a
    unit vector or zero and, for a block of two rows (columns), its third
    entry is zero. *)
Theorem apply_twice_identity (XP XX : Block) (ind : Z) (d : t) :
  0 <= prec d < 2 ->
  unit_or_zero (scaled_u d 0 ind) (scaled_u d 1 ind) (scaled_u d 2 ind) ->
  ((rows XP = 2)%Z -> scaled_u d 2 ind = 0) ->
  ((cols XX = 2)%Z -> scaled_u d 2 ind = 0) ->
  apply_PX XP ind (apply_PX XP ind d) = d
  /\ apply_XP XX ind (apply_XP XX ind d) = d.
Proof.
  intros Hp Hu HP HX. split.
  - rewrite (apply_PX_unit XP ind d Hp Hu).
    rewrite apply_PX_unit by (rewrite ?scaled_u_set_mat_H; assumption).
    rewrite !scaled_u_set_mat_H. cbn [mat_H set_mat_H].
    destruct (used_unit_or_zero d ind (rows XP =? 2)%Z Hu) as [[H0 [H1 H2]]|H].
    + intros E. apply HP. now apply Z.eqb_eq.
    + rewrite H0, H1, H2, !reflect_rows_null.
      unfold set_mat_H. now destruct d.
    + rewrite reflect_rows_involution by exact H.
      unfold set_mat_H. now destruct d.
  - rewrite (apply_XP_unit XX ind d Hp Hu).
    rewrite apply_XP_unit by (rewrite ?scaled_u_set_mat_H; assumption).
    rewrite !scaled_u_set_mat_H. cbn [mat_H set_mat_H].
    destruct (used_unit_or_zero d ind (cols XX =? 2)%Z Hu) as [[H0 [H1 H2]]|H].
    + intros E. apply HX. now apply Z.eqb_eq.
    + rewrite H0, H1, H2, !reflect_cols_null.
      unfold set_mat_H. now destruct d.
    + rewrite reflect_cols_involution by exact H.
      unfold set_mat_H. now destruct d.
Qed.

Lemma apply_twice_identity_witness :
  let d := compute_reflector 3 4 0 0 new in
  apply_PX (mkBlock 0 0 2 3) 0 (apply_PX (mkBlock 0 0 2 3) 0 d) = d
  /\ apply_XP (mkBlock 0 0 3 2) 0 (apply_XP (mkBlock 0 0 3 2) 0 d) = d.
Proof.
  intros d. pose proof prec_qr_bounds as Hp.
  destruct (scaled_u_fresh 3 4 0 0 new) as [S0 [S1 S2]]. fold d in S0, S1, S2.
  assert (P : prec d = prec_qr) by apply prec_compute_reflector.
  assert (Z2 : scaled_u d 2 0 = 0)
    by (rewrite S2, hh_u_third_zero; ring).
  apply (apply_twice_identity (mkBlock 0 0 2 3) (mkBlock 0 0 3 2) 0 d).
  - rewrite P. lra.
  - rewrite S0, S1, S2. apply hh_u_unit_or_zero.
    change (prec new) with prec_qr. lra.
  - intros _. exact Z2.
  - intros _. exact Z2.
Defined.

Lemma ref_u_null_reflector ind d k c :
  0 <= prec d ->
  ref_u (compute_reflector 0 0 0 ind d) k c
  = if ((c =? ind)%Z && in_range 0 3 k)%bool then 0 else ref_u d k c.
Proof.
  intros Hp. rewrite compute_reflector_closed. cbn [ref_u set_ref_u].
  destruct ((c =? ind)%Z && in_range 0 3 k)%bool; [|reflexivity].
  now apply hh_u_null.
Qed.

(** X21.  For a matrix of order 1 or 2 nothing is swept: [compute] stores
    zero reflectors and [matrix_QtHQ] returns the upper-Hessenberg part of
    the matrix given, whatever the shifts. *)
Theorem compute_small_matrix (nr : Z) (mat : Matrix) (s t_ : Scalar) (d : t) :
  (1 <= nr <= 2)%Z -> 0 <= prec d ->
  exists d',
    compute nr nr mat s t_ d = Ok d'
    /\ matrix_QtHQ d' = Ok (hessenberg_part mat)
    /\ forall k c, (0 <= k < 3)%Z -> (0 <= c < nr)%Z -> ref_u d' k c = 0.
Proof.
  intros Hn Hp.
  rewrite compute_single_block by (try lia; intros i Hi; lia). cbv zeta.
  set (d0 := mk nr (hessenberg_part mat) s t_ (ref_u d) (prec d) (computed d)).
  assert (Hp0 : 0 <= prec d0) by exact Hp.
  eexists. split; [reflexivity|].
  unfold matrix_QtHQ. cbn [computed mat_H ref_u].
  unfold compute_reflectors_from_block.
  change (rows (mkBlock 0 0 nr nr)) with nr.
  destruct (Z.eqb_spec nr 1) as [E1|E1].
  - rewrite mat_H_compute_reflector. split; [reflexivity|].
    intros k c Hk Hc. rewrite ref_u_null_reflector by exact Hp0.
    replace (c =? 0)%Z with true by (symmetry; apply Z.eqb_eq; lia).
    now rewrite in_range_true.
  - destruct (Z.eqb_spec nr 2) as [E2|E2]; [|lia].
    rewrite !mat_H_compute_reflector. split; [reflexivity|].
    intros k c Hk Hc.
    rewrite ref_u_null_reflector
      by (rewrite prec_compute_reflector; exact Hp0).
    rewrite ref_u_null_reflector by exact Hp0.
    rewrite in_range_true by lia. rewrite !andb_true_r.
    destruct (Z.eqb_spec c (0 + 1)); [reflexivity|].
    now replace (c =? 0)%Z with true by (symmetry; apply Z.eqb_eq; lia).
Qed.

Lemma compute_small_matrix_witness :
  exists d',
    compute 2 2 H_two 2 2 new = Ok d'
    /\ matrix_QtHQ d' = Ok (hessenberg_part H_two)
    /\ forall k c, (0 <= k < 3)%Z -> (0 <= c < 2)%Z -> ref_u d' k c = 0.
Proof.
  apply (compute_small_matrix 2 H_two 2 2 new); [lia|].
  apply Rlt_le, prec_qr_bounds.
Defined.

(** ** What a sweep writes of [ref_u] *)

Lemma ref_u_apply_PX X ind d : ref_u (apply_PX X ind d) = ref_u d.
Proof. rewrite apply_PX_closed. now destruct (skipped d ind). Qed.

Lemma ref_u_apply_XP X ind d : ref_u (apply_XP X ind d) = ref_u d.
Proof. rewrite apply_XP_closed. now destruct (skipped d ind). Qed.

Lemma ref_u_compute_reflector x1 x2 x3 ind d k c :
  ref_u (compute_reflector x1 x2 x3 ind d) k c
  = if ((c =? ind)%Z && in_range 0 3 k)%bool
    then hh_u (prec d) x1 x2 x3 k else ref_u d k c.
Proof. now rewrite compute_reflector_closed. Qed.

Lemma for_n_ref_u (body : Z -> t -> t) :
  (forall i d, ref_u (body i d) = ref_u d) ->
  forall k i d, ref_u (for_n k i body d) = ref_u d.
Proof.
  intros Hb k i d. apply (for_n_inv (fun d' => ref_u d' = ref_u d)).
  - intros j d' Hd'. now rewrite Hb.
  - reflexivity.
Qed.

Lemma ref_u_sweep_block a b d :
  ref_u (sweep_block a b d)
  = ref_u (compute_reflectors_from_block
             (mkBlock a a (b - a + 1) (b - a + 1)) a d).
Proof.
  unfold sweep_block.
  set (d1 := compute_reflectors_from_block _ a d).
  set (d2 := if ((b <? n d1 - 1) && (2 <=? b - a))%Z%bool then _ else d1).
  assert (H2 : ref_u d2 = ref_u d1).
  { unfold d2. destruct ((b <? n d1 - 1) && (2 <=? b - a))%Z%bool;
      [|reflexivity].
    unfold for_loop. apply for_n_ref_u. intros. apply ref_u_apply_PX. }
  destruct ((0 <? a) && (2 <=? b - a))%Z%bool; [|exact H2].
  rewrite <- H2. unfold for_loop. apply for_n_ref_u.
  intros. apply ref_u_apply_XP.
Qed.

(** The reflector stored under [c] is a unit vector, or zero. *)
Lemma reflector_ok_fresh x1 x2 x3 ind d :
  0 <= prec d ->
  unit_or_zero (scaled_u (compute_reflector x1 x2 x3 ind d) 0 ind)
               (scaled_u (compute_reflector x1 x2 x3 ind d) 1 ind)
               (scaled_u (compute_reflector x1 x2 x3 ind d) 2 ind).
Proof.
  intros Hp. destruct (scaled_u_fresh x1 x2 x3 ind d) as [-> [-> ->]].
  now apply hh_u_unit_or_zero.
Qed.

Lemma chase_step_ref_u X start i d k c :
  ref_u (chase_step X start i d) k c
  = if ((c =? start + i)%Z && in_range 0 3 k)%bool
    then hh_u (prec d) (coeff (mat_H d) X i (i - 1))
              (coeff (mat_H d) X (i + 1) (i - 1))
              (coeff (mat_H d) X (i + 2) (i - 1)) k
    else ref_u d k c.
Proof.
  unfold chase_step, compute_reflector_at.
  now rewrite ref_u_apply_XP, ref_u_apply_PX, ref_u_compute_reflector.
Qed.

Lemma chase_step_prec X start i d : prec (chase_step X start i d) = prec d.
Proof. apply chase_step_params. Qed.

(** The columns of [ref_u] that the chase has written hold unit vectors or
    zero; it has written no column outside those of its passes. *)
Lemma chase_loop_ref_u X start k :
  forall i d,
    0 <= prec d ->
    let d' := for_n k i (chase_step X start) d in
    prec d' = prec d
    /\ (forall j c, (c < start + i \/ start + i + Z.of_nat k <= c)%Z ->
          ref_u d' j c = ref_u d j c)
    /\ (forall c, (start + i <= c < start + i + Z.of_nat k)%Z ->
          unit_or_zero (scaled_u d' 0 c) (scaled_u d' 1 c) (scaled_u d' 2 c)).
Proof.
  induction k as [|k IH]; intros i d Hp d'.
  - unfold d'. cbn [for_n]. repeat split; intros; try reflexivity; lia.
  - unfold d'. cbn [for_n].
    destruct (IH (i + 1)%Z (chase_step X start i d)) as [P [F G]].
    { now rewrite chase_step_prec. }
    cbv zeta in P, F, G. split; [|split].
    + now rewrite P, chase_step_prec.
    + intros j c Hc. rewrite F by lia. rewrite chase_step_ref_u.
      now replace (c =? start + i)%Z with false
        by (symmetry; apply Z.eqb_neq; lia).
    + intros c Hc. destruct (Z.eq_dec c (start + i)) as [->|Hne].
      * unfold scaled_u. rewrite !F by lia. rewrite !chase_step_ref_u.
        rewrite Z.eqb_refl.
        change (in_range 0 3 0) with true. change (in_range 0 3 1) with true.
        change (in_range 0 3 2) with true. cbn [andb].
        now apply hh_u_unit_or_zero.
      * apply G. lia.
Qed.

Lemma unit_or_zero_null : unit_or_zero 0 0 0.
Proof. left. now repeat split. Qed.

(** The sweep of a block of [nrow] rows, with reflectors from [a] on:
    it writes the columns a .. a + nrow - 1 of [ref_u] and no other, each
    with a unit vector or zero; the last is zero and the last but one has
    its third entry zero. *)
Lemma block_ref_u X a d :
  0 <= prec d -> (1 <= rows X)%Z ->
  let d' := compute_reflectors_from_block X a d in
  (forall j c, (c < a \/ a + rows X <= c)%Z -> ref_u d' j c = ref_u d j c)
  /\ (forall c, (a <= c < a + rows X)%Z ->
        unit_or_zero (scaled_u d' 0 c) (scaled_u d' 1 c) (scaled_u d' 2 c))
  /\ (forall j, (0 <= j < 3)%Z -> ref_u d' j (a + rows X - 1)%Z = 0)
  /\ ((2 <= rows X)%Z -> ref_u d' 2%Z (a + rows X - 2)%Z = 0).
Proof.
  intros Hp Hn d'. unfold d', compute_reflectors_from_block.
  set (nrow := rows X) in *.
  destruct (Z.eqb_spec nrow 1) as [E1|E1].
  { rewrite E1. repeat split.
    - intros j c Hc. rewrite ref_u_null_reflector by exact Hp.
      now replace (c =? a)%Z with false by (symmetry; apply Z.eqb_neq; lia).
    - intros c Hc. assert (c = a) as -> by lia.
      now apply reflector_ok_fresh.
    - intros j Hj. rewrite ref_u_null_reflector by exact Hp.
      replace (a + 1 - 1 =? a)%Z with true by (symmetry; apply Z.eqb_eq; lia).
      now rewrite in_range_true.
    - lia. }
  destruct (Z.eqb_spec nrow 2) as [E2|E2].
  { rewrite E2.
    assert (Hp1 : 0 <= prec (compute_reflector 0 0 0 a d))
      by now rewrite prec_compute_reflector.
    repeat split.
    - intros j c Hc. rewrite !ref_u_null_reflector by assumption.
      replace (c =? a + 1)%Z with false by (symmetry; apply Z.eqb_neq; lia).
      now replace (c =? a)%Z with false by (symmetry; apply Z.eqb_neq; lia).
    - intros c Hc. unfold scaled_u.
      rewrite !ref_u_null_reflector by assumption.
      change (in_range 0 3 0) with true. change (in_range 0 3 1) with true.
      change (in_range 0 3 2) with true. rewrite !andb_true_r.
      destruct (Z.eqb_spec c (a + 1)).
      + rewrite !Rmult_0_r. apply unit_or_zero_null.
      + replace (c =? a)%Z with true by (symmetry; apply Z.eqb_eq; lia).
        rewrite !Rmult_0_r. apply unit_or_zero_null.
    - intros j Hj. rewrite ref_u_null_reflector by assumption.
      replace (a + 2 - 1 =? a + 1)%Z with true
        by (symmetry; apply Z.eqb_eq; lia).
      now rewrite in_range_true.
    - intros _. rewrite !ref_u_null_reflector by assumption.
      replace (a + 2 - 2 =? a + 1)%Z with false
        by (symmetry; apply Z.eqb_neq; lia).
      replace (a + 2 - 2 =? a)%Z with true by (symmetry; apply Z.eqb_eq; lia).
      reflexivity. }
  cbv zeta.
  set (x := coeff (mat_H d) X 0 0 * (coeff (mat_H d) X 0 0 - shift_s d)
            + coeff (mat_H d) X 0 1 * coeff (mat_H d) X 1 0 + shift_t d).
  set (y := coeff (mat_H d) X 1 0
            * (coeff (mat_H d) X 0 0 + coeff (mat_H d) X 1 1 - shift_s d)).
  set (z := coeff (mat_H d) X 2 1 * coeff (mat_H d) X 1 0).
  set (d3 := apply_XP _ a (apply_PX _ a (compute_reflector x y z a d))).
  assert (U3 : ref_u d3 = ref_u (compute_reflector x y z a d))
    by (unfold d3; now rewrite ref_u_apply_XP, ref_u_apply_PX).
  assert (P3 : prec d3 = prec d).
  { unfold d3.
    destruct (apply_XP_params (block X 0 0 (Z.min nrow 4) 3) a
                (apply_PX (block X 0 0 3 (cols X)) a
                          (compute_reflector x y z a d))) as [_ [-> _]].
    destruct (apply_PX_params (block X 0 0 3 (cols X)) a
                (compute_reflector x y z a d)) as [_ [-> _]].
    apply prec_compute_reflector. }
  unfold for_loop.
  destruct (chase_loop_ref_u X a (Z.to_nat (nrow - 2 - 1)) 1 d3)
    as [P4 [F4 G4]]; [now rewrite P3|].
  cbv zeta in P4, F4, G4.
  set (d4 := for_n (Z.to_nat (nrow - 2 - 1)) 1 (chase_step X a) d3) in *.
  set (x1 := coeff (mat_H d4) X (nrow - 2) (nrow - 3)).
  set (x2 := coeff (mat_H d4) X (nrow - 1) (nrow - 3)).
  set (d5 := compute_reflector x1 x2 0 (a + nrow - 2) d4).
  assert (P5 : prec d5 = prec d)
    by (unfold d5; now rewrite prec_compute_reflector, P4).
  rewrite ref_u_apply_XP, ref_u_apply_PX.
  assert (C0 : forall j c,
    ref_u (compute_reflector 0 0 0 (a + nrow - 1) d5) j c
    = if ((c =? a + nrow - 1)%Z && in_range 0 3 j)%bool then 0
      else if ((c =? a + nrow - 2)%Z && in_range 0 3 j)%bool
           then hh_u (prec d4) x1 x2 0 j
           else if (in_range (a + 1) (a + 1 + Z.of_nat (Z.to_nat (nrow - 2 - 1))) c)
                then ref_u d4 j c
                else if ((c =? a)%Z && in_range 0 3 j)%bool
                     then hh_u (prec d) x y z j else ref_u d j c).
  { intros j c. rewrite ref_u_null_reflector by (rewrite P5; exact Hp).
    destruct ((c =? a + nrow - 1)%Z && in_range 0 3 j)%bool; [reflexivity|].
    unfold d5. rewrite ref_u_compute_reflector.
    destruct ((c =? a + nrow - 2)%Z && in_range 0 3 j)%bool; [reflexivity|].
    destruct (in_range (a + 1) (a + 1 + Z.of_nat (Z.to_nat (nrow - 2 - 1))) c)
      eqn:E; [reflexivity|].
    apply in_range_false_iff in E.
    rewrite F4 by lia. rewrite U3. apply ref_u_compute_reflector. }
  assert (Hsc : forall j c,
    scaled_u (apply_XP (block X 0 (nrow - 2) nrow 2) (a + nrow - 2)
                (apply_PX (block X (nrow - 2) (nrow - 3) 2 3) (a + nrow - 2)
                   (compute_reflector 0 0 0 (a + nrow - 1) d5))) j c
    = sqrt 2 * ref_u (compute_reflector 0 0 0 (a + nrow - 1) d5) j c).
  { intros j c. unfold scaled_u. now rewrite ref_u_apply_XP, ref_u_apply_PX. }
  repeat split.
  - intros j c Hc. rewrite C0.
    replace (c =? a + nrow - 1)%Z with false
      by (symmetry; apply Z.eqb_neq; lia).
    replace (c =? a + nrow - 2)%Z with false
      by (symmetry; apply Z.eqb_neq; lia).
    rewrite (in_range_false (a + 1)) by lia.
    now replace (c =? a)%Z with false by (symmetry; apply Z.eqb_neq; lia).
  - intros c Hc. rewrite !Hsc, !C0.
    change (in_range 0 3 0) with true. change (in_range 0 3 1) with true.
    change (in_range 0 3 2) with true. rewrite !andb_true_r.
    destruct (Z.eqb_spec c (a + nrow - 1)).
    { rewrite !Rmult_0_r. apply unit_or_zero_null. }
    destruct (Z.eqb_spec c (a + nrow - 2)).
    { apply hh_u_unit_or_zero. now rewrite P4, P3. }
    destruct (in_range (a + 1) (a + 1 + Z.of_nat (Z.to_nat (nrow - 2 - 1))) c)
      eqn:E.
    { apply in_range_iff in E. apply (G4 c). lia. }
    apply in_range_false_iff in E.
    replace (c =? a)%Z with true by (symmetry; apply Z.eqb_eq; lia).
    now apply hh_u_unit_or_zero.
  - intros j Hj. rewrite C0. rewrite Z.eqb_refl.
    now rewrite in_range_true.
  - intros _. rewrite C0.
    replace (a + nrow - 2 =? a + nrow - 1)%Z with false
      by (symmetry; apply Z.eqb_neq; lia).
    rewrite Z.eqb_refl. change (in_range 0 3 2) with true. cbn [andb].
    apply hh_u_third_zero.
Qed.

(** ** The blocks of compute *)

(** The loop of [find_zero_ind], from row [i0] on for [k] rows: the rows it
    records are those with a negligible sub-diagonal entry, in increasing
    order, and these entries are the ones it sets to zero. *)
Lemma find_zero_ind_loop eps k :
  forall i0 (M0 : Matrix) (zi0 : list Z),
    exists ext,
      for_n k i0
        (fun i (st : Matrix * list Z) =>
           let (M, zero_ind) := st in
           if Rleb (Rabs (M i (i - 1)%Z)) eps
           then (set_entry M i (i - 1) 0, zero_ind ++ [i])
           else (M, zero_ind)) (M0, zi0)
      = (fun r c =>
           if ((c =? r - 1)%Z && in_range i0 (i0 + Z.of_nat k) r
               && Rleb (Rabs (M0 r (r - 1)%Z)) eps)%bool
           then 0 else M0 r c,
         zi0 ++ ext)
      /\ StronglySorted Z.lt ext
      /\ forall z, In z ext <->
                   (i0 <= z < i0 + Z.of_nat k)%Z
                   /\ Rabs (M0 z (z - 1)%Z) <= eps.
Proof.
  induction k as [|k IH]; intros i0 M0 zi0.
  - exists []. cbn [for_n]. split; [|split].
    + rewrite app_nil_r. f_equal.
      apply functional_extensionality; intros r.
      apply functional_extensionality; intros c.
      rewrite (in_range_false i0) by lia.
      now rewrite andb_false_r.
    + constructor.
    + intros z. cbn [In]. split; [tauto | lia].
  - cbn [for_n].
    set (M1 := if Rleb (Rabs (M0 i0 (i0 - 1)%Z)) eps
               then set_entry M0 i0 (i0 - 1) 0 else M0).
    set (zi1 := if Rleb (Rabs (M0 i0 (i0 - 1)%Z)) eps
                then zi0 ++ [i0] else zi0).
    replace (if Rleb (Rabs (M0 i0 (i0 - 1)%Z)) eps
             then (set_entry M0 i0 (i0 - 1) 0, zi0 ++ [i0]) else (M0, zi0))
      with (M1, zi1)
      by (unfold M1, zi1; now destruct (Rleb (Rabs (M0 i0 (i0 - 1)%Z)) eps)).
    destruct (IH (i0 + 1)%Z M1 zi1) as [ext [E [Hs Hin]]].
    assert (HM : forall z, (i0 < z)%Z -> M1 z (z - 1)%Z = M0 z (z - 1)%Z).
    { intros z Hz. unfold M1.
      destruct (Rleb (Rabs (M0 i0 (i0 - 1)%Z)) eps); [|reflexivity].
      unfold set_entry.
      now replace (z =? i0)%Z with false by (symmetry; apply Z.eqb_neq; lia). }
    exists (if Rleb (Rabs (M0 i0 (i0 - 1)%Z)) eps then i0 :: ext else ext).
    split; [|split].
    + rewrite E. f_equal.
      * apply functional_extensionality; intros r.
        apply functional_extensionality; intros c.
        destruct (Z.eq_dec r i0) as [->|Hr].
        -- rewrite (in_range_false (i0 + 1)) by lia.
           rewrite in_range_true by lia. rewrite andb_false_r, andb_true_r.
           unfold M1. destruct (Rleb (Rabs (M0 i0 (i0 - 1)%Z)) eps);
             [|now rewrite andb_false_r].
           unfold set_entry. rewrite Z.eqb_refl, andb_true_r. cbn [andb].
           now destruct (c =? i0 - 1)%Z.
        -- destruct (Z.lt_ge_cases r i0) as [Hlt|Hge].
           ++ rewrite (in_range_false (i0 + 1)) by lia.
              rewrite (in_range_false i0) by lia.
              rewrite !andb_false_r. unfold M1.
              destruct (Rleb (Rabs (M0 i0 (i0 - 1)%Z)) eps); [|reflexivity].
              unfold set_entry.
              now replace (r =? i0)%Z with false
                by (symmetry; apply Z.eqb_neq; lia).
           ++ rewrite HM by lia.
              replace (in_range (i0 + 1) (i0 + 1 + Z.of_nat k) r)
                with (in_range i0 (i0 + Z.of_nat (S k)) r).
              2:{ destruct (in_range (i0 + 1) (i0 + 1 + Z.of_nat k) r) eqn:F.
                  - apply in_range_iff in F. apply in_range_true. lia.
                  - apply in_range_false_iff in F. apply in_range_false. lia. }
              destruct ((c =? r - 1)%Z && in_range i0 (i0 + Z.of_nat (S k)) r
                        && Rleb (Rabs (M0 r (r - 1)%Z)) eps)%bool;
                [reflexivity|].
              unfold M1.
              destruct (Rleb (Rabs (M0 i0 (i0 - 1)%Z)) eps); [|reflexivity].
              unfold set_entry.
              now replace (r =? i0)%Z with false
                by (symmetry; apply Z.eqb_neq; lia).
      * unfold zi1. destruct (Rleb (Rabs (M0 i0 (i0 - 1)%Z)) eps);
          [now rewrite <- app_assoc | reflexivity].
    + destruct (Rleb (Rabs (M0 i0 (i0 - 1)%Z)) eps); [|exact Hs].
      constructor; [exact Hs|]. apply Forall_forall. intros z Hz.
      apply Hin in Hz. lia.
    + intros z.
      destruct (Rleb (Rabs (M0 i0 (i0 - 1)%Z)) eps) eqn:Et.
      * cbn [In]. rewrite Hin. apply Rleb_true in Et. split.
        -- intros [<-|[H1 H2]]; [split; [lia | exact Et]|].
           rewrite HM in H2 by lia. split; [lia | exact H2].
        -- intros [H1 H2]. destruct (Z.eq_dec i0 z) as [->|Hne];
             [now left | right].
           rewrite HM by lia. split; [lia | exact H2].
      * rewrite Hin. apply Rleb_false in Et. split.
        -- intros [H1 H2]. rewrite HM in H2 by lia. split; [lia | exact H2].
        -- intros [H1 H2]. destruct (Z.eq_dec i0 z) as [->|Hne]; [lra|].
           rewrite HM by lia. split; [lia | exact H2].
Qed.

(** [find_zero_ind]: the list starts with 0, is strictly increasing, and
    holds besides 0 the rows 1 .. n - 2 whose sub-diagonal entry is
    negligible; the matrix is the one given with these entries zero. *)
Lemma find_zero_ind_spec d :
  exists ext,
    find_zero_ind d
    = (fun r c =>
         if ((c =? r - 1)%Z && in_range 1 (Z.max 1 (n d - 1)) r
             && Rleb (Rabs (mat_H d r (r - 1)%Z)) (prec d))%bool
         then 0 else mat_H d r c,
       0%Z :: ext)
    /\ StronglySorted Z.lt (0%Z :: ext)
    /\ forall z, In z ext <->
                 (1 <= z <= n d - 2)%Z
                 /\ Rabs (mat_H d z (z - 1)%Z) <= prec d.
Proof.
  unfold find_zero_ind, for_loop.
  destruct (find_zero_ind_loop (prec d) (Z.to_nat (n d - 1 - 1)) 1 (mat_H d)
              [0%Z]) as [ext [E [Hs Hin]]].
  exists ext. split; [|split].
  - rewrite E. f_equal.
    apply functional_extensionality; intros r.
    apply functional_extensionality; intros c.
    now replace (1 + Z.of_nat (Z.to_nat (n d - 1 - 1)))%Z
      with (Z.max 1 (n d - 1)) by lia.
  - constructor; [exact Hs|]. apply Forall_forall. intros z Hz.
    apply Hin in Hz. lia.
  - intros z. rewrite Hin. split; intros [H1 H2]; (split; [lia | exact H2]).
Qed.

Lemma sweep_blocks_snoc l :
  forall a b d,
    sweep_blocks (l ++ [a; b]) d
    = sweep_block a (b - 1) (sweep_blocks (l ++ [a]) d).
Proof.
  induction l as [|x l IH]; intros a b d; [reflexivity|].
  destruct l as [|y l].
  - reflexivity.
  - change (sweep_blocks ((x :: y :: l) ++ [a; b]) d)
      with (sweep_blocks ((y :: l) ++ [a; b]) (sweep_block x (y - 1) d)).
    rewrite IH. reflexivity.
Qed.

(** The list of block starts that [compute] walks: its last block starts at
    [a], at most n - 2, and ends at n - 1. *)
Lemma compute_last_block nr mat s t_ d d' :
  (2 <= nr)%Z -> compute nr nr mat s t_ d = Ok d' ->
  exists a d1,
    (0 <= a <= nr - 2)%Z /\ prec d1 = prec d
    /\ ref_u d' = ref_u (sweep_block a (nr - 1) d1).
Proof.
  intros Hn H. unfold compute in H. rewrite Z.eqb_refl in H. cbn [negb] in H.
  replace (nr - 1 <? 0)%Z with false in H by (symmetry; apply Z.ltb_ge; lia).
  set (d0 := mk nr _ s t_ (ref_u d) (prec d) (computed d)) in H.
  destruct (find_zero_ind_spec d0) as [ext [E [Hs Hin]]].
  rewrite E in H.
  destruct (exists_last (l := 0%Z :: ext) ltac:(discriminate))
    as [front [a Hl]].
  rewrite Hl, <- app_assoc in H. cbn [app] in H.
  rewrite sweep_blocks_snoc in H.
  remember (sweep_blocks (front ++ [a]) _) as d1 eqn:Hd1 in H.
  remember (sweep_block a (nr - 1) d1) as d2 eqn:Hd2 in H.
  injection H as <-. cbn [ref_u]. subst d2.
  exists a, d1. split; [|split; [|reflexivity]].
  - assert (Ha : In a (0%Z :: ext))
      by (rewrite Hl; apply in_or_app; right; now left).
    destruct Ha as [<-|Ha]; [lia|]. apply Hin in Ha.
    cbn [n d0] in Ha. lia.
  - rewrite Hd1.
    match goal with
    | |- prec (sweep_blocks ?l ?x) = _ =>
        destruct (sweep_blocks_params l x) as [_ [-> _]]
    end.
    reflexivity.
Qed.

(** After [compute] on a matrix of order two or more, the third entry of
    the reflector n - 2 is zero. *)
Lemma compute_last_reflector nr mat s t_ d d' :
  (2 <= nr)%Z -> 0 <= prec d -> compute nr nr mat s t_ d = Ok d' ->
  ref_u d' 2%Z (nr - 2)%Z = 0.
Proof.
  intros Hn Hp H.
  destruct (compute_last_block nr mat s t_ d d' Hn H) as [a [d1 [Ha [P ->]]]].
  rewrite ref_u_sweep_block.
  destruct (block_ref_u (mkBlock a a (nr - 1 - a + 1) (nr - 1 - a + 1)) a d1)
    as [_ [_ [_ Hz]]].
  - now rewrite P.
  - cbn [rows]. lia.
  - cbn [rows] in Hz.
    replace (a + (nr - 1 - a + 1) - 2)%Z with (nr - 2)%Z in Hz by lia.
    apply Hz. lia.
Qed.

(** ** apply_QtY *)

Lemma put_in_range {A} (l : list A) (i : Z) (a : A) :
  (0 <= i < Z.of_nat (length l))%Z ->
  exists l', put l i a = Ok l' /\ length l' = length l.
Proof.
  intros H. unfold put.
  destruct (Z.ltb_spec i 0); [lia|].
  destruct (Z.leb_spec (Z.of_nat (length l)) i); [lia|]. cbn [orb].
  eexists. split; [reflexivity|].
  rewrite length_app, length_firstn. cbn [length]. rewrite length_skipn. lia.
Qed.

Lemma for_n_res_inv {S} (P : S -> Prop) (body : Z -> S -> result S) k :
  forall i s,
    P s ->
    (forall j x, (i <= j < i + Z.of_nat k)%Z -> P x ->
                 exists x', body j x = Ok x' /\ P x') ->
    exists s', for_n_res k i body s = Ok s' /\ P s'.
Proof.
  induction k as [|k IH]; intros i s Hs Hb; cbn [for_n_res]; [eauto|].
  destruct (Hb i s ltac:(lia) Hs) as [s1 [-> H1]]. cbn [bind].
  apply IH; [exact H1|]. intros j x Hj Hx. apply Hb; [lia | exact Hx].
Qed.

(** The vector form of [apply_PX] stays inside a vector that holds the
    entries off, off + 1 and, unless the third entry of the reflector is
    negligible, off + 2. *)
Lemma apply_PX_ptr_in_bounds y off ind d :
  (0 <= off)%Z -> (off + 1 < Z.of_nat (length y))%Z ->
  ((off + 2 < Z.of_nat (length y))%Z \/ Rabs (ref_u d 2%Z ind) <= prec d) ->
  exists y', apply_PX_ptr y off ind d = Ok y' /\ length y' = length y.
Proof.
  intros H0 H1 H2. unfold apply_PX_ptr.
  destruct (Rleb _ (prec d)); [eauto|].
  destruct (get_Ok y off) as [x0 ->]; [lia|].
  destruct (get_Ok y (off + 1)) as [x1 ->]; [lia|]. cbn [bind].
  set (u2 := ref_u d 2%Z ind) in *.
  assert (Ht : exists t2,
             (if Rleb (Rabs u2) (prec d) then Ok 0
              else x2 <- get y (off + 2) ;; Ok (x2 * u2)) = Ok t2).
  { destruct (Rleb (Rabs u2) (prec d)) eqn:E; [eauto|].
    apply Rleb_false in E. destruct H2 as [H2|H2]; [|lra].
    destruct (get_Ok y (off + 2)) as [x2 ->]; [lia|]. cbn [bind]. eauto. }
  destruct Ht as [t2 ->]. cbn [bind].
  destruct (put_in_range y off
              (x0 - (x0 * ref_u d 0%Z ind + x1 * ref_u d 1%Z ind + t2) * 2
                    * ref_u d 0%Z ind)) as [ya [-> La]]; [lia|].
  cbn [bind].
  destruct (put_in_range ya (off + 1)
              (x1 - (x0 * ref_u d 0%Z ind + x1 * ref_u d 1%Z ind + t2) * 2
                    * ref_u d 1%Z ind)) as [yb [-> Lb]]; [lia|].
  cbn [bind].
  destruct (Rltb (prec d) (Rabs u2)) eqn:E.
  - apply Rltb_true in E. destruct H2 as [H2|H2]; [|lra].
    destruct (get_Ok yb (off + 2)) as [x2 ->]; [lia|]. cbn [bind].
    destruct (put_in_range yb (off + 2)
                (x2 - (x0 * ref_u d 0%Z ind + x1 * ref_u d 1%Z ind + t2) * 2
                      * u2)) as [yc [-> Lc]]; [lia|].
    exists yc. split; [reflexivity | congruence].
  - exists yb. split; [reflexivity | congruence].
Qed.

(** X22.  After [compute] on a matrix of order n >= 1, [apply_QtY] on a
    vector of n entries reads and writes inside the vector: the reflector
    n - 2, the last it applies, has its third entry zero, and [y[n]] is not
    touched.  The vector keeps its size. *)
Theorem apply_QtY_in_bounds (nr : Z) (mat : Matrix) (s t_ : Scalar)
  (d d' : t) (y : list R) :
  (1 <= nr)%Z -> 0 <= prec d ->
  compute nr nr mat s t_ d = Ok d' ->
  Z.of_nat (length y) = nr ->
  exists y', apply_QtY y d' = Ok y' /\ length y' = length y.
Proof.
  intros Hn Hp H Hy.
  destruct (compute_square_ok nr mat s t_ d ltac:(lia)) as [d2 [E [N [P Cc]]]].
  rewrite H in E. injection E as <-.
  unfold apply_QtY. rewrite Cc, N. unfold for_loop_res.
  apply (for_n_res_inv (fun x => length x = length y)); [reflexivity|].
  intros j x Hj Hx.
  destruct (apply_PX_ptr_in_bounds x j j d') as [x' [E' L']]; try lia.
  - destruct (Z.eq_dec j (nr - 2)) as [->|Hne]; [right | left; lia].
    rewrite (compute_last_reflector nr mat s t_ d d') by (try assumption; lia).
    rewrite Rabs_R0, P. exact Hp.
  - exists x'. split; [exact E' | congruence].
Qed.

Lemma apply_QtY_in_bounds_witness :
  exists d' y', compute 2 2 H_two 2 2 new = Ok d'
                /\ apply_QtY [1; 2] d' = Ok y'.
Proof.
  destruct (compute_square_ok 2 H_two 2 2 new ltac:(lia)) as [d' [E _]].
  destruct (apply_QtY_in_bounds 2 H_two 2 2 new d' [1; 2]) as [y' [Ey _]];
    [lia | apply Rlt_le, prec_qr_bounds | exact E | reflexivity |].
  exists d', y'. now split.
Defined.

(** ** The reflectors that compute leaves *)

Lemma scaled_u_ext d d' c :
  (forall j, ref_u d' j c = ref_u d j c) ->
  unit_or_zero (scaled_u d 0 c) (scaled_u d 1 c) (scaled_u d 2 c) ->
  unit_or_zero (scaled_u d' 0 c) (scaled_u d' 1 c) (scaled_u d' 2 c).
Proof. intros H. unfold scaled_u. now rewrite !H. Qed.

Lemma sweep_block_good a b d lo :
  0 <= prec d -> (a < b)%Z ->
  (forall c, (lo <= c < a)%Z ->
     unit_or_zero (scaled_u d 0 c) (scaled_u d 1 c) (scaled_u d 2 c)) ->
  forall c, (lo <= c < b)%Z ->
    unit_or_zero (scaled_u (sweep_block a (b - 1) d) 0 c)
                 (scaled_u (sweep_block a (b - 1) d) 1 c)
                 (scaled_u (sweep_block a (b - 1) d) 2 c).
Proof.
  intros Hp Hab Hd c Hc.
  destruct (block_ref_u (mkBlock a a (b - 1 - a + 1) (b - 1 - a + 1)) a d)
    as [F [G _]]; [exact Hp | cbn [rows]; lia|].
  cbn [rows] in F, G.
  destruct (Z.lt_ge_cases c a) as [Hlt|Hge].
  - apply (scaled_u_ext d); [|apply Hd; lia].
    intros j. rewrite ref_u_sweep_block. apply F. lia.
  - eapply scaled_u_ext; [|apply (G c); lia].
    intros j. now rewrite ref_u_sweep_block.
Qed.

Lemma last_default_irrelevant (x : Z) l d d' :
  last (x :: l) d = last (x :: l) d'.
Proof.
  revert x. induction l as [|y l IH]; intros x; [reflexivity|].
  change (last (x :: y :: l) d) with (last (y :: l) d).
  change (last (x :: y :: l) d') with (last (y :: l) d'). apply IH.
Qed.

Lemma sweep_blocks_good l :
  forall a d lo,
    StronglySorted Z.lt (a :: l) -> 0 <= prec d ->
    (forall c, (lo <= c < a)%Z ->
       unit_or_zero (scaled_u d 0 c) (scaled_u d 1 c) (scaled_u d 2 c)) ->
    forall c, (lo <= c < last l a)%Z ->
      unit_or_zero (scaled_u (sweep_blocks (a :: l) d) 0 c)
                   (scaled_u (sweep_blocks (a :: l) d) 1 c)
                   (scaled_u (sweep_blocks (a :: l) d) 2 c).
Proof.
  induction l as [|b l IH]; intros a d lo Hs Hp Hd c Hc.
  - cbn [last] in Hc. cbn [sweep_blocks]. now apply Hd.
  - change (sweep_blocks (a :: b :: l) d)
      with (sweep_blocks (b :: l) (sweep_block a (b - 1) d)).
    inversion Hs as [|x y Hs' Hall]; subst.
    assert (Hab : (a < b)%Z) by (inversion Hall; assumption).
    apply (IH b (sweep_block a (b - 1) d) lo).
    + exact Hs'.
    + destruct (sweep_block_params a (b - 1) d) as [_ [-> _]]. exact Hp.
    + now apply sweep_block_good.
    + destruct l as [|z l]; [exact Hc|].
      change (last (b :: z :: l) a) with (last (z :: l) a) in Hc.
      now rewrite (last_default_irrelevant z l b a).
Qed.

Lemma StronglySorted_snoc l (x : Z) :
  StronglySorted Z.lt l -> (forall y, In y l -> (y < x)%Z) ->
  StronglySorted Z.lt (l ++ [x]).
Proof.
  induction 1 as [|a l Hs IH Ha]; intros Hx; cbn [app].
  - constructor; constructor.
  - constructor.
    + apply IH. intros y Hy. apply Hx. now right.
    + apply Forall_app. split; [exact Ha|].
      constructor; [apply Hx; now left | constructor].
Qed.

(** After [compute] on a matrix of order n >= 1 every column 0 .. n - 1 of
    [ref_u] holds a unit vector or zero. *)
Lemma compute_reflectors_good nr mat s t_ d d' :
  (1 <= nr)%Z -> 0 <= prec d -> compute nr nr mat s t_ d = Ok d' ->
  forall c, (0 <= c < nr)%Z ->
    unit_or_zero (scaled_u d' 0 c) (scaled_u d' 1 c) (scaled_u d' 2 c).
Proof.
  intros Hn Hp H c Hc. unfold compute in H.
  rewrite Z.eqb_refl in H. cbn [negb] in H.
  replace (nr - 1 <? 0)%Z with false in H by (symmetry; apply Z.ltb_ge; lia).
  set (d0 := mk nr _ s t_ (ref_u d) (prec d) (computed d)) in H.
  destruct (find_zero_ind_spec d0) as [ext [E [Hs Hin]]].
  rewrite E in H.
  remember (sweep_blocks ((0%Z :: ext) ++ [nr]) _) as d1 eqn:Hd1 in H.
  injection H as <-.
  apply (scaled_u_ext d1); [reflexivity|]. rewrite Hd1.
  change ((0%Z :: ext) ++ [nr]) with (0%Z :: (ext ++ [nr])).
  apply (sweep_blocks_good (ext ++ [nr]) 0 _ 0).
  - change (0%Z :: ext ++ [nr]) with ((0%Z :: ext) ++ [nr]).
    apply StronglySorted_snoc; [exact Hs|].
    intros y [<-|Hy]; [lia|]. apply Hin in Hy. cbn [n d0] in Hy. lia.
  - exact Hp.
  - intros; lia.
  - rewrite last_last. exact Hc.
Qed.

(** ** apply_YQ *)

(** A reflection of three (two) columns leaves the inner product of any
    two rows it covers as it is. *)
Lemma reflect_cols_gram u0 u1 u2 c0 lo hi m M r r' :
  unit_or_zero u0 u1 u2 -> (0 <= c0)%Z -> (c0 + 1 < m)%Z ->
  ((m <= c0 + 2)%Z -> u2 = 0) ->
  in_range lo hi r = true -> in_range lo hi r' = true ->
  dot m (reflect_cols u0 u1 u2 c0 lo hi M r)
        (reflect_cols u0 u1 u2 c0 lo hi M r')
  = dot m (M r) (M r').
Proof.
  intros [[-> [-> ->]]|Hu] H0 H1 H2 Hr Hr'.
  { now rewrite reflect_cols_null. }
  apply Rminus_diag_uniq. unfold dot. rewrite <- sumZ_minus.
  set (a0 := M r c0). set (a1 := M r (c0 + 1)%Z). set (a2 := M r (c0 + 2)%Z).
  set (b0 := M r' c0). set (b1 := M r' (c0 + 1)%Z).
  set (b2 := M r' (c0 + 2)%Z).
  set (ta := u0 * a0 + u1 * a1 + u2 * a2).
  set (tb := u0 * b0 + u1 * b1 + u2 * b2).
  rewrite (sumZ_three m c0); try assumption.
  - unfold reflect_cols. rewrite Hr, Hr'. rewrite !Z.eqb_refl.
    replace (c0 + 1 =? c0)%Z with false by (symmetry; apply Z.eqb_neq; lia).
    replace (c0 + 2 =? c0)%Z with false by (symmetry; apply Z.eqb_neq; lia).
    replace (c0 + 2 =? c0 + 1)%Z with false
      by (symmetry; apply Z.eqb_neq; lia).
    cbv zeta. fold a0 a1 a2 b0 b1 b2 ta tb.
    replace ((a0 - ta * u0) * (b0 - tb * u0) - a0 * b0
             + ((a1 - ta * u1) * (b1 - tb * u1) - a1 * b1)
             + ((a2 - ta * u2) * (b2 - tb * u2) - a2 * b2))
      with (ta * tb * (u0 * u0 + u1 * u1 + u2 * u2) - 2 * ta * tb)
      by (unfold ta, tb; ring).
    rewrite Hu. ring.
  - intros c Hc N0 N1 N2. unfold reflect_cols. rewrite Hr, Hr'. cbv zeta.
    replace (c =? c0)%Z with false by (symmetry; apply Z.eqb_neq; lia).
    replace (c =? c0 + 1)%Z with false by (symmetry; apply Z.eqb_neq; lia).
    replace (c =? c0 + 2)%Z with false by (symmetry; apply Z.eqb_neq; lia).
    ring.
  - intros Hm. rewrite (H2 Hm). unfold reflect_cols. rewrite Hr, Hr'.
    cbv zeta.
    replace (c0 + 2 =? c0)%Z with false by (symmetry; apply Z.eqb_neq; lia).
    replace (c0 + 2 =? c0 + 1)%Z with false
      by (symmetry; apply Z.eqb_neq; lia).
    rewrite Z.eqb_refl. ring.
Qed.

Lemma apply_XP_on_closed Y X ind d :
  0 <= prec d < 2 ->
  unit_or_zero (scaled_u d 0 ind) (scaled_u d 1 ind) (scaled_u d 2 ind) ->
  apply_XP_on Y X ind d
  = reflect_cols (scaled_u d 0 ind) (scaled_u d 1 ind)
                 (if (cols X =? 2)%Z then 0 else scaled_u d 2 ind)
                 (col0 X) (row0 X) (row0 X + Z.max 0 (rows X)) Y.
Proof.
  intros Hp Hu. unfold apply_XP_on.
  rewrite apply_XP_unit by (rewrite ?scaled_u_set_mat_H; assumption).
  reflexivity.
Qed.

(** X23.  After [compute] on a matrix of order n >= 2, [apply_YQ] on a
    matrix of n columns forms its blocks inside the matrix and multiplies
    it by an orthogonal matrix: the inner product of any two rows is what
    it was. *)
Theorem apply_YQ_isometry (nr : Z) (mat : Matrix) (s t_ : Scalar)
  (d d' : t) (yrows : Z) (Y : Matrix) :
  (2 <= nr)%Z -> 0 <= prec d < 2 -> (0 <= yrows)%Z ->
  compute nr nr mat s t_ d = Ok d' ->
  exists Y',
    apply_YQ yrows nr Y d' = Ok Y'
    /\ forall r r', (0 <= r < yrows)%Z -> (0 <= r' < yrows)%Z ->
         dot nr (Y' r) (Y' r') = dot nr (Y r) (Y r').
Proof.
  intros Hn Hp Hy H.
  destruct (compute_square_ok nr mat s t_ d ltac:(lia)) as [d2 [E [N [P Cc]]]].
  rewrite H in E. injection E as <-.
  pose proof (compute_reflectors_good nr mat s t_ d d' ltac:(lia)
                ltac:(lra) H) as Hgood.
  pose proof (compute_last_reflector nr mat s t_ d d' Hn ltac:(lra) H)
    as Hlast.
  unfold apply_YQ. rewrite Cc, N. unfold for_loop_res.
  destruct (for_n_res_inv
    (fun Yc : Matrix =>
       forall r r', (0 <= r < yrows)%Z -> (0 <= r' < yrows)%Z ->
         dot nr (Yc r) (Yc r') = dot nr (Y r) (Y r'))
    (fun i Yc =>
       if block_in yrows nr (mkBlock 0 i yrows 3)
       then Ok (apply_XP_on Yc (mkBlock 0 i yrows 3) i d')
       else Fail OutOfRange)
    (Z.to_nat (nr - 2 - 0)) 0 Y) as [Y1 [E1 G1]].
  - reflexivity.
  - intros j Yc Hj HYc.
    replace (block_in yrows nr (mkBlock 0 j yrows 3)) with true.
    2:{ symmetry. unfold block_in. cbn [row0 col0 rows cols].
        repeat (apply andb_true_iff; split); apply Z.leb_le; lia. }
    eexists. split; [reflexivity|]. intros r r' Hr Hr'.
    rewrite apply_XP_on_closed by (rewrite ?P; try apply Hgood; try lia; lra).
    cbn [row0 col0 rows cols]. change (3 =? 2)%Z with false. cbv iota.
    rewrite reflect_cols_gram;
      [now apply HYc | apply Hgood; lia | lia | lia | intros; lia
       | apply in_range_true; lia | apply in_range_true; lia].
  - rewrite E1. cbn [bind].
    replace (block_in yrows nr (mkBlock 0 (nr - 2) yrows 2)) with true.
    2:{ symmetry. unfold block_in. cbn [row0 col0 rows cols].
        repeat (apply andb_true_iff; split); apply Z.leb_le; lia. }
    eexists. split; [reflexivity|]. intros r r' Hr Hr'.
    rewrite apply_XP_on_closed by (rewrite ?P; try apply Hgood; try lia; lra).
    cbn [row0 col0 rows cols]. change (2 =? 2)%Z with true. cbv iota.
    rewrite reflect_cols_gram;
      [now apply G1 | | lia | lia | reflexivity
       | apply in_range_true; lia | apply in_range_true; lia].
    apply (used_unit_or_zero d' (nr - 2) true); [apply Hgood; lia|].
    intros _. unfold scaled_u. rewrite Hlast. ring.
Qed.

Lemma apply_YQ_isometry_witness :
  exists d' Y',
    compute 2 2 H_two 2 2 new = Ok d'
    /\ apply_YQ 2 2 Identity d' = Ok Y'
    /\ forall r r', (0 <= r < 2)%Z -> (0 <= r' < 2)%Z ->
         dot 2 (Y' r) (Y' r') = dot 2 (Identity r) (Identity r').
Proof.
  destruct (compute_square_ok 2 H_two 2 2 new ltac:(lia)) as [d' [E _]].
  destruct (apply_YQ_isometry 2 H_two 2 2 new d' 2 Identity) as [Y' [EY G]];
    [lia | change (prec new) with prec_qr; pose proof prec_qr_bounds; lra
     | lia | exact E |].
  exists d', Y'. now repeat split.
Defined.

(** X24.  On a decomposition of a matrix of order 1, [apply_YQ] asks for
    the block of two columns that starts at column n - 2 = -1, outside
    every matrix. *)
Theorem apply_YQ_order_one (mat : Matrix) (s t_ : Scalar) (d d' : t)
  (yrows ycols : Z) (Y : Matrix) :
  compute 1 1 mat s t_ d = Ok d' ->
  apply_YQ yrows ycols Y d' = Fail OutOfRange.
Proof.
  intros H.
  destruct (compute_square_ok 1 mat s t_ d ltac:(lia)) as [d2 [E [N [_ Cc]]]].
  rewrite H in E. injection E as <-.
  unfold apply_YQ. rewrite Cc, N. unfold for_loop_res.
  cbn [Z.sub Z.add Z.opp Z.pos_sub Z.to_nat for_n_res bind].
  unfold block_in. cbn [row0 col0 rows cols].
  change (0 <=? -1)%Z with false. now rewrite !andb_false_r.
Qed.

Lemma apply_YQ_order_one_witness :
  exists d', compute 1 1 Identity 0 0 new = Ok d'
             /\ apply_YQ 1 1 Identity d' = Fail OutOfRange.
Proof.
  destruct (compute_square_ok 1 Identity 0 0 new ltac:(lia)) as [d' [E _]].
  exists d'. split; [exact E|].
  exact (apply_YQ_order_one Identity 0 0 new d' 1 1 Identity E).
Defined.

(** ** What a sweep leaves of [mat_H] *)

Lemma apply_PX_frame X ind d r c :
  (r < row0 X \/ row0 X + (if (rows X =? 2)%Z then 2 else 3) <= r
   \/ c < col0 X \/ col0 X + Z.max 0 (cols X) <= c)%Z ->
  mat_H (apply_PX X ind d) r c = mat_H d r c.
Proof.
  intros H. rewrite apply_PX_closed.
  destruct (skipped d ind); [reflexivity|]. cbn [mat_H set_mat_H].
  unfold reflect_rows.
  destruct (in_range (col0 X) (col0 X + Z.max 0 (cols X)) c) eqn:E;
    [|reflexivity].
  apply in_range_iff in E. cbv zeta.
  destruct (rows X =? 2)%Z.
  - destruct (Z.eqb_spec r (row0 X)); [lia|].
    destruct (Z.eqb_spec r (row0 X + 1)); [lia|].
    destruct (Z.eqb_spec r (row0 X + 2)); [ring | reflexivity].
  - destruct (Z.eqb_spec r (row0 X)); [lia|].
    destruct (Z.eqb_spec r (row0 X + 1)); [lia|].
    destruct (Z.eqb_spec r (row0 X + 2)); [lia | reflexivity].
Qed.

Lemma apply_XP_frame X ind d r c :
  (c < col0 X \/ col0 X + (if (cols X =? 2)%Z then 2 else 3) <= c
   \/ r < row0 X \/ row0 X + Z.max 0 (rows X) <= r)%Z ->
  mat_H (apply_XP X ind d) r c = mat_H d r c.
Proof.
  intros H. rewrite apply_XP_closed.
  destruct (skipped d ind); [reflexivity|]. cbn [mat_H set_mat_H].
  unfold reflect_cols.
  destruct (in_range (row0 X) (row0 X + Z.max 0 (rows X)) r) eqn:E;
    [|reflexivity].
  apply in_range_iff in E. cbv zeta.
  destruct (cols X =? 2)%Z.
  - destruct (Z.eqb_spec c (col0 X)); [lia|].
    destruct (Z.eqb_spec c (col0 X + 1)); [lia|].
    destruct (Z.eqb_spec c (col0 X + 2)); [ring | reflexivity].
  - destruct (Z.eqb_spec c (col0 X)); [lia|].
    destruct (Z.eqb_spec c (col0 X + 1)); [lia|].
    destruct (Z.eqb_spec c (col0 X + 2)); [lia | reflexivity].
Qed.

(** A loop each of whose passes, for the indices it runs over, leaves the
    entry (r, c) of [mat_H] as it is. *)
Lemma for_n_frame (body : Z -> t -> t) r c k :
  forall i d,
    (forall j x, (i <= j < i + Z.of_nat k)%Z ->
                 mat_H (body j x) r c = mat_H x r c) ->
    mat_H (for_n k i body d) r c = mat_H d r c.
Proof.
  induction k as [|k IH]; intros i d Hb; cbn [for_n]; [reflexivity|].
  rewrite IH by (intros j x Hj; apply Hb; lia).
  apply Hb. lia.
Qed.

(** The sweep of the block from [a] to [a + nrow - 1] touches no entry left
    of column [a] and none below row [a + nrow - 1]. *)
Lemma block_frame a nrow d r c :
  (1 <= nrow)%Z -> (c < a \/ a + nrow <= r)%Z ->
  mat_H (compute_reflectors_from_block (mkBlock a a nrow nrow) a d) r c
  = mat_H d r c.
Proof.
  intros Hn H. unfold compute_reflectors_from_block.
  change (rows (mkBlock a a nrow nrow)) with nrow.
  change (cols (mkBlock a a nrow nrow)) with nrow.
  destruct (Z.eqb_spec nrow 1); [now rewrite mat_H_compute_reflector|].
  destruct (Z.eqb_spec nrow 2); [now rewrite !mat_H_compute_reflector|].
  cbv zeta.
  rewrite apply_XP_frame
    by (cbn [block row0 col0 rows cols Z.eqb Pos.eqb]; lia).
  rewrite apply_PX_frame
    by (cbn [block row0 col0 rows cols Z.eqb Pos.eqb]; lia).
  rewrite !mat_H_compute_reflector.
  unfold for_loop. rewrite for_n_frame.
  - rewrite apply_XP_frame
      by (cbn [block row0 col0 rows cols Z.eqb Pos.eqb]; lia).
    rewrite apply_PX_frame
      by (cbn [block row0 col0 rows cols Z.eqb Pos.eqb]; lia).
    now rewrite mat_H_compute_reflector.
  - intros j x Hj. unfold chase_step, compute_reflector_at.
    rewrite apply_XP_frame
      by (cbn [block row0 col0 rows cols Z.eqb Pos.eqb]; lia).
    rewrite apply_PX_frame
      by (cbn [block row0 col0 rows cols Z.eqb Pos.eqb]; lia).
    now rewrite mat_H_compute_reflector.
Qed.

(** The block from [a] to [b], swept and applied to the right and above,
    touches no entry left of column [a] and none below row [b]. *)
Lemma sweep_block_frame a b d r c :
  (a <= b)%Z -> (c < a \/ b < r)%Z ->
  mat_H (sweep_block a b d) r c = mat_H d r c.
Proof.
  intros Hab H. unfold sweep_block.
  set (d1 := compute_reflectors_from_block _ a d).
  assert (H1 : mat_H d1 r c = mat_H d r c)
    by (unfold d1; apply block_frame; lia).
  set (d2 := if ((b <? n d1 - 1) && (2 <=? b - a))%Z%bool then _ else d1).
  assert (H2 : mat_H d2 r c = mat_H d1 r c).
  { unfold d2. destruct ((b <? n d1 - 1) && (2 <=? b - a))%Z%bool;
      [|reflexivity].
    unfold for_loop. apply for_n_frame. intros j x Hj.
    apply apply_PX_frame. cbn [row0 col0 rows cols].
    destruct (Z.eqb_spec (Z.min 3 (b - j + 1)) 2); lia. }
  destruct ((0 <? a) && (2 <=? b - a))%Z%bool; [|congruence].
  rewrite <- H1, <- H2. unfold for_loop. apply for_n_frame. intros j x Hj.
  apply apply_XP_frame. cbn [row0 col0 rows cols].
  destruct (Z.eqb_spec (Z.min 3 (b - j + 1)) 2); lia.
Qed.

Lemma sweep_blocks_frame_left l :
  forall a d r c,
    StronglySorted Z.lt (a :: l) -> (c < a)%Z ->
    mat_H (sweep_blocks (a :: l) d) r c = mat_H d r c.
Proof.
  induction l as [|b l IH]; intros a d r c Hs Hc; [reflexivity|].
  change (sweep_blocks (a :: b :: l) d)
    with (sweep_blocks (b :: l) (sweep_block a (b - 1) d)).
  inversion Hs as [|x y Hs' Hall]; subst.
  assert (Hab : (a < b)%Z) by (inversion Hall; assumption).
  rewrite IH by (try assumption; lia).
  apply sweep_block_frame; lia.
Qed.

(** Across a point [z] of the list of block starts no block reaches: the
    entries in the rows from [z] on and the columns before [z] are left as
    they are. *)
Lemma sweep_blocks_frame l :
  forall a d r c z,
    StronglySorted Z.lt (a :: l) -> In z (a :: l) -> (c < z <= r)%Z ->
    mat_H (sweep_blocks (a :: l) d) r c = mat_H d r c.
Proof.
  induction l as [|b l IH]; intros a d r c z Hs Hz Hc; [reflexivity|].
  destruct Hz as [<-|Hz].
  - apply sweep_blocks_frame_left; [exact Hs | lia].
  - change (sweep_blocks (a :: b :: l) d)
      with (sweep_blocks (b :: l) (sweep_block a (b - 1) d)).
    inversion Hs as [|x y Hs' Hall]; subst.
    assert (Hab : (a < b)%Z) by (inversion Hall; assumption).
    assert (Hbz : (b <= z)%Z).
    { destruct Hz as [<-|Hz]; [lia|].
      inversion Hs' as [|x y _ Hall']; subst.
      rewrite Forall_forall in Hall'. specialize (Hall' z Hz). lia. }
    rewrite (IH b _ r c z) by assumption.
    apply sweep_block_frame; lia.
Qed.

(** X25.  Where [compute] finds a negligible sub-diagonal entry, at row z
    with 1 <= z <= n - 2, the matrix is split for good: in what
    [matrix_QtHQ] returns every entry in the rows from z on and the columns
    before z is zero, the sweeps of the blocks do not fill them in. *)
Theorem compute_keeps_deflation (nr : Z) (mat : Matrix) (s t_ : Scalar)
  (d d' : t) (z : Z) :
  compute nr nr mat s t_ d = Ok d' ->
  (1 <= z <= nr - 2)%Z -> Rabs (mat z (z - 1)%Z) <= prec d ->
  forall r c, (c < z <= r)%Z -> mat_H d' r c = 0.
Proof.
  intros H Hz Hsmall r c Hrc. unfold compute in H.
  rewrite Z.eqb_refl in H. cbn [negb] in H.
  replace (nr - 1 <? 0)%Z with false in H by (symmetry; apply Z.ltb_ge; lia).
  set (d0 := mk nr _ s t_ (ref_u d) (prec d) (computed d)) in H.
  destruct (find_zero_ind_spec d0) as [ext [E [Hs Hin]]].
  rewrite E in H.
  remember (sweep_blocks ((0%Z :: ext) ++ [nr]) _) as d1 eqn:Hd1 in H.
  injection H as <-. cbn [mat_H]. rewrite Hd1.
  assert (Hm : mat_H d0 z (z - 1)%Z = mat z (z - 1)%Z).
  { cbn [mat_H d0].
    now replace (z <=? z - 1 + 1)%Z with true by (symmetry; apply Z.leb_le; lia). }
  change ((0%Z :: ext) ++ [nr]) with (0%Z :: (ext ++ [nr])).
  rewrite (sweep_blocks_frame (ext ++ [nr]) 0 _ r c z).
  - cbn [mat_H set_mat_H].
    destruct (Z.eq_dec r (c + 1)) as [Hr|Hr].
    + assert (r = z) as -> by lia. assert (c = (z - 1)%Z) as -> by lia.
      rewrite Z.eqb_refl, in_range_true by (cbn [n d0]; lia).
      rewrite Hm. cbn [prec d0]. cbn [andb].
      now replace (Rleb (Rabs (mat z (z - 1)%Z)) (prec d)) with true
        by (symmetry; now apply Rleb_true).
    + assert (Hz0 : mat_H d0 r c = 0).
      { cbn [mat_H d0].
        now replace (r <=? c + 1)%Z with false
          by (symmetry; apply Z.leb_gt; lia). }
      rewrite Hz0. now destruct (_ && _ && _)%bool.
  - change (0%Z :: ext ++ [nr]) with ((0%Z :: ext) ++ [nr]).
    apply StronglySorted_snoc; [exact Hs|].
    intros y [<-|Hy]; [lia|]. apply Hin in Hy. cbn [n d0] in Hy. lia.
  - right. apply in_or_app. left. apply Hin. cbn [n d0].
    split; [lia|]. now rewrite Hm.
  - exact Hrc.
Qed.

Lemma compute_keeps_deflation_witness :
  exists d', compute 3 3 Identity 0 0 new = Ok d'
             /\ forall r c, (c < 1 <= r)%Z -> mat_H d' r c = 0.
Proof.
  destruct (compute_square_ok 3 Identity 0 0 new ltac:(lia)) as [d' [E _]].
  exists d'. split; [exact E|].
  apply (compute_keeps_deflation 3 Identity 0 0 new d' 1 E); [lia|].
  unfold Identity. cbn. rewrite Rabs_R0. apply Rlt_le, prec_qr_bounds.
Defined.

(** ** The reflector of a proper vector *)

Lemma hh_reflection eps x1 x2 x3 :
  proper eps x1 x2 x3 ->
  let tmp := hh_u eps x1 x2 x3 0 * x1 + hh_u eps x1 x2 x3 1 * x2
             + hh_u eps x1 x2 x3 2 * x3 in
  2 * tmp * hh_u eps x1 x2 x3 0 = hh_x1 x1 x2 x3
  /\ 2 * tmp * hh_u eps x1 x2 x3 1 = x2
  /\ 2 * tmp * hh_u eps x1 x2 x3 2 = x3.
Proof.
  intros [Hx He]. unfold hh_u. zbool.
  replace (Rleb (hh_norm x1 x2 x3) eps) with false
    by (symmetry; apply Rleb_false; exact He).
  pose proof (hh_norm_pos x1 x2 x3 Hx) as HDpos.
  set (D := hh_norm x1 x2 x3) in *.
  assert (HD : D * D = hh_x1 x1 x2 x3 * hh_x1 x1 x2 x3
                       + (x2 * x2 + x3 * x3)).
  { unfold D, hh_norm. apply sqrt_sqrt. nra. }
  set (N := sqrt (x1 * x1 + (x2 * x2 + x3 * x3))).
  assert (HN : N * N = x1 * x1 + (x2 * x2 + x3 * x3))
    by (unfold N; apply sqrt_sqrt; nra).
  assert (Hy : hh_x1 x1 x2 x3 = x1 + N \/ hh_x1 x1 x2 x3 = x1 - N).
  { unfold hh_x1. fold N. unfold b2r, Rltb.
    destruct (Rlt_dec x1 0); destruct (Rlt_dec 0 x1);
      [lra | right; ring | left; ring | lra]. }
  set (y := hh_x1 x1 x2 x3) in *.
  assert (HDne : D <> 0) by lra.
  assert (Key : D * D = 2 * (y * x1 + x2 * x2 + x3 * x3)).
  { rewrite HD. destruct Hy as [-> | ->]; nra. }
  assert (G : forall w,
    2 * (y / D * x1 + x2 / D * x2 + x3 / D * x3) * (w / D) = w).
  { intros w.
    replace (2 * (y / D * x1 + x2 / D * x2 + x3 / D * x3) * (w / D))
      with (w * (2 * (y * x1 + x2 * x2 + x3 * x3)) / (D * D))
      by (field; assumption).
    rewrite <- Key. field. assumption. }
  cbv zeta. repeat split; apply G.
Qed.

(** X26.  For a vector (x1, x2, x3) with x1 nonzero and a reflector norm
    above the threshold, the reflector u that [compute_reflector] stores is
    the Householder reflector of the vector: I - 2 u u^T maps it to
    (-sign(x1) ||x||, 0, 0). *)
Theorem compute_reflector_annihilates (x1 x2 x3 : Scalar) (ind : Z) (d : t) :
  proper (prec d) x1 x2 x3 ->
  let d' := compute_reflector x1 x2 x3 ind d in
  let tmp := ref_u d' 0%Z ind * x1 + ref_u d' 1%Z ind * x2
             + ref_u d' 2%Z ind * x3 in
  x1 - 2 * tmp * ref_u d' 0%Z ind
  = (if Rltb x1 0 then 1 else -1) * sqrt (x1 * x1 + (x2 * x2 + x3 * x3))
  /\ x2 - 2 * tmp * ref_u d' 1%Z ind = 0
  /\ x3 - 2 * tmp * ref_u d' 2%Z ind = 0.
Proof.
  intros Hpr d' tmp. unfold tmp, d'. rewrite !ref_u_compute_reflector.
  rewrite Z.eqb_refl.
  change (in_range 0 3 0) with true. change (in_range 0 3 1) with true.
  change (in_range 0 3 2) with true. cbn [andb].
  destruct (hh_reflection (prec d) x1 x2 x3 Hpr) as [H0 [H1 H2]].
  cbv zeta in H0, H1, H2. rewrite H0, H1, H2.
  split; [|split; ring].
  destruct Hpr as [Hx _]. unfold hh_x1, b2r, Rltb.
  destruct (Rlt_dec x1 0); destruct (Rlt_dec 0 x1); try lra; ring.
Qed.

Lemma compute_reflector_annihilates_witness :
  let d' := compute_reflector 9 18 18 0 new in
  let tmp := ref_u d' 0%Z 0%Z * 9 + ref_u d' 1%Z 0%Z * 18
             + ref_u d' 2%Z 0%Z * 18 in
  9 - 2 * tmp * ref_u d' 0%Z 0%Z
  = (if Rltb 9 0 then 1 else -1) * sqrt (9 * 9 + (18 * 18 + 18 * 18))
  /\ 18 - 2 * tmp * ref_u d' 1%Z 0%Z = 0
  /\ 18 - 2 * tmp * ref_u d' 2%Z 0%Z = 0.
Proof.
  apply (compute_reflector_annihilates 9 18 18 0 new).
  apply proper_of_second; [apply prec_qr_bounds | lra | lra].
Defined.

End DoubleShiftQRMore.

(** * The sweeps of restart *)

(** From M = Q R with R upper triangular: where M has a band of [b]
    sub-diagonals whose last has no zero in the columns before [K], the
    diagonal of R has no zero there and Q has the same band. *)
Lemma qr_band (m b K : Z) (M Q R : Matrix) :
  (1 <= b)%Z -> upper_triangular m R -> meq m (mmul m Q R) M ->
  (forall r j, (0 <= j)%Z -> (j + b < r < m)%Z -> M r j = 0) ->
  (forall j, (0 <= j < K)%Z -> (j + b < m)%Z -> M (j + b)%Z j <> 0) ->
  forall j, (0 <= j < K)%Z -> (j + b < m)%Z ->
    R j j <> 0 /\ forall r, (j + b < r < m)%Z -> Q r j = 0.
Proof.
  intros Hb HR HM Hz Hnz.
  assert (G : forall (k : nat) j, (0 <= j < K)%Z -> (Z.to_nat j < k)%nat ->
            (j + b < m)%Z ->
            R j j <> 0 /\ forall r, (j + b < r < m)%Z -> Q r j = 0).
  { induction k as [|k IH]; intros j Hj Hk Hjm; [lia|].
    assert (E : forall r, (j + b <= r < m)%Z -> M r j = Q r j * R j j).
    { intros r Hr. rewrite <- (HM r j) by lia. unfold mmul.
      apply (sumZ_single m j (fun l => Q r l * R l j)); [lia|].
      intros l Hl Hne. destruct (Z_lt_le_dec l j) as [Hlt|Hge].
      - destruct (IH l) as [_ HQ]; try lia.
        rewrite HQ by lia. ring.
      - rewrite (HR l j) by lia. ring. }
    split.
    - intros H0. apply (Hnz j Hj Hjm). rewrite E by lia. rewrite H0. ring.
    - intros r Hr.
      assert (Hd : R j j <> 0).
      { intros H0. apply (Hnz j Hj Hjm). rewrite E by lia. rewrite H0. ring. }
      pose proof (E r ltac:(lia)) as Er. rewrite (Hz r j) in Er by lia.
      symmetry in Er. apply Rmult_integral in Er. destruct Er; [assumption|].
      contradiction. }
  intros j Hj Hjm. apply (G (S (Z.to_nat j))); auto.
Qed.

(** Off the diagonal [diag_add] changes nothing. *)
Lemma diag_add_off n M x r c : r <> c -> diag_add n M x r c = M r c.
Proof.
  intros H. unfold diag_add.
  replace (r =? c)%Z with false by (symmetry; apply Z.eqb_neq; exact H).
  reflexivity.
Qed.

(** H (H - s I) + t I has two sub-diagonals when H is upper Hessenberg, and
    the second is the product of neighbouring sub-diagonal entries of H. *)
Lemma shifted_square_band m H s t :
  hessenberg m H ->
  (forall r j, (0 <= j)%Z -> (j + 2 < r < m)%Z ->
               shifted_square m H s t r j = 0)
  /\ (forall j, (0 <= j)%Z -> (j + 2 < m)%Z ->
        shifted_square m H s t (j + 2)%Z j
        = H (j + 2)%Z (j + 1)%Z * H (j + 1)%Z j).
Proof.
  intros HH. split.
  - intros r j Hj Hr. unfold shifted_square.
    rewrite diag_add_off by lia. unfold mmul. apply sumZ_zero.
    intros l Hl. destruct (Z_lt_le_dec (l + 1) r) as [Hlt|Hge].
    + rewrite (HH r l) by lia. ring.
    + rewrite diag_add_off by lia. rewrite (HH l j) by lia. ring.
  - intros j Hj Hjm. unfold shifted_square.
    rewrite diag_add_off by lia. unfold mmul.
    rewrite (sumZ_single m (j + 1)%Z).
    + rewrite diag_add_off by lia. reflexivity.
    + lia.
    + intros l Hl Hne. destruct (Z_lt_le_dec l (j + 1)) as [Hlt|Hge].
      * rewrite (HH (j + 2)%Z l) by lia. ring.
      * rewrite diag_add_off by lia. rewrite (HH l j) by lia. ring.
Qed.

(** With Q the orthogonal factor of H^2 - s H + t I = Q R, the similar
    matrix N = Q^T H Q satisfies N R = R H. *)
Lemma similarity_intertwines m H s t Q R :
  orthogonal m Q -> meq m (mmul m Q R) (shifted_square m H s t) ->
  meq m (mmul m (similarity m Q H) R) (mmul m R H).
Proof.
  intros [HQ _] HM. unfold similarity.
  rewrite !mmul_assoc.
  eapply meq_trans.
  { apply mmul_meq; [apply meq_refl|].
    eapply meq_trans.
    { apply mmul_meq; [apply meq_refl | exact HM]. }
    eapply meq_trans.
    { apply meq_sym, DoubleShiftQRFacts.shifted_square_commutes. }
    apply mmul_meq; [apply meq_sym, HM | apply meq_refl]. }
  rewrite (mmul_assoc m Q R H), <- (mmul_assoc m (transpose Q) Q).
  eapply meq_trans.
  { apply mmul_meq; [exact HQ | apply meq_refl]. }
  apply mmul_identity_l.
Qed.

(** The sweep for a conjugate pair keeps the upper-Hessenberg form of an
    unreduced H, whatever QR factorization of H^2 - s H + t I it uses. *)
Lemma similarity_hessenberg m H s t Q :
  hessenberg m H -> unreduced (m - 1) H ->
  qr_factor m (shifted_square m H s t) Q ->
  hessenberg m (similarity m Q H).
Proof.
  intros HH Hu [HQ [R [HR HM]]].
  destruct (shifted_square_band m H s t HH) as [Hz Hb].
  assert (Hd : forall j, (0 <= j < m)%Z -> (j + 2 < m)%Z -> R j j <> 0).
  { intros j Hj Hjm.
    apply (qr_band m 2 m (shifted_square m H s t) Q R); auto; try lia.
    intros j' Hj' Hjm'. rewrite Hb by lia.
    apply Rmult_integral_contrapositive_currified;
      [replace (j' + 2)%Z with (j' + 1 + 1)%Z by lia|]; apply Hu; lia. }
  pose proof (similarity_intertwines m H s t Q R HQ HM) as Hc.
  set (N := similarity m Q H) in *.
  assert (G : forall (k : nat) j, (0 <= j)%Z -> (Z.to_nat j < k)%nat ->
            forall i, (j + 1 < i < m)%Z -> N i j = 0).
  { induction k as [|k IH]; intros j Hj Hk i Hi; [lia|].
    pose proof (Hc i j ltac:(lia) ltac:(lia)) as E. unfold mmul in E.
    rewrite (sumZ_single m j (fun l => N i l * R l j)) in E.
    2: lia.
    2:{ intros l Hl Hne. destruct (Z_lt_le_dec l j) as [Hlt|Hge].
        - rewrite (IH l) by lia. ring.
        - rewrite (HR l j) by lia. ring. }
    rewrite (sumZ_zero m (fun l => R i l * H l j)) in E.
    2:{ intros l Hl. destruct (Z_lt_le_dec l i) as [Hlt|Hge].
        - rewrite (HR i l) by lia. ring.
        - rewrite (HH l j) by lia. ring. }
    apply Rmult_integral in E. destruct E as [E|E]; [exact E|].
    exfalso. apply (Hd j); [lia|lia|exact E]. }
  intros r c Hc0 Hr Hrc. apply (G (S (Z.to_nat c))); lia.
Qed.

(** The sweep for a real shift: R Q is upper Hessenberg when H - mu I = Q R
    is, with no zero on its sub-diagonal before the last column but one. *)
Lemma rq_hessenberg m M Q R :
  hessenberg m M -> unreduced (m - 2) M ->
  upper_triangular m R -> meq m (mmul m Q R) M ->
  hessenberg m (mmul m R Q).
Proof.
  intros HM Hu HR HQR r c Hc Hr Hrc. unfold mmul. apply sumZ_zero.
  intros l Hl. destruct (Z_lt_le_dec l r) as [Hlt|Hge].
  - rewrite (HR r l) by lia. ring.
  - destruct (qr_band m 1 (m - 2) M Q R ltac:(lia) HR HQR) with (j := c)
      as [_ HQ]; try lia.
    + intros r' j Hj Hr'. apply HM; lia.
    + intros j Hj _. apply Hu. lia.
    + rewrite HQ by lia. ring.
Qed.

Lemma diag_add_undo n H x :
  meq n H (madd (diag_add n H (- x)) (mscal x Identity)).
Proof.
  intros r c Hr Hc. unfold diag_add, madd, mscal, Identity.
  rewrite in_range_true by lia. destruct (r =? c)%Z; cbn [andb]; ring.
Qed.

(** With H - mu I = Q R, the matrix R Q + mu I is Q^T H Q. *)
Lemma rq_similarity m H x Q R RQ :
  orthogonal m Q -> meq m (mmul m Q R) (diag_add m H (- x)) ->
  meq m RQ (mmul m R Q) ->
  meq m (diag_add m RQ x) (similarity m Q H).
Proof.
  intros [HQ _] HM HRQ.
  eapply meq_trans; [apply DoubleShiftQRFacts.diag_add_madd|].
  apply meq_sym. unfold similarity.
  eapply meq_trans.
  { apply mmul_meq; [apply meq_refl|].
    apply mmul_meq; [apply (diag_add_undo m H x) | apply meq_refl]. }
  rewrite DoubleShiftQRFacts.mmul_madd_l, DoubleShiftQRFacts.mmul_madd_r,
    DoubleShiftQRFacts.mmul_mscal_l, DoubleShiftQRFacts.mmul_mscal_r.
  apply DoubleShiftQRFacts.madd_meq.
  - eapply meq_trans.
    { apply mmul_meq; [apply meq_refl|].
      apply mmul_meq; [apply meq_sym, HM | apply meq_refl]. }
    rewrite (mmul_assoc m Q R Q), <- (mmul_assoc m (transpose Q) Q).
    eapply meq_trans.
    { apply mmul_meq; [exact HQ | apply meq_sym, HRQ]. }
    apply mmul_identity_l.
  - apply DoubleShiftQRFacts.mscal_meq.
    eapply meq_trans.
    { apply mmul_meq; [apply meq_refl | apply mmul_identity_l]. }
    exact HQ.
Qed.

(** X27. restart, the branch for a conjugate pair of shifts mu, conj(mu):
    if fac_H is upper Hessenberg with no zero on its sub-diagonal and the
    matrix Q that HouseholderQR returns is the orthogonal factor of a QR
    factorization of H^2 - 2 Re(mu) H + |mu|^2 I, then the branch replaces
    fac_H by Q^T H Q, fac_V by V Q and em by Q^T em, keeps fac_f, and the
    new fac_H is again upper Hessenberg. *)
Theorem restart_pair_keeps_hessenberg (env : Env) (mu : Complex) (s : Solver)
  (em : Vector) :
  let m := ncv s in
  let HH := shifted_square m (fac_H s) (2 * real mu) (Cnorm mu) in
  let Q := householderQ env m HH in
  hessenberg m (fac_H s) -> unreduced (m - 1) (fac_H s) ->
  qr_factor m HH Q ->
  let s' := fst (restart_pair env mu s em) in
  fac_H s' = similarity m Q (fac_H s)
  /\ fac_V s' = mmul m (fac_V s) Q
  /\ fac_f s' = fac_f s
  /\ snd (restart_pair env mu s em) = mvmul m (transpose Q) em
  /\ hessenberg m (fac_H s').
Proof.
  intros m HH Q Hh Hu Hq s'.
  repeat split; try reflexivity.
  change (fac_H s') with (similarity m Q (fac_H s)).
  exact (similarity_hessenberg m (fac_H s) _ _ Q Hh Hu Hq).
Qed.

Ltac three_cases r :=
  let H := fresh in
  assert (H : (r = 0 \/ r = 1 \/ r = 2)%Z) by lia;
  destruct H as [->|[->| ->]].

Lemma Q_exact_orthogonal : orthogonal 3 Q_exact.
Proof.
  split; intros r c Hr Hc; three_cases r; three_cases c;
    rewrite mmul_3; unfold transpose, Q_exact, Identity; cbn [Z.eqb Pos.eqb];
    field.
Qed.

Lemma H_exact_hessenberg : hessenberg 3 H_exact.
Proof.
  intros r c Hc Hr Hrc. assert (r = 2 /\ c = 0)%Z as [-> ->] by lia.
  reflexivity.
Qed.

Lemma H_exact_unreduced : unreduced 2 H_exact.
Proof.
  intros j Hj. assert (j = 0 \/ j = 1)%Z as [-> | ->] by lia;
    cbn; lra.
Qed.

Lemma Q_exact_qr_factor :
  qr_factor 3 (shifted_square 3 H_exact (2 * 0) (Cnorm (C 0 5))) Q_exact.
Proof.
  split; [exact Q_exact_orthogonal|].
  exists (fun r c => match r, c with
                     | 0%Z, 0%Z => - 175
                     | 0%Z, 2%Z => 25
                     | _, _ => 0
                     end).
  split.
  - intros r c Hc Hrc Hr.
    assert ((r = 1 /\ c = 0) \/ (r = 2 /\ c = 0) \/ (r = 2 /\ c = 1))%Z
      as [[-> ->]|[[-> ->]|[-> ->]]] by lia; reflexivity.
  - intros r c Hr Hc. unfold shifted_square, diag_add, Cnorm, C.
    cbn [real imag].
    three_cases r; three_cases c;
      rewrite !mmul_3; unfold Q_exact, H_exact, in_range;
      cbn [Z.eqb Pos.eqb Z.leb Z.ltb Z.compare Pos.compare Pos.compare_cont andb];
      field.
Qed.

Lemma restart_pair_keeps_hessenberg_witness :
  let s' := fst (restart_pair env_exact (C 0 5) solver_exact
                   (fun r => if (r =? 2)%Z then 1 else 0)) in
  fac_H s'
  = similarity 3 Q_exact H_exact
  /\ hessenberg 3 (fac_H s') /\ fac_H s' 2%Z 1%Z = 1.
Proof.
  pose proof (restart_pair_keeps_hessenberg env_exact (C 0 5) solver_exact
                (fun r => if (r =? 2)%Z then 1 else 0)
                H_exact_hessenberg H_exact_unreduced Q_exact_qr_factor)
    as [H1 [_ [_ [_ H5]]]].
  split; [exact H1|]. split; [exact H5|].
  change (similarity 3 Q_exact H_exact 2%Z 1%Z = 1).
  unfold similarity. rewrite !mmul_3. unfold transpose, Q_exact, H_exact.
  field.
Defined.

(** X28. restart, the branch for a real shift mu: if fac_H is upper
    Hessenberg with no zero on its sub-diagonal before the last column but
    one, and UpperHessenbergQR keeps its contract on H - mu I (H - mu I = Q R
    with Q orthogonal and R upper triangular, matrix_RQ() = R Q), then the
    new fac_H = R Q + mu I is again upper Hessenberg and is Q^T H Q. *)
Theorem restart_real_keeps_hessenberg (env : Env) (mu : Complex) (s : Solver)
  (em : Vector) :
  let m := ncv s in
  let M := diag_add m (fac_H s) (- real mu) in
  hessenberg m (fac_H s) -> unreduced (m - 2) (fac_H s) ->
  hessenberg_qr_contract m M (hessenberg_qr env m M) ->
  let s' := fst (restart_real env mu s em) in
  fac_H s' = diag_add m (hb_matrix_RQ (hessenberg_qr env m M)) (real mu)
  /\ fac_f s' = fac_f s
  /\ hessenberg m (fac_H s')
  /\ exists Q, orthogonal m Q /\ meq m (fac_H s') (similarity m Q (fac_H s)).
Proof.
  intros m M Hh Hu [Q [R [HQ [HR [HM HRQ]]]]] s'.
  split; [reflexivity|]. split; [reflexivity|].
  change (fac_H s')
    with (diag_add m (hb_matrix_RQ (hessenberg_qr env m M)) (real mu)).
  split.
  - intros r c Hc Hr Hrc. rewrite diag_add_off by lia.
    rewrite (HRQ r c) by lia.
    apply (rq_hessenberg m M Q R); auto.
    + intros r' c' Hc' Hr' Hrc'. unfold M. rewrite diag_add_off by lia.
      apply Hh; lia.
    + intros j Hj. unfold M. rewrite diag_add_off by lia. apply Hu. exact Hj.
  - exists Q. split; [exact HQ|].
    exact (rq_similarity m (fac_H s) (real mu) Q R _ HQ HM HRQ).
Qed.

Lemma Q_rot_orthogonal : orthogonal 3 Q_rot.
Proof.
  split; intros r c Hr Hc; three_cases r; three_cases c;
    rewrite mmul_3; unfold transpose, Q_rot, Identity; cbn [Z.eqb Pos.eqb];
    field.
Qed.

Lemma H_rot_hessenberg : hessenberg 3 H_rot.
Proof.
  intros r c Hc Hr Hrc. assert (r = 2 /\ c = 0)%Z as [-> ->] by lia.
  reflexivity.
Qed.

Lemma H_rot_unreduced : unreduced 1 H_rot.
Proof.
  intros j Hj. assert (j = 0)%Z as -> by lia. cbn. lra.
Qed.

Lemma env_rot_contract :
  hessenberg_qr_contract 3 (diag_add 3 H_rot (- 2))
    (hessenberg_qr env_rot 3 (diag_add 3 H_rot (- 2))).
Proof.
  exists Q_rot, R_rot. split; [exact Q_rot_orthogonal|]. split.
  - intros r c Hc Hrc Hr.
    assert ((r = 1 /\ c = 0) \/ (r = 2 /\ c = 0) \/ (r = 2 /\ c = 1))%Z
      as [[-> ->]|[[-> ->]|[-> ->]]] by lia; reflexivity.
  - split; [|apply meq_refl].
    intros r c Hr Hc. unfold diag_add.
    three_cases r; three_cases c;
      rewrite !mmul_3; unfold Q_rot, R_rot, H_rot, in_range;
      cbn [Z.eqb Pos.eqb Z.leb Z.ltb Z.compare Pos.compare Pos.compare_cont
           andb];
      field.
Qed.

Lemma restart_real_keeps_hessenberg_witness :
  let s' := fst (restart_real env_rot (C 2 0) solver_rot
                   (fun r => if (r =? 2)%Z then 1 else 0)) in
  hessenberg 3 (fac_H s')
  /\ (exists Q, orthogonal 3 Q /\ meq 3 (fac_H s') (similarity 3 Q H_rot))
  /\ fac_H s' 1%Z 0%Z = 4 / 5 /\ fac_H s' 2%Z 2%Z = 2.
Proof.
  pose proof (restart_real_keeps_hessenberg env_rot (C 2 0) solver_rot
                (fun r => if (r =? 2)%Z then 1 else 0)
                H_rot_hessenberg H_rot_unreduced env_rot_contract)
    as [_ [_ [H3 H4]]].
  split; [exact H3|]. split; [exact H4|].
  split.
  - change (diag_add 3 (mmul 3 R_rot Q_rot) 2 1%Z 0%Z = 4 / 5).
    unfold diag_add. rewrite mmul_3. unfold R_rot, Q_rot.
    cbn [Z.eqb Pos.eqb andb]. field.
  - change (diag_add 3 (mmul 3 R_rot Q_rot) 2 2%Z 2%Z = 2).
    unfold diag_add. rewrite mmul_3. unfold R_rot, Q_rot, in_range.
    cbn [Z.eqb Pos.eqb Z.leb Z.ltb Z.compare Pos.compare Pos.compare_cont
         andb]. field.
Defined.
